(** * graphRAGmcp: graph index, weighted traversal, caches and keyword search

    A shallow embedding of the in-memory core of the repository:
    - the three TTL caches ([EmbeddingCache] of
      nano_graphrag/_storage/vdb_nanovectordb.py,
      [LLMResponseCacheSingleton] of nano_graphrag/graphrag.py and
      [GraphRAGCache] of server.py),
    - [GraphIndex] of graph_index.py (loading, lookups, [expand_weighted]),
    - [CommunityCache] of server.py (keyword index and [search]),
    - the retrieval helpers of server.py built on them
      ([expand_via_index], [search_entities_globally],
      [select_communities_by_keywords],
      [extract_entities_from_communities], [load_chunks_parallel]).

    Conventions of the embedding.
    - Python [float] values (timestamps, traversal weights) are rationals
      [Q], with sums taken exactly; Python [int] values are [Z].  A number
      read from a JSON file also has the values NaN and the two
      infinities.
    - A Python [dict] whose iteration order is observable is an
      insertion-ordered association list ([odict]); dictionaries that are
      only looked up are stdpp [gmap]s.  A Python set that is only tested
      for membership is a [gset]; a set that is enumerated is a list
      without repetition, enumerated in the order that the runtime gives
      ([set_order]).
    - [time.time()] is an explicit argument [now] of every operation that
      reads the clock.
    - An exception that escapes a method is the [Raise] outcome of
      [result]; a loop that an exception leaves returns the state it had
      reached.
    - A method of an object that requests share is also given as a call:
      a function from the state of the object to a value and a state.
    - A Python [str] is a string of code points below 256; [strip],
      [upper], [lower] and the word pattern of the keyword index are those
      of Python on these characters.
    - Input files are what their parser returns: a GraphML document as its
      key, node and edge elements, a chunk store as an association list of
      records, a community report file as the JSON value that [json.load]
      returns; a file that is absent or that its parser rejects is
      [Missing] or [Malformed]. *)

From Stdlib Require Import QArith ZArith Lia Lqa List String Ascii Bool.
From Stdlib Require Import Sorting.Sorted Sorting.Permutation.
From stdpp Require Import gmap strings list pretty.
Import ListNotations.

Open Scope string_scope.
Open Scope Z_scope.
Open Scope list_scope.

(** ** Outcomes of Python calls *)

Inductive exn : Type :=
| KeyError
| ValueError
| StopIteration.

Inductive result (A : Type) : Type :=
| Ok (a : A)
| Raise (e : exn).

Arguments Ok {A} a.
Arguments Raise {A} e.

Definition bind {A B : Type} (r : result A) (k : A -> result B) : result B :=
  match r with
  | Ok a => k a
  | Raise e => Raise e
  end.

Notation "'do' x '<-' r ';' k" := (bind r (fun x => k))
  (at level 10, x name, r at level 100, k at level 200).

(** ** Comparisons on rationals as booleans *)

Definition Qltb (a b : Q) : bool := negb (Qle_bool b a).

(** ** Insertion-ordered dictionaries

    Python dictionaries iterate in insertion order; assigning to an
    existing key keeps its position, assigning to a new key appends. *)

Module PyDict.
Section OrderedDict.
Context {K V : Type} `{EqDecision K}.

Definition odict : Type := list (K * V).

Fixpoint od_get (k : K) (d : odict) : option V :=
  match d with
  | [] => None
  | (k', v) :: d' => if decide (k = k') then Some v else od_get k d'
  end.

(** [k in d] *)
Definition od_mem (k : K) (d : odict) : bool :=
  match od_get k d with Some _ => true | None => false end.

(** [d[k] = v] *)
Fixpoint od_set (k : K) (v : V) (d : odict) : odict :=
  match d with
  | [] => [(k, v)]
  | (k', v') :: d' =>
      if decide (k = k') then (k, v) :: d' else (k', v') :: od_set k v d'
  end.

(** the dictionary left by [del d[k]] when [k] is present *)
Fixpoint od_del (k : K) (d : odict) : odict :=
  match d with
  | [] => []
  | (k', v') :: d' =>
      if decide (k = k') then d' else (k', v') :: od_del k d'
  end.

(** [del d[k]]: raises [KeyError] on a missing key *)
Definition py_del (k : K) (d : odict) : result odict :=
  if od_mem k d then Ok (od_del k d) else Raise KeyError.

Definition od_keys (d : odict) : list K := d.*1.

(** [OrderedDict.move_to_end(k)] for a present key *)
Definition od_move_to_end (k : K) (d : odict) : odict :=
  match od_get k d with
  | Some v => od_del k d ++ [(k, v)]
  | None => d
  end.

End OrderedDict.
Arguments odict : clear implicits.
End PyDict.
Import PyDict.

(** ** [min(iterable, key=f)] and [sorted(iterable, key=f)]

    [min] keeps the first element whose key is least (it replaces the
    current best only by a strictly smaller one) and raises [ValueError] on
    an empty iterable; [sorted] is stable. *)

Section MinSorted.
Context {A : Type}.
Variable f : A -> Q.

Fixpoint min_from (best : A) (rest : list A) : A :=
  match rest with
  | [] => best
  | x :: rest' => min_from (if Qltb (f x) (f best) then x else best) rest'
  end.

Definition py_min (l : list A) : result A :=
  match l with
  | [] => Raise ValueError
  | x :: rest => Ok (min_from x rest)
  end.

Fixpoint insert_sorted (x : A) (l : list A) : list A :=
  match l with
  | [] => [x]
  | y :: l' =>
      if Qle_bool (f x) (f y) then x :: l else y :: insert_sorted x l'
  end.

Definition py_sorted (l : list A) : list A := foldr insert_sorted [] l.

Definition key_le (x y : A) : Prop := (f x <= f y)%Q.

(** [sorted(l, key=f, reverse=True)] and [l.sort(key=f, reverse=True)]:
    descending, and still stable *)
Fixpoint insert_sorted_desc (x : A) (l : list A) : list A :=
  match l with
  | [] => [x]
  | y :: l' =>
      if Qle_bool (f y) (f x) then x :: l else y :: insert_sorted_desc x l'
  end.

Definition py_sorted_desc (l : list A) : list A := foldr insert_sorted_desc [] l.

End MinSorted.

(** ** EmbeddingCache (nano_graphrag/_storage/vdb_nanovectordb.py)

    [_cache] maps the hash of a text to [(embedding, timestamp)].
    [_hash_text] (a truncated SHA-256 digest) is a parameter. *)

Module EmbeddingCache.
Section WithHash.
Context {V : Type}.
Variable _hash_text : string -> string.

Record t : Type := mk {
  _cache : odict string (V * Q);
  _ttl_seconds : Z;
  _max_entries : Z;
  _hits : Z;
  _misses : Z
}.

Definition __init__ (ttl_seconds max_entries : Z) : t :=
  {| _cache := []; _ttl_seconds := ttl_seconds; _max_entries := max_entries;
     _hits := 0; _misses := 0 |}.

Definition timestamp_of (e : string * (V * Q)) : Q := snd (snd e).

Definition get (self : t) (text : string) (now : Q) : option V * t :=
  let key := _hash_text text in
  match od_get key (_cache self) with
  | None =>
      (None, mk (_cache self) (_ttl_seconds self) (_max_entries self)
                (_hits self) (_misses self + 1))
  | Some (embedding, timestamp) =>
      if Qltb (inject_Z (_ttl_seconds self)) (now - timestamp) then
        (None, mk (od_del key (_cache self)) (_ttl_seconds self)
                  (_max_entries self) (_hits self) (_misses self + 1))
      else
        (Some embedding, mk (_cache self) (_ttl_seconds self)
                            (_max_entries self) (_hits self + 1) (_misses self))
  end.

Definition put (self : t) (text : string) (embedding : V) (now : Q) : result t :=
  do cache <-
    (if Z.of_nat (length (_cache self)) >=? _max_entries self then
       do oldest <- py_min timestamp_of (_cache self);
       py_del (fst oldest) (_cache self)
     else Ok (_cache self));
  let key := _hash_text text in
  Ok (mk (od_set key (embedding, now) cache) (_ttl_seconds self)
         (_max_entries self) (_hits self) (_misses self)).

(** Keys of a dictionary are distinct. *)
Definition wf (self : t) : Prop := NoDup (od_keys (_cache self)).

End WithHash.
Arguments t : clear implicits.
End EmbeddingCache.

(** ** LLMResponseCacheSingleton (nano_graphrag/graphrag.py)

    Values and timestamps live in two dictionaries that are always written
    and deleted together; [_ttl_seconds] and [_max_entries] are the class
    attributes 3600 and 1000. *)

Module LLMResponseCacheSingleton.
Section WithValue.
Context {V : Type}.

Record t : Type := mk {
  _cache : odict string V;
  _timestamps : odict string Q;
  _ttl_seconds : Z;
  _max_entries : Z;
  _hits : Z;
  _misses : Z
}.

Definition __new__ : t :=
  {| _cache := []; _timestamps := []; _ttl_seconds := 3600;
     _max_entries := 1000; _hits := 0; _misses := 0 |}.

Definition get (self : t) (key : string) (now : Q) : result (option V * t) :=
  match od_get key (_cache self) with
  | None =>
      Ok (None, mk (_cache self) (_timestamps self) (_ttl_seconds self)
                   (_max_entries self) (_hits self) (_misses self + 1))
  | Some value =>
      if Qltb (inject_Z (_ttl_seconds self))
              (now - default 0%Q (od_get key (_timestamps self))) then
        do cache <- py_del key (_cache self);
        do timestamps <- py_del key (_timestamps self);
        Ok (None, mk cache timestamps (_ttl_seconds self)
                     (_max_entries self) (_hits self) (_misses self + 1))
      else
        Ok (Some value, mk (_cache self) (_timestamps self) (_ttl_seconds self)
                           (_max_entries self) (_hits self + 1) (_misses self))
  end.

(** the loop [for k in sorted_keys[:n]: del _cache[k]; del _timestamps[k]] *)
Fixpoint evict (ks : list string) (cache : odict string V)
    (timestamps : odict string Q) : result (odict string V * odict string Q) :=
  match ks with
  | [] => Ok (cache, timestamps)
  | k :: ks' =>
      do cache' <- py_del k cache;
      do timestamps' <- py_del k timestamps;
      evict ks' cache' timestamps'
  end.

Definition sorted_keys (timestamps : odict string Q) : list string :=
  py_sorted (fun k => default 0%Q (od_get k timestamps)) (od_keys timestamps).

Definition set (self : t) (key : string) (value : V) (now : Q) : result t :=
  do p <-
    (if Z.of_nat (length (_cache self)) >=? _max_entries self then
       let sorted_keys := sorted_keys (_timestamps self) in
       evict (firstn (length sorted_keys / 10)%nat sorted_keys)
             (_cache self) (_timestamps self)
     else Ok (_cache self, _timestamps self));
  Ok (mk (od_set key value (fst p)) (od_set key now (snd p))
         (_ttl_seconds self) (_max_entries self) (_hits self) (_misses self)).

(** The two dictionaries hold the same keys, in the same order. *)
Definition wf (self : t) : Prop :=
  od_keys (_cache self) = od_keys (_timestamps self) /\
  NoDup (od_keys (_cache self)).
End WithValue.
Arguments t : clear implicits.
End LLMResponseCacheSingleton.

(** ** GraphRAGCache (server.py)

    An [OrderedDict] from working directory to [(instance, timestamp)];
    a hit moves the entry to the end, [put] evicts from the front. *)

Module GraphRAGCache.
Section WithInstance.
Context {V : Type}.

Record t : Type := mk {
  _cache : odict string (V * Q);
  maxsize : Z;
  ttl_seconds : Z;
  _hits : Z;
  _misses : Z
}.

Definition __init__ (maxsize ttl_seconds : Z) : t :=
  {| _cache := []; maxsize := maxsize; ttl_seconds := ttl_seconds;
     _hits := 0; _misses := 0 |}.

Definition get (self : t) (working_dir : string) (now : Q) : option V * t :=
  match od_get working_dir (_cache self) with
  | None =>
      (None, mk (_cache self) (maxsize self) (ttl_seconds self)
                (_hits self) (_misses self + 1))
  | Some (instance, timestamp) =>
      if Qltb (inject_Z (ttl_seconds self)) (now - timestamp) then
        (None, mk (od_del working_dir (_cache self)) (maxsize self)
                  (ttl_seconds self) (_hits self) (_misses self + 1))
      else
        (Some instance,
         mk (od_move_to_end working_dir (_cache self)) (maxsize self)
            (ttl_seconds self) (_hits self + 1) (_misses self))
  end.

(** [while len(_cache) >= maxsize: del _cache[next(iter(_cache))]];
    deleting the first key leaves the tail, and [next] on an empty
    iterator raises [StopIteration]. *)
Fixpoint evict_while (maxsize : Z) (cache : odict string (V * Q))
    : result (odict string (V * Q)) :=
  if Z.of_nat (length cache) >=? maxsize then
    match cache with
    | [] => Raise StopIteration
    | _ :: cache' => evict_while maxsize cache'
    end
  else Ok cache.

Definition put (self : t) (working_dir : string) (instance : V) (now : Q)
    : result t :=
  do cache <- evict_while (maxsize self) (_cache self);
  Ok (mk (od_set working_dir (instance, now) cache) (maxsize self)
         (ttl_seconds self) (_hits self) (_misses self)).

Definition wf (self : t) : Prop := NoDup (od_keys (_cache self)).
End WithInstance.
Arguments t : clear implicits.
End GraphRAGCache.

(** ** Observations used to state the cache properties *)

(** [foldl] of [del d[k]] over a list of present keys *)
Definition od_del_all {K V : Type} `{EqDecision K}
    (ks : list K) (d : odict K V) : odict K V :=
  foldl (fun d k => od_del k d) d ks.

(** the keys of [before] that are no longer keys of [after] *)
Definition evicted_keys {K V W : Type} `{EqDecision K}
    (before : odict K V) (after : odict K W) : list K :=
  filter (fun k => od_mem k after = false) (od_keys before).

(** a generated key, for building large caches *)
Definition key_of (n : nat) : string := "k" +:+ pretty n.

(** a cache filled by [n] consecutive calls of [set], one per clock tick
    (none of these calls raises: [llm_filled_wf]) *)
Fixpoint llm_filled (n : nat) : LLMResponseCacheSingleton.t nat :=
  match n with
  | O => LLMResponseCacheSingleton.__new__
  | S n' =>
      match LLMResponseCacheSingleton.set (llm_filled n') (key_of n') 0%nat
              (inject_Z (Z.of_nat n')) with
      | Ok c => c
      | Raise _ => llm_filled n'
      end
  end.

(** the cache after 1000 calls of [set]: the default capacity is reached *)
Definition llm_full : LLMResponseCacheSingleton.t nat := llm_filled 1000.

(** "[set] evicts exactly one entry, the one with the smallest stored
    timestamp": the reading of the eviction rule that
    [LLMResponseCacheSingleton.set] is compared with *)
Definition llm_set_evicts_single_oldest {V : Type}
    (self : LLMResponseCacheSingleton.t V) (key : string) (value : V) (now : Q)
    : Prop :=
  exists self' oldest,
    LLMResponseCacheSingleton.set self key value now = Ok self' /\
    evicted_keys (LLMResponseCacheSingleton._cache self)
                 (LLMResponseCacheSingleton._cache self') = [oldest] /\
    forall k ts,
      od_get k (LLMResponseCacheSingleton._timestamps self) = Some ts ->
      (default 0 (od_get oldest (LLMResponseCacheSingleton._timestamps self)) <= ts)%Q.

(** small caches used as concrete instances *)
Definition embedding_two : EmbeddingCache.t nat :=
  EmbeddingCache.mk [("a", (1%nat, 5%Q)); ("b", (2%nat, 3%Q))] 10 2 0 0.

Definition llm_two : LLMResponseCacheSingleton.t nat :=
  LLMResponseCacheSingleton.mk [("a", 1%nat); ("b", 2%nat)]
    [("a", 5%Q); ("b", 3%Q)] 10 2 0 0.

Definition graphrag_two : GraphRAGCache.t nat :=
  GraphRAGCache.mk [("a", (1%nat, 5%Q)); ("b", (2%nat, 3%Q))] 2 10 0 0.

(** "[get] on a key whose entry's TTL has elapsed since insertion is a
    miss", the TTL having elapsed once [now - timestamp] has reached it: the
    reading of expiry that [get] is compared with *)
Definition embedding_expired_get_is_miss {V : Type} (_hash_text : string -> string)
    (self : EmbeddingCache.t V) (text : string) (now : Q) : Prop :=
  forall embedding timestamp,
    od_get (_hash_text text) (EmbeddingCache._cache self) = Some (embedding, timestamp) ->
    (inject_Z (EmbeddingCache._ttl_seconds self) <= now - timestamp)%Q ->
    fst (EmbeddingCache.get _hash_text self text now) = None.

Definition llm_expired_get_is_miss {V : Type}
    (self : LLMResponseCacheSingleton.t V) (key : string) (now : Q) : Prop :=
  forall timestamp,
    od_get key (LLMResponseCacheSingleton._timestamps self) = Some timestamp ->
    (inject_Z (LLMResponseCacheSingleton._ttl_seconds self) <= now - timestamp)%Q ->
    exists self', LLMResponseCacheSingleton.get self key now = Ok (None, self').

(** * GraphIndex (graph_index.py) *)

(** ** Strings as Python uses them in the loader

    A Python [str] is a string of code points below 256 (Latin-1, which
    holds the accented letters of French): [len], slices, [in] and
    comparisons are those of the string of characters. *)

(** [s.strip(chars)]: drop leading and trailing characters satisfying [p] *)
Fixpoint lstrip_by (p : ascii -> bool) (s : string) : string :=
  match s with
  | EmptyString => EmptyString
  | String c s' => if p c then lstrip_by p s' else s
  end.

Fixpoint rstrip_by (p : ascii -> bool) (s : string) : string :=
  match s with
  | EmptyString => EmptyString
  | String c s' =>
      match rstrip_by p s' with
      | EmptyString => if p c then EmptyString else String c EmptyString
      | r => String c r
      end
  end.

Definition strip_by (p : ascii -> bool) (s : string) : string :=
  rstrip_by p (lstrip_by p s).

(** whitespace in the sense of [str.isspace], for code points below 256 *)
Definition is_space (c : ascii) : bool :=
  let n := nat_of_ascii c in
  ((9 <=? n) && (n <=? 13) || (28 <=? n) && (n <=? 32) ||
   (n =? 133) || (n =? 160))%nat.

Definition is_quote (c : ascii) : bool := (nat_of_ascii c =? 34)%nat.

(** [s.strip()] and [s.strip(chars)] with the double quote as [chars] *)
Definition py_strip (s : string) : string := strip_by is_space s.
Definition strip_quotes (s : string) : string := strip_by is_quote s.

(** [s[:n]] *)
Fixpoint str_take (n : nat) (s : string) : string :=
  match n, s with
  | S n', String c s' => String c (str_take n' s')
  | _, _ => EmptyString
  end.

(** [s.upper()], for code points below 256: the letters a-z and the
    accented letters 224-254 (but the division sign 247) move down by 32,
    and the sharp s (223) becomes SS.  The micro sign (181) and y with
    diaeresis (255) have capitals beyond 255 that no other character below
    256 shares; they are kept, so that two names have the same upper case
    here exactly when they have the same upper case in Python. *)
Definition upper_char (c : ascii) : string :=
  let n := nat_of_ascii c in
  if ((97 <=? n) && (n <=? 122) ||
      (224 <=? n) && (n <=? 254) && negb (n =? 247))%nat
  then String (ascii_of_nat (n - 32)) EmptyString
  else if (n =? 223)%nat then "SS"
  else String c EmptyString.

Fixpoint str_upper (s : string) : string :=
  match s with
  | EmptyString => EmptyString
  | String c s' => upper_char c +:+ str_upper s'
  end.

(** [a or b] on strings: the empty string is falsy *)
Definition str_or (a b : string) : string :=
  match a with EmptyString => b | _ => a end.

Definition str_nonempty (a : string) : bool :=
  match a with EmptyString => false | _ => true end.

(** [s.split(sep)] for a non-empty separator: [skip] counts the characters
    of a matched separator still to be dropped, [cur] is the piece being
    read *)
Fixpoint split_aux (sep : string) (skip : nat) (cur : string) (s : string)
    : list string :=
  match s with
  | EmptyString => [cur]
  | String c s' =>
      match skip with
      | S k => split_aux sep k cur s'
      | O =>
          if String.prefix sep s
          then cur :: split_aux sep (String.length sep - 1) EmptyString s'
          else split_aux sep O (cur +:+ String c EmptyString) s'
      end
  end.

Definition py_split (sep s : string) : list string := split_aux sep O EmptyString s.

(** ** Weight tables *)

Definition RELATIONSHIP_WEIGHTS : odict string Q :=
  [ ("CONCERNE", 1%Q);
    ("HAS_SOURCE", 9 # 10);
    ("SOURCED_BY", 9 # 10);
    ("CONTRIBUE_A", 8 # 10);
    ("EXPRIME", 7 # 10);
    ("PROPOSE", 6 # 10);
    ("FAIT_PARTIE_DE", 5 # 10);
    ("APPARTIENT_A", 3 # 10);
    ("RELATED_TO", 1 # 10) ].

Definition ENTITY_TYPE_PRIORITY : odict string Z :=
  [ ("COMMUNE", 10);
    ("CONCEPT", 8);
    ("THEME", 7);
    ("CHUNK", 6);
    ("ACTOR", 5);
    ("ORGANIZATION", 5);
    ("PERSON", 3);
    ("LOCATION", 2);
    ("UNKNOWN", 1) ].

(** [d.get(k, default)] *)
Definition od_get_default {K V : Type} `{EqDecision K}
    (k : K) (dflt : V) (d : odict K V) : V :=
  default dflt (od_get k d).

(** ** Records *)

Module EntityMetadata.
Record t : Type := mk {
  name : string;
  entity_type : string;
  description : string;
  commune : string;
  node_id : string
}.
End EntityMetadata.

Module ChunkMetadata.
Record t : Type := mk {
  chunk_id : string;
  content : string;
  tokens : Z;
  chunk_order_index : Z;
  full_doc_id : string;
  commune : string;
  contribution_number : option Z;
  contribution_type : option string;
  demographic : option string
}.
End ChunkMetadata.

Module EdgeInfo.
Record t : Type := mk {
  target : string;
  rel_type : string;
  weight : Q
}.
End EdgeInfo.

(** ** Input files

    A GraphML file as xml.etree presents it: the key elements with their
    id and attr.name attributes, the node and edge elements with their
    attributes (read with a default of the empty string, so a missing
    attribute is the empty string) and their data children (the key
    attribute and the text, which may be absent). *)

Record xml_data : Type := {
  data_key : string;
  data_text : option string
}.

Record xml_node : Type := {
  node_id_attr : string;
  node_data : list xml_data
}.

Record xml_edge : Type := {
  edge_source_attr : string;
  edge_target_attr : string;
  edge_data : list xml_data
}.

Record graphml : Type := {
  graphml_keys : list (string * string);
  graphml_nodes : list xml_node;
  graphml_edges : list xml_edge
}.

(** One entry of kv_store_text_chunks.json; an absent key is [None]. *)
Record chunk_info : Type := {
  ci_content : option string;
  ci_tokens : option Z;
  ci_chunk_order_index : option Z;
  ci_full_doc_id : option string;
  ci_contribution_number : option Z;
  ci_contribution_type : option string;
  ci_demographic : option string
}.

(** A file on disk: absent, unreadable by its parser, or parsed. *)
Inductive file (A : Type) : Type :=
| Missing
| Malformed
| Parsed (a : A).

Arguments Missing {A}.
Arguments Malformed {A}.
Arguments Parsed {A} a.

(** The directory of one commune under [data_path]. *)
Record commune_dir : Type := {
  graphml_file : file graphml;
  chunks_file : file (odict string chunk_info)
}.

Module GraphIndex.

Record t : Type := mk {
  data_path : gmap string commune_dir;
  _adjacency : gmap string (list EdgeInfo.t);
  _entities : gmap string EntityMetadata.t;
  _name_index : gmap string string;
  _chunks : gmap string ChunkMetadata.t;
  _entity_source_ids : odict string (list string);
  _loaded_communes : gset string;
  _total_nodes : Z;
  _total_edges : Z;
  _total_chunks : Z
}.

Definition __init__ (data_path : gmap string commune_dir) : t :=
  {| data_path := data_path;
     _adjacency := ∅; _entities := ∅; _name_index := ∅; _chunks := ∅;
     _entity_source_ids := []; _loaded_communes := ∅;
     _total_nodes := 0; _total_edges := 0; _total_chunks := 0 |}.

(** [self._adjacency[k].append(e)] on a [defaultdict(list)] *)
Definition adj_append (k : string) (e : EdgeInfo.t)
    (adj : gmap string (list EdgeInfo.t)) : gmap string (list EdgeInfo.t) :=
  <[k := default [] (adj !! k) ++ [e]]> adj.

(** *** Lookups *)

Definition get_neighbors (self : t) (entity_id : string) : list EdgeInfo.t :=
  default [] (_adjacency self !! entity_id).

Definition get_entity (self : t) (entity_id : string) : option EntityMetadata.t :=
  _entities self !! entity_id.

Definition has_entity (self : t) (entity_id : string) : bool :=
  bool_decide (is_Some (_entities self !! entity_id)) ||
  bool_decide (is_Some (_adjacency self !! entity_id)).

Definition get_entity_by_name (self : t) (name : string)
    : option EntityMetadata.t :=
  let normalized := py_strip (str_upper name) in
  match _name_index self !! normalized with
  | Some entity_id =>
      if str_nonempty entity_id then _entities self !! entity_id else None
  | None => None
  end.

Definition get_chunk (self : t) (chunk_id : string) : option ChunkMetadata.t :=
  _chunks self !! chunk_id.

Definition get_chunks_for_entity (self : t) (entity_id : string)
    : list ChunkMetadata.t :=
  omap (fun chunk_id => _chunks self !! chunk_id)
       (od_get_default entity_id [] (_entity_source_ids self)).

Definition get_entities_for_chunk (self : t) (chunk_id : string)
    : list EntityMetadata.t :=
  omap (fun edge : EdgeInfo.t =>
          if String.eqb (EdgeInfo.rel_type edge) "SOURCED_BY" then
            match _entities self !! EdgeInfo.target edge with
            | Some entity =>
                if String.eqb (EntityMetadata.entity_type entity) "CHUNK"
                then None else Some entity
            | None => None
            end
          else None)
       (get_neighbors self chunk_id).

(** *** Loading one commune *)

(** [key_map[k.get('id', '')] = k.get('attr.name', '')] for every key element *)
Definition build_key_map (keys : list (string * string)) : gmap string string :=
  foldl (fun m k => <[fst k := snd k]> m) ∅ keys.

(** the local function [get_data(elem, name)] *)
Fixpoint get_data (key_map : gmap string string) (data : list xml_data)
    (name : string) : string :=
  match data with
  | [] => EmptyString
  | d :: data' =>
      if bool_decide (key_map !! data_key d = Some name)
      then strip_quotes (py_strip (default EmptyString (data_text d)))
      else get_data key_map data' name
  end.

(** one iteration of the loop over the node elements; the state is the
    index and [node_count] *)
Definition load_node (commune_id : string) (key_map : gmap string string)
    (st : t * Z) (node : xml_node) : t * Z :=
  let (self, node_count) := st in
  let node_id := strip_quotes (node_id_attr node) in
  if negb (str_nonempty node_id) then st
  else
    let entity_name := str_or (get_data key_map (node_data node) "entity_name") node_id in
    let entity_type := str_or (get_data key_map (node_data node) "entity_type") "UNKNOWN" in
    let description := str_take 300 (get_data key_map (node_data node) "description") in
    let entities :=
      <[node_id := EntityMetadata.mk entity_name entity_type description
                     commune_id node_id]> (_entities self) in
    let normalized := py_strip (str_upper entity_name) in
    let name_index := <[normalized := node_id]> (_name_index self) in
    let source_id_raw := get_data key_map (node_data node) "source_id" in
    let chunk_ids :=
      filter (fun s => str_nonempty s = true)
             (map py_strip (py_split "<SEP>" source_id_raw)) in
    let entity_source_ids :=
      if str_nonempty source_id_raw then
        match chunk_ids with
        | [] => _entity_source_ids self
        | _ => od_set node_id chunk_ids (_entity_source_ids self)
        end
      else _entity_source_ids self in
    (mk (data_path self) (_adjacency self) entities name_index (_chunks self)
        entity_source_ids (_loaded_communes self)
        (_total_nodes self) (_total_edges self) (_total_chunks self),
     node_count + 1).

(** one iteration of the loop over the edge elements; the state is the
    adjacency map and [edge_count] *)
Definition load_edge (key_map : gmap string string)
    (st : gmap string (list EdgeInfo.t) * Z) (edge : xml_edge)
    : gmap string (list EdgeInfo.t) * Z :=
  let (adjacency, edge_count) := st in
  let src := strip_quotes (edge_source_attr edge) in
  let tgt := strip_quotes (edge_target_attr edge) in
  if negb (str_nonempty src) || negb (str_nonempty tgt) then st
  else
    let rel_type :=
      str_or (get_data key_map (edge_data edge) "type")
        (str_or (get_data key_map (edge_data edge) "relationship_type")
           (str_or (get_data key_map (edge_data edge) "label") "RELATED_TO")) in
    let weight := od_get_default rel_type (1 # 10) RELATIONSHIP_WEIGHTS in
    let adjacency := adj_append src (EdgeInfo.mk tgt rel_type weight) adjacency in
    let adjacency := adj_append tgt (EdgeInfo.mk src rel_type weight) adjacency in
    (adjacency, edge_count + 1).

(** one iteration of [for chunk_id, chunk_info in chunks_data.items()] *)
Definition load_chunk (commune_id : string) (st : t * Z)
    (item : string * chunk_info) : t * Z :=
  let (self, chunk_count) := st in
  let (chunk_id, info) := item in
  let content := default EmptyString (ci_content info) in
  let order_index := default 0 (ci_chunk_order_index info) in
  let chunks :=
    <[chunk_id := ChunkMetadata.mk chunk_id content
                    (default 0 (ci_tokens info)) order_index
                    (default EmptyString (ci_full_doc_id info)) commune_id
                    (ci_contribution_number info) (ci_contribution_type info)
                    (ci_demographic info)]> (_chunks self) in
  let entities :=
    <[chunk_id := EntityMetadata.mk ("CONTRIBUTION_" +:+ pretty order_index)
                    "CHUNK" (str_take 200 content) commune_id chunk_id]>
      (_entities self) in
  (mk (data_path self) (_adjacency self) entities (_name_index self) chunks
      (_entity_source_ids self) (_loaded_communes self)
      (_total_nodes self) (_total_edges self) (_total_chunks self),
   chunk_count + 1).

(** the body of [for chunk_id in chunk_ids] for one entity *)
Definition link_chunk (self : t) (entity_id : string)
    (adjacency : gmap string (list EdgeInfo.t)) (chunk_id : string)
    : gmap string (list EdgeInfo.t) :=
  if bool_decide (is_Some (_chunks self !! chunk_id)) then
    let has_source_weight := od_get_default "HAS_SOURCE" (9 # 10) RELATIONSHIP_WEIGHTS in
    let adjacency :=
      adj_append entity_id (EdgeInfo.mk chunk_id "HAS_SOURCE" has_source_weight)
        adjacency in
    adj_append chunk_id (EdgeInfo.mk entity_id "SOURCED_BY" has_source_weight)
      adjacency
  else adjacency.

(** one iteration of [for entity_id, chunk_ids in _entity_source_ids.items()] *)
Definition link_entity (self : t) (commune_id : string)
    (adjacency : gmap string (list EdgeInfo.t))
    (item : string * list string) : gmap string (list EdgeInfo.t) :=
  let (entity_id, chunk_ids) := item in
  match _entities self !! entity_id with
  | Some entity =>
      if String.eqb (EntityMetadata.commune entity) commune_id
      then foldl (link_chunk self entity_id) adjacency chunk_ids
      else adjacency
  | None => adjacency
  end.

Definition _load_commune_chunks (self : t) (commune_id : string) : t * Z :=
  match data_path self !! commune_id with
  | Some dir =>
      match chunks_file dir with
      | Parsed chunks_data =>
          let (self1, chunk_count) :=
            foldl (load_chunk commune_id) (self, 0) chunks_data in
          let adjacency :=
            foldl (link_entity self1 commune_id) (_adjacency self1)
                  (_entity_source_ids self1) in
          (mk (data_path self1) adjacency (_entities self1) (_name_index self1)
              (_chunks self1) (_entity_source_ids self1) (_loaded_communes self1)
              (_total_nodes self1) (_total_edges self1) (_total_chunks self1),
           chunk_count)
      | _ => (self, 0)
      end
  | None => (self, 0)
  end.

Definition _load_commune (self : t) (commune_id : string) : t :=
  match data_path self !! commune_id with
  | Some dir =>
      match graphml_file dir with
      | Parsed root =>
          let key_map := build_key_map (graphml_keys root) in
          let (self1, node_count) :=
            foldl (load_node commune_id key_map) (self, 0) (graphml_nodes root) in
          let (adjacency, edge_count) :=
            foldl (load_edge key_map) (_adjacency self1, 0) (graphml_edges root) in
          let self2 :=
            mk (data_path self1) adjacency (_entities self1) (_name_index self1)
               (_chunks self1) (_entity_source_ids self1)
               ({[commune_id]} ∪ _loaded_communes self1)
               (_total_nodes self1 + node_count) (_total_edges self1 + edge_count)
               (_total_chunks self1) in
          let (self3, chunk_count) := _load_commune_chunks self2 commune_id in
          mk (data_path self3) (_adjacency self3) (_entities self3)
             (_name_index self3) (_chunks self3) (_entity_source_ids self3)
             (_loaded_communes self3) (_total_nodes self3) (_total_edges self3)
             (_total_chunks self3 + chunk_count)
      | _ => self
      end
  | None => self
  end.

(** [sorted(names)] on strings: stable insertion by code-point order *)
Fixpoint insert_string (x : string) (l : list string) : list string :=
  match l with
  | [] => [x]
  | y :: l' => if String.leb x y then x :: l else y :: insert_string x l'
  end.

Definition sorted_strings (l : list string) : list string :=
  foldr insert_string [] l.

(** the directories of [data_path] that are not hidden and hold a GraphML
    file, sorted by name *)
Definition _discover_communes (self : t) : list string :=
  sorted_strings
    (omap (fun item : string * commune_dir =>
             let (name, dir) := item in
             if negb (String.prefix "." name) &&
                match graphml_file dir with Missing => false | _ => true end
             then Some name else None)
          (map_to_list (data_path self))).

(** [initialize(commune_ids=None)] *)
Definition initialize (self : t) (commune_ids : option (list string)) : t :=
  let commune_ids :=
    match commune_ids with
    | None => _discover_communes self
    | Some ids => ids
    end in
  foldl _load_commune self commune_ids.

(** [stats['total_nodes']] and [stats['total_edges']] *)
Definition stats_total_nodes (self : t) : Z := _total_nodes self.
Definition stats_total_edges (self : t) : Z := _total_edges self.

(** *** Weighted expansion

    Weights are rationals and their sums are exact, where the code adds
    floats and rounds each sum.  What is stated about the traversal below
    orders weights, bounds them, or follows the heap and the dictionaries;
    no statement gives the value of a sum. *)

(** the dictionary [{'source', 'rel_type', 'weight'}] carried by a heap entry *)
Record came_from_t : Type := {
  cf_source : string;
  cf_rel_type : string;
  cf_weight : Q
}.

(** a heap entry [(neg_weight, depth, counter, entity_id, came_from)] *)
Record heap_entry : Type := {
  he_neg_weight : Q;
  he_depth : Z;
  he_counter : nat;
  he_entity_id : string;
  he_came_from : option came_from_t
}.

(** a recorded path [{'source', 'target', 'type', 'hop', 'weight'}] *)
Record path_t : Type := {
  path_source : string;
  path_target : string;
  path_type : string;
  path_hop : Z;
  path_weight : Q
}.

(** a returned entity
    [{'id', 'name', 'type', 'description', 'commune', 'traversal_weight'}] *)
Record entity_t : Type := {
  ent_id : string;
  ent_name : string;
  ent_type : string;
  ent_description : string;
  ent_commune : string;
  ent_traversal_weight : Q
}.

(** Python compares the tuples lexicographically; the counter is unique, so
    the comparison never reaches [entity_id] or the dictionary. *)
Definition entry_ltb (a b : heap_entry) : bool :=
  Qltb (he_neg_weight a) (he_neg_weight b) ||
  Qeq_bool (he_neg_weight a) (he_neg_weight b) &&
    ((he_depth a <? he_depth b)%Z ||
     (he_depth a =? he_depth b)%Z && (he_counter a <? he_counter b)%nat).

(** [heapq] as a bag with extract-min: [heappush] adds an entry,
    [heappop] removes the least entry (of [e :: rest]) and returns it with
    the remaining entries. *)
Definition heappush (heap : list heap_entry) (e : heap_entry) : list heap_entry :=
  e :: heap.

Fixpoint pop_min (e : heap_entry) (rest : list heap_entry)
    : heap_entry * list heap_entry :=
  match rest with
  | [] => (e, [])
  | x :: rest' =>
      let (m, r) := pop_min x rest' in
      if entry_ltb m e then (m, e :: r) else (e, rest)
  end.

Definition heappop (heap : list heap_entry)
    : option (heap_entry * list heap_entry) :=
  match heap with
  | [] => None
  | e :: rest => Some (pop_min e rest)
  end.

(** the local state of [expand_weighted] *)
Record state : Type := {
  heap : list heap_entry;
  visited : odict string Q;
  paths : list path_t;
  counter : nat
}.

(** the loop over the seeds *)
Definition push_seed (self : t) (st : list heap_entry * nat) (seed : string)
    : list heap_entry * nat :=
  let (heap, counter) := st in
  if has_entity self seed
  then (heappush heap
          {| he_neg_weight := 0; he_depth := 0; he_counter := counter;
             he_entity_id := seed; he_came_from := None |},
        S counter)
  else st.

Definition init_state (self : t) (seed_entities : list string) : state :=
  let (heap, counter) := foldl (push_seed self) ([], O) seed_entities in
  {| heap := heap; visited := []; paths := []; counter := counter |}.

(** [ENTITY_TYPE_PRIORITY.get(entity_type, 1) / 10.0], or [0.0] without
    metadata *)
Definition type_bonus (target_entity : option EntityMetadata.t) : Q :=
  match target_entity with
  | Some e =>
      inject_Z (od_get_default (EntityMetadata.entity_type e) 1 ENTITY_TYPE_PRIORITY)
      / 10
  | None => 0
  end.

(** [if commune_filter:] an absent or empty set filters nothing *)
Definition filter_active (commune_filter : option (gset string)) : bool :=
  match commune_filter with
  | Some s => negb (bool_decide (s = ∅))
  | None => false
  end.

(** one iteration of [for edge in self.get_neighbors(entity_id)] *)
Definition push_neighbor (self : t) (commune_filter : option (gset string))
    (include_chunks : bool) (visited : odict string Q)
    (entity_id : string) (current_weight : Q) (depth : Z)
    (st : list heap_entry * nat) (edge : EdgeInfo.t) : list heap_entry * nat :=
  let (heap, counter) := st in
  if od_mem (EdgeInfo.target edge) visited then st
  else
    let target_entity := get_entity self (EdgeInfo.target edge) in
    if negb include_chunks &&
       match target_entity with
       | Some e => String.eqb (EntityMetadata.entity_type e) "CHUNK"
       | None => false
       end
    then st
    else if filter_active commune_filter &&
            match target_entity with
            | Some e =>
                negb (bool_decide
                        (EntityMetadata.commune e ∈ default ∅ commune_filter))
            | None => false
            end
    then st
    else
      let combined_weight :=
        (current_weight + EdgeInfo.weight edge + type_bonus target_entity)%Q in
      (heappush heap
         {| he_neg_weight := - combined_weight;
            he_depth := depth + 1;
            he_counter := counter;
            he_entity_id := EdgeInfo.target edge;
            he_came_from :=
              Some {| cf_source := entity_id;
                      cf_rel_type := EdgeInfo.rel_type edge;
                      cf_weight := EdgeInfo.weight edge |} |},
       S counter).

(** the loop condition [heap and len(visited) < max_results] *)
Definition continues (max_results : Z) (st : state) : bool :=
  match heap st with
  | [] => false
  | _ => (Z.of_nat (length (visited st)) <? max_results)%Z
  end.

(** one iteration of the [while] loop *)
Definition step (self : t) (max_hops : Z) (commune_filter : option (gset string))
    (include_chunks : bool) (st : state) : state :=
  match heappop (heap st) with
  | None => st
  | Some (e, heap') =>
      let current_weight := (- he_neg_weight e)%Q in
      if od_mem (he_entity_id e) (visited st) then
        {| heap := heap'; visited := visited st; paths := paths st;
           counter := counter st |}
      else
        let visited' := od_set (he_entity_id e) current_weight (visited st) in
        let paths' :=
          match he_came_from e with
          | Some cf =>
              paths st ++
              [{| path_source := cf_source cf; path_target := he_entity_id e;
                  path_type := cf_rel_type cf; path_hop := he_depth e;
                  path_weight := cf_weight cf |}]
          | None => paths st
          end in
        if (he_depth e >=? max_hops)%Z then
          {| heap := heap'; visited := visited'; paths := paths';
             counter := counter st |}
        else
          let (heap'', counter') :=
            foldl (push_neighbor self commune_filter include_chunks visited'
                     (he_entity_id e) current_weight (he_depth e))
                  (heap', counter st)
                  (get_neighbors self (he_entity_id e)) in
          {| heap := heap''; visited := visited'; paths := paths';
             counter := counter' |}
  end.

(** the [while] loop; [None] when [fuel] iterations were not enough *)
Fixpoint loop (self : t) (max_hops max_results : Z)
    (commune_filter : option (gset string)) (include_chunks : bool)
    (fuel : nat) (st : state) : option state :=
  if continues max_results st then
    match fuel with
    | O => None
    | S fuel' =>
        loop self max_hops max_results commune_filter include_chunks fuel'
             (step self max_hops commune_filter include_chunks st)
    end
  else Some st.

(** [entities.sort(key=lambda x: x['traversal_weight'], reverse=True)] *)
Definition sort_desc (l : list entity_t) : list entity_t :=
  py_sorted_desc ent_traversal_weight l.

(** the loop [for entity_id in visited] that builds the entity list *)
Definition build_entities (self : t) (visited : odict string Q) : list entity_t :=
  omap (fun item : string * Q =>
          let (entity_id, w) := item in
          match get_entity self entity_id with
          | Some metadata =>
              Some {| ent_id := entity_id;
                      ent_name := EntityMetadata.name metadata;
                      ent_type := EntityMetadata.entity_type metadata;
                      ent_description := EntityMetadata.description metadata;
                      ent_commune := EntityMetadata.commune metadata;
                      ent_traversal_weight := w |}
          | None => None
          end)
       visited.

(** the number of adjacency entries of the index *)
Definition adjacency_size (self : t) : nat :=
  sum_list (map (fun kv : string * list EdgeInfo.t => length (snd kv))
                (map_to_list (_adjacency self))).

(** Every iteration pops one entry; an entry is pushed once per seed and
    at most once per adjacency entry, so this many iterations suffice. *)
Definition loop_fuel (self : t) (seed_entities : list string) : nat :=
  length seed_entities + adjacency_size self.

(** the state in which the [while] loop ends *)
Definition expand_loop (self : t) (seed_entities : list string)
    (max_hops max_results : Z) (commune_filter : option (gset string))
    (include_chunks : bool) : option state :=
  loop self max_hops max_results commune_filter include_chunks
       (loop_fuel self seed_entities) (init_state self seed_entities).

Definition expand_weighted (self : t) (seed_entities : list string)
    (max_hops max_results : Z) (commune_filter : option (gset string))
    (include_chunks : bool) : option (list entity_t * list path_t) :=
  match expand_loop self seed_entities max_hops max_results commune_filter
          include_chunks with
  | Some st => Some (sort_desc (build_entities self (visited st)), paths st)
  | None => None
  end.

End GraphIndex.

(** ** Runs of the expansion loop *)

Section Runs.
Import GraphIndex.
Variable self : GraphIndex.t.
Variables max_hops max_results : Z.
Variable commune_filter : option (gset string).
Variable include_chunks : bool.

(** [steps st st']: the loop, started in [st], passes through [st'] *)
Inductive steps : state -> state -> Prop :=
| steps_refl st : steps st st
| steps_next st st' :
    continues max_results st = true ->
    steps (step self max_hops commune_filter include_chunks st) st' ->
    steps st st'.

(** the states the loop of a call with seeds [seed_entities] passes through *)
Definition reachable (seed_entities : list string) (st : state) : Prop :=
  steps (init_state self seed_entities) st.
End Runs.

(** The measure that bounds the loop: the entries still in the heap plus the
    adjacency entries of the ids not yet settled. *)
Definition unsettled_degree (self : GraphIndex.t) (visited : odict string Q) : nat :=
  sum_list (map (fun kv : string * list EdgeInfo.t =>
                   if od_mem (fst kv) visited then O else length (snd kv))
                (map_to_list (GraphIndex._adjacency self))).

Definition potential (self : GraphIndex.t) (st : GraphIndex.state) : nat :=
  length (GraphIndex.heap st) + unsettled_degree self (GraphIndex.visited st).

(** the entry pushed for a seed *)
Definition seed_entry (c : nat) (s : string) : GraphIndex.heap_entry :=
  {| GraphIndex.he_neg_weight := 0; GraphIndex.he_depth := 0; GraphIndex.he_counter := c;
     GraphIndex.he_entity_id := s; GraphIndex.he_came_from := None |}.

(** An entry pushed for a neighbor: its target is not settled, it is one
    hop deeper, and its weight adds the edge weight and the type bonus. *)
Definition pushed_for (self : GraphIndex.t) (vis : odict string Q) (id : string) (w : Q) (d : Z)
    (edge : EdgeInfo.t) (e : GraphIndex.heap_entry) : Prop :=
  GraphIndex.he_entity_id e = EdgeInfo.target edge /\
  od_mem (EdgeInfo.target edge) vis = false /\
  GraphIndex.he_depth e = d + 1 /\
  GraphIndex.he_neg_weight e =
    (- (w + EdgeInfo.weight edge +
        GraphIndex.type_bonus (GraphIndex.get_entity self (EdgeInfo.target edge))))%Q /\
  GraphIndex.he_came_from e =
    Some {| GraphIndex.cf_source := id; GraphIndex.cf_rel_type := EdgeInfo.rel_type edge;
            GraphIndex.cf_weight := EdgeInfo.weight edge |}.

(** the entity record built for a settled id with metadata *)
Definition entity_of (entity_id : string) (metadata : EntityMetadata.t) (w : Q)
    : GraphIndex.entity_t :=
  {| GraphIndex.ent_id := entity_id;
     GraphIndex.ent_name := EntityMetadata.name metadata;
     GraphIndex.ent_type := EntityMetadata.entity_type metadata;
     GraphIndex.ent_description := EntityMetadata.description metadata;
     GraphIndex.ent_commune := EntityMetadata.commune metadata;
     GraphIndex.ent_traversal_weight := w |}.

(** ** Invariants of the loop *)

(** every seed known to the index is settled or still queued *)
Definition seeds_pending (self : GraphIndex.t) (seeds : list string)
    (st : GraphIndex.state) : Prop :=
  forall s, s ∈ seeds -> GraphIndex.has_entity self s = true ->
    od_mem s (GraphIndex.visited st) = true \/
    exists e, e ∈ GraphIndex.heap st /\ GraphIndex.he_entity_id e = s.

(** no queued entry for a settled id beats the recorded weight *)
Definition settled_best (st : GraphIndex.state) : Prop :=
  forall x w, od_get x (GraphIndex.visited st) = Some w ->
    forall e, e ∈ GraphIndex.heap st -> GraphIndex.he_entity_id e = x ->
      (- GraphIndex.he_neg_weight e <= w)%Q.

(** with [max_hops = 0]: only seed entries are queued, only seeds are
    settled, at weight 0, and no path is recorded *)
Definition seeds_only (self : GraphIndex.t) (seeds : list string)
    (st : GraphIndex.state) : Prop :=
  (forall e, e ∈ GraphIndex.heap st ->
     exists c s, e = seed_entry c s /\ s ∈ seeds /\
                 GraphIndex.has_entity self s = true) /\
  (forall x w, (x, w) ∈ GraphIndex.visited st ->
     w = 0%Q /\ x ∈ seeds /\ GraphIndex.has_entity self x = true) /\
  GraphIndex.paths st = [].

(** ** Walks, for comparing settled weights with path weights *)

(** [p] is a walk from [x] along adjacency entries of the index *)
Fixpoint is_walk (self : GraphIndex.t) (x : string) (p : list EdgeInfo.t) : Prop :=
  match p with
  | [] => True
  | e :: p' =>
      e ∈ GraphIndex.get_neighbors self x /\ is_walk self (EdgeInfo.target e) p'
  end.

Fixpoint walk_end (x : string) (p : list EdgeInfo.t) : string :=
  match p with
  | [] => x
  | e :: p' => walk_end (EdgeInfo.target e) p'
  end.

(** the cumulative traversal weight of a walk started at weight 0: every
    hop adds the edge weight and the type bonus of its target *)
Fixpoint walk_weight (self : GraphIndex.t) (p : list EdgeInfo.t) : Q :=
  match p with
  | [] => 0
  | e :: p' =>
      (EdgeInfo.weight e +
       GraphIndex.type_bonus (GraphIndex.get_entity self (EdgeInfo.target e)) +
       walk_weight self p')%Q
  end.

(** "the recorded weight of every returned id is maximal over the walks of
    at most [max_hops] hops from a seed": the Dijkstra reading of
    first-settled-wins that [expand_weighted] is compared with *)
Definition settled_weights_maximal (self : GraphIndex.t) (seeds : list string)
    (max_hops max_results : Z) (commune_filter : option (gset string))
    (include_chunks : bool) : Prop :=
  forall entities paths,
    GraphIndex.expand_weighted self seeds max_hops max_results commune_filter
      include_chunks = Some (entities, paths) ->
    forall e s p,
      e ∈ entities -> s ∈ seeds -> GraphIndex.has_entity self s = true ->
      is_walk self s p -> walk_end s p = GraphIndex.ent_id e ->
      Z.of_nat (length p) <= max_hops ->
      (walk_weight self p <= GraphIndex.ent_traversal_weight e)%Q.

(** ** A small index, loaded from a GraphML file *)

Definition demo_keys : list (string * string) :=
  [("d0", "entity_name"); ("d1", "entity_type"); ("d2", "description");
   ("d3", "source_id"); ("d4", "type")].

Definition demo_node (id type : string) : xml_node :=
  {| node_id_attr := id;
     node_data := [ {| data_key := "d1"; data_text := Some type |} ] |}.

Definition demo_edge (src tgt type : string) : xml_edge :=
  {| edge_source_attr := src; edge_target_attr := tgt;
     edge_data := [ {| data_key := "d4"; data_text := Some type |} ] |}.

(** S -CONCERNE- A, S -RELATED_TO- B, B -CONCERNE- A, and an isolated
    chunk-typed node C *)
Definition demo_graphml : graphml :=
  {| graphml_keys := demo_keys;
     graphml_nodes :=
       [demo_node "S" "CONCEPT"; demo_node "A" "CONCEPT";
        demo_node "B" "CONCEPT"; demo_node "C" "CHUNK"];
     graphml_edges :=
       [demo_edge "S" "A" "CONCERNE"; demo_edge "S" "B" "RELATED_TO";
        demo_edge "B" "A" "CONCERNE"] |}.

Definition demo_data_path : gmap string commune_dir :=
  {[ "demo" := {| graphml_file := Parsed demo_graphml; chunks_file := Missing |} ]}.

Definition demo_index : GraphIndex.t :=
  GraphIndex.initialize (GraphIndex.__init__ demo_data_path) (Some ["demo"]).

(** "with [max_hops = 0] the call returns exactly the seeds known to the
    index, with no paths": the reading [expand_weighted] is compared with
    for an arbitrary [max_results] *)
Definition returns_all_known_seeds (self : GraphIndex.t) (seeds : list string)
    (max_results : Z) (commune_filter : option (gset string))
    (include_chunks : bool) : Prop :=
  exists entities,
    GraphIndex.expand_weighted self seeds 0 max_results commune_filter
      include_chunks = Some (entities, []) /\
    forall s, s ∈ seeds -> GraphIndex.has_entity self s = true ->
      s ∈ map GraphIndex.ent_id entities.

(** "the seed is settled and returned": the reading compared with for an
    arbitrary [max_results] *)
Definition seed_is_returned (self : GraphIndex.t) (seeds : list string)
    (max_hops max_results : Z) (commune_filter : option (gset string))
    (include_chunks : bool) (seed : string) : Prop :=
  exists entities paths,
    GraphIndex.expand_weighted self seeds max_hops max_results commune_filter
      include_chunks = Some (entities, paths) /\
    seed ∈ map GraphIndex.ent_id entities.

(** the demo index after three iterations of the loop started from S *)
Definition demo_state3 : GraphIndex.state :=
  let step := GraphIndex.step demo_index 2 None true in
  step (step (step (GraphIndex.init_state demo_index ["S"]))).

(** ** What a graph file denotes *)

(** the id of a node element, as the loader reads it, and whether the
    loader keeps the node *)
Definition node_id_of (node : xml_node) : string := strip_quotes (node_id_attr node).
Definition node_valid (node : xml_node) : bool := str_nonempty (node_id_of node).

(** the endpoints, relationship type and weight of an edge element, as the
    loader reads them, and whether the loader keeps the edge *)
Definition edge_src (edge : xml_edge) : string := strip_quotes (edge_source_attr edge).
Definition edge_tgt (edge : xml_edge) : string := strip_quotes (edge_target_attr edge).
Definition edge_valid (edge : xml_edge) : bool :=
  str_nonempty (edge_src edge) && str_nonempty (edge_tgt edge).

Definition edge_rel_type (key_map : gmap string string) (edge : xml_edge) : string :=
  str_or (GraphIndex.get_data key_map (edge_data edge) "type")
    (str_or (GraphIndex.get_data key_map (edge_data edge) "relationship_type")
       (str_or (GraphIndex.get_data key_map (edge_data edge) "label") "RELATED_TO")).

Definition edge_weight (key_map : gmap string string) (edge : xml_edge) : Q :=
  od_get_default (edge_rel_type key_map edge) (1 # 10) RELATIONSHIP_WEIGHTS.

(** the two adjacency entries of an edge: the one under its source, the
    one under its target *)
Definition forward_entry (key_map : gmap string string) (edge : xml_edge) : EdgeInfo.t :=
  EdgeInfo.mk (edge_tgt edge) (edge_rel_type key_map edge) (edge_weight key_map edge).
Definition backward_entry (key_map : gmap string string) (edge : xml_edge) : EdgeInfo.t :=
  EdgeInfo.mk (edge_src edge) (edge_rel_type key_map edge) (edge_weight key_map edge).

(** the entries one edge contributes to the adjacency list of [x] *)
Definition edge_entries (key_map : gmap string string) (x : string)
    (edge : xml_edge) : list EdgeInfo.t :=
  if edge_valid edge then
    (if decide (x = edge_src edge) then [forward_entry key_map edge] else []) ++
    (if decide (x = edge_tgt edge) then [backward_entry key_map edge] else [])
  else [].

(** the graph file of a commune, when it exists and parses *)
Definition graph_of (data_path : gmap string commune_dir) (commune_id : string)
    : option graphml :=
  match data_path !! commune_id with
  | Some dir =>
      match graphml_file dir with
      | Parsed root => Some root
      | _ => None
      end
  | None => None
  end.

Definition graph_valid_nodes (g : option graphml) : Z :=
  match g with
  | Some root => Z.of_nat (length (filter (fun n => node_valid n = true) (graphml_nodes root)))
  | None => 0
  end.

Definition graph_valid_edges (g : option graphml) : Z :=
  match g with
  | Some root => Z.of_nat (length (filter (fun e => edge_valid e = true) (graphml_edges root)))
  | None => 0
  end.

Definition graph_entries (g : option graphml) (x : string) : list EdgeInfo.t :=
  match g with
  | Some root =>
      flat_map (edge_entries (GraphIndex.build_key_map (graphml_keys root)) x)
               (graphml_edges root)
  | None => []
  end.

(** N, M and the graph-derived adjacency entries of a list of communes *)
Definition total_valid_nodes (data_path : gmap string commune_dir)
    (commune_ids : list string) : Z :=
  foldr (fun c acc => graph_valid_nodes (graph_of data_path c) + acc) 0 commune_ids.

Definition total_valid_edges (data_path : gmap string commune_dir)
    (commune_ids : list string) : Z :=
  foldr (fun c acc => graph_valid_edges (graph_of data_path c) + acc) 0 commune_ids.

Definition all_graph_entries (data_path : gmap string commune_dir)
    (commune_ids : list string) (x : string) : list EdgeInfo.t :=
  flat_map (fun c => graph_entries (graph_of data_path c) x) commune_ids.

(** an entry created from the chunk store, not from a graph edge *)
Definition is_provenance (e : EdgeInfo.t) : bool :=
  String.eqb (EdgeInfo.rel_type e) "HAS_SOURCE" ||
  String.eqb (EdgeInfo.rel_type e) "SOURCED_BY".

(** "node count = number of node elements, two adjacency entries per edge
    element": the reading the loader is compared with *)
Definition counts_every_element (data_path : gmap string commune_dir)
    (commune_id : string) (root : graphml) : Prop :=
  let index :=
    GraphIndex.initialize (GraphIndex.__init__ data_path) (Some [commune_id]) in
  GraphIndex._total_nodes index = Z.of_nat (length (graphml_nodes root)) /\
  GraphIndex.adjacency_size index = (2 * length (graphml_edges root))%nat.

(** a graph file with a node whose id is empty and an edge without target *)
Definition odd_graphml : graphml :=
  {| graphml_keys := demo_keys;
     graphml_nodes := [demo_node EmptyString "CONCEPT"];
     graphml_edges := [demo_edge "S" EmptyString "CONCERNE"] |}.

Definition odd_data_path : gmap string commune_dir :=
  {[ "odd" := {| graphml_file := Parsed odd_graphml; chunks_file := Missing |} ]}.

(** [adj'] extends [adj] by provenance entries only *)
Definition extends_by_provenance (adj adj' : gmap string (list EdgeInfo.t)) : Prop :=
  forall x, exists prov,
    default [] (adj' !! x) = default [] (adj !! x) ++ prov /\
    Forall (fun e => is_provenance e = true) prov.

(** * Method calls on a shared object

    The index and the caches are objects that every request shares.  A
    method call is a function from the state of the object to the value it
    returns and the state it leaves; a method is written from the
    operations it performs on the dictionaries of the object, each of which
    is itself such a function. *)

Definition call (S A : Type) : Type := S -> A * S.

Definition ret {S A : Type} (a : A) : call S A := fun s => (a, s).

Definition bind_call {S A B : Type} (m : call S A) (k : A -> call S B) : call S B :=
  fun s => let (a, s') := m s in k a s'.

Notation "'call!' x '<-' m ';' k" := (bind_call m (fun x => k))
  (at level 10, x name, m at level 100, k at level 200).

(** a [for] loop whose body is a call; [a] is what the loop carries *)
Fixpoint for_each {S A B : Type} (body : A -> B -> call S A) (l : list B) (a : A)
    : call S A :=
  match l with
  | [] => ret a
  | b :: l' => call! a' <- body a b; for_each body l' a'
  end.

(** [d.get(k)] and [k in d] on a dictionary that is a field of the object *)
Definition dict_get {S K V : Type} `{Countable K} (field : S -> gmap K V) (k : K)
    : call S (option V) :=
  fun s => (field s !! k, s).

Definition dict_contains {S K V : Type} `{Countable K} (field : S -> gmap K V) (k : K)
    : call S bool :=
  fun s => (bool_decide (is_Some (field s !! k)), s).

(** ** The lookups and the weighted expansion of the index as calls

    [expand_weighted] written from the operations it performs on the index:
    [.get] on [_adjacency] and [_entities] and the two membership tests of
    [has_entity].  The heap, [visited], [paths] and [counter] are local to
    the call. *)

Module GraphIndexCalls.
Import GraphIndex.

Definition get_neighbors (entity_id : string) : call t (list EdgeInfo.t) :=
  call! edges <- dict_get _adjacency entity_id;
  ret (default [] edges).

Definition get_entity (entity_id : string) : call t (option EntityMetadata.t) :=
  dict_get _entities entity_id.

Definition has_entity (entity_id : string) : call t bool :=
  call! known <- dict_contains _entities entity_id;
  if known then ret true else dict_contains _adjacency entity_id.

(** the loop over the seeds *)
Definition push_seed (st : list heap_entry * nat) (seed : string)
    : call t (list heap_entry * nat) :=
  let (heap, counter) := st in
  call! known <- has_entity seed;
  if known
  then ret (heappush heap
              {| he_neg_weight := 0; he_depth := 0; he_counter := counter;
                 he_entity_id := seed; he_came_from := None |},
            S counter)
  else ret (heap, counter).

(** one iteration of [for edge in self.get_neighbors(entity_id)] *)
Definition push_neighbor (commune_filter : option (gset string))
    (include_chunks : bool) (visited : odict string Q)
    (entity_id : string) (current_weight : Q) (depth : Z)
    (st : list heap_entry * nat) (edge : EdgeInfo.t)
    : call t (list heap_entry * nat) :=
  let (heap, counter) := st in
  if od_mem (EdgeInfo.target edge) visited then ret (heap, counter)
  else
    call! target_entity <- get_entity (EdgeInfo.target edge);
    if negb include_chunks &&
       match target_entity with
       | Some e => String.eqb (EntityMetadata.entity_type e) "CHUNK"
       | None => false
       end
    then ret (heap, counter)
    else if filter_active commune_filter &&
            match target_entity with
            | Some e =>
                negb (bool_decide
                        (EntityMetadata.commune e ∈ default ∅ commune_filter))
            | None => false
            end
    then ret (heap, counter)
    else
      let combined_weight :=
        (current_weight + EdgeInfo.weight edge + type_bonus target_entity)%Q in
      ret (heappush heap
             {| he_neg_weight := - combined_weight;
                he_depth := depth + 1;
                he_counter := counter;
                he_entity_id := EdgeInfo.target edge;
                he_came_from :=
                  Some {| cf_source := entity_id;
                          cf_rel_type := EdgeInfo.rel_type edge;
                          cf_weight := EdgeInfo.weight edge |} |},
           S counter).

(** one iteration of the [while] loop *)
Definition step (max_hops : Z) (commune_filter : option (gset string))
    (include_chunks : bool) (st : state) : call t state :=
  match heappop (heap st) with
  | None => ret st
  | Some (e, heap') =>
      let current_weight := (- he_neg_weight e)%Q in
      if od_mem (he_entity_id e) (visited st) then
        ret {| heap := heap'; visited := visited st; paths := paths st;
               counter := counter st |}
      else
        let visited' := od_set (he_entity_id e) current_weight (visited st) in
        let paths' :=
          match he_came_from e with
          | Some cf =>
              paths st ++
              [{| path_source := cf_source cf; path_target := he_entity_id e;
                  path_type := cf_rel_type cf; path_hop := he_depth e;
                  path_weight := cf_weight cf |}]
          | None => paths st
          end in
        if (he_depth e >=? max_hops)%Z then
          ret {| heap := heap'; visited := visited'; paths := paths';
                 counter := counter st |}
        else
          call! neighbors <- get_neighbors (he_entity_id e);
          call! pushed <-
            for_each (push_neighbor commune_filter include_chunks visited'
                        (he_entity_id e) current_weight (he_depth e))
                     neighbors (heap', counter st);
          ret {| heap := fst pushed; visited := visited'; paths := paths';
                 counter := snd pushed |}
  end.

(** the [while] loop; [None] when [fuel] iterations were not enough *)
Fixpoint loop (max_hops max_results : Z)
    (commune_filter : option (gset string)) (include_chunks : bool)
    (fuel : nat) (st : state) : call t (option state) :=
  if continues max_results st then
    match fuel with
    | O => ret None
    | S fuel' =>
        call! st' <- step max_hops commune_filter include_chunks st;
        loop max_hops max_results commune_filter include_chunks fuel' st'
    end
  else ret (Some st).

(** one iteration of [for entity_id in visited] *)
Definition build_entity (entities : list entity_t) (item : string * Q)
    : call t (list entity_t) :=
  let (entity_id, w) := item in
  call! metadata <- get_entity entity_id;
  match metadata with
  | Some metadata =>
      ret (entities ++
           [{| ent_id := entity_id;
               ent_name := EntityMetadata.name metadata;
               ent_type := EntityMetadata.entity_type metadata;
               ent_description := EntityMetadata.description metadata;
               ent_commune := EntityMetadata.commune metadata;
               ent_traversal_weight := w |}])
  | None => ret entities
  end.

Definition expand_weighted (seed_entities : list string)
    (max_hops max_results : Z) (commune_filter : option (gset string))
    (include_chunks : bool) : call t (option (list entity_t * list path_t)) :=
  fun self =>
    (call! seeded <- for_each push_seed seed_entities ([], O);
     call! final <-
       loop max_hops max_results commune_filter include_chunks
            (loop_fuel self seed_entities)
            {| heap := fst seeded; visited := []; paths := [];
               counter := snd seeded |};
     match final with
     | Some st =>
         call! entities <- for_each build_entity (visited st) [];
         ret (Some (sort_desc entities, paths st))
     | None => ret None
     end) self.

End GraphIndexCalls.

(** * CommunityCache (server.py) *)

(** ** Text as the keyword index reads it

    [\w] and [lower] for code points below 256: a word character is a
    letter, a digit or the underscore, where the letters include the
    accented letters (192-255 but the multiplication and division signs),
    the ordinal indicators and the micro sign, and the digits include the
    superscripts and the fractions; [lower] moves A-Z and the accented
    capitals (192-222 but the multiplication sign) up by 32. *)

Definition in_range (lo hi n : nat) : bool := ((lo <=? n) && (n <=? hi))%nat.

Definition is_word_char (c : ascii) : bool :=
  let n := nat_of_ascii c in
  in_range 48 57 n || in_range 65 90 n || (n =? 95)%nat || in_range 97 122 n ||
  (n =? 170)%nat || in_range 178 179 n || (n =? 181)%nat || in_range 185 186 n ||
  in_range 188 190 n || in_range 192 214 n || in_range 216 246 n ||
  in_range 248 255 n.

Definition lower_char (c : ascii) : ascii :=
  let n := nat_of_ascii c in
  if in_range 65 90 n || in_range 192 222 n && negb (n =? 215)%nat
  then ascii_of_nat (n + 32) else c.

Fixpoint str_lower (s : string) : string :=
  match s with
  | EmptyString => EmptyString
  | String c s' => String (lower_char c) (str_lower s')
  end.

(** a finished run of word characters is a match when it has three
    characters or more *)
Definition emit_word (cur : string) : list string :=
  if (3 <=? String.length cur)%nat then [cur] else [].

(** [re.findall] of the pattern for words of three or more characters
    between word boundaries: the maximal runs of word characters of length
    at least three; [cur] is the run being read *)
Fixpoint findall_words_aux (cur : string) (s : string) : list string :=
  match s with
  | EmptyString => emit_word cur
  | String c s' =>
      if is_word_char c
      then findall_words_aux (cur +:+ String c EmptyString) s'
      else emit_word cur ++ findall_words_aux EmptyString s'
  end.

Definition findall_words (s : string) : list string :=
  findall_words_aux EmptyString s.

(** [needle in hay] on strings *)
Fixpoint is_substring (needle hay : string) : bool :=
  String.prefix needle hay ||
  match hay with
  | EmptyString => false
  | String _ hay' => is_substring needle hay'
  end.

Definition stop_words : list string :=
  ["le"; "la"; "les"; "de"; "du"; "des"; "un"; "une"; "et"; "ou";
   "que"; "qui"; "dans"; "pour"; "sur"; "avec"; "par"; "est"; "sont";
   "ce"; "cette"; "ces"; "au"; "aux"; "en"; "il"; "elle"; "nous"; "vous"].

(** the elements of [set(re.findall(..., text)) - stop_words] as a list
    without repetition; the order in which Python enumerates the set is
    that of the runtime, see [set_order] below *)
Definition word_set (text : string) : list string :=
  filter (fun w => w ∉ stop_words) (remove_dups (findall_words text)).

(** ** JSON values, as [json.load] returns them *)

(** a [float]: a rational, or one of the three special values that
    [json.load] reads from NaN, Infinity and -Infinity *)
Inductive py_float : Type :=
| Finite (q : Q)
| NaN
| PosInf
| NegInf.

(** [None], [bool], [int], [float], [str], [list] and [dict] (its items in
    order, each key once) *)
#[warnings="-register-all"] Inductive json : Type :=
| JNull
| JBool (b : bool)
| JInt (n : Z)
| JFloat (x : py_float)
| JString (s : string)
| JArray (items : list json)
| JObject (members : list (string * json)).

(** [bool(v)] *)
Definition truthy (v : json) : bool :=
  match v with
  | JNull => false
  | JBool b => b
  | JInt n => negb (n =? 0)%Z
  | JFloat (Finite q) => negb (Qeq_bool q 0)
  | JFloat _ => true
  | JString s => str_nonempty s
  | JArray items => match items with [] => false | _ => true end
  | JObject members => match members with [] => false | _ => true end
  end.

(** the items of [v] when [v] is a [dict]; any other value has neither
    [.get] nor [.items] and the call raises *)
Definition as_dict (v : json) : option (list (string * json)) :=
  match v with
  | JObject members => Some members
  | _ => None
  end.

(** [v < 4.0]: a comparison with NaN is false, a [bool] is 0 or 1, and
    a value that is not a number raises ([None] here) *)
Definition lt_4 (v : json) : option bool :=
  match v with
  | JInt n => Some (n <? 4)%Z
  | JFloat (Finite q) => Some (Qltb q 4)
  | JFloat NaN => Some false
  | JFloat PosInf => Some false
  | JFloat NegInf => Some true
  | JBool _ => Some true
  | _ => None
  end.

(** [v >= 4.0] *)
Definition ge_4 (v : json) : option bool :=
  match v with
  | JInt n => Some (4 <=? n)%Z
  | JFloat (Finite q) => Some (Qle_bool 4 q)
  | JFloat NaN => Some false
  | JFloat PosInf => Some true
  | JFloat NegInf => Some false
  | JBool _ => Some false
  | _ => None
  end.

Definition is_str (v : json) : bool :=
  match v with
  | JString _ => true
  | _ => false
  end.

(** ** What the runtime decides

    The order in which a set of strings is enumerated depends on the hash
    seed of the process: [set_order] takes the elements of a set, as a list
    without repetition, and returns them in the order of enumeration.
    [py_repr] is [str] on a float, a list or a dictionary. *)
Record runtime : Type := {
  set_order : list string -> list string;
  set_order_perm : forall l, set_order l ≡ₚ l;
  py_repr : json -> string
}.

(** [str(v)], as an f-string formats a value *)
Definition py_str (rt : runtime) (v : json) : string :=
  match v with
  | JString s => s
  | JNull => "None"
  | JBool true => "True"
  | JBool false => "False"
  | JInt n => pretty n
  | _ => py_repr rt v
  end.

(** a runtime that enumerates a set in the order of its list *)
Definition insertion_order : runtime :=
  {| set_order := fun l => l;
     set_order_perm := fun l => Permutation_refl l;
     py_repr := fun _ => EmptyString |}.

(** a runtime that enumerates a set in the reverse order *)
Definition reverse_order : runtime :=
  {| set_order := @rev string;
     set_order_perm := fun l => Permutation_sym (Permutation_rev l);
     py_repr := fun _ => EmptyString |}.

(** ** Communities *)

(** the dictionary stored for a community: the two ids and the values read
    from the report file *)
Module Community.
Record t : Type := mk {
  commune_id : string;
  community_id : string;
  title : json;
  summary : json;
  rating : json;
  nodes : json;
  chunk_ids : json
}.
End Community.

(** a search result: the copied community with its score *)
Record result_t : Type := {
  res_community : Community.t;
  res_score : Z
}.

Module CommunityCache.

Record t : Type := mk {
  _communities : gmap string (gmap string Community.t);
  _keyword_index : gmap string (list (string * string * Z))
}.

Definition __init__ : t := {| _communities := ∅; _keyword_index := ∅ |}.

(** [self._keyword_index[keyword].append(entry)] on a [defaultdict(list)] *)
Definition index_append (keyword : string) (entry : string * string * Z)
    (index : gmap string (list (string * string * Z)))
    : gmap string (list (string * string * Z)) :=
  <[keyword := default [] (index !! keyword) ++ [entry]]> index.

(** title match = 3, summary match = 1 *)
Definition title_score (keyword title : string) : Z :=
  if is_substring keyword (str_lower title) then 3 else 0.
Definition summary_score (keyword summary : string) : Z :=
  if is_substring keyword (str_lower summary) then 1 else 0.

(** one iteration of [for keyword in keywords], for a title and a summary
    that are strings *)
Definition index_keyword (commune_id comm_id title summary : string)
    (index : gmap string (list (string * string * Z))) (keyword : string)
    : gmap string (list (string * string * Z)) :=
  let total_score := title_score keyword title + summary_score keyword summary in
  if (0 <? total_score)%Z
  then index_append keyword (commune_id, comm_id, total_score) index
  else index.

Section WithRuntime.
Variable rt : runtime.

(** one iteration of [for comm_id, comm_data in data.items()]: the cache
    after it, and whether it raised.  [.get] raises on a value that is not
    a dictionary, [<] on a rating that is not a number, and [.lower()], in
    the first iteration of the keyword loop, on a title or a summary that is
    not a string: the community is stored by then, and nothing is indexed
    for it. *)
Definition load_community (commune_id : string) (self : t)
    (item : string * json) : t * bool :=
  let (comm_id, comm_data) := item in
  match as_dict comm_data with
  | None => (self, true)
  | Some comm_members =>
      let report := od_get_default "report_json" (JObject []) comm_members in
      if negb (truthy report) then (self, false)
      else
        match as_dict report with
        | None => (self, true)
        | Some report_members =>
            let rating := od_get_default "rating" (JInt 0) report_members in
            match lt_4 rating with
            | None => (self, true)
            | Some true => (self, false)
            | Some false =>
                let title :=
                  od_get_default "title" (JString EmptyString) report_members in
                let summary :=
                  od_get_default "summary" (JString EmptyString) report_members in
                let community :=
                  Community.mk commune_id comm_id title summary rating
                    (od_get_default "nodes" (JArray []) comm_members)
                    (od_get_default "chunk_ids" (JArray []) comm_members) in
                let communities :=
                  <[commune_id := <[comm_id := community]>
                                    (default ∅ (_communities self !! commune_id))]>
                    (_communities self) in
                let text := str_lower (py_str rt title +:+ " " +:+ py_str rt summary) in
                let keywords := set_order rt (word_set text) in
                match keywords with
                | [] => (mk communities (_keyword_index self), false)
                | _ =>
                    match title, summary with
                    | JString title, JString summary =>
                        (mk communities
                            (foldl (index_keyword commune_id comm_id title summary)
                                   (_keyword_index self) keywords),
                         false)
                    | _, _ => (mk communities (_keyword_index self), true)
                    end
                end
            end
        end
  end.

(** the cache after one iteration, whether it raised or not *)
Definition load_step (commune_id : string) (self : t) (item : string * json) : t :=
  fst (load_community commune_id self item).

(** the loop [for comm_id, comm_data in data.items()], which an exception
    leaves *)
Fixpoint load_communities (commune_id : string) (self : t)
    (data : list (string * json)) : t :=
  match data with
  | [] => self
  | item :: data' =>
      let (self', raised) := load_community commune_id self item in
      if raised then self' else load_communities commune_id self' data'
  end.

(** one iteration of [for commune_id, communities_file in communes]: a
    file that [json.load] cannot read is skipped with a warning; so is the
    rest of a file after an exception, and a file that does not hold a
    dictionary, once the commune has been given its empty dictionary *)
Definition load_commune_reports (self : t) (item : string * file json) : t :=
  let (commune_id, communities_file) := item in
  match communities_file with
  | Parsed data =>
      let self' :=
        mk (<[commune_id := ∅]> (_communities self)) (_keyword_index self) in
      match as_dict data with
      | Some members => load_communities commune_id self' members
      | None => self'
      end
  | _ => self
  end.

(** the directories of [data_path], in the order [iterdir] lists them, that
    are not hidden and hold a community report file *)
Definition discover (data_path : list (string * file json))
    : list (string * file json) :=
  filter (fun item =>
            negb (String.prefix "." (fst item)) &&
            match snd item with Missing => false | _ => true end = true)
         data_path.

Definition _refresh_cache (data_path : list (string * file json)) (self : t) : t :=
  foldl load_commune_reports __init__ (discover data_path).

Definition initialize (data_path : list (string * file json)) (self : t) : t :=
  _refresh_cache data_path self.

End WithRuntime.

(** the accumulation [scores[(commune_id, comm_id)] += base_score] on a
    [defaultdict(float)]; the scores are sums of the integers 1, 3 and 4 *)
Definition add_score (scores : odict (string * string) Z)
    (entry : string * string * Z) : odict (string * string) Z :=
  let '(commune_id, comm_id, base_score) := entry in
  od_set (commune_id, comm_id)
         (default 0 (od_get (commune_id, comm_id) scores) + base_score) scores.

Definition search_scores (self : t) (query_words : list string)
    : odict (string * string) Z :=
  foldl (fun scores keyword =>
           foldl add_score scores (default [] (_keyword_index self !! keyword)))
        [] query_words.

(** the loop over [sorted_matches]: [results] and [seen_communes] *)
Fixpoint collect (self : t) (max_results max_communes : Z)
    (matches : list (string * string * Z))
    (results : list result_t) (seen_communes : gset string) : list result_t :=
  match matches with
  | [] => results
  | (commune_id, comm_id, score) :: matches' =>
      if (Z.of_nat (length results) >=? max_results)%Z then results
      else if bool_decide (commune_id ∈ seen_communes) &&
              (Z.of_nat (size seen_communes) >=? max_communes)%Z
      then collect self max_results max_communes matches' results seen_communes
      else
        match default ∅ (_communities self !! commune_id) !! comm_id with
        | Some community =>
            collect self max_results max_communes matches'
              (results ++ [{| res_community := community; res_score := score |}])
              ({[commune_id]} ∪ seen_communes)
        | None =>
            collect self max_results max_communes matches' results seen_communes
        end
  end.

(** the words of a query, in the order in which the loop of [search]
    takes them *)
Definition query_words (rt : runtime) (query : string) : list string :=
  set_order rt (word_set (str_lower query)).

Definition search (rt : runtime) (self : t) (query : string)
    (max_results max_communes : Z) : list result_t :=
  match query_words rt query with
  | [] => []
  | query_words =>
      let scores := search_scores self query_words in
      let sorted_matches :=
        py_sorted_desc (fun m : string * string * Z => inject_Z (snd m)) scores in
      collect self max_results max_communes sorted_matches [] ∅
  end.

End CommunityCache.

(** ** The methods as calls on the shared cache *)

Module CommunityCacheCalls.
Import CommunityCache.

Definition _refresh_cache (rt : runtime) (data_path : list (string * file json))
    : call t unit :=
  fun self => (tt, CommunityCache._refresh_cache rt data_path self).

Definition initialize (rt : runtime) (data_path : list (string * file json))
    : call t unit :=
  _refresh_cache rt data_path.

(** [for commune_id, comm_id, base_score in self._keyword_index.get(keyword, [])] *)
Definition score_keyword (scores : odict (string * string) Z) (keyword : string)
    : call t (odict (string * string) Z) :=
  call! entries <- dict_get _keyword_index keyword;
  ret (foldl add_score scores (default [] entries)).

Fixpoint collect (max_results max_communes : Z)
    (matches : list (string * string * Z))
    (results : list result_t) (seen_communes : gset string)
    : call t (list result_t) :=
  match matches with
  | [] => ret results
  | (commune_id, comm_id, score) :: matches' =>
      if (Z.of_nat (length results) >=? max_results)%Z then ret results
      else if bool_decide (commune_id ∈ seen_communes) &&
              (Z.of_nat (size seen_communes) >=? max_communes)%Z
      then collect max_results max_communes matches' results seen_communes
      else
        call! communities <- dict_get _communities commune_id;
        match default ∅ communities !! comm_id with
        | Some community =>
            collect max_results max_communes matches'
              (results ++ [{| res_community := community; res_score := score |}])
              ({[commune_id]} ∪ seen_communes)
        | None => collect max_results max_communes matches' results seen_communes
        end
  end.

Definition search (rt : runtime) (query : string) (max_results max_communes : Z)
    : call t (list result_t) :=
  match query_words rt query with
  | [] => ret []
  | query_words =>
      call! scores <- for_each score_keyword query_words [];
      let sorted_matches :=
        py_sorted_desc (fun m : string * string * Z => inject_Z (snd m)) scores in
      collect max_results max_communes sorted_matches [] ∅
  end.

End CommunityCacheCalls.

(** ** Operations on a cache, and the states they reach *)

Inductive cache_op : Type :=
| OpInitialize (data_path : list (string * file json))
| OpRefresh (data_path : list (string * file json))
| OpSearch (query : string) (max_results max_communes : Z).

Definition run_op (rt : runtime) (self : CommunityCache.t) (op : cache_op)
    : CommunityCache.t :=
  match op with
  | OpInitialize data_path => snd (CommunityCacheCalls.initialize rt data_path self)
  | OpRefresh data_path => snd (CommunityCacheCalls._refresh_cache rt data_path self)
  | OpSearch query max_results max_communes =>
      snd (CommunityCacheCalls.search rt query max_results max_communes self)
  end.

Definition cache_after (rt : runtime) (ops : list cache_op) : CommunityCache.t :=
  foldl (run_op rt) CommunityCache.__init__ ops.

(** the directory listing that the last load of a sequence of operations
    read; none before the first load *)
Definition last_data_path (ops : list cache_op) : list (string * file json) :=
  foldl (fun data_path op =>
           match op with
           | OpInitialize data_path' => data_path'
           | OpRefresh data_path' => data_path'
           | OpSearch _ _ _ => data_path
           end)
        [] ops.

(** a rating that [rating < 4.0] does not reject: a number that is at least
    4.0, infinity or NaN *)
Definition passes_floor (rating : json) : Prop :=
  match rating with
  | JInt n => 4 <= n
  | JFloat (Finite q) => (4 <= q)%Q
  | JFloat NaN => True
  | JFloat PosInf => True
  | _ => False
  end.

(** every stored community has a rating that passes the floor *)
Definition stored_rated (self : CommunityCache.t) : Prop :=
  forall commune_id m comm_id community,
    CommunityCache._communities self !! commune_id = Some m ->
    m !! comm_id = Some community ->
    passes_floor (Community.rating community).

(** "every stored community has a rating greater than or equal to 4.0" *)
Definition stored_at_least_floor (self : CommunityCache.t) : Prop :=
  forall commune_id m comm_id community,
    CommunityCache._communities self !! commune_id = Some m ->
    m !! comm_id = Some community ->
    ge_4 (Community.rating community) = Some true.

(** the report and the rating of an entry of a report file that the loop
    stores: the entry and its report are dictionaries, the report is not
    empty and its rating is not below 4.0 *)
Definition stored_report (comm_data : json)
    : option (list (string * json) * list (string * json) * json) :=
  match as_dict comm_data with
  | Some comm_members =>
      let report := od_get_default "report_json" (JObject []) comm_members in
      if truthy report then
        match as_dict report with
        | Some report_members =>
            let rating := od_get_default "rating" (JInt 0) report_members in
            match lt_4 rating with
            | Some false => Some (comm_members, report_members, rating)
            | _ => None
            end
        | None => None
        end
      else None
  | None => None
  end.

(** the community stored for such an entry *)
Definition community_of (commune_id comm_id : string) (comm_data : json)
    : option Community.t :=
  match stored_report comm_data with
  | Some (comm_members, report_members, rating) =>
      Some (Community.mk commune_id comm_id
              (od_get_default "title" (JString EmptyString) report_members)
              (od_get_default "summary" (JString EmptyString) report_members)
              rating
              (od_get_default "nodes" (JArray []) comm_members)
              (od_get_default "chunk_ids" (JArray []) comm_members))
  | None => None
  end.

(** the title and the summary of a stored entry when both are strings: the
    entries that the keyword loop indexes *)
Definition accepted (comm_data : json) : option (string * string) :=
  match stored_report comm_data with
  | Some (_, report_members, _) =>
      match od_get_default "title" (JString EmptyString) report_members,
            od_get_default "summary" (JString EmptyString) report_members with
      | JString title, JString summary => Some (title, summary)
      | _, _ => None
      end
  | None => None
  end.

(** whether the iteration for an entry raises *)
Definition entry_raises (rt : runtime) (comm_data : json) : bool :=
  match as_dict comm_data with
  | None => true
  | Some comm_members =>
      let report := od_get_default "report_json" (JObject []) comm_members in
      if negb (truthy report) then false
      else
        match as_dict report with
        | None => true
        | Some report_members =>
            match lt_4 (od_get_default "rating" (JInt 0) report_members) with
            | None => true
            | Some true => false
            | Some false =>
                let title :=
                  od_get_default "title" (JString EmptyString) report_members in
                let summary :=
                  od_get_default "summary" (JString EmptyString) report_members in
                match word_set (str_lower (py_str rt title +:+ " " +:+
                                           py_str rt summary)) with
                | [] => false
                | _ => negb (is_str title && is_str summary)
                end
            end
        end
  end.

(** the entries of a report file that the loop reads: those up to the
    first one that raises, included *)
Fixpoint entries_read (rt : runtime) (data : list (string * json))
    : list (string * json) :=
  match data with
  | [] => []
  | item :: data' =>
      item :: (if entry_raises rt (snd item) then [] else entries_read rt data')
  end.

(** every entry of the keyword index was entered for an entry of a report
    file of [data_path] that was read and stored, whose rating passes the
    floor, with the score of the keyword against its title and summary *)
Definition indexed_rated (rt : runtime) (data_path : list (string * file json))
    (self : CommunityCache.t) : Prop :=
  forall keyword commune_id comm_id score,
    (commune_id, comm_id, score) ∈
      default [] (CommunityCache._keyword_index self !! keyword) ->
    exists data comm_data community title summary,
      (commune_id, Parsed (JObject data)) ∈ data_path /\
      (comm_id, comm_data) ∈ entries_read rt data /\
      community_of commune_id comm_id comm_data = Some community /\
      passes_floor (Community.rating community) /\
      Community.title community = JString title /\
      Community.summary community = JString summary /\
      score =
        CommunityCache.title_score keyword title +
        CommunityCache.summary_score keyword summary /\
      0 < score.

(** ** Scores, for comparing two communities *)

(** what one keyword adds to the score of a community: nothing unless the
    keyword is one of the words of its title and summary *)
Definition community_score (title summary keyword : string) : Z :=
  if bool_decide (keyword ∈ word_set (str_lower (title +:+ " " +:+ summary)))
  then
    let total_score :=
      CommunityCache.title_score keyword title +
      CommunityCache.summary_score keyword summary in
    if (0 <? total_score)%Z then total_score else 0
  else 0.

(** the score of a community for a query: the sum over the query words *)
Definition query_score (title summary : string) (query_words : list string) : Z :=
  foldr (fun q acc => community_score title summary q + acc) 0 query_words.

(** the communities of a data path that are indexed, in load order:
    [(commune_id, comm_id, (title, summary))] *)
Definition accepted_of_file (rt : runtime) (item : string * file json)
    : list (string * string * (string * string)) :=
  match snd item with
  | Parsed (JObject data) =>
      omap (fun kv : string * json =>
              match accepted (snd kv) with
              | Some ts => Some (fst item, fst kv, ts)
              | None => None
              end)
           (entries_read rt data)
  | _ => []
  end.

Definition accepted_list (rt : runtime) (data_path : list (string * file json))
    : list (string * string * (string * string)) :=
  flat_map (accepted_of_file rt) (CommunityCache.discover data_path).

(** the index entry of a loaded community for a keyword, if any *)
Definition entry_for (keyword : string) (c : string * string * (string * string))
    : list (string * string * Z) :=
  let '(commune_id, comm_id, (title, summary)) := c in
  if bool_decide (keyword ∈ word_set (str_lower (title +:+ " " +:+ summary))) &&
     (0 <? CommunityCache.title_score keyword title +
           CommunityCache.summary_score keyword summary)%Z
  then [(commune_id, comm_id,
         CommunityCache.title_score keyword title +
         CommunityCache.summary_score keyword summary)]
  else [].

(** the sum of the scores of the entries for a key *)
Definition entry_sum (key : string * string) (entries : list (string * string * Z)) : Z :=
  foldr (fun e acc => (if decide (fst e = key) then snd e else 0) + acc) 0 entries.

(** "a community with the keyword as a word of its title scores strictly
    higher than one with the keyword as a word of its summary only": the
    word-level reading that keyword search is compared with *)
Definition title_word_scores_higher (rt : runtime)
    (data_path : list (string * file json))
    (query : string) (key_a key_b : string * string)
    (title_a summary_a title_b summary_b keyword : string) : Prop :=
  keyword ∈ CommunityCache.query_words rt query ->
  keyword ∈ findall_words (str_lower title_a) ->
  keyword ∉ findall_words (str_lower title_b) ->
  keyword ∈ findall_words (str_lower summary_b) ->
  exists score_a score_b,
    od_get key_a
      (CommunityCache.search_scores
         (CommunityCache._refresh_cache rt data_path CommunityCache.__init__)
         (CommunityCache.query_words rt query)) = Some score_a /\
    od_get key_b
      (CommunityCache.search_scores
         (CommunityCache._refresh_cache rt data_path CommunityCache.__init__)
         (CommunityCache.query_words rt query)) = Some score_b /\
    score_b < score_a.

(** two communities that differ only in where the word "eau" stands: in the
    title of the first, in the summary of the second *)
Definition eau_report (title summary : string) : json :=
  JObject [("report_json",
            JObject [("title", JString title); ("summary", JString summary);
                     ("rating", JFloat (Finite 5))])].

Definition eau_data_path : list (string * file json) :=
  [("rochefort",
    Parsed (JObject [("a", eau_report "eau bateau" "lac");
                     ("b", eau_report "bateau" "lac eau");
                     ("c", eau_report "lac" "le bateau")]))].

(** a report file with a rating that is not a number at least 4.0: the
    first entry is rated NaN, the second has a rating of the wrong type and
    the third, rated 9, comes after it *)
Definition odd_report (rating : json) : json :=
  JObject [("report_json",
            JObject [("title", JString "eau"); ("summary", JString "lac");
                     ("rating", rating)])].

Definition odd_reports_path : list (string * file json) :=
  [("rochefort",
    Parsed (JObject [("a", odd_report (JFloat NaN));
                     ("b", odd_report (JString "9"));
                     ("c", odd_report (JInt 9))]))].

(** * The caches: batch methods and sequences of calls *)

(** ** EmbeddingCache.get_batch (nano_graphrag/_storage/vdb_nanovectordb.py)

    [clock i] is the time at which the [i]-th iteration calls [get]. *)

Module EmbeddingCacheBatch.
Section WithHash.
Context {V : Type}.
Variable _hash_text : string -> string.

(** the loop [for i, text in enumerate(texts)], started at index [i] with
    [results] and [uncached_indices] as accumulated so far *)
Fixpoint get_batch_loop (clock : nat -> Q) (i : nat) (texts : list string)
    (results : list (option V)) (uncached_indices : list nat)
    (self : EmbeddingCache.t V)
    : list (option V) * list nat * EmbeddingCache.t V :=
  match texts with
  | [] => (results, uncached_indices, self)
  | text :: texts' =>
      let (cached, self') := EmbeddingCache.get _hash_text self text (clock i) in
      get_batch_loop clock (S i) texts' (results ++ [cached])
        (match cached with
         | None => uncached_indices ++ [i]
         | Some _ => uncached_indices
         end)
        self'
  end.

Definition get_batch (self : EmbeddingCache.t V) (texts : list string)
    (clock : nat -> Q) : list (option V) * list nat * EmbeddingCache.t V :=
  get_batch_loop clock 0 texts [] [] self.

End WithHash.
End EmbeddingCacheBatch.

(** ** LLMResponseCacheSingleton: filter_keys, upsert, get_by_id, get_by_ids
    (nano_graphrag/graphrag.py)

    [clock i] is the time at which the [i]-th call of [set] or [get] made by
    the method reads the clock. *)

Module LLMResponseCacheBatch.
Section WithValue.
Context {V : Type}.

(** [[k for k in keys if k not in self._cache]] *)
Definition filter_keys (self : LLMResponseCacheSingleton.t V) (keys : list string)
    : list string :=
  filter (fun k => od_mem k (LLMResponseCacheSingleton._cache self) = false) keys.

(** [for k, v in data.items(): await self.set(k, v)], from the [i]-th item on *)
Fixpoint upsert_loop (clock : nat -> Q) (i : nat) (data : odict string V)
    (self : LLMResponseCacheSingleton.t V) : result (LLMResponseCacheSingleton.t V) :=
  match data with
  | [] => Ok self
  | (k, v) :: data' =>
      do self' <- LLMResponseCacheSingleton.set self k v (clock i);
      upsert_loop clock (S i) data' self'
  end.

Definition upsert (self : LLMResponseCacheSingleton.t V) (data : odict string V)
    (clock : nat -> Q) : result (LLMResponseCacheSingleton.t V) :=
  upsert_loop clock 0 data self.

Definition get_by_id (self : LLMResponseCacheSingleton.t V) (key : string) (now : Q)
    : result (option V * LLMResponseCacheSingleton.t V) :=
  LLMResponseCacheSingleton.get self key now.

(** [[await self.get(k) for k in keys]], from the [i]-th key on *)
Fixpoint get_by_ids_loop (clock : nat -> Q) (i : nat) (keys : list string)
    (self : LLMResponseCacheSingleton.t V)
    : result (list (option V) * LLMResponseCacheSingleton.t V) :=
  match keys with
  | [] => Ok ([], self)
  | k :: keys' =>
      do r <- LLMResponseCacheSingleton.get self k (clock i);
      do rs <- get_by_ids_loop clock (S i) keys' (snd r);
      Ok (fst r :: fst rs, snd rs)
  end.

Definition get_by_ids (self : LLMResponseCacheSingleton.t V) (keys : list string)
    (clock : nat -> Q) : result (list (option V) * LLMResponseCacheSingleton.t V) :=
  get_by_ids_loop clock 0 keys self.

End WithValue.
End LLMResponseCacheBatch.

(** ** Sequences of calls on a cache

    A client of a cache issues [get] and [put] (or [set]) calls one after
    the other; an exception ends the sequence. *)

Inductive cache_call (V : Type) : Type :=
| CallGet (key : string) (now : Q)
| CallPut (key : string) (value : V) (now : Q).

Arguments CallGet {V} key now.
Arguments CallPut {V} key value now.

Fixpoint run_calls {S C : Type} (call : S -> C -> result S) (self : S)
    (calls : list C) : result S :=
  match calls with
  | [] => Ok self
  | c :: calls' => do self' <- call self c; run_calls call self' calls'
  end.

Definition embedding_call {V : Type} (_hash_text : string -> string)
    (self : EmbeddingCache.t V) (c : cache_call V) : result (EmbeddingCache.t V) :=
  match c with
  | CallGet text now => Ok (snd (EmbeddingCache.get _hash_text self text now))
  | CallPut text embedding now => EmbeddingCache.put _hash_text self text embedding now
  end.

Definition llm_call {V : Type} (self : LLMResponseCacheSingleton.t V)
    (c : cache_call V) : result (LLMResponseCacheSingleton.t V) :=
  match c with
  | CallGet key now =>
      do r <- LLMResponseCacheSingleton.get self key now; Ok (snd r)
  | CallPut key value now => LLMResponseCacheSingleton.set self key value now
  end.

Definition graphrag_call {V : Type} (self : GraphRAGCache.t V) (c : cache_call V)
    : result (GraphRAGCache.t V) :=
  match c with
  | CallGet working_dir now => Ok (snd (GraphRAGCache.get self working_dir now))
  | CallPut working_dir instance now => GraphRAGCache.put self working_dir instance now
  end.

(** the number of [get] calls of a sequence *)
Fixpoint count_gets {V : Type} (calls : list (cache_call V)) : Z :=
  match calls with
  | [] => 0
  | CallGet _ _ :: calls' => 1 + count_gets calls'
  | CallPut _ _ _ :: calls' => count_gets calls'
  end.

(** * GraphIndex: what a traversal returns *)

(** the two filters a neighbor has to pass to be queued: an id without
    metadata passes both *)
Definition passes_filters (self : GraphIndex.t)
    (commune_filter : option (gset string)) (include_chunks : bool)
    (entity_id : string) : Prop :=
  forall md, GraphIndex.get_entity self entity_id = Some md ->
    (include_chunks = false -> EntityMetadata.entity_type md <> "CHUNK") /\
    (GraphIndex.filter_active commune_filter = true ->
     EntityMetadata.commune md ∈ default ∅ commune_filter).

(** a queued entry is either the entry of a known seed, or was pushed
    along an adjacency entry of a settled id, within [max_hops], for a
    target that passes the filters *)
Definition entry_ok (self : GraphIndex.t) (seeds : list string) (max_hops : Z)
    (commune_filter : option (gset string)) (include_chunks : bool)
    (visited : odict string Q) (e : GraphIndex.heap_entry) : Prop :=
  match GraphIndex.he_came_from e with
  | None =>
      GraphIndex.he_depth e = 0 /\ GraphIndex.he_entity_id e ∈ seeds /\
      GraphIndex.has_entity self (GraphIndex.he_entity_id e) = true
  | Some c =>
      od_mem (GraphIndex.cf_source c) visited = true /\
      EdgeInfo.mk (GraphIndex.he_entity_id e) (GraphIndex.cf_rel_type c)
        (GraphIndex.cf_weight c) ∈
        GraphIndex.get_neighbors self (GraphIndex.cf_source c) /\
      1 <= GraphIndex.he_depth e <= max_hops /\
      passes_filters self commune_filter include_chunks (GraphIndex.he_entity_id e)
  end.

(** a recorded path follows an adjacency entry between two settled ids *)
Definition path_ok (self : GraphIndex.t) (max_hops : Z)
    (commune_filter : option (gset string)) (include_chunks : bool)
    (visited : odict string Q) (p : GraphIndex.path_t) : Prop :=
  od_mem (GraphIndex.path_source p) visited = true /\
  od_mem (GraphIndex.path_target p) visited = true /\
  EdgeInfo.mk (GraphIndex.path_target p) (GraphIndex.path_type p)
    (GraphIndex.path_weight p) ∈
    GraphIndex.get_neighbors self (GraphIndex.path_source p) /\
  1 <= GraphIndex.path_hop p <= max_hops /\
  passes_filters self commune_filter include_chunks (GraphIndex.path_target p).

(** the invariant of the loop of [expand_weighted] *)
Definition traversal_inv (self : GraphIndex.t) (seeds : list string)
    (max_hops max_results : Z) (commune_filter : option (gset string))
    (include_chunks : bool) (st : GraphIndex.state) : Prop :=
  (forall e, e ∈ GraphIndex.heap st ->
     entry_ok self seeds max_hops commune_filter include_chunks
       (GraphIndex.visited st) e) /\
  (forall p, p ∈ GraphIndex.paths st ->
     path_ok self max_hops commune_filter include_chunks (GraphIndex.visited st) p) /\
  NoDup (map GraphIndex.path_target (GraphIndex.paths st)) /\
  (forall x, od_mem x (GraphIndex.visited st) = true ->
     (x ∈ seeds /\ GraphIndex.has_entity self x = true) \/
     x ∈ map GraphIndex.path_target (GraphIndex.paths st)) /\
  Z.of_nat (length (GraphIndex.visited st)) <= Z.max 0 max_results /\
  NoDup (od_keys (GraphIndex.visited st)).

(** ** expand_via_index (server.py)

    The index is the one [ensure_graph_index_initialized] returns;
    [commune_ids] is a set or [None], and an empty set filters nothing. *)
Definition expand_via_index (index : GraphIndex.t) (seed_entities : list string)
    (commune_ids : option (gset string)) (max_hops max_results : Z)
    : option (list GraphIndex.entity_t * list GraphIndex.path_t) :=
  let commune_filter :=
    if GraphIndex.filter_active commune_ids then commune_ids else None in
  GraphIndex.expand_weighted index seed_entities max_hops max_results
    commune_filter true.

(** how the traversal weights come about, with sums taken exactly: the
    entry queued for a seed has weight 0, an entry queued from a settled id
    carries that id's weight plus the edge weight and the type bonus of its
    target; the settled weights of the two ends of a recorded path differ
    by the path weight and the type bonus of the target; a settled id that
    no path leads to has weight 0 *)
Definition weights_inv (self : GraphIndex.t) (st : GraphIndex.state) : Prop :=
  NoDup (od_keys (GraphIndex.visited st)) /\
  (forall x, x ∈ GraphIndex.heap st ->
     match GraphIndex.he_came_from x with
     | None => GraphIndex.he_neg_weight x = 0%Q
     | Some c =>
         exists w,
           od_get (GraphIndex.cf_source c) (GraphIndex.visited st) = Some w /\
           GraphIndex.he_neg_weight x =
             (- (w + GraphIndex.cf_weight c +
                 GraphIndex.type_bonus
                   (GraphIndex.get_entity self (GraphIndex.he_entity_id x))))%Q
     end) /\
  (forall p, p ∈ GraphIndex.paths st ->
     exists w_source w_target,
       od_get (GraphIndex.path_source p) (GraphIndex.visited st) = Some w_source /\
       od_get (GraphIndex.path_target p) (GraphIndex.visited st) = Some w_target /\
       (w_target ==
        w_source + GraphIndex.path_weight p +
        GraphIndex.type_bonus (GraphIndex.get_entity self (GraphIndex.path_target p)))%Q) /\
  (forall x w, od_get x (GraphIndex.visited st) = Some w ->
     x ∉ map GraphIndex.path_target (GraphIndex.paths st) -> (w == 0)%Q).

(** with edge weights that are not negative, no queued or settled weight
    is negative *)
Definition weights_nonneg (st : GraphIndex.state) : Prop :=
  (forall x, x ∈ GraphIndex.heap st -> (GraphIndex.he_neg_weight x <= 0)%Q) /\
  (forall x w, (x, w) ∈ GraphIndex.visited st -> (0 <= w)%Q).

(** * GraphIndex: what loading stores *)

(** the communes of a list whose graph file exists and parses *)
Definition loadable (data_path : gmap string commune_dir) (commune_ids : list string)
    : list string :=
  filter (fun c => is_Some (graph_of data_path c)) commune_ids.

(** [name.upper().strip()], the key of the name index *)
Definition normalize_name (name : string) : string := py_strip (str_upper name).

(** the metadata [_load_commune] stores for a node element *)
Definition node_entity_name (key_map : gmap string string) (node : xml_node) : string :=
  str_or (GraphIndex.get_data key_map (node_data node) "entity_name") (node_id_of node).

Definition node_metadata (commune_id : string) (key_map : gmap string string)
    (node : xml_node) : EntityMetadata.t :=
  EntityMetadata.mk (node_entity_name key_map node)
    (str_or (GraphIndex.get_data key_map (node_data node) "entity_type") "UNKNOWN")
    (str_take 300 (GraphIndex.get_data key_map (node_data node) "description"))
    commune_id (node_id_of node).

(** the chunk ids of the [source_id] attribute of a node element *)
Definition node_chunk_ids (key_map : gmap string string) (node : xml_node)
    : list string :=
  filter (fun s => str_nonempty s = true)
    (map py_strip
       (py_split "<SEP>" (GraphIndex.get_data key_map (node_data node) "source_id"))).

(** the chunk store of a commune, when it exists and parses *)
Definition chunks_of (data_path : gmap string commune_dir) (commune_id : string)
    : option (odict string chunk_info) :=
  match data_path !! commune_id with
  | Some dir =>
      match chunks_file dir with
      | Parsed chunks_data => Some chunks_data
      | _ => None
      end
  | None => None
  end.

(** the records [_load_commune_chunks] stores for an entry of the chunk
    store *)
Definition chunk_metadata (commune_id chunk_id : string) (info : chunk_info)
    : ChunkMetadata.t :=
  ChunkMetadata.mk chunk_id (default EmptyString (ci_content info))
    (default 0 (ci_tokens info)) (default 0 (ci_chunk_order_index info))
    (default EmptyString (ci_full_doc_id info)) commune_id
    (ci_contribution_number info) (ci_contribution_type info) (ci_demographic info).

Definition chunk_entity (commune_id chunk_id : string) (info : chunk_info)
    : EntityMetadata.t :=
  EntityMetadata.mk ("CONTRIBUTION_" +:+ pretty (default 0 (ci_chunk_order_index info)))
    "CHUNK" (str_take 200 (default EmptyString (ci_content info))) commune_id chunk_id.

(** [e'], an entry under the target of [e], leads back to [x] with the
    weight of [e] and its relationship type, or its provenance
    counterpart *)
Definition mirror_of (x : string) (e e' : EdgeInfo.t) : Prop :=
  EdgeInfo.target e' = x /\
  EdgeInfo.weight e' = EdgeInfo.weight e /\
  (EdgeInfo.rel_type e' = EdgeInfo.rel_type e \/
   (EdgeInfo.rel_type e = "HAS_SOURCE" /\ EdgeInfo.rel_type e' = "SOURCED_BY") \/
   (EdgeInfo.rel_type e = "SOURCED_BY" /\ EdgeInfo.rel_type e' = "HAS_SOURCE")).

(** every adjacency entry carries the table weight of its relationship
    type and has a mirror entry under its target *)
Definition adjacency_symmetric (adj : gmap string (list EdgeInfo.t)) : Prop :=
  forall x e, e ∈ default [] (adj !! x) ->
    EdgeInfo.weight e =
      od_get_default (EdgeInfo.rel_type e) (1 # 10) RELATIONSHIP_WEIGHTS /\
    exists e', e' ∈ default [] (adj !! EdgeInfo.target e) /\ mirror_of x e e'.

(** ** A small commune with a chunk store

    One entity E whose [source_id] names the chunks c1 and c2, and a chunk
    store holding c1 and c3. *)

Definition sourced_node : xml_node :=
  {| node_id_attr := "E";
     node_data := [ {| data_key := "d1"; data_text := Some "THEME" |};
                    {| data_key := "d3"; data_text := Some "c1<SEP>c2" |} ] |}.

Definition sourced_graphml : graphml :=
  {| graphml_keys := demo_keys; graphml_nodes := [sourced_node]; graphml_edges := [] |}.

Definition sourced_chunk (i : Z) (text : string) : chunk_info :=
  {| ci_content := Some text; ci_tokens := Some 2; ci_chunk_order_index := Some i;
     ci_full_doc_id := None; ci_contribution_number := None;
     ci_contribution_type := None; ci_demographic := None |}.

Definition sourced_chunks : odict string chunk_info :=
  [("c1", sourced_chunk 0 "plus de trains"); ("c3", sourced_chunk 1 "moins de taxes")].

Definition sourced_data_path : gmap string commune_dir :=
  {[ "demo" := {| graphml_file := Parsed sourced_graphml;
                  chunks_file := Parsed sourced_chunks |} ]}.

Definition sourced_index : GraphIndex.t :=
  GraphIndex.initialize (GraphIndex.__init__ sourced_data_path) (Some ["demo"]).

(** the order of [sorted] on strings *)
Definition string_le (a b : string) : Prop := String.leb a b = true.

(** what the records of an index say about themselves, [communes] being
    the communes loaded: an entity is stored under its node id and belongs
    to a loaded commune; a chunk is stored under its chunk id, belongs to a
    loaded commune and has an entity by its side; a name leads to the
    non-empty id of a stored entity *)
Definition index_consistent (communes : gset string) (self : GraphIndex.t) : Prop :=
  (forall k md, GraphIndex._entities self !! k = Some md ->
     EntityMetadata.node_id md = k /\ EntityMetadata.commune md ∈ communes) /\
  (forall k cm, GraphIndex._chunks self !! k = Some cm ->
     ChunkMetadata.chunk_id cm = k /\ ChunkMetadata.commune cm ∈ communes /\
     is_Some (GraphIndex._entities self !! k)) /\
  (forall n k, GraphIndex._name_index self !! n = Some k ->
     str_nonempty k = true /\ is_Some (GraphIndex._entities self !! k)).

(** * CommunityCache: stored communities and search results *)

(** [self._communities.get(commune_id, {}).get(comm_id)] *)
Definition stored (self : CommunityCache.t) (commune_id comm_id : string)
    : option Community.t :=
  default ∅ (CommunityCache._communities self !! commune_id) !! comm_id.

(** the commune and the key a result records *)
Definition result_commune (r : result_t) : string :=
  Community.commune_id (res_community r).

Definition result_key (r : result_t) : string * string :=
  (Community.commune_id (res_community r), Community.community_id (res_community r)).

(** every stored community records the commune and the id it is stored
    under *)
Definition stored_keys (self : CommunityCache.t) : Prop :=
  forall commune_id comm_id community,
    stored self commune_id comm_id = Some community ->
    Community.commune_id community = commune_id /\
    Community.community_id community = comm_id.

(** [sorted(scores.items(), key=lambda x: x[1], reverse=True)] for a query *)
Definition sorted_matches (rt : runtime) (self : CommunityCache.t) (query : string)
    : list (string * string * Z) :=
  py_sorted_desc (fun m : string * string * Z => inject_Z (snd m))
    (CommunityCache.search_scores self (CommunityCache.query_words rt query)).

(** the communes of the matches of a query *)
Definition matched_communes (rt : runtime) (self : CommunityCache.t) (query : string)
    : gset string :=
  list_to_set (map (fun m : string * string * Z => fst (fst m))
                 (CommunityCache.search_scores self
                    (CommunityCache.query_words rt query))).

(** [r] is the result built for the match [m]: the stored community of its
    key with its score *)
Definition result_for (self : CommunityCache.t) (m : string * string * Z)
    (r : result_t) : Prop :=
  stored self (fst (fst m)) (snd (fst m)) = Some (res_community r) /\
  res_score r = snd m.

(** the cache loaded from the two-title data path *)
Definition eau_cache : CommunityCache.t :=
  CommunityCache._refresh_cache insertion_order eau_data_path CommunityCache.__init__.

(** the cache loaded from the report file with the odd ratings *)
Definition odd_cache : CommunityCache.t :=
  CommunityCache._refresh_cache insertion_order odd_reports_path CommunityCache.__init__.

(** every stored community comes from an entry of a report file of
    [data_path] that was read and passes the report and rating checks *)
Definition stored_from (rt : runtime) (data_path : list (string * file json))
    (self : CommunityCache.t) : Prop :=
  forall commune_id comm_id community,
    stored self commune_id comm_id = Some community ->
    exists data comm_data,
      (commune_id, Parsed (JObject data)) ∈ data_path /\
      (comm_id, comm_data) ∈ entries_read rt data /\
      community_of commune_id comm_id comm_data = Some community.

(** two communities that match the words "chat" and "chien" with the same
    score, each under one of the two words *)
Definition tie_data_path : list (string * file json) :=
  [("rochefort",
    Parsed (JObject
      [("x", JObject [("report_json",
                       JObject [("title", JString "chat"); ("summary", JString "");
                                ("rating", JInt 5)])]);
       ("y", JObject [("report_json",
                       JObject [("title", JString "chien"); ("summary", JString "");
                                ("rating", JInt 5)])])]))].

(** * Retrieval helpers (server.py) *)

(** [l[:n]]: a negative [n] counts from the end *)
Definition py_slice_to {A : Type} (n : Z) (l : list A) : list A :=
  if (n <? 0)%Z then take (length l - Z.to_nat (- n)) l else take (Z.to_nat n) l.

(** ** search_entities_globally

    [items] is [index._entities.items()], in the order in which the
    dictionary of the index enumerates its entries. *)

Definition global_stop_words : list string :=
  stop_words ++
  ["tous"; "tout"; "plus"; "moins"; "entre"; "comme";
   String "234"%char "tre"; "avoir"].

(** the elements of [set(re.findall(..., query.lower())) - stop_words] as a
    list without repetition *)
Definition global_word_set (query : string) : list string :=
  filter (fun w => w ∉ global_stop_words)
    (remove_dups (findall_words (str_lower query))).

(** the words of a query, in the order in which the scoring loop takes
    them *)
Definition global_query_words (rt : runtime) (query : string) : list string :=
  set_order rt (global_word_set query).

(** a scored entity [{'id', 'name', 'type', 'description', 'commune', 'score'}] *)
Record scored_entity : Type := {
  se_id : string;
  se_name : string;
  se_type : string;
  se_description : string;
  se_commune : string;
  se_score : Z
}.

(** one iteration of [for keyword in query_words]: name match = 5 points,
    description match = 1 point *)
Definition keyword_score (name_lower desc_lower : string) (score : Z)
    (keyword : string) : Z :=
  let score := if is_substring keyword name_lower then score + 5 else score in
  if is_substring keyword desc_lower then score + 1 else score.

Definition entity_score (query_words : list string) (metadata : EntityMetadata.t) : Z :=
  foldl (keyword_score (str_lower (EntityMetadata.name metadata))
           (str_lower (EntityMetadata.description metadata)))
        0 query_words.

(** one iteration of [for entity_id, metadata in index._entities.items()] *)
Definition score_entity (query_words : list string)
    (item : string * EntityMetadata.t) : option scored_entity :=
  let (entity_id, metadata) := item in
  let score := entity_score query_words metadata in
  if (0 <? score)%Z then
    Some {| se_id := entity_id;
            se_name := EntityMetadata.name metadata;
            se_type := EntityMetadata.entity_type metadata;
            se_description := EntityMetadata.description metadata;
            se_commune := EntityMetadata.commune metadata;
            se_score := score |}
  else None.

Definition search_entities_globally (rt : runtime)
    (items : list (string * EntityMetadata.t))
    (query : string) (max_results : Z) : list scored_entity :=
  match global_query_words rt query with
  | [] => []
  | query_words =>
      py_slice_to max_results
        (py_sorted_desc (fun e => inject_Z (se_score e))
           (omap (score_entity query_words) items))
  end.

(** what a query word adds to the score of an entity *)
Definition keyword_points (metadata : EntityMetadata.t) (keyword : string) : Z :=
  (if is_substring keyword (str_lower (EntityMetadata.name metadata)) then 5 else 0) +
  (if is_substring keyword (str_lower (EntityMetadata.description metadata))
   then 1 else 0).

(** ** select_communities_by_keywords and extract_entities_from_communities

    [cache] is the cache [ensure_community_cache_initialized] returns. *)

Definition select_communities_by_keywords (rt : runtime) (cache : CommunityCache.t)
    (query : string) (max_communes : Z) : list result_t :=
  CommunityCache.search rt cache query 15 max_communes.

(** [for node_id in v]: the items of a list, the characters of a string,
    the keys of a dictionary; no other value can be iterated *)
Definition py_iter (v : json) : option (list json) :=
  match v with
  | JArray items => Some items
  | JString s => Some (map (fun c => JString (String c EmptyString)) (list_ascii_of_string s))
  | JObject members => Some (map (fun kv : string * json => JString (fst kv)) members)
  | _ => None
  end.

(** [str(node_id).strip()] followed by [.strip] of the double quote *)
Definition clean_node_id (rt : runtime) (node_id : json) : string :=
  strip_quotes (py_strip (py_str rt node_id)).

(** the nodes that the two loops visit; [None] when the nodes of a
    community cannot be iterated and the function raises *)
Fixpoint all_nodes (communities : list result_t) : option (list json) :=
  match communities with
  | [] => Some []
  | comm :: communities' =>
      match py_iter (Community.nodes (res_community comm)) with
      | Some nodes =>
          match all_nodes communities' with
          | Some nodes' => Some (nodes ++ nodes')
          | None => None
          end
      | None => None
      end
  end.

(** the elements of [entity_set] as a list without repetition *)
Definition entity_set (rt : runtime) (nodes : list json) : list string :=
  remove_dups
    (filter (fun clean_id => str_nonempty clean_id = true)
       (map (clean_node_id rt) nodes)).

Definition extract_entities_from_communities (rt : runtime)
    (communities : list result_t) : option (list string) :=
  match all_nodes communities with
  | Some nodes => Some (take 100 (set_order rt (entity_set rt nodes)))
  | None => None
  end.

(** a string between double quotes *)
Definition quoted (s : string) : string :=
  String "034"%char (s +:+ String "034"%char EmptyString).

(** a community with a node list *)
Definition noded_data_path : list (string * file json) :=
  [("rochefort",
    Parsed (JObject
      [("a", JObject [("report_json",
                       JObject [("title", JString "eau"); ("summary", JString "lac");
                                ("rating", JFloat (Finite 7))]);
                      ("nodes", JArray [JString (quoted "EAU"); JString " EAU ";
                                        JInt 7; JString (quoted EmptyString)])])]))].

Definition noded_cache : CommunityCache.t :=
  CommunityCache._refresh_cache insertion_order noded_data_path CommunityCache.__init__.

(** ** get_commune_path and load_chunks_parallel

    [data_path] holds the directories under the data path by name. *)

Definition replace_space (c : ascii) : ascii :=
  if (nat_of_ascii c =? 32)%nat then "_"%char else c.

(** [s.replace(' ', '_')] *)
Fixpoint replace_spaces (s : string) : string :=
  match s with
  | EmptyString => EmptyString
  | String c s' => String (replace_space c) (replace_spaces s')
  end.

Definition get_commune_path (data_path : gmap string commune_dir) (commune_id : string)
    : option commune_dir :=
  match data_path !! commune_id with
  | Some dir => Some dir
  | None => data_path !! replace_spaces commune_id
  end.

(** a loaded chunk [{'id', 'content', 'commune'}] *)
Record chunk_quote : Type := {
  cq_id : string;
  cq_content : string;
  cq_commune : string
}.

(** one iteration of [for chunk_id, commune in chunk_requests] on the
    [defaultdict(list)] *)
Definition group_request (chunks_by_commune : odict string (list string))
    (request : string * string) : odict string (list string) :=
  let (chunk_id, commune) := request in
  if str_nonempty commune then
    od_set commune (od_get_default commune [] chunks_by_commune ++ [chunk_id])
      chunks_by_commune
  else chunks_by_commune.

(** one iteration of [for chunk_id in chunk_ids[:max_chunks_per_commune]] *)
Definition load_chunk_quote (text_chunks : odict string chunk_info) (commune_id : string)
    (chunk_id : string) : option chunk_quote :=
  match od_get chunk_id text_chunks with
  | Some chunk_data =>
      Some {| cq_id := chunk_id;
              cq_content := str_take 500 (default EmptyString (ci_content chunk_data));
              cq_commune := commune_id |}
  | None => None
  end.

(** the local function [load_commune_chunks] *)
Definition load_commune_chunks (data_path : gmap string commune_dir)
    (max_chunks_per_commune : Z) (commune_id : string) (chunk_ids : list string)
    : list chunk_quote :=
  match get_commune_path data_path commune_id with
  | Some commune_path =>
      match chunks_file commune_path with
      | Parsed text_chunks =>
          omap (load_chunk_quote text_chunks commune_id)
               (py_slice_to max_chunks_per_commune chunk_ids)
      | _ => []
      end
  | None => []
  end.

Definition load_chunks_parallel (data_path : gmap string commune_dir)
    (chunk_requests : list (string * string)) (max_chunks_per_commune : Z)
    : list chunk_quote :=
  let chunks_by_commune := foldl group_request [] chunk_requests in
  flat_map (fun task : string * list string =>
              load_commune_chunks data_path max_chunks_per_commune (fst task) (snd task))
           chunks_by_commune.

(** the chunk ids requested for a commune, in request order *)
Definition requested_for (commune : string) (chunk_requests : list (string * string))
    : list string :=
  map fst (filter (fun request : string * string => snd request = commune) chunk_requests).
(** * Verification *)

Lemma Qltb_lt (a b : Q) : Qltb a b = true <-> (a < b)%Q.
Proof.
  unfold Qltb. rewrite negb_true_iff.
  destruct (Qle_bool b a) eqn:E.
  - apply Qle_bool_iff in E. split; [discriminate | intros; lra].
  - split; [intros _ | reflexivity].
    apply Qnot_le_lt. intros H. apply Qle_bool_iff in H. congruence.
Qed.

Lemma Qltb_ge (a b : Q) : Qltb a b = false <-> (b <= a)%Q.
Proof.
  unfold Qltb. rewrite negb_false_iff. apply Qle_bool_iff.
Qed.

Lemma Ok_inj {A : Type} (a b : A) : Ok a = Ok b -> a = b.
Proof. intros [= ->]. reflexivity. Qed.

(** ** Facts about insertion-ordered dictionaries *)

Section OrderedDictFacts.
Context {K V : Type} `{EqDecision K}.
Implicit Types (d : odict K V) (k : K) (v : V).

Lemma od_mem_spec k d : od_mem k d = true <-> k ∈ od_keys d.
Proof.
  unfold od_mem, od_keys. induction d as [|[k' v] d IH].
  - split; [discriminate | intros H; inversion H].
  - rewrite fmap_cons, elem_of_cons. cbn [fst od_get]. destruct (decide (k = k')) as [->|Hne].
    + split; auto.
    + rewrite IH. simpl. split; [auto | intros [Heq|Hin]; [congruence | auto]].
Qed.

Lemma od_mem_false k d : od_mem k d = false <-> k ∉ od_keys d.
Proof.
  rewrite <- od_mem_spec. destruct (od_mem k d); split; congruence.
Qed.

Lemma od_get_None k d : od_get k d = None <-> k ∉ od_keys d.
Proof.
  rewrite <- od_mem_false. unfold od_mem.
  destruct (od_get k d); split; congruence.
Qed.

Lemma od_get_elem k v d : od_get k d = Some v -> (k, v) ∈ d.
Proof.
  induction d as [|[k' v'] d IH]; simpl; [discriminate|].
  destruct (decide (k = k')) as [->|Hne].
  - intros [= ->]. apply elem_of_cons; auto.
  - intros. apply elem_of_cons; auto.
Qed.

Lemma od_elem_get k v d : NoDup (od_keys d) -> (k, v) ∈ d -> od_get k d = Some v.
Proof.
  unfold od_keys. induction d as [|[k' v'] d IH]; intros Hnd Hin.
  - inversion Hin.
  - rewrite fmap_cons in Hnd. cbn [fst od_get] in *.
    apply NoDup_cons in Hnd as [Hnotin Hnd].
    apply elem_of_cons in Hin as [[= -> ->]|Hin].
    + destruct (decide (k' = k')); congruence.
    + destruct (decide (k = k')) as [->|Hne]; [|auto].
      exfalso. apply Hnotin. apply (list_elem_of_fmap_2 fst) in Hin. exact Hin.
Qed.

Lemma od_get_set_eq k v d : od_get k (od_set k v d) = Some v.
Proof.
  induction d as [|[k' v'] d IH]; simpl.
  - destruct (decide (k = k)); congruence.
  - destruct (decide (k = k')) as [->|Hne]; simpl.
    + destruct (decide (k' = k')); congruence.
    + destruct (decide (k = k')); congruence.
Qed.

Lemma od_get_set_ne k k' v d :
  k <> k' -> od_get k' (od_set k v d) = od_get k' d.
Proof.
  intros Hne. induction d as [|[k0 v0] d IH]; simpl.
  - destruct (decide (k' = k)); congruence.
  - destruct (decide (k = k0)) as [->|Hne0]; simpl.
    + destruct (decide (k' = k0)); congruence.
    + destruct (decide (k' = k0)); congruence.
Qed.

Lemma od_keys_set k v d :
  od_keys (od_set k v d) =
  if od_mem k d then od_keys d else od_keys d ++ [k].
Proof.
  unfold od_mem, od_keys. induction d as [|[k0 v0] d IH]; [reflexivity|].
  cbn [od_set od_get]. destruct (decide (k = k0)) as [->|Hne]; [reflexivity|].
  rewrite !fmap_cons, IH. destruct (od_get k d); reflexivity.
Qed.

Lemma od_keys_del k d :
  NoDup (od_keys d) ->
  od_keys (od_del k d) = filter (fun k' => k' ≠ k) (od_keys d).
Proof.
  unfold od_keys. induction d as [|[k0 v0] d IH]; intros Hnd; [reflexivity|].
  rewrite fmap_cons in Hnd. apply NoDup_cons in Hnd as [Hnotin Hnd].
  cbn [od_del]. rewrite fmap_cons. cbn [fst].
  destruct (decide (k = k0)) as [->|Hne].
  - rewrite filter_cons_False by (intros ?; congruence).
    symmetry. clear IH Hnd.
    induction d as [|[k1 v1] d IH]; [reflexivity|].
    rewrite fmap_cons in *. cbn [fst] in *.
    apply not_elem_of_cons in Hnotin as [Hne Hnotin].
    rewrite filter_cons_True by congruence.
    f_equal. apply IH. assumption.
  - rewrite filter_cons_True by congruence. rewrite fmap_cons. cbn [fst].
    f_equal. auto.
Qed.

Lemma od_get_del_eq k d : NoDup (od_keys d) -> od_get k (od_del k d) = None.
Proof.
  intros Hnd. apply od_get_None. rewrite od_keys_del by assumption.
  intros Hin. apply list_elem_of_filter in Hin. tauto.
Qed.

Lemma od_get_del_ne k k' d : k <> k' -> od_get k' (od_del k d) = od_get k' d.
Proof.
  intros Hne. induction d as [|[k0 v0] d IH]; simpl; [reflexivity|].
  destruct (decide (k = k0)) as [->|Hne0]; simpl.
  - destruct (decide (k' = k0)); congruence.
  - destruct (decide (k' = k0)); congruence.
Qed.

Lemma od_del_length k d :
  od_mem k d = true -> S (length (od_del k d)) = length d.
Proof.
  unfold od_mem. induction d as [|[k0 v0] d IH]; simpl; [discriminate|].
  destruct (decide (k = k0)) as [->|Hne]; simpl; [reflexivity|].
  intros H. f_equal. auto.
Qed.

Lemma od_del_notin k d : od_mem k d = false -> od_del k d = d.
Proof.
  unfold od_mem. induction d as [|[k0 v0] d IH]; simpl; [reflexivity|].
  destruct (decide (k = k0)) as [->|Hne]; simpl.
  - destruct (decide (k0 = k0)); [discriminate | congruence].
  - destruct (decide (k = k0)); [congruence|]. intros H. f_equal. auto.
Qed.

Lemma od_keys_NoDup_set k v d :
  NoDup (od_keys d) -> NoDup (od_keys (od_set k v d)).
Proof.
  intros Hnd. rewrite od_keys_set. destruct (od_mem k d) eqn:E; [assumption|].
  apply od_mem_false in E.
  apply NoDup_app. split; [assumption|]. split.
  - intros x Hx Hx'. apply list_elem_of_singleton in Hx'. subst. auto.
  - apply NoDup_singleton.
Qed.

Lemma od_keys_NoDup_del k d :
  NoDup (od_keys d) -> NoDup (od_keys (od_del k d)).
Proof.
  intros Hnd. rewrite od_keys_del by assumption.
  apply NoDup_filter, Hnd.
Qed.

End OrderedDictFacts.

(** ** Facts about [py_min] and [py_sorted] *)

Section MinSortedFacts.
Context {A : Type}.
Variable f : A -> Q.

Local Abbreviation min_from := (min_from f).
Local Abbreviation py_min := (py_min f).
Local Abbreviation insert_sorted := (insert_sorted f).
Local Abbreviation py_sorted := (py_sorted f).
Local Abbreviation key_le := (key_le f).

Lemma min_from_elem best rest : min_from best rest ∈ best :: rest.
Proof.
  revert best. induction rest as [|x rest IH]; intros best; simpl.
  - apply list_elem_of_singleton. reflexivity.
  - specialize (IH (if Qltb (f x) (f best) then x else best)).
    apply elem_of_cons in IH as [->|IH].
    + destruct (Qltb (f x) (f best)); rewrite !elem_of_cons; auto.
    + rewrite !elem_of_cons; auto.
Qed.

Lemma min_from_le_best best rest : (f (min_from best rest) <= f best)%Q.
Proof.
  revert best. induction rest as [|x rest IH]; intros best; simpl.
  - lra.
  - specialize (IH (if Qltb (f x) (f best) then x else best)).
    destruct (Qltb (f x) (f best)) eqn:E; [|assumption].
    apply Qltb_lt in E. lra.
Qed.

Lemma min_from_least best rest y :
  y ∈ best :: rest -> (f (min_from best rest) <= f y)%Q.
Proof.
  revert best. induction rest as [|x rest IH]; intros best Hy; simpl.
  - apply list_elem_of_singleton in Hy. subst. lra.
  - pose proof (min_from_le_best (if Qltb (f x) (f best) then x else best) rest) as H.
    apply elem_of_cons in Hy as [Heq|Hy]; [subst y|].
    + destruct (Qltb (f x) (f best)) eqn:E; [|assumption].
      apply Qltb_lt in E. lra.
    + apply elem_of_cons in Hy as [Heq|Hy]; [subst y|].
      * destruct (Qltb (f x) (f best)) eqn:E; [assumption|].
        apply Qltb_ge in E. lra.
      * apply IH. rewrite elem_of_cons. auto.
Qed.

Lemma py_min_spec l x :
  py_min l = Ok x -> x ∈ l /\ forall y, y ∈ l -> (f x <= f y)%Q.
Proof.
  destruct l as [|a l]; simpl; [discriminate|]. intros [= <-]. split.
  - apply min_from_elem.
  - intros y Hy. apply min_from_least, Hy.
Qed.

Lemma insert_sorted_perm x l : Permutation (insert_sorted x l) (x :: l).
Proof.
  induction l as [|y l IH]; simpl; [reflexivity|].
  destruct (Qle_bool (f x) (f y)); [reflexivity|].
  rewrite IH. apply perm_swap.
Qed.

Lemma py_sorted_perm l : Permutation (py_sorted l) l.
Proof.
  induction l as [|x l IH]; simpl; [reflexivity|].
  rewrite insert_sorted_perm. constructor. exact IH.
Qed.

Lemma insert_sorted_sorted x l :
  StronglySorted key_le l -> StronglySorted key_le (insert_sorted x l).
Proof.
  induction 1 as [|y l Hs IH Hall]; simpl.
  - repeat constructor.
  - destruct (Qle_bool (f x) (f y)) eqn:E.
    + apply Qle_bool_iff in E. constructor; [constructor; assumption|].
      constructor; [exact E|].
      eapply List.Forall_impl; [|exact Hall].
      intros z Hz. unfold key_le in *. lra.
    + assert (f y <= f x)%Q as Hyx.
      { apply Qlt_le_weak, Qnot_le_lt. intros H. apply Qle_bool_iff in H. congruence. }
      constructor; [exact IH|].
      apply List.Forall_forall. intros z Hz.
      apply (Permutation_in _ (insert_sorted_perm x l)) in Hz.
      destruct Hz as [<-|Hz]; [exact Hyx|].
      rewrite List.Forall_forall in Hall. auto.
Qed.

Lemma py_sorted_sorted l : StronglySorted key_le (py_sorted l).
Proof.
  induction l as [|x l IH]; simpl; [constructor|].
  apply insert_sorted_sorted, IH.
Qed.

Lemma insert_sorted_desc_perm x l :
  Permutation (insert_sorted_desc f x l) (x :: l).
Proof.
  induction l as [|y l IH]; simpl; [reflexivity|].
  destruct (Qle_bool _ _); [reflexivity|].
  rewrite IH. apply perm_swap.
Qed.

Lemma py_sorted_desc_perm l : Permutation (py_sorted_desc f l) l.
Proof.
  induction l as [|x l IH]; simpl; [reflexivity|].
  rewrite insert_sorted_desc_perm. constructor. exact IH.
Qed.

Lemma In_skipn_In (n : nat) (l : list A) (y : A) :
  In y (skipn n l) -> In y l.
Proof.
  revert n. induction l as [|a l IH]; intros [|n]; simpl; auto.
  intros H. right. eauto.
Qed.

Lemma sorted_firstn_le n l x y :
  StronglySorted key_le l ->
  In x (firstn n l) -> In y (skipn n l) -> (f x <= f y)%Q.
Proof.
  intros Hs. revert n. induction Hs as [|a l Hs IH Hall]; intros n Hx Hy.
  - destruct n; simpl in *; contradiction.
  - destruct n as [|n]; simpl in *; [contradiction|].
    destruct Hx as [<-|Hx].
    + rewrite List.Forall_forall in Hall. apply Hall.
      eapply In_skipn_In. exact Hy.
    + eauto.
Qed.
End MinSortedFacts.

Lemma filter_none {A : Type} (P : A -> Prop) `{forall x, Decision (P x)} (l : list A) :
  (forall x, x ∈ l -> ~ P x) -> filter P l = [].
Proof.
  induction l as [|x l IH]; intros Hall; [reflexivity|].
  rewrite filter_cons_False by (apply Hall; left).
  apply IH. intros y Hy. apply Hall. right. exact Hy.
Qed.

Lemma filter_ext_elem {A : Type} (P Q : A -> Prop)
    `{forall x, Decision (P x)} `{forall x, Decision (Q x)} (l : list A) :
  (forall x, x ∈ l -> P x <-> Q x) -> filter P l = filter Q l.
Proof.
  induction l as [|x l IH]; intros Hall; [reflexivity|].
  assert (filter P l = filter Q l) as Heq
    by (apply IH; intros y Hy; apply Hall; right; exact Hy).
  destruct (decide (P x)) as [HP|HP].
  - rewrite !filter_cons_True; [f_equal; exact Heq| |exact HP].
    apply Hall; [left|exact HP].
  - rewrite !filter_cons_False; [exact Heq| |exact HP].
    intros HQ. apply HP. apply Hall; [left|exact HQ].
Qed.

Section MoreDictFacts.
Context {K V : Type} `{EqDecision K}.
Implicit Types (d : odict K V) (k : K) (v : V).

Lemma od_keys_del_all ks d :
  NoDup (od_keys d) ->
  od_keys (od_del_all ks d) = filter (fun k => k ∉ ks) (od_keys d).
Proof.
  unfold od_del_all. revert d. induction ks as [|k ks IH]; intros d Hnd; simpl.
  - symmetry. clear Hnd. induction (od_keys d) as [|x l IHl]; [reflexivity|].
    rewrite filter_cons_True by apply not_elem_of_nil. f_equal. exact IHl.
  - rewrite IH by (apply od_keys_NoDup_del, Hnd).
    rewrite od_keys_del by exact Hnd. rewrite list_filter_filter.
    apply list_filter_iff. intros x. rewrite not_elem_of_cons. tauto.
Qed.

Lemma od_del_all_NoDup ks d :
  NoDup (od_keys d) -> NoDup (od_keys (od_del_all ks d)).
Proof.
  intros Hnd. rewrite od_keys_del_all by exact Hnd. apply NoDup_filter, Hnd.
Qed.

Lemma od_get_del_all_in ks d k :
  NoDup (od_keys d) -> k ∈ ks -> od_get k (od_del_all ks d) = None.
Proof.
  intros Hnd Hin. apply od_get_None. rewrite od_keys_del_all by exact Hnd.
  intros H'. apply list_elem_of_filter in H' as [H' _]. auto.
Qed.

Lemma od_get_del_all_notin ks d k :
  k ∉ ks -> od_get k (od_del_all ks d) = od_get k d.
Proof.
  unfold od_del_all. revert d. induction ks as [|k0 ks IH]; intros d Hnot; simpl.
  - reflexivity.
  - apply not_elem_of_cons in Hnot as [Hne Hnot].
    rewrite IH by exact Hnot. apply od_get_del_ne. congruence.
Qed.

Lemma od_keys_length d : length (od_keys d) = length d.
Proof. unfold od_keys. apply length_fmap. Qed.

Lemma od_mem_keys {W : Type} (d : odict K V) (d' : odict K W) k :
  od_keys d = od_keys d' -> od_mem k d = od_mem k d'.
Proof.
  intros Heq. destruct (od_mem k d') eqn:E.
  - apply od_mem_spec. rewrite Heq. apply od_mem_spec, E.
  - apply od_mem_false. rewrite Heq. apply od_mem_false, E.
Qed.
End MoreDictFacts.

(** ** EmbeddingCache: well-formedness is preserved *)

Section EmbeddingCacheFacts.
Context {V : Type}.
Variable _hash_text : string -> string.
Import EmbeddingCache.

Lemma embedding_wf_init ttl cap : wf (@__init__ V ttl cap).
Proof. apply NoDup_nil_2. Qed.

Lemma embedding_wf_get (self : t V) text now :
  wf self -> wf (snd (get _hash_text self text now)).
Proof.
  unfold wf, get. intros Hwf.
  destruct (od_get _ _) as [[e ts]|]; [|exact Hwf].
  destruct (Qltb _ _); simpl; [|exact Hwf].
  apply od_keys_NoDup_del, Hwf.
Qed.

Lemma embedding_wf_put (self : t V) text e now self' :
  wf self -> put _hash_text self text e now = Ok self' -> wf self'.
Proof.
  unfold wf, put. intros Hwf.
  destruct (_ >=? _).
  - destruct (py_min timestamp_of (_cache self)) as [o|]; simpl; [|discriminate].
    unfold py_del. destruct (od_mem _ _); simpl; [|discriminate].
    intros [= <-]. simpl. apply od_keys_NoDup_set, od_keys_NoDup_del, Hwf.
  - simpl. intros [= <-]. simpl. apply od_keys_NoDup_set, Hwf.
Qed.

(** At capacity, [put] removes the entry [py_min] selects and nothing else. *)
Lemma embedding_put_at_capacity (self : t V) text embedding now :
  wf self ->
  _cache self <> [] ->
  Z.of_nat (length (_cache self)) >= _max_entries self ->
  exists oldest e_old t_old,
    od_get oldest (_cache self) = Some (e_old, t_old) /\
    (forall k e ts, od_get k (_cache self) = Some (e, ts) -> (t_old <= ts)%Q) /\
    put _hash_text self text embedding now =
      Ok (mk (od_set (_hash_text text) (embedding, now)
                (od_del oldest (_cache self)))
             (_ttl_seconds self) (_max_entries self) (_hits self) (_misses self)) /\
    S (length (od_del oldest (_cache self))) = length (_cache self) /\
    evicted_keys (_cache self) (od_del oldest (_cache self)) = [oldest].
Proof.
  intros Hwf Hne Hcap. unfold put.
  destruct (Z.geb_spec (Z.of_nat (length (_cache self))) (_max_entries self)) as [_|Hlt];
    [|lia].
  destruct (py_min timestamp_of (_cache self)) as [[oldest [e_old t_old]]|] eqn:Hmin.
  2:{ destruct (_cache self); [congruence | discriminate]. }
  apply py_min_spec in Hmin as [Hin Hleast].
  assert (od_get oldest (_cache self) = Some (e_old, t_old)) as Hget
    by (apply od_elem_get; assumption).
  assert (od_mem oldest (_cache self) = true) as Hmem
    by (unfold od_mem; rewrite Hget; reflexivity).
  exists oldest, e_old, t_old. split; [exact Hget|]. split; [|split; [|split]].
  - intros k e ts Hk. apply od_get_elem in Hk.
    apply (Hleast (k, (e, ts))), Hk.
  - simpl. unfold py_del. rewrite Hmem. reflexivity.
  - apply od_del_length, Hmem.
  - unfold evicted_keys.
    assert (forall k, k ∈ od_keys (_cache self) ->
              od_mem k (od_del oldest (_cache self)) = false <-> k = oldest) as Hiff.
    { intros k Hk. unfold od_mem. split.
      - intros H. destruct (decide (oldest = k)) as [->|Hneq]; [reflexivity|].
        rewrite od_get_del_ne in H by exact Hneq.
        apply od_mem_spec in Hk. unfold od_mem in Hk.
        destruct (od_get k (_cache self)); congruence.
      - intros ->. rewrite od_get_del_eq by exact Hwf. reflexivity. }
    apply od_mem_spec in Hmem. unfold wf in Hwf.
    revert Hwf Hmem Hiff. generalize (od_del oldest (_cache self)).
    generalize (od_keys (_cache self)). clear.
    induction l as [|x l IH]; intros d Hnd Hin Hiff.
    + inversion Hin.
    + apply NoDup_cons in Hnd as [Hx Hnd].
      destruct (decide (x = oldest)) as [->|Hneq].
      * rewrite filter_cons_True by (apply Hiff; [left|reflexivity]).
        f_equal. apply filter_none.
        intros y Hy Hf. apply Hiff in Hf; [|right; exact Hy]. subst. auto.
      * rewrite filter_cons_False.
        2:{ intros Hf. apply Hiff in Hf; [auto|left]. }
        apply elem_of_cons in Hin as [?|Hin]; [congruence|].
        apply IH; [exact Hnd|exact Hin|].
        intros k Hk. apply Hiff. right. exact Hk.
Qed.
End EmbeddingCacheFacts.

(** ** LLMResponseCacheSingleton: eviction of the oldest tenth *)

Section LLMCacheFacts.
Context {V : Type}.
Import LLMResponseCacheSingleton.

Lemma llm_wf_new : wf (@__new__ V).
Proof. split; [reflexivity | apply NoDup_nil_2]. Qed.

(** Deleting a list of distinct present keys never raises. *)
Lemma llm_evict_ok (ks : list string) (cache : odict string V)
    (timestamps : odict string Q) :
  od_keys cache = od_keys timestamps ->
  NoDup (od_keys cache) ->
  NoDup ks ->
  (forall k, k ∈ ks -> k ∈ od_keys cache) ->
  evict ks cache timestamps = Ok (od_del_all ks cache, od_del_all ks timestamps).
Proof.
  revert cache timestamps.
  induction ks as [|k ks IH]; intros cache timestamps Hkeys Hnd Hks Hsub; simpl.
  - reflexivity.
  - apply NoDup_cons in Hks as [Hk Hks].
    assert (od_mem k cache = true) as Hmem by (apply od_mem_spec, Hsub; left).
    assert (od_mem k timestamps = true) as Hmem'
      by (rewrite <- (od_mem_keys cache timestamps k Hkeys); exact Hmem).
    unfold py_del. rewrite Hmem, Hmem'. simpl.
    assert (NoDup (od_keys timestamps)) as Hnd' by (rewrite <- Hkeys; exact Hnd).
    apply IH.
    + rewrite !od_keys_del by assumption. rewrite Hkeys. reflexivity.
    + apply od_keys_NoDup_del, Hnd.
    + exact Hks.
    + intros k' Hk'. rewrite od_keys_del by exact Hnd.
      apply list_elem_of_filter. split; [congruence|]. apply Hsub. right. exact Hk'.
Qed.

Lemma llm_sorted_keys_perm (timestamps : odict string Q) :
  Permutation (sorted_keys timestamps) (od_keys timestamps).
Proof. apply py_sorted_perm. Qed.

Lemma firstn_NoDup {A : Type} (n : nat) (l : list A) : NoDup l -> NoDup (firstn n l).
Proof.
  revert n. induction l as [|x l IH]; intros [|n] Hnd; simpl; try apply NoDup_nil_2.
  apply NoDup_cons in Hnd as [Hx Hnd]. apply NoDup_cons. split; [|auto].
  intros Hin. apply Hx. eapply subseteq_take. exact Hin.
Qed.

Lemma firstn_skipn_elem {A : Type} (n : nat) (l : list A) (x : A) :
  x ∈ l -> x ∈ firstn n l \/ In x (skipn n l).
Proof.
  intros Hin. rewrite <- (firstn_skipn n l) in Hin.
  apply elem_of_app in Hin as [H|H]; [left; exact H|right].
  apply list_elem_of_In. exact H.
Qed.

(** What [set] does when the cache is at capacity. *)
Lemma llm_set_at_capacity (self : t V) key value now :
  wf self ->
  Z.of_nat (length (_cache self)) >= _max_entries self ->
  exists evicted,
    evicted = firstn (length (_cache self) / 10) (sorted_keys (_timestamps self)) /\
    length evicted = (length (_cache self) / 10)%nat /\
    NoDup evicted /\
    (forall k, k ∈ evicted -> k ∈ od_keys (_cache self)) /\
    (forall k k', k ∈ evicted -> k' ∈ od_keys (_cache self) -> k' ∉ evicted ->
       (default 0 (od_get k (_timestamps self)) <=
        default 0 (od_get k' (_timestamps self)))%Q) /\
    set self key value now =
      Ok (mk (od_set key value (od_del_all evicted (_cache self)))
             (od_set key now (od_del_all evicted (_timestamps self)))
             (_ttl_seconds self) (_max_entries self) (_hits self) (_misses self)) /\
    evicted_keys (_cache self) (od_del_all evicted (_cache self)) =
      filter (fun k => k ∈ evicted) (od_keys (_cache self)).
Proof.
  intros [Hkeys Hnd] Hcap.
  pose proof (llm_sorted_keys_perm (_timestamps self)) as Hperm.
  assert (length (sorted_keys (_timestamps self)) = length (_cache self)) as Hlen.
  { rewrite (Permutation_length Hperm), <- Hkeys. apply od_keys_length. }
  assert (NoDup (sorted_keys (_timestamps self))) as Hnds.
  { apply NoDup_ListNoDup. eapply Permutation_NoDup; [symmetry; exact Hperm|].
    apply NoDup_ListNoDup. rewrite <- Hkeys. exact Hnd. }
  set (evicted := firstn (length (_cache self) / 10) (sorted_keys (_timestamps self))).
  assert (forall k, k ∈ evicted -> k ∈ od_keys (_cache self)) as Hsub.
  { intros k Hk. rewrite Hkeys. apply list_elem_of_In.
    eapply Permutation_in; [exact Hperm|]. apply list_elem_of_In.
    eapply subseteq_take. exact Hk. }
  exists evicted. split; [reflexivity|]. split; [|split; [|split; [|split; [|split]]]].
  - unfold evicted. rewrite length_firstn, Hlen.
    apply Nat.min_l. apply Nat.Div0.div_le_upper_bound. lia.
  - apply firstn_NoDup, Hnds.
  - exact Hsub.
  - intros k k' Hk Hk' Hnot.
    assert (k' ∈ sorted_keys (_timestamps self)) as Hk's.
    { apply list_elem_of_In. eapply Permutation_in; [symmetry; exact Hperm|].
      apply list_elem_of_In. rewrite <- Hkeys. exact Hk'. }
    apply (firstn_skipn_elem (length (_cache self) / 10)) in Hk's as [Hin|Hin];
      [contradiction|].
    apply (sorted_firstn_le (fun k => default 0%Q (od_get k (_timestamps self)))
             (length (_cache self) / 10) (sorted_keys (_timestamps self)) k k').
    + apply py_sorted_sorted.
    + apply list_elem_of_In. exact Hk.
    + exact Hin.
  - unfold set.
    destruct (Z.geb_spec (Z.of_nat (length (_cache self))) (_max_entries self)) as [_|Hlt];
      [|lia].
    cbv zeta. rewrite Hlen. fold evicted.
    rewrite llm_evict_ok; [reflexivity|assumption|assumption| |exact Hsub].
    apply firstn_NoDup, Hnds.
  - unfold evicted_keys. apply filter_ext_elem. intros k Hk.
    unfold od_mem.
    destruct (decide (k ∈ evicted)) as [Hin|Hnot].
    + rewrite od_get_del_all_in by assumption. tauto.
    + rewrite od_get_del_all_notin by assumption. split; [|tauto].
      intros H. exfalso. apply od_mem_spec in Hk. unfold od_mem in Hk.
      destruct (od_get k (_cache self)); congruence.
Qed.
End LLMCacheFacts.

(** ** GraphRAGCache: eviction from the front *)

Section GraphRAGCacheFacts.
Context {V : Type}.
Import GraphRAGCache.

Lemma graphrag_evict_while_below (maxsize : Z) (cache : odict string (V * Q)) :
  Z.of_nat (length cache) < maxsize -> evict_while maxsize cache = Ok cache.
Proof.
  intros Hlt. destruct cache as [|x cache]; cbn [evict_while];
    match goal with |- context [?a >=? ?b] => destruct (Z.geb_spec a b) end;
    try reflexivity; lia.
Qed.

Lemma graphrag_put_at_capacity (self : t V) working_dir instance now k0 e0 rest :
  _cache self = (k0, e0) :: rest ->
  Z.of_nat (length (_cache self)) = maxsize self ->
  put self working_dir instance now =
    Ok (mk (od_set working_dir (instance, now) rest) (maxsize self)
           (ttl_seconds self) (_hits self) (_misses self)).
Proof.
  intros Hc Hlen. unfold put. rewrite Hc in *. cbn [evict_while].
  match goal with |- context [?a >=? ?b] => destruct (Z.geb_spec a b) end; [|lia].
  rewrite graphrag_evict_while_below; [reflexivity|].
  cbn [length] in Hlen. lia.
Qed.
End GraphRAGCacheFacts.

(** ** Lazy TTL expiry on [get] *)




(** ** Eviction at capacity *)

(** C1 (as the code has it). At capacity, [EmbeddingCache.put] evicts exactly
    one entry, an entry whose stored timestamp is least, and then stores the
    new entry with the current timestamp; [GraphRAGCache.put] evicts exactly
    the front entry of its ordered dictionary;
    [LLMResponseCacheSingleton.set] instead evicts the [n / 10] entries with
    the least timestamps ([n] the number of entries) before storing the new
    entry with the current timestamp. *)
Theorem C1_put_at_capacity_evicts (V : Type) :
  (forall (_hash_text : string -> string) (self : EmbeddingCache.t V)
          (text : string) (embedding : V) (now : Q),
      EmbeddingCache.wf self ->
      EmbeddingCache._cache self <> [] ->
      Z.of_nat (length (EmbeddingCache._cache self)) >= EmbeddingCache._max_entries self ->
      exists oldest e_old t_old self',
        od_get oldest (EmbeddingCache._cache self) = Some (e_old, t_old) /\
        (forall k e ts,
            od_get k (EmbeddingCache._cache self) = Some (e, ts) -> (t_old <= ts)%Q) /\
        EmbeddingCache.put _hash_text self text embedding now = Ok self' /\
        EmbeddingCache._cache self' =
          od_set (_hash_text text) (embedding, now)
                 (od_del oldest (EmbeddingCache._cache self)) /\
        evicted_keys (EmbeddingCache._cache self)
                     (od_del oldest (EmbeddingCache._cache self)) = [oldest] /\
        od_get (_hash_text text) (EmbeddingCache._cache self') = Some (embedding, now)) /\
  (forall (self : LLMResponseCacheSingleton.t V) (key : string) (value : V) (now : Q),
      LLMResponseCacheSingleton.wf self ->
      Z.of_nat (length (LLMResponseCacheSingleton._cache self)) >=
        LLMResponseCacheSingleton._max_entries self ->
      exists evicted self',
        length evicted = (length (LLMResponseCacheSingleton._cache self) / 10)%nat /\
        NoDup evicted /\
        (forall k, k ∈ evicted -> k ∈ od_keys (LLMResponseCacheSingleton._cache self)) /\
        (forall k k',
            k ∈ evicted ->
            k' ∈ od_keys (LLMResponseCacheSingleton._cache self) ->
            k' ∉ evicted ->
            (default 0 (od_get k (LLMResponseCacheSingleton._timestamps self)) <=
             default 0 (od_get k' (LLMResponseCacheSingleton._timestamps self)))%Q) /\
        LLMResponseCacheSingleton.set self key value now = Ok self' /\
        LLMResponseCacheSingleton._cache self' =
          od_set key value (od_del_all evicted (LLMResponseCacheSingleton._cache self)) /\
        LLMResponseCacheSingleton._timestamps self' =
          od_set key now (od_del_all evicted (LLMResponseCacheSingleton._timestamps self)) /\
        evicted_keys (LLMResponseCacheSingleton._cache self)
                     (od_del_all evicted (LLMResponseCacheSingleton._cache self)) =
          filter (fun k => k ∈ evicted) (od_keys (LLMResponseCacheSingleton._cache self)) /\
        od_get key (LLMResponseCacheSingleton._cache self') = Some value /\
        od_get key (LLMResponseCacheSingleton._timestamps self') = Some now) /\
  (forall (self : GraphRAGCache.t V) (working_dir : string) (instance : V) (now : Q)
          (k0 : string) (e0 : V * Q) (rest : odict string (V * Q)),
      GraphRAGCache._cache self = (k0, e0) :: rest ->
      Z.of_nat (length (GraphRAGCache._cache self)) = GraphRAGCache.maxsize self ->
      exists self',
        GraphRAGCache.put self working_dir instance now = Ok self' /\
        GraphRAGCache._cache self' = od_set working_dir (instance, now) rest /\
        od_get working_dir (GraphRAGCache._cache self') = Some (instance, now)).
Proof.
  split; [|split].
  - intros h self text e now Hwf Hne Hcap.
    destruct (embedding_put_at_capacity h self text e now Hwf Hne Hcap)
      as (oldest & e_old & t_old & Hget & Hleast & Hput & _ & Hev).
    eexists oldest, e_old, t_old, _.
    split; [exact Hget|]. split; [exact Hleast|]. split; [exact Hput|].
    simpl. split; [reflexivity|]. split; [exact Hev|]. apply od_get_set_eq.
  - intros self key value now Hwf Hcap.
    destruct (llm_set_at_capacity self key value now Hwf Hcap)
      as (evicted & _ & Hlen & Hnd & Hsub & Hle & Hset & Hev).
    eexists evicted, _.
    split; [exact Hlen|]. split; [exact Hnd|]. split; [exact Hsub|].
    split; [exact Hle|]. split; [exact Hset|]. simpl.
    split; [reflexivity|]. split; [reflexivity|]. split; [exact Hev|].
    split; apply od_get_set_eq.
  - intros self wd inst now k0 e0 rest Hc Hlen.
    eexists. split; [apply (graphrag_put_at_capacity self wd inst now k0 e0 rest Hc Hlen)|].
    simpl. split; [reflexivity|]. apply od_get_set_eq.
Qed.

Lemma C1_put_at_capacity_witness :
  (exists self',
     EmbeddingCache.put (fun s => s) embedding_two "c" 3%nat 9 = Ok self' /\
     od_get "c" (EmbeddingCache._cache self') = Some (3%nat, 9%Q)) /\
  (exists self',
     LLMResponseCacheSingleton.set llm_two "c" 3%nat 9 = Ok self' /\
     od_get "c" (LLMResponseCacheSingleton._cache self') = Some 3%nat) /\
  (exists self',
     GraphRAGCache.put graphrag_two "c" 3%nat 9 = Ok self' /\
     od_get "c" (GraphRAGCache._cache self') = Some (3%nat, 9%Q)).
Proof.
  destruct (C1_put_at_capacity_evicts nat) as (HE & HL & HG).
  split; [|split].
  - destruct (HE (fun s => s) embedding_two "c" 3%nat 9%Q)
      as (oldest & e_old & t_old & self' & _ & _ & Hput & _ & _ & Hget).
    + unfold EmbeddingCache.wf. simpl. compute_done.
    + discriminate.
    + simpl. lia.
    + exists self'. split; assumption.
  - destruct (HL llm_two "c" 3%nat 9%Q)
      as (evicted & self' & _ & _ & _ & _ & Hset & _ & _ & _ & Hget & _).
    + split; [reflexivity|]. simpl. compute_done.
    + simpl. lia.
    + exists self'. split; assumption.
  - destruct (HG graphrag_two "c" 3%nat 9%Q "a" (1%nat, 5%Q) [("b", (2%nat, 3%Q))])
      as (self' & Hput & _ & Hget).
    + reflexivity.
    + reflexivity.
    + exists self'. split; assumption.
Defined.

(** With two entries and capacity two, [EmbeddingCache.put] evicts "b", the
    older entry; [LLMResponseCacheSingleton.set] evicts nothing ([2 / 10 = 0])
    and the cache grows to three entries. *)
Example embedding_two_put :
  EmbeddingCache.put (fun s => s) embedding_two "c" 3%nat 9 =
  Ok (EmbeddingCache.mk [("a", (1%nat, 5%Q)); ("c", (3%nat, 9%Q))] 10 2 0 0).
Proof. reflexivity. Qed.

Example llm_two_set :
  LLMResponseCacheSingleton.set llm_two "c" 3%nat 9 =
  Ok (LLMResponseCacheSingleton.mk [("a", 1%nat); ("b", 2%nat); ("c", 3%nat)]
        [("a", 5%Q); ("b", 3%Q); ("c", 9%Q)] 10 2 0 0).
Proof. reflexivity. Qed.

(** [set] never raises on a well-formed cache and keeps it well formed. *)
Lemma llm_set_ok {V : Type} (self : LLMResponseCacheSingleton.t V) key value now :
  LLMResponseCacheSingleton.wf self ->
  exists self',
    LLMResponseCacheSingleton.set self key value now = Ok self' /\
    LLMResponseCacheSingleton.wf self'.
Proof.
  intros Hwf.
  destruct (Z_lt_ge_dec (Z.of_nat (length (LLMResponseCacheSingleton._cache self)))
              (LLMResponseCacheSingleton._max_entries self)) as [Hlt|Hge].
  - unfold LLMResponseCacheSingleton.set.
    destruct (Z.geb_spec (Z.of_nat (length (LLMResponseCacheSingleton._cache self)))
                (LLMResponseCacheSingleton._max_entries self)) as [?|_]; [lia|].
    simpl. eexists. split; [reflexivity|].
    destruct Hwf as [Hkeys Hnd]. split; simpl.
    + rewrite !od_keys_set, (od_mem_keys _ _ key Hkeys), Hkeys. reflexivity.
    + apply od_keys_NoDup_set, Hnd.
  - destruct (llm_set_at_capacity self key value now Hwf Hge)
      as (evicted & _ & _ & _ & _ & _ & Hset & _).
    eexists. split; [exact Hset|].
    destruct Hwf as [Hkeys Hnd].
    assert (od_keys (od_del_all evicted (LLMResponseCacheSingleton._cache self)) =
            od_keys (od_del_all evicted (LLMResponseCacheSingleton._timestamps self))) as Hk'.
    { rewrite !od_keys_del_all; [rewrite Hkeys; reflexivity| |exact Hnd].
      rewrite <- Hkeys. exact Hnd. }
    split; simpl.
    + rewrite !od_keys_set, (od_mem_keys _ _ key Hk'), Hk'. reflexivity.
    + apply od_keys_NoDup_set, od_del_all_NoDup, Hnd.
Qed.

(** Every step of [llm_filled] is a call of [set] that returned. *)
Lemma llm_filled_wf (n : nat) :
  LLMResponseCacheSingleton.wf (llm_filled n) /\
  LLMResponseCacheSingleton.set (llm_filled n) (key_of n) 0%nat
    (inject_Z (Z.of_nat n)) = Ok (llm_filled (S n)).
Proof.
  induction n as [|n [IHwf IHset]].
  - split; [apply llm_wf_new | reflexivity].
  - assert (LLMResponseCacheSingleton.wf (llm_filled (S n))) as Hwf.
    { destruct (llm_set_ok (llm_filled n) (key_of n) 0%nat (inject_Z (Z.of_nat n)) IHwf)
        as (c & Hc & Hwfc).
      rewrite IHset in Hc. injection Hc as <-. exact Hwfc. }
    split; [exact Hwf|].
    destruct (llm_set_ok (llm_filled (S n)) (key_of (S n)) 0%nat
                (inject_Z (Z.of_nat (S n))) Hwf) as (c & Hc & _).
    rewrite Hc. change (llm_filled (S (S n))) with
      (match LLMResponseCacheSingleton.set (llm_filled (S n)) (key_of (S n)) 0%nat
               (inject_Z (Z.of_nat (S n))) with
       | Ok c => c
       | Raise _ => llm_filled (S n)
       end).
    rewrite Hc. reflexivity.
Qed.

Lemma llm_full_wf : LLMResponseCacheSingleton.wf llm_full.
Proof. apply llm_filled_wf. Qed.

Lemma od_set_fresh {K V : Type} `{EqDecision K} (k : K) (v : V) (d : odict K V) :
  k ∉ od_keys d -> od_set k v d = d ++ [(k, v)].
Proof.
  unfold od_keys. induction d as [|[k' v'] d IH]; intros Hk; [reflexivity|].
  rewrite fmap_cons in Hk. apply not_elem_of_cons in Hk as [Hne Hk].
  cbn [od_set fst] in *. destruct (decide (k = k')); [congruence|].
  rewrite IH by exact Hk. reflexivity.
Qed.

Lemma key_of_inj (n m : nat) : key_of n = key_of m -> n = m.
Proof.
  unfold key_of. cbn. intros [= H]. apply pretty_nat_inj in H. exact H.
Qed.

Lemma key_of_fresh (n : nat) {V : Type} (f : nat -> V) :
  key_of n ∉ od_keys ((fun i => (key_of i, f i)) <$> seq 0 n).
Proof.
  unfold od_keys. rewrite <- list_fmap_compose.
  intros Hin. apply list_elem_of_fmap in Hin as (i & Heq & Hi).
  cbn in Heq. apply key_of_inj in Heq. subst i.
  apply elem_of_seq in Hi. lia.
Qed.

(** Below the default capacity every call of [set] appends one entry. *)
Lemma llm_filled_shape (n : nat) :
  (n <= 1000)%nat ->
  llm_filled n =
    LLMResponseCacheSingleton.mk
      ((fun i => (key_of i, 0%nat)) <$> seq 0 n)
      ((fun i => (key_of i, inject_Z (Z.of_nat i))) <$> seq 0 n)
      3600 1000 0 0.
Proof.
  induction n as [|n IH]; intros Hn; [reflexivity|].
  cbn [llm_filled]. rewrite IH by lia.
  unfold LLMResponseCacheSingleton.set.
  cbn [LLMResponseCacheSingleton._cache LLMResponseCacheSingleton._timestamps
       LLMResponseCacheSingleton._max_entries LLMResponseCacheSingleton._ttl_seconds
       LLMResponseCacheSingleton._hits LLMResponseCacheSingleton._misses].
  rewrite length_fmap, length_seq.
  destruct (Z.geb_spec (Z.of_nat n) 1000) as [?|_]; [lia|].
  cbn [bind fst snd].
  rewrite !od_set_fresh by apply key_of_fresh.
  rewrite seq_S, !fmap_app. reflexivity.
Qed.

Lemma llm_full_length : length (LLMResponseCacheSingleton._cache llm_full) = 1000%nat.
Proof.
  unfold llm_full. rewrite llm_filled_shape by lia.
  cbn [LLMResponseCacheSingleton._cache]. rewrite length_fmap, length_seq. reflexivity.
Qed.

Lemma llm_full_max_entries : LLMResponseCacheSingleton._max_entries llm_full = 1000.
Proof. unfold llm_full. rewrite llm_filled_shape by lia. reflexivity. Qed.

Lemma llm_full_fresh : "fresh" ∉ od_keys (LLMResponseCacheSingleton._cache llm_full).
Proof.
  unfold llm_full. rewrite llm_filled_shape by lia.
  cbn [LLMResponseCacheSingleton._cache]. unfold od_keys.
  rewrite <- list_fmap_compose. intros Hin.
  apply list_elem_of_fmap in Hin as (i & Heq & _). cbn in Heq. discriminate.
Qed.

Lemma evicted_keys_set {K V W : Type} `{EqDecision K}
    (before : odict K V) (after : odict K W) (key : K) (w : W) :
  key ∉ od_keys before ->
  evicted_keys before (od_set key w after) = evicted_keys before after.
Proof.
  intros Hfresh. unfold evicted_keys. apply filter_ext_elem. intros k Hk.
  unfold od_mem. rewrite od_get_set_ne; [reflexivity|]. congruence.
Qed.

Lemma filter_elem_length {A : Type} `{EqDecision A} (sub l : list A) :
  NoDup sub -> NoDup l -> (forall x, x ∈ sub -> x ∈ l) ->
  length (filter (fun x => x ∈ sub) l) = length sub.
Proof.
  intros Hsub Hl Hincl. apply Permutation_length, NoDup_Permutation.
  - apply NoDup_filter, Hl.
  - exact Hsub.
  - intros x. rewrite list_elem_of_filter. split; [tauto|]. auto.
Qed.

(** C1 as stated fails for [LLMResponseCacheSingleton.set]: the cache filled
    to its default capacity of 1000 entries loses 100 entries, not one, on the
    next [set]. *)
Lemma C1_llm_set_evicts_hundred_counterexample :
  Z.of_nat (length (LLMResponseCacheSingleton._cache llm_full)) >=
    LLMResponseCacheSingleton._max_entries llm_full /\
  (exists self',
     LLMResponseCacheSingleton.set llm_full "fresh" 0%nat 1000 = Ok self' /\
     length (evicted_keys (LLMResponseCacheSingleton._cache llm_full)
                          (LLMResponseCacheSingleton._cache self')) = 100%nat) /\
  ~ llm_set_evicts_single_oldest llm_full "fresh" 0%nat 1000.
Proof.
  assert (Z.of_nat (length (LLMResponseCacheSingleton._cache llm_full)) >=
          LLMResponseCacheSingleton._max_entries llm_full) as Hcap
    by (rewrite llm_full_length, llm_full_max_entries; lia).
  destruct (llm_set_at_capacity llm_full "fresh" 0%nat 1000%Q llm_full_wf Hcap)
    as (evicted & _ & Hlen & Hnd & Hsub & _ & Hset & Hev).
  pose proof llm_full_fresh as Hfresh.
  assert (length (evicted_keys (LLMResponseCacheSingleton._cache llm_full)
            (od_set "fresh" 0%nat
               (od_del_all evicted (LLMResponseCacheSingleton._cache llm_full)))) =
          100%nat) as Hcount.
  { rewrite evicted_keys_set by exact Hfresh. rewrite Hev.
    rewrite filter_elem_length; [|exact Hnd|apply llm_full_wf|exact Hsub].
    rewrite Hlen, llm_full_length. reflexivity. }
  split; [exact Hcap|]. split.
  - eexists. split; [exact Hset|]. exact Hcount.
  - intros (self' & oldest & Hset' & Hone & _).
    rewrite Hset in Hset'. apply Ok_inj in Hset'. subst self'.
    apply (f_equal length) in Hone.
    change (length (evicted_keys (LLMResponseCacheSingleton._cache llm_full)
              (od_set "fresh" 0%nat
                 (od_del_all evicted (LLMResponseCacheSingleton._cache llm_full)))) =
            1%nat) in Hone.
    rewrite Hcount in Hone. discriminate.
Qed.

(** * GraphIndex: verification *)

(** ** The heap *)

Section HeapFacts.
Import GraphIndex.

Lemma entry_ltb_weight a b :
  entry_ltb a b = false -> (he_neg_weight b <= he_neg_weight a)%Q.
Proof.
  unfold entry_ltb. intros H. apply orb_false_iff in H as [H _].
  apply Qltb_ge in H. exact H.
Qed.

Lemma entry_ltb_irrefl a : entry_ltb a a = false.
Proof.
  unfold entry_ltb. apply orb_false_iff. split.
  - apply Qltb_ge. lra.
  - apply andb_false_iff. right. apply orb_false_iff. split.
    + apply Z.ltb_irrefl.
    + apply andb_false_iff. right. apply Nat.ltb_irrefl.
Qed.

Lemma entry_ltb_trans_le a b c :
  entry_ltb b a = false -> entry_ltb c b = false -> entry_ltb c a = false.
Proof.
  unfold entry_ltb. intros Hab Hbc.
  apply orb_false_iff in Hab as [Hab1 Hab2].
  apply orb_false_iff in Hbc as [Hbc1 Hbc2].
  apply Qltb_ge in Hab1. apply Qltb_ge in Hbc1.
  apply orb_false_iff. split; [apply Qltb_ge; lra|].
  destruct (Qeq_bool (he_neg_weight c) (he_neg_weight a)) eqn:Eca; [|reflexivity].
  apply Qeq_bool_iff in Eca.
  assert (Qeq_bool (he_neg_weight b) (he_neg_weight a) = true) as Eba
    by (apply Qeq_bool_iff; lra).
  assert (Qeq_bool (he_neg_weight c) (he_neg_weight b) = true) as Ecb
    by (apply Qeq_bool_iff; lra).
  rewrite Eba in Hab2. rewrite Ecb in Hbc2. simpl in *.
  apply orb_false_iff in Hab2 as [Hab2 Hab3].
  apply orb_false_iff in Hbc2 as [Hbc2 Hbc3].
  apply Z.ltb_ge in Hab2. apply Z.ltb_ge in Hbc2.
  apply orb_false_iff. split; [apply Z.ltb_ge; lia|].
  destruct (Z.eqb_spec (he_depth c) (he_depth a)) as [Heq|]; [|reflexivity].
  assert (he_depth b = he_depth a) as Hba by lia.
  assert (he_depth c = he_depth b) as Hcb by lia.
  rewrite Hba, Z.eqb_refl in Hab3. rewrite Hcb, Z.eqb_refl in Hbc3. simpl in *.
  apply Nat.ltb_ge in Hab3. apply Nat.ltb_ge in Hbc3.
  apply Nat.ltb_ge. lia.
Qed.

Lemma entry_ltb_false_of_lt a b : entry_ltb a b = true -> entry_ltb b a = false.
Proof.
  unfold entry_ltb. intros H.
  apply orb_true_iff in H as [H|H].
  - apply Qltb_lt in H. apply orb_false_iff. split; [apply Qltb_ge; lra|].
    destruct (Qeq_bool (he_neg_weight b) (he_neg_weight a)) eqn:E; [|reflexivity].
    apply Qeq_bool_iff in E. lra.
  - apply andb_true_iff in H as [E H]. apply Qeq_bool_iff in E.
    apply orb_false_iff. split; [apply Qltb_ge; lra|].
    destruct (Qeq_bool (he_neg_weight b) (he_neg_weight a)); [|reflexivity].
    simpl. apply orb_true_iff in H as [H|H].
    + apply Z.ltb_lt in H. apply orb_false_iff. split; [apply Z.ltb_ge; lia|].
      destruct (Z.eqb_spec (he_depth b) (he_depth a)); [lia|reflexivity].
    + apply andb_true_iff in H as [Hd H]. apply Z.eqb_eq in Hd.
      apply Nat.ltb_lt in H. apply orb_false_iff. split; [apply Z.ltb_ge; lia|].
      apply andb_false_iff. right. apply Nat.ltb_ge. lia.
Qed.

(** [pop_min] returns a least entry and the other entries. *)
Lemma pop_min_spec e rest m r :
  pop_min e rest = (m, r) ->
  Permutation (m :: r) (e :: rest) /\
  forall x, x ∈ e :: rest -> entry_ltb x m = false.
Proof.
  revert e m r. induction rest as [|x rest IH]; intros e m r; simpl.
  - intros [= <- <-]. split; [reflexivity|].
    intros y Hy. apply list_elem_of_singleton in Hy. subst. apply entry_ltb_irrefl.
  - destruct (pop_min x rest) as [m' r'] eqn:Hp.
    destruct (IH x m' r' Hp) as [Hperm Hmin].
    destruct (entry_ltb m' e) eqn:Hlt; intros [= <- <-]; split.
    + rewrite perm_swap. constructor. exact Hperm.
    + intros y Hy. apply elem_of_cons in Hy as [->|Hy]; [|auto].
      apply entry_ltb_false_of_lt, Hlt.
    + reflexivity.
    + intros y Hy. apply elem_of_cons in Hy as [->|Hy]; [apply entry_ltb_irrefl|].
      eapply entry_ltb_trans_le; [|apply Hmin, Hy]. exact Hlt.
Qed.

Lemma heappop_spec heap m r :
  heappop heap = Some (m, r) ->
  Permutation (m :: r) heap /\ forall x, x ∈ heap -> entry_ltb x m = false.
Proof.
  destruct heap as [|e rest]; simpl; [discriminate|].
  intros [= H]. apply pop_min_spec, H.
Qed.

Lemma heappop_nonempty heap :
  heap <> [] -> exists m r, heappop heap = Some (m, r).
Proof.
  destruct heap as [|e rest]; [congruence|]. intros _. simpl.
  destruct (pop_min e rest) as [m r]. eauto.
Qed.
End HeapFacts.

(** ** The loop of [expand_weighted] terminates within [loop_fuel] *)

Section Termination.
Import GraphIndex.
Variable self : GraphIndex.t.
Variables max_hops max_results : Z.
Variable commune_filter : option (gset string).
Variable include_chunks : bool.

Local Abbreviation step := (step self max_hops commune_filter include_chunks).
Local Abbreviation loop := (loop self max_hops max_results commune_filter include_chunks).

Lemma od_mem_set {V : Type} (k x : string) (w : V) (d : odict string V) :
  od_mem k (od_set x w d) = bool_decide (k = x) || od_mem k d.
Proof.
  unfold od_mem. destruct (decide (k = x)) as [->|Hne].
  - rewrite od_get_set_eq, bool_decide_eq_true_2 by reflexivity. reflexivity.
  - rewrite od_get_set_ne by congruence.
    rewrite bool_decide_eq_false_2 by exact Hne. reflexivity.
Qed.

Lemma od_get_map_to_list {V : Type} (m : gmap string V) (x : string) :
  od_get x (map_to_list m) = m !! x.
Proof.
  destruct (m !! x) as [v|] eqn:E.
  - apply od_elem_get; [apply NoDup_fst_map_to_list|].
    apply elem_of_map_to_list, E.
  - destruct (od_get x (map_to_list m)) as [v|] eqn:E'; [|reflexivity].
    apply od_get_elem, elem_of_map_to_list in E'. congruence.
Qed.

Lemma unsettled_sum_set (l : list (string * list EdgeInfo.t)) x (w : Q) vis :
  NoDup (od_keys l) ->
  od_mem x vis = false ->
  (sum_list (map (fun kv : string * list EdgeInfo.t =>
                    if od_mem (fst kv) (od_set x w vis) then O else length (snd kv)) l)
   + length (default [] (od_get x l)) =
   sum_list (map (fun kv : string * list EdgeInfo.t =>
                    if od_mem (fst kv) vis then O else length (snd kv)) l))%nat.
Proof.
  unfold od_keys. intros Hnd Hx. induction l as [|[k v] l IH].
  - reflexivity.
  - rewrite fmap_cons in Hnd. apply NoDup_cons in Hnd as [Hk Hnd].
    specialize (IH Hnd). cbn [map sum_list fst snd od_get].
    rewrite od_mem_set. destruct (decide (x = k)) as [->|Hne].
    + rewrite bool_decide_eq_true_2 by reflexivity. rewrite Hx. cbn [orb default].
      assert (od_get k l = None) as Hnone by (apply od_get_None; exact Hk).
      rewrite Hnone in IH. cbn [default length] in IH. unfold id in *. lia.
    + rewrite bool_decide_eq_false_2 by congruence. cbn [orb].
      destruct (od_mem k vis); unfold id in *; lia.
Qed.

Lemma unsettled_degree_nil : unsettled_degree self [] = adjacency_size self.
Proof. reflexivity. Qed.

Lemma unsettled_degree_set x w vis :
  od_mem x vis = false ->
  (unsettled_degree self (od_set x w vis) + length (get_neighbors self x) =
   unsettled_degree self vis)%nat.
Proof.
  intros Hx. unfold unsettled_degree, get_neighbors.
  rewrite <- od_get_map_to_list.
  apply unsettled_sum_set; [apply NoDup_fst_map_to_list | exact Hx].
Qed.

Lemma push_neighbor_length vis id w d st edge :
  (length (fst (push_neighbor self commune_filter include_chunks vis id w d st edge))
   <= S (length (fst st)))%nat.
Proof.
  unfold push_neighbor. destruct st as [h c].
  destruct (od_mem _ _); [simpl; lia|].
  destruct (negb include_chunks && _); [simpl; lia|].
  destruct (filter_active commune_filter && _); simpl; lia.
Qed.

Lemma push_neighbors_length vis id w d edges st :
  (length (fst (foldl (push_neighbor self commune_filter include_chunks vis id w d)
                  st edges))
   <= length (fst st) + length edges)%nat.
Proof.
  revert st. induction edges as [|e edges IH]; intros st; simpl; [lia|].
  etransitivity; [apply IH|].
  pose proof (push_neighbor_length vis id w d st e). lia.
Qed.

Lemma continues_heap st : continues max_results st = true -> heap st <> [].
Proof. unfold continues. destruct (heap st); [discriminate|congruence]. Qed.

Lemma step_potential st :
  continues max_results st = true ->
  (S (potential self (step st)) <= potential self st)%nat.
Proof.
  intros Hc. apply continues_heap in Hc.
  destruct (heappop_nonempty (heap st) Hc) as (e & heap' & Hpop).
  destruct (heappop_spec _ _ _ Hpop) as [Hperm _].
  apply Permutation_length in Hperm. cbn [length] in Hperm.
  unfold GraphIndex.step, potential. rewrite Hpop.
  destruct (od_mem (he_entity_id e) (visited st)) eqn:Hmem; cbn [heap visited].
  - lia.
  - pose proof (unsettled_degree_set (he_entity_id e) (- he_neg_weight e)%Q
                  (visited st) Hmem) as Hdeg.
    destruct (he_depth e >=? max_hops); cbn [heap visited]; [lia|].
    pose proof (push_neighbors_length
                  (od_set (he_entity_id e) (- he_neg_weight e)%Q (visited st))
                  (he_entity_id e) (- he_neg_weight e)%Q (he_depth e)
                  (get_neighbors self (he_entity_id e)) (heap', counter st)) as Hlen.
    destruct (foldl _ _ _) as [heap'' counter'']. cbn [heap visited fst] in *. lia.
Qed.

Lemma loop_enough_fuel fuel st :
  (potential self st <= fuel)%nat -> exists st', loop fuel st = Some st'.
Proof.
  revert st. induction fuel as [|fuel IH]; intros st Hle; cbn [GraphIndex.loop].
  - destruct (continues max_results st) eqn:Hc; [|eauto].
    pose proof (step_potential st Hc). lia.
  - destruct (continues max_results st) eqn:Hc; [|eauto].
    apply IH. pose proof (step_potential st Hc). lia.
Qed.

Lemma init_heap_length seeds st :
  (length (fst (foldl (push_seed self) st seeds)) <= length (fst st) + length seeds)%nat.
Proof.
  revert st. induction seeds as [|s seeds IH]; intros [h c]; simpl; [lia|].
  etransitivity; [apply IH|]. destruct (has_entity self s); simpl; lia.
Qed.

Lemma init_potential seeds :
  (potential self (init_state self seeds) <= loop_fuel self seeds)%nat.
Proof.
  unfold potential, init_state, loop_fuel.
  pose proof (init_heap_length seeds ([], O)) as H.
  destruct (foldl _ _ _) as [h c]. cbn [heap visited fst length] in *.
  rewrite unsettled_degree_nil. lia.
Qed.

(** The loop returns: [loop_fuel] iterations always suffice. *)
Lemma expand_loop_total seeds :
  exists st,
    expand_loop self seeds max_hops max_results commune_filter include_chunks = Some st.
Proof. apply loop_enough_fuel, init_potential. Qed.

(** What the loop returns is a state the run passes through, and the
    loop condition fails there. *)
Lemma loop_steps fuel st st' :
  loop fuel st = Some st' ->
  steps self max_hops max_results commune_filter include_chunks st st' /\
  continues max_results st' = false.
Proof.
  revert st. induction fuel as [|fuel IH]; intros st; cbn [GraphIndex.loop];
    destruct (continues max_results st) eqn:Hc; try discriminate.
  - intros [= <-]. split; [constructor | exact Hc].
  - intros H. destruct (IH _ H) as [Hs Hf]. split; [|exact Hf].
    eapply steps_next; eassumption.
  - intros [= <-]. split; [constructor | exact Hc].
Qed.

(** Induction along a run. *)
Lemma steps_invariant (P : state -> Prop) st st' :
  (forall s, P s -> continues max_results s = true -> P (step s)) ->
  steps self max_hops max_results commune_filter include_chunks st st' ->
  P st -> P st'.
Proof.
  intros Hstep Hs. induction Hs as [|s s' Hc Hs IH]; [auto|].
  intros HP. apply IH. apply Hstep; assumption.
Qed.
End Termination.

(** ** What the loop pushes and settles *)

Section LoopFacts.
Import GraphIndex.
Variable self : GraphIndex.t.
Variables max_hops max_results : Z.
Variable commune_filter : option (gset string).
Variable include_chunks : bool.

Local Abbreviation step := (step self max_hops commune_filter include_chunks).
Local Abbreviation push_neighbor :=
  (push_neighbor self commune_filter include_chunks).
Local Abbreviation pushed_for := (pushed_for self).

Lemma push_seeds_elem seeds st e :
  e ∈ fst (foldl (push_seed self) st seeds) ->
  e ∈ fst st \/
  exists s c, s ∈ seeds /\ has_entity self s = true /\ e = seed_entry c s.
Proof.
  revert st. induction seeds as [|s seeds IH]; intros [h c]; simpl; [auto|].
  intros He. apply IH in He as [He|(s' & c' & Hs' & Hk & ->)].
  - destruct (has_entity self s) eqn:Hs; [|auto]. simpl in He.
    apply elem_of_cons in He as [->|He]; [|auto].
    right. exists s, c. split; [left|]. auto.
  - right. exists s', c'. split; [right; exact Hs'|]. auto.
Qed.

Lemma push_seeds_keep seeds st e :
  e ∈ fst st -> e ∈ fst (foldl (push_seed self) st seeds).
Proof.
  revert st. induction seeds as [|s seeds IH]; intros [h c]; simpl; [auto|].
  intros He. apply IH. destruct (has_entity self s); simpl; [right|]; exact He.
Qed.

Lemma push_seeds_pushed seeds st s :
  s ∈ seeds -> has_entity self s = true ->
  exists e, e ∈ fst (foldl (push_seed self) st seeds) /\ he_entity_id e = s.
Proof.
  revert st. induction seeds as [|s' seeds IH]; intros [h c] Hs Hk.
  - inversion Hs.
  - simpl. apply elem_of_cons in Hs as [->|Hs]; [|apply IH; assumption].
    rewrite Hk. exists (seed_entry c s'). split; [|reflexivity].
    apply push_seeds_keep. left.
Qed.

Lemma push_neighbors_keep vis id w d edges st e :
  e ∈ fst st -> e ∈ fst (foldl (push_neighbor vis id w d) st edges).
Proof.
  revert st. induction edges as [|edge edges IH]; intros [h c]; simpl; [auto|].
  intros He. apply IH. unfold GraphIndex.push_neighbor.
  destruct (od_mem _ _); [exact He|].
  destruct (negb include_chunks && _); [exact He|].
  destruct (filter_active commune_filter && _); [exact He|].
  right. exact He.
Qed.

Lemma push_neighbors_elem vis id w d edges st e :
  e ∈ fst (foldl (push_neighbor vis id w d) st edges) ->
  e ∈ fst st \/ exists edge, edge ∈ edges /\ pushed_for vis id w d edge e.
Proof.
  revert st. induction edges as [|edge edges IH]; intros [h c]; simpl; [auto|].
  intros He. apply IH in He as [He|(edge' & Hin & Hp)].
  - unfold GraphIndex.push_neighbor in He.
    destruct (od_mem (EdgeInfo.target edge) vis) eqn:Hv; [auto|].
    destruct (negb include_chunks && _); [auto|].
    destruct (filter_active commune_filter && _); [auto|].
    simpl in He. apply elem_of_cons in He as [->|He]; [|auto].
    right. exists edge. split; [left|]. repeat split; assumption || reflexivity.
  - right. exists edge'. split; [right; exact Hin|exact Hp].
Qed.

(** The shape of one iteration. *)
Lemma step_cases st :
  continues max_results st = true ->
  exists e heap',
    heappop (heap st) = Some (e, heap') /\
    Permutation (e :: heap') (heap st) /\
    (forall x, x ∈ heap st -> entry_ltb x e = false) /\
    ((od_mem (he_entity_id e) (visited st) = true /\
      visited (step st) = visited st /\
      paths (step st) = paths st /\
      heap (step st) = heap') \/
     (od_mem (he_entity_id e) (visited st) = false /\
      visited (step st) =
        od_set (he_entity_id e) (- he_neg_weight e)%Q (visited st) /\
      (he_depth e >= max_hops -> heap (step st) = heap') /\
      (forall x, x ∈ heap' -> x ∈ heap (step st)) /\
      (forall x, x ∈ heap (step st) ->
         x ∈ heap' \/
         (he_depth e < max_hops /\
          exists edge,
            edge ∈ get_neighbors self (he_entity_id e) /\
            pushed_for (od_set (he_entity_id e) (- he_neg_weight e)%Q (visited st))
              (he_entity_id e) (- he_neg_weight e)%Q (he_depth e) edge x)) /\
      paths (step st) =
        match he_came_from e with
        | Some cf =>
            paths st ++
            [{| path_source := cf_source cf; path_target := he_entity_id e;
                path_type := cf_rel_type cf; path_hop := he_depth e;
                path_weight := cf_weight cf |}]
        | None => paths st
        end)).
Proof.
  intros Hc. apply (continues_heap max_results) in Hc.
  destruct (heappop_nonempty (heap st) Hc) as (e & heap' & Hpop).
  destruct (heappop_spec _ _ _ Hpop) as [Hperm Hmin].
  exists e, heap'. split; [exact Hpop|]. split; [exact Hperm|]. split; [exact Hmin|].
  unfold GraphIndex.step. rewrite Hpop.
  destruct (od_mem (he_entity_id e) (visited st)) eqn:Hmem.
  - left. repeat split; reflexivity.
  - right. split; [reflexivity|].
    destruct (Z.geb_spec (he_depth e) max_hops) as [Hge|Hlt].
    + cbn [heap visited paths]. repeat split; auto; lia.
    + pose proof (push_neighbors_keep
                    (od_set (he_entity_id e) (- he_neg_weight e)%Q (visited st))
                    (he_entity_id e) (- he_neg_weight e)%Q (he_depth e)
                    (get_neighbors self (he_entity_id e)) (heap', counter st)) as Hkeep.
      pose proof (push_neighbors_elem
                    (od_set (he_entity_id e) (- he_neg_weight e)%Q (visited st))
                    (he_entity_id e) (- he_neg_weight e)%Q (he_depth e)
                    (get_neighbors self (he_entity_id e)) (heap', counter st)) as Helem.
      destruct (foldl _ _ _) as [heap'' counter''].
      cbn [heap visited paths fst] in *.
      split; [reflexivity|]. split; [intros; lia|]. split; [exact Hkeep|].
      split; [|reflexivity].
      intros x Hx. apply Helem in Hx as [Hx|Hx]; [left; exact Hx|right].
      split; [lia|exact Hx].
Qed.
End LoopFacts.

(** ** Invariants *)

Section Invariants.
Import GraphIndex.
Variable self : GraphIndex.t.
Variables max_hops max_results : Z.
Variable commune_filter : option (gset string).
Variable include_chunks : bool.
Variable seeds : list string.

Local Abbreviation step := (step self max_hops commune_filter include_chunks).
Local Abbreviation steps :=
  (steps self max_hops max_results commune_filter include_chunks).

Lemma od_set_elem {V : Type} (k x : string) (v w : V) (d : odict string V) :
  (x, w) ∈ od_set k v d -> (x, w) = (k, v) \/ (x, w) ∈ d.
Proof.
  induction d as [|[k' v'] d IH]; simpl.
  - intros H. apply list_elem_of_singleton in H. auto.
  - destruct (decide (k = k')) as [->|Hne]; intros H;
      apply elem_of_cons in H as [H|H]; auto.
    + right. right. exact H.
    + right. rewrite H. left.
    + apply IH in H as [H|H]; [auto|]. right. right. exact H.
Qed.

Lemma od_mem_set_mono {V : Type} (k x : string) (v : V) (d : odict string V) :
  od_mem x d = true -> od_mem x (od_set k v d) = true.
Proof. intros H. rewrite od_mem_set, H. apply orb_true_r. Qed.

Lemma od_get_set_absent {V : Type} (k x : string) (v w : V) (d : odict string V) :
  od_mem k d = false -> od_get x d = Some w -> od_get x (od_set k v d) = Some w.
Proof.
  intros Hk Hx. rewrite od_get_set_ne; [exact Hx|].
  intros ->. unfold od_mem in Hk. rewrite Hx in Hk. discriminate.
Qed.

(** *** Seeds stay pending until settled *)

Lemma seeds_pending_init : seeds_pending self seeds (init_state self seeds).
Proof.
  intros s Hs Hk. right. unfold init_state.
  destruct (push_seeds_pushed self seeds ([], O) s Hs Hk) as (e & He & Hid).
  destruct (foldl _ _ _) as [h c]. exists e. split; assumption.
Qed.

Lemma seeds_pending_step st :
  seeds_pending self seeds st -> continues max_results st = true ->
  seeds_pending self seeds (step st).
Proof.
  intros Hinv Hc s Hs Hk.
  destruct (step_cases self max_hops max_results commune_filter include_chunks st Hc)
    as (e & heap' & _ & Hperm & _ & Hcase).
  assert (forall x, x ∈ heap st -> x = e \/ x ∈ heap') as Hsplit.
  { intros x Hx. apply list_elem_of_In in Hx.
    apply (Permutation_in _ (Permutation_sym Hperm)) in Hx.
    destruct Hx as [<-|Hx]; [auto|]. right. apply list_elem_of_In, Hx. }
  destruct (Hinv s Hs Hk) as [Hv|(x & Hx & Hid)].
  - left. destruct Hcase as [(_ & -> & _)|(_ & -> & _)]; [exact Hv|].
    apply od_mem_set_mono, Hv.
  - destruct Hcase as [(Hm & -> & _ & ->)|(Hm & -> & _ & Hkeep & _)].
    + destruct (Hsplit x Hx) as [->|Hx']; [left; congruence|].
      right. exists x. auto.
    + destruct (Hsplit x Hx) as [->|Hx'].
      * left. rewrite od_mem_set, Hid, bool_decide_eq_true_2 by reflexivity.
        reflexivity.
      * right. exists x. auto.
Qed.

Lemma seeds_pending_steps st :
  steps (init_state self seeds) st -> seeds_pending self seeds st.
Proof.
  intros Hs. eapply (steps_invariant self max_hops max_results commune_filter
                       include_chunks (seeds_pending self seeds)); eauto.
  - intros s HP Hc. apply seeds_pending_step; assumption.
  - apply seeds_pending_init.
Qed.

(** *** Settled ids are distinct *)

Lemma visited_NoDup_steps st st' :
  steps st st' -> NoDup (od_keys (visited st)) -> NoDup (od_keys (visited st')).
Proof.
  intros Hs. apply (steps_invariant self max_hops max_results commune_filter
                      include_chunks (fun s => NoDup (od_keys (visited s)))); [|exact Hs].
  intros s HP Hc.
  destruct (step_cases self max_hops max_results commune_filter include_chunks s Hc)
    as (e & heap' & _ & _ & _ & [(_ & -> & _)|(_ & -> & _)]); [exact HP|].
  apply od_keys_NoDup_set, HP.
Qed.

(** *** A settled weight is final and beats the queued entries *)

Lemma settled_final_step st x w :
  continues max_results st = true ->
  od_get x (visited st) = Some w -> od_get x (visited (step st)) = Some w.
Proof.
  intros Hc Hx.
  destruct (step_cases self max_hops max_results commune_filter include_chunks st Hc)
    as (e & heap' & _ & _ & _ & [(_ & -> & _)|(Hm & -> & _)]); [exact Hx|].
  apply od_get_set_absent; assumption.
Qed.

Lemma settled_final_steps st st' x w :
  steps st st' -> od_get x (visited st) = Some w -> od_get x (visited st') = Some w.
Proof.
  intros Hs. induction Hs as [|s s' Hc Hs IH]; [auto|].
  intros Hx. apply IH, settled_final_step; assumption.
Qed.

Lemma settled_best_init : settled_best (init_state self seeds).
Proof.
  intros x w Hx. unfold init_state in Hx.
  destruct (foldl _ _ _) as [h c]. discriminate.
Qed.

Lemma settled_best_step st :
  settled_best st -> continues max_results st = true -> settled_best (step st).
Proof.
  intros Hinv Hc x w Hx y Hy Hid.
  destruct (step_cases self max_hops max_results commune_filter include_chunks st Hc)
    as (e & heap' & _ & Hperm & Hmin & Hcase).
  assert (forall z, z ∈ heap' -> z ∈ heap st) as Hsub.
  { intros z Hz. apply list_elem_of_In.
    apply (Permutation_in _ Hperm). right. apply list_elem_of_In, Hz. }
  destruct Hcase as [(Hm & Hv & _ & Hh)|(Hm & Hv & _ & _ & Hnew & _)].
  - rewrite Hv in Hx. rewrite Hh in Hy. eapply Hinv; eauto.
  - rewrite Hv in Hx. apply Hnew in Hy as [Hy|(_ & edge & _ & Hp)].
    + destruct (decide (x = he_entity_id e)) as [->|Hne].
      * rewrite od_get_set_eq in Hx. injection Hx as <-.
        apply Hsub, Hmin, entry_ltb_weight in Hy. lra.
      * rewrite od_get_set_ne in Hx by congruence. eapply Hinv; eauto.
    + destruct Hp as (Hid' & Hfresh & _).
      exfalso. unfold od_mem in Hfresh. rewrite <- Hid', Hid, Hx in Hfresh.
      discriminate.
Qed.

Lemma settled_best_steps st :
  steps (init_state self seeds) st -> settled_best st.
Proof.
  intros Hs. eapply (steps_invariant self max_hops max_results commune_filter
                       include_chunks settled_best); eauto.
  - intros s HP Hc. apply settled_best_step; assumption.
  - apply settled_best_init.
Qed.
End Invariants.

(** ** The returned entities *)

Section Results.
Import GraphIndex.
Variable self : GraphIndex.t.

Lemma sort_desc_perm l : Permutation (sort_desc l) l.
Proof. apply py_sorted_desc_perm. Qed.

Lemma sort_desc_elem l e : e ∈ sort_desc l <-> e ∈ l.
Proof.
  rewrite !list_elem_of_In. split; apply Permutation_in;
    [apply sort_desc_perm | symmetry; apply sort_desc_perm].
Qed.

Lemma build_entities_elem vis e :
  e ∈ build_entities self vis <->
  exists x w md, (x, w) ∈ vis /\ get_entity self x = Some md /\ e = entity_of x md w.
Proof.
  unfold build_entities. rewrite list_elem_of_omap. split.
  - intros ([x w] & Hin & He). destruct (get_entity self x) as [md|] eqn:Hmd;
      [|discriminate].
    injection He as <-. exists x, w, md. auto.
  - intros (x & w & md & Hin & Hmd & ->). exists (x, w). split; [exact Hin|].
    rewrite Hmd. reflexivity.
Qed.

Lemma build_entities_ids vis :
  sublist (map ent_id (build_entities self vis)) (od_keys vis).
Proof.
  unfold build_entities, od_keys. induction vis as [|[x w] vis IH]; simpl.
  - constructor.
  - destruct (get_entity self x); simpl.
    + apply sublist_skip. exact IH.
    + apply sublist_cons. exact IH.
Qed.

Lemma result_ids_NoDup vis :
  NoDup (od_keys vis) -> NoDup (map ent_id (sort_desc (build_entities self vis))).
Proof.
  intros Hnd. apply NoDup_ListNoDup.
  eapply Permutation_NoDup.
  - apply Permutation_map. symmetry. apply sort_desc_perm.
  - apply NoDup_ListNoDup. eapply sublist_NoDup; [exact Hnd|apply build_entities_ids].
Qed.
End Results.

(** ** [max_hops = 0]: nothing but the seeds *)

Section MaxHopsZero.
Import GraphIndex.
Variable self : GraphIndex.t.
Variable max_results : Z.
Variable commune_filter : option (gset string).
Variable include_chunks : bool.
Variable seeds : list string.

Lemma seeds_only_init : seeds_only self seeds (init_state self seeds).
Proof.
  unfold seeds_only, init_state.
  pose proof (push_seeds_elem self seeds ([], O)) as Helem.
  destruct (foldl _ _ _) as [h c]. cbn [heap visited paths fst] in *.
  split; [|split; [|reflexivity]].
  - intros e He. apply Helem in He as [He|(s & c' & Hs & Hk & ->)]; [inversion He|].
    exists c', s. auto.
  - intros x w Hx. inversion Hx.
Qed.

Lemma seeds_only_step st :
  seeds_only self seeds st -> continues max_results st = true ->
  seeds_only self seeds (step self 0 commune_filter include_chunks st).
Proof.
  intros (Hheap & Hvis & Hpaths) Hc.
  destruct (step_cases self 0 max_results commune_filter include_chunks st Hc)
    as (e & heap' & _ & Hperm & _ & Hcase).
  assert (e ∈ heap st) as He
    by (apply list_elem_of_In, (Permutation_in _ Hperm); left; reflexivity).
  assert (forall z, z ∈ heap' -> z ∈ heap st) as Hsub.
  { intros z Hz. apply list_elem_of_In.
    apply (Permutation_in _ Hperm). right. apply list_elem_of_In, Hz. }
  destruct (Hheap e He) as (c & s & -> & Hs & Hk).
  unfold seeds_only.
  destruct Hcase as [(_ & Hv & Hp & Hh)|(_ & Hv & Hh & _ & _ & Hp)].
  - rewrite Hv, Hp, Hh. split; [|split]; auto.
  - specialize (Hh ltac:(simpl; lia)). rewrite Hv, Hp, Hh. cbn [he_came_from seed_entry].
    split; [|split]; auto.
    intros x w Hx. apply od_set_elem in Hx as [[= -> ->]|Hx]; [|auto].
    split; [reflexivity|]. auto.
Qed.

Lemma seeds_only_steps st :
  steps self 0 max_results commune_filter include_chunks (init_state self seeds) st ->
  seeds_only self seeds st.
Proof.
  intros Hs. eapply (steps_invariant self 0 max_results commune_filter
                       include_chunks (seeds_only self seeds)); eauto.
  - intros s HP Hc. apply seeds_only_step; assumption.
  - apply seeds_only_init.
Qed.
End MaxHopsZero.

Lemma get_entity_has_entity (self : GraphIndex.t) (x : string) (md : EntityMetadata.t) :
  GraphIndex.get_entity self x = Some md -> GraphIndex.has_entity self x = true.
Proof.
  unfold GraphIndex.get_entity, GraphIndex.has_entity. intros H.
  rewrite bool_decide_eq_true_2 by (rewrite H; eauto). reflexivity.
Qed.

Lemma od_mem_elem {V : Type} (x : string) (d : odict string V) :
  od_mem x d = true -> exists w, (x, w) ∈ d.
Proof.
  unfold od_mem. destruct (od_get x d) as [w|] eqn:E; [|discriminate].
  intros _. exists w. apply od_get_elem, E.
Qed.

(** A seed with metadata is returned unless [max_results] cut the run. *)
Lemma seed_returned (self : GraphIndex.t) seeds max_hops max_results
    commune_filter include_chunks st seed md :
  GraphIndex.expand_loop self seeds max_hops max_results commune_filter
    include_chunks = Some st ->
  Z.of_nat (length (GraphIndex.visited st)) < max_results ->
  seed ∈ seeds ->
  GraphIndex.get_entity self seed = Some md ->
  exists w,
    entity_of seed md w ∈
      GraphIndex.sort_desc (GraphIndex.build_entities self (GraphIndex.visited st)).
Proof.
  intros Hloop Hlt Hseed Hmd.
  apply loop_steps in Hloop as [Hsteps Hend].
  pose proof (seeds_pending_steps self max_hops max_results commune_filter
                include_chunks seeds st Hsteps seed Hseed
                (get_entity_has_entity self seed md Hmd)) as [Hv|(e & He & _)].
  - apply od_mem_elem in Hv as (w & Hw). exists w.
    apply sort_desc_elem, build_entities_elem. exists seed, w, md. auto.
  - exfalso. unfold GraphIndex.continues in Hend.
    destruct (GraphIndex.heap st); [inversion He|].
    apply Z.ltb_ge in Hend. lia.
Qed.

(** ** Lookups of unknown ids *)

(** C8. For an id that is no key of the adjacency map, [get_neighbors]
    returns the empty list; for an id that is no key of the entity map,
    [get_entity] returns [None]; in particular both hold for an id the index
    does not know ([has_entity] is false).  Both operations are total
    functions: no outcome of them is an exception. *)
Theorem C8_unknown_id_lookups (self : GraphIndex.t) (entity_id : string) :
  (GraphIndex._adjacency self !! entity_id = None ->
   GraphIndex.get_neighbors self entity_id = []) /\
  (GraphIndex._entities self !! entity_id = None ->
   GraphIndex.get_entity self entity_id = None) /\
  (GraphIndex.has_entity self entity_id = false ->
   GraphIndex.get_neighbors self entity_id = [] /\
   GraphIndex.get_entity self entity_id = None).
Proof.
  unfold GraphIndex.get_neighbors, GraphIndex.get_entity, GraphIndex.has_entity.
  split; [|split].
  - intros ->. reflexivity.
  - auto.
  - intros H. apply orb_false_iff in H as [He Ha].
    apply bool_decide_eq_false in He. apply bool_decide_eq_false in Ha.
    rewrite <- eq_None_not_Some in He. rewrite <- eq_None_not_Some in Ha.
    rewrite He, Ha. split; reflexivity.
Qed.

Lemma C8_unknown_id_witness :
  GraphIndex.get_neighbors demo_index "NOWHERE" = [] /\
  GraphIndex.get_entity demo_index "NOWHERE" = None.
Proof.
  apply (C8_unknown_id_lookups demo_index "NOWHERE"). vm_compute. reflexivity.
Defined.

(** ** [max_hops = 0] *)

(** C4 (as the code has it). With [max_hops = 0] the call returns, records
    no path, and every returned entity is a seed that has entity metadata,
    returned once, with traversal weight 0; when [max_results] is at least
    the number of seeds, every seed that has entity metadata is returned. *)
Theorem C4_max_hops_zero_returns_seeds (self : GraphIndex.t)
    (seed_entities : list string) (max_results : Z)
    (commune_filter : option (gset string)) (include_chunks : bool) :
  exists entities,
    GraphIndex.expand_weighted self seed_entities 0 max_results commune_filter
      include_chunks = Some (entities, []) /\
    NoDup (map GraphIndex.ent_id entities) /\
    (forall e, e ∈ entities ->
       GraphIndex.ent_id e ∈ seed_entities /\
       GraphIndex.ent_traversal_weight e = 0%Q /\
       exists md,
         GraphIndex.get_entity self (GraphIndex.ent_id e) = Some md /\
         e = entity_of (GraphIndex.ent_id e) md 0) /\
    (Z.of_nat (length seed_entities) <= max_results ->
     forall s md,
       s ∈ seed_entities -> GraphIndex.get_entity self s = Some md ->
       entity_of s md 0 ∈ entities).
Proof.
  destruct (expand_loop_total self 0 max_results commune_filter include_chunks
              seed_entities) as [st Hloop].
  unfold GraphIndex.expand_weighted. rewrite Hloop.
  pose proof Hloop as Hloop'. apply loop_steps in Hloop' as [Hsteps Hend].
  pose proof (seeds_only_steps self max_results commune_filter include_chunks
                seed_entities st Hsteps) as (Hheap & Hvis & Hpaths).
  assert (NoDup (od_keys (GraphIndex.visited st))) as Hnd.
  { eapply visited_NoDup_steps; [exact Hsteps|].
    unfold GraphIndex.init_state. destruct (foldl _ _ _). apply NoDup_nil_2. }
  eexists. split; [rewrite Hpaths; reflexivity|].
  split; [apply result_ids_NoDup, Hnd|]. split.
  - intros e He. apply sort_desc_elem, build_entities_elem in He
      as (x & w & md & Hin & Hmd & ->).
    destruct (Hvis x w Hin) as (-> & Hx & _). cbn.
    split; [exact Hx|]. split; [reflexivity|]. exists md. auto.
  - intros Hmax s md Hs Hmd.
    apply sort_desc_elem, build_entities_elem.
    assert (s ∈ od_keys (GraphIndex.visited st)) as Hkey.
    { unfold GraphIndex.continues in Hend.
      destruct (GraphIndex.heap st) as [|e0 h0] eqn:Hh.
      - pose proof (seeds_pending_steps self 0 max_results commune_filter
                      include_chunks seed_entities st Hsteps s Hs
                      (get_entity_has_entity self s md Hmd)) as [Hv|(e & He & _)].
        + apply od_mem_spec, Hv.
        + rewrite Hh in He. inversion He.
      - apply Z.ltb_ge in Hend.
        assert (incl seed_entities (od_keys (GraphIndex.visited st))) as Hincl.
        { apply NoDup_length_incl.
          - apply NoDup_ListNoDup, Hnd.
          - rewrite od_keys_length. lia.
          - intros x Hx. apply list_elem_of_In in Hx.
            apply list_elem_of_fmap in Hx as ([x' w] & -> & Hin).
            apply list_elem_of_In. apply (Hvis x' w Hin). }
        apply list_elem_of_In, Hincl, list_elem_of_In, Hs. }
    apply list_elem_of_fmap in Hkey as ([x w] & Heq & Hin). cbn in Heq. subst x.
    destruct (Hvis s w Hin) as (-> & _). exists s, 0%Q, md. auto.
Qed.

Lemma C4_max_hops_zero_witness :
  exists entities,
    GraphIndex.expand_weighted demo_index ["S"; "NOWHERE"; "C"] 0 200 None true =
      Some (entities, []) /\
    entity_of "C" (EntityMetadata.mk "C" "CHUNK" EmptyString "demo" "C") 0 ∈ entities.
Proof.
  destruct (C4_max_hops_zero_returns_seeds demo_index ["S"; "NOWHERE"; "C"] 200
              None true) as (entities & Hrun & _ & _ & Hall).
  exists entities. split; [exact Hrun|].
  apply Hall.
  - vm_compute. discriminate.
  - right. right. left.
  - vm_compute. reflexivity.
Defined.

(** C4 as stated fails when [max_results] is smaller than the number of
    known seeds: with two known seeds and [max_results = 1] only the first
    is returned. *)
Lemma C4_max_results_truncates_counterexample :
  GraphIndex.has_entity demo_index "B" = true /\
  GraphIndex.expand_weighted demo_index ["S"; "B"] 0 1 None true =
    Some ([entity_of "S" (EntityMetadata.mk "S" "CONCEPT" EmptyString "demo" "S") 0], []) /\
  ~ returns_all_known_seeds demo_index ["S"; "B"] 1 None true.
Proof.
  assert (GraphIndex.expand_weighted demo_index ["S"; "B"] 0 1 None true =
          Some ([entity_of "S" (EntityMetadata.mk "S" "CONCEPT" EmptyString "demo" "S") 0], []))
    as Hrun by (vm_compute; reflexivity).
  split; [vm_compute; reflexivity|]. split; [exact Hrun|].
  intros (entities & Hrun' & Hall).
  rewrite Hrun in Hrun'. injection Hrun' as <-.
  specialize (Hall "B" ltac:(right; left) ltac:(vm_compute; reflexivity)).
  cbn in Hall. apply list_elem_of_singleton in Hall. discriminate.
Qed.

(** ** Filters and seeds *)




(** ** First settled wins *)

(** C2 (as the code has it). In every state the loop passes through:
    popping an entry for an id that is already settled changes nothing but
    the heap; a settled weight is never changed later; and no entry queued
    for a settled id carries a greater weight than the recorded one, so the
    entry that settled the id was the best one ever queued for it.  (The
    recorded weight need not be the greatest over all paths from the
    seeds.) *)
Theorem C2_first_settled_wins (self : GraphIndex.t) (seed_entities : list string)
    (max_hops max_results : Z) (commune_filter : option (gset string))
    (include_chunks : bool) (st : GraphIndex.state) :
  reachable self max_hops max_results commune_filter include_chunks
    seed_entities st ->
  (forall e heap',
      GraphIndex.heappop (GraphIndex.heap st) = Some (e, heap') ->
      od_mem (GraphIndex.he_entity_id e) (GraphIndex.visited st) = true ->
      GraphIndex.step self max_hops commune_filter include_chunks st =
        {| GraphIndex.heap := heap';
           GraphIndex.visited := GraphIndex.visited st;
           GraphIndex.paths := GraphIndex.paths st;
           GraphIndex.counter := GraphIndex.counter st |}) /\
  (forall x w st',
      od_get x (GraphIndex.visited st) = Some w ->
      steps self max_hops max_results commune_filter include_chunks st st' ->
      od_get x (GraphIndex.visited st') = Some w) /\
  (forall x w e,
      od_get x (GraphIndex.visited st) = Some w ->
      e ∈ GraphIndex.heap st ->
      GraphIndex.he_entity_id e = x ->
      (- GraphIndex.he_neg_weight e <= w)%Q).
Proof.
  intros Hreach. split; [|split].
  - intros e heap' Hpop Hmem. unfold GraphIndex.step. rewrite Hpop, Hmem. reflexivity.
  - intros x w st' Hx Hs.
    eapply settled_final_steps; eassumption.
  - intros x w e Hx He Hid.
    eapply (settled_best_steps self max_hops max_results commune_filter
              include_chunks seed_entities st Hreach); eassumption.
Qed.

Lemma C2_first_settled_wins_witness :
  exists e w,
    e ∈ GraphIndex.heap demo_state3 /\
    GraphIndex.he_entity_id e = "B" /\
    od_get "B" (GraphIndex.visited demo_state3) = Some w /\
    (- GraphIndex.he_neg_weight e <= w)%Q.
Proof.
  assert (reachable demo_index 2 200 None true ["S"] demo_state3) as Hreach.
  { unfold reachable, demo_state3. cbv zeta.
    apply steps_next; [vm_compute; reflexivity|].
    apply steps_next; [vm_compute; reflexivity|].
    apply steps_next; [vm_compute; reflexivity|].
    apply steps_refl. }
  destruct (C2_first_settled_wins demo_index ["S"] 2 200 None true demo_state3 Hreach)
    as (_ & _ & Hbest).
  assert (exists e, GraphIndex.heap demo_state3 = [e] /\
                    GraphIndex.he_entity_id e = "B") as (e & Hheap & Hid)
    by (eexists; split; vm_compute; reflexivity).
  assert (exists w, od_get "B" (GraphIndex.visited demo_state3) = Some w) as (w & Hw)
    by (eexists; vm_compute; reflexivity).
  assert (e ∈ GraphIndex.heap demo_state3) as He by (rewrite Hheap; left).
  exists e, w. split; [exact He|]. split; [exact Hid|]. split; [exact Hw|].
  exact (Hbest "B" w e Hw He Hid).
Defined.

(** C2 as stated fails: in the demo index A is settled first, over the
    direct edge from S, at weight 1.8, while the walk S - B - A of two hops
    carries 0.9 + 1.8 = 2.7. *)
Lemma C2_settled_weight_not_maximal_counterexample :
  ~ settled_weights_maximal demo_index ["S"] 2 200 None true.
Proof.
  intros Hmax.
  specialize (Hmax _ _ ltac:(vm_compute; reflexivity)
                (entity_of "A" (EntityMetadata.mk "A" "CONCEPT" EmptyString "demo" "A") (18 # 10))
                "S"
                [EdgeInfo.mk "B" "RELATED_TO" (1 # 10);
                 EdgeInfo.mk "A" "CONCERNE" 1]).
  assert (~ (walk_weight demo_index
               [EdgeInfo.mk "B" "RELATED_TO" (1 # 10); EdgeInfo.mk "A" "CONCERNE" 1]
             <= 18 # 10)%Q) as Hgt by (vm_compute; intros H; apply H; reflexivity).
  apply Hgt. apply Hmax.
  - right. left.
  - left.
  - vm_compute. reflexivity.
  - split; [vm_compute; right; left|]. split; [vm_compute; right; left|]. exact I.
  - reflexivity.
  - vm_compute. discriminate.
Qed.

(** ** A call of [expand_weighted] on the shared index *)

Section CallFacts.

(** A loop whose body returns its value without changing the object is a
    fold that leaves the object as it is. *)
Lemma for_each_reads {S A B : Type} (body : A -> B -> call S A) (f : A -> B -> A)
    (s : S) (l : list B) (a : A) :
  (forall a b, body a b s = (f a b, s)) ->
  for_each body l a s = (foldl f a l, s).
Proof.
  intros Hbody. revert a. induction l as [|b l IH]; intros a; [reflexivity|].
  cbn [for_each foldl]. unfold bind_call. rewrite Hbody. apply IH.
Qed.

Import GraphIndex.
Variable self : GraphIndex.t.

Lemma has_entity_call entity_id :
  GraphIndexCalls.has_entity entity_id self = (has_entity self entity_id, self).
Proof.
  unfold GraphIndexCalls.has_entity, has_entity, bind_call, dict_contains, ret.
  destruct (bool_decide (is_Some (_entities self !! entity_id))); reflexivity.
Qed.

Lemma push_seed_call st seed :
  GraphIndexCalls.push_seed st seed self = (push_seed self st seed, self).
Proof.
  destruct st as [heap counter]. unfold GraphIndexCalls.push_seed, push_seed, bind_call.
  rewrite has_entity_call. destruct (has_entity self seed); reflexivity.
Qed.

Lemma push_neighbor_call commune_filter include_chunks visited entity_id
    current_weight depth st edge :
  GraphIndexCalls.push_neighbor commune_filter include_chunks visited entity_id
    current_weight depth st edge self =
  (push_neighbor self commune_filter include_chunks visited entity_id
     current_weight depth st edge, self).
Proof.
  destruct st as [heap counter].
  unfold GraphIndexCalls.push_neighbor, push_neighbor.
  destruct (od_mem (EdgeInfo.target edge) visited); [reflexivity|].
  unfold bind_call, GraphIndexCalls.get_entity, dict_get, get_entity.
  destruct (negb include_chunks && _); [reflexivity|].
  destruct (filter_active commune_filter && _); reflexivity.
Qed.

Lemma step_call max_hops commune_filter include_chunks st :
  GraphIndexCalls.step max_hops commune_filter include_chunks st self =
  (step self max_hops commune_filter include_chunks st, self).
Proof.
  unfold GraphIndexCalls.step, step.
  destruct (heappop (heap st)) as [[e heap']|]; [|reflexivity].
  destruct (od_mem (he_entity_id e) (visited st)); [reflexivity|].
  destruct (he_depth e >=? max_hops)%Z; [reflexivity|].
  unfold bind_call at 1. unfold GraphIndexCalls.get_neighbors at 1.
  unfold bind_call at 1. unfold dict_get at 1. unfold ret at 1.
  unfold bind_call at 1.
  rewrite (for_each_reads _ _ _ _ _ (push_neighbor_call commune_filter include_chunks
             _ _ _ _)).
  unfold get_neighbors.
  destruct (foldl _ _ _) as [heap'' counter']. reflexivity.
Qed.

Lemma loop_call max_hops max_results commune_filter include_chunks fuel st :
  GraphIndexCalls.loop max_hops max_results commune_filter include_chunks fuel st self =
  (loop self max_hops max_results commune_filter include_chunks fuel st, self).
Proof.
  revert st. induction fuel as [|fuel IH]; intros st;
    cbn [GraphIndexCalls.loop loop]; destruct (continues max_results st);
    try reflexivity.
  unfold bind_call. rewrite step_call. apply IH.
Qed.

Lemma build_entities_call (visited : odict string Q) entities :
  for_each GraphIndexCalls.build_entity visited entities self =
  (entities ++ build_entities self visited, self).
Proof.
  revert entities. induction visited as [|[entity_id w] visited IH]; intros entities.
  - cbn. rewrite app_nil_r. reflexivity.
  - cbn [for_each]. unfold bind_call at 1. unfold GraphIndexCalls.build_entity at 1.
    unfold bind_call at 1. unfold GraphIndexCalls.get_entity, dict_get.
    unfold build_entities. cbn [omap list_omap]. unfold get_entity at 1.
    destruct (_entities self !! entity_id) as [metadata|].
    + unfold ret at 1. rewrite IH, <- app_assoc. reflexivity.
    + unfold ret at 1. apply IH.
Qed.

(** A call of [expand_weighted] returns what the function of the index
    gives and leaves the index as it found it. *)
Lemma expand_weighted_call seed_entities max_hops max_results commune_filter
    include_chunks :
  GraphIndexCalls.expand_weighted seed_entities max_hops max_results commune_filter
    include_chunks self =
  (expand_weighted self seed_entities max_hops max_results commune_filter
     include_chunks, self).
Proof.
  unfold GraphIndexCalls.expand_weighted, expand_weighted, expand_loop, init_state.
  unfold bind_call at 1. rewrite (for_each_reads _ _ _ _ _ push_seed_call).
  destruct (foldl (push_seed self) ([], O) seed_entities) as [heap counter].
  unfold bind_call at 1. cbn [fst snd]. rewrite loop_call.
  destruct (loop self max_hops max_results commune_filter include_chunks _ _) as [st|];
    [|reflexivity].
  unfold bind_call. rewrite build_entities_call. reflexivity.
Qed.

End CallFacts.

(** ** Determinism *)


(** ** Loading *)

Section Loading.
Import GraphIndex.

Lemma adj_append_lookup k e adj x :
  default [] (adj_append k e adj !! x) =
  default [] (adj !! x) ++ (if decide (x = k) then [e] else []).
Proof.
  unfold adj_append. destruct (decide (x = k)) as [->|Hne].
  - rewrite lookup_insert_eq. reflexivity.
  - rewrite lookup_insert_ne by congruence. rewrite app_nil_r. reflexivity.
Qed.

Lemma load_edge_spec key_map adj n edge :
  (forall x,
     default [] (fst (load_edge key_map (adj, n) edge) !! x) =
     default [] (adj !! x) ++ edge_entries key_map x edge) /\
  snd (load_edge key_map (adj, n) edge) =
    n + (if edge_valid edge then 1 else 0).
Proof.
  unfold load_edge, edge_entries, edge_valid.
  fold (edge_src edge) (edge_tgt edge).
  destruct (str_nonempty (edge_src edge)), (str_nonempty (edge_tgt edge));
    cbn [negb orb andb fst snd]; (split; [intros x|lia]);
    rewrite ?app_nil_r; try reflexivity.
  rewrite !adj_append_lookup, <- app_assoc. reflexivity.
Qed.

Lemma load_edges_spec key_map edges adj n :
  (forall x,
     default [] (fst (foldl (load_edge key_map) (adj, n) edges) !! x) =
     default [] (adj !! x) ++ flat_map (edge_entries key_map x) edges) /\
  snd (foldl (load_edge key_map) (adj, n) edges) =
    n + Z.of_nat (length (filter (fun e => edge_valid e = true) edges)).
Proof.
  revert adj n. induction edges as [|edge edges IH]; intros adj n.
  - cbn. split; [intros x; rewrite app_nil_r; reflexivity | lia].
  - cbn [foldl flat_map].
    destruct (load_edge_spec key_map adj n edge) as [Hadj Hn].
    destruct (load_edge key_map (adj, n) edge) as [adj1 n1]. cbn [fst snd] in *.
    destruct (IH adj1 n1) as [IHadj IHn]. split.
    + intros x. rewrite IHadj, Hadj, <- app_assoc. reflexivity.
    + rewrite IHn, Hn. destruct (edge_valid edge) eqn:Hv.
      * rewrite filter_cons_True by exact Hv. cbn [length]. lia.
      * rewrite filter_cons_False by congruence. lia.
Qed.

Lemma load_nodes_spec commune_id key_map nodes self n :
  let r := foldl (load_node commune_id key_map) (self, n) nodes in
  _adjacency (fst r) = _adjacency self /\
  data_path (fst r) = data_path self /\
  _total_nodes (fst r) = _total_nodes self /\
  _total_edges (fst r) = _total_edges self /\
  snd r = n + Z.of_nat (length (filter (fun nd => node_valid nd = true) nodes)).
Proof.
  revert self n. induction nodes as [|node nodes IH]; intros self n.
  - cbn. repeat split; lia.
  - cbn [foldl]. cbv zeta.
    assert (exists self1,
              load_node commune_id key_map (self, n) node =
                (self1, n + (if node_valid node then 1 else 0)) /\
              _adjacency self1 = _adjacency self /\
              data_path self1 = data_path self /\
              _total_nodes self1 = _total_nodes self /\
              _total_edges self1 = _total_edges self) as (self1 & -> & Ha & Hd & Hn & He).
    { unfold load_node, node_valid, node_id_of.
      destruct (str_nonempty (strip_quotes (node_id_attr node))); cbn [negb].
      - eexists. split; [reflexivity|]. cbn. auto.
      - exists self. split; [f_equal; lia|]. auto. }
    specialize (IH self1 (n + (if node_valid node then 1 else 0))).
    cbv zeta in IH. destruct IH as (IHa & IHd & IHn & IHe & IHc).
    rewrite IHa, IHd, IHn, IHe, IHc. repeat split; try assumption.
    destruct (node_valid node) eqn:Hv.
    + rewrite filter_cons_True by exact Hv. cbn [length]. lia.
    + rewrite filter_cons_False by congruence. lia.
Qed.

Lemma load_chunks_spec commune_id items self n :
  let r := foldl (load_chunk commune_id) (self, n) items in
  _adjacency (fst r) = _adjacency self /\
  data_path (fst r) = data_path self /\
  _total_nodes (fst r) = _total_nodes self /\
  _total_edges (fst r) = _total_edges self.
Proof.
  revert self n. induction items as [|[chunk_id info] items IH]; intros self n.
  - cbn. auto.
  - cbn [foldl]. cbv zeta. unfold load_chunk at 2 4 6 8.
    match goal with |- context [foldl _ (?s, ?m) items] =>
      specialize (IH s m); cbv zeta in IH; destruct IH as (IHa & IHd & IHn & IHe)
    end.
    rewrite IHa, IHd, IHn, IHe. cbn. auto.
Qed.

Lemma extends_refl adj : extends_by_provenance adj adj.
Proof. intros x. exists []. split; [rewrite app_nil_r; reflexivity | constructor]. Qed.

Lemma extends_trans adj1 adj2 adj3 :
  extends_by_provenance adj1 adj2 -> extends_by_provenance adj2 adj3 ->
  extends_by_provenance adj1 adj3.
Proof.
  intros H12 H23 x. destruct (H12 x) as (p1 & E1 & F1). destruct (H23 x) as (p2 & E2 & F2).
  exists (p1 ++ p2). split; [rewrite E2, E1, app_assoc; reflexivity|].
  apply Forall_app. auto.
Qed.

Lemma extends_append k e adj :
  is_provenance e = true -> extends_by_provenance adj (adj_append k e adj).
Proof.
  intros He x. rewrite adj_append_lookup. eexists. split; [reflexivity|].
  destruct (decide (x = k)); repeat constructor. exact He.
Qed.

Lemma link_chunk_extends self entity_id adj chunk_id :
  extends_by_provenance adj (link_chunk self entity_id adj chunk_id).
Proof.
  unfold link_chunk. destruct (bool_decide _); [|apply extends_refl].
  eapply extends_trans; apply extends_append; reflexivity.
Qed.

Lemma link_chunks_extends self entity_id chunk_ids adj :
  extends_by_provenance adj (foldl (link_chunk self entity_id) adj chunk_ids).
Proof.
  revert adj. induction chunk_ids as [|c cs IH]; intros adj; cbn [foldl].
  - apply extends_refl.
  - eapply extends_trans; [apply link_chunk_extends | apply IH].
Qed.

Lemma link_entities_extends self commune_id items adj :
  extends_by_provenance adj (foldl (link_entity self commune_id) adj items).
Proof.
  revert adj. induction items as [|[entity_id chunk_ids] items IH]; intros adj;
    cbn [foldl].
  - apply extends_refl.
  - eapply extends_trans; [|apply IH].
    unfold link_entity. destruct (_entities self !! entity_id); [|apply extends_refl].
    destruct (String.eqb _ _); [apply link_chunks_extends | apply extends_refl].
Qed.

Lemma load_commune_chunks_spec self commune_id :
  let r := _load_commune_chunks self commune_id in
  extends_by_provenance (_adjacency self) (_adjacency (fst r)) /\
  data_path (fst r) = data_path self /\
  _total_nodes (fst r) = _total_nodes self /\
  _total_edges (fst r) = _total_edges self.
Proof.
  cbv zeta. unfold _load_commune_chunks.
  destruct (data_path self !! commune_id) as [dir|];
    [|cbn; split; [apply extends_refl|auto]].
  destruct (chunks_file dir) as [| |chunks_data];
    try (cbn; split; [apply extends_refl|auto]).
  pose proof (load_chunks_spec commune_id chunks_data self 0) as Hc.
  cbv zeta in Hc. destruct Hc as (Ha & Hd & Hn & He).
  destruct (foldl (load_chunk commune_id) (self, 0) chunks_data) as [self1 count].
  cbn [fst snd] in *. cbn [_adjacency data_path _total_nodes _total_edges].
  split; [|auto]. rewrite <- Ha. apply link_entities_extends.
Qed.

(** What loading one commune adds. *)
Lemma load_commune_spec self commune_id :
  let self' := _load_commune self commune_id in
  let g := graph_of (data_path self) commune_id in
  data_path self' = data_path self /\
  _total_nodes self' = _total_nodes self + graph_valid_nodes g /\
  _total_edges self' = _total_edges self + graph_valid_edges g /\
  forall x, exists prov,
    get_neighbors self' x = get_neighbors self x ++ graph_entries g x ++ prov /\
    Forall (fun e => is_provenance e = true) prov.
Proof.
  cbv zeta. unfold _load_commune, graph_of, get_neighbors.
  destruct (data_path self !! commune_id) as [dir|] eqn:Hdir.
  2:{ cbn. repeat split; try lia. intros x. exists [].
      split; [rewrite !app_nil_r; reflexivity|constructor]. }
  destruct (graphml_file dir) as [| |root] eqn:Hfile.
  1,2: cbn; repeat split; try lia; intros x; exists [];
       (split; [rewrite !app_nil_r; reflexivity|constructor]).
  cbv zeta.
  pose proof (load_nodes_spec commune_id (build_key_map (graphml_keys root))
                (graphml_nodes root) self 0) as Hn.
  cbv zeta in Hn. destruct Hn as (Hna & Hnd & Hnn & Hne & Hnc).
  destruct (foldl (load_node commune_id _) (self, 0) (graphml_nodes root))
    as [self1 node_count]. cbn [fst snd] in *.
  pose proof (load_edges_spec (build_key_map (graphml_keys root))
                (graphml_edges root) (_adjacency self1) 0) as [Hea Hec].
  destruct (foldl (load_edge _) (_adjacency self1, 0) (graphml_edges root))
    as [adjacency edge_count]. cbn [fst snd] in *.
  match goal with |- context [_load_commune_chunks ?s commune_id] =>
    pose proof (load_commune_chunks_spec s commune_id) as Hc;
    destruct (_load_commune_chunks s commune_id) as [self3 chunk_count]
  end.
  cbv zeta in Hc. cbn [fst snd _adjacency data_path _total_nodes _total_edges] in *.
  destruct Hc as (Hca & Hcd & Hcn & Hce).
  split; [congruence|]. split; [rewrite Hcn, Hnn, Hnc; cbn; lia|].
  split; [rewrite Hce, Hne, Hec; cbn; lia|].
  intros x. destruct (Hca x) as (prov & Hprov & Hall).
  exists prov. split; [|exact Hall].
  rewrite Hprov, Hea, Hna, <- app_assoc. reflexivity.
Qed.

Lemma initialize_spec commune_ids self :
  let self' := foldl _load_commune self commune_ids in
  data_path self' = data_path self /\
  _total_nodes self' = _total_nodes self + total_valid_nodes (data_path self) commune_ids /\
  _total_edges self' = _total_edges self + total_valid_edges (data_path self) commune_ids /\
  (forall x,
     filter (fun e => is_provenance e = false) (get_neighbors self' x) =
     filter (fun e => is_provenance e = false)
       (get_neighbors self x ++ all_graph_entries (data_path self) commune_ids x)) /\
  (forall x e,
     e ∈ get_neighbors self x ++ all_graph_entries (data_path self) commune_ids x ->
     e ∈ get_neighbors self' x).
Proof.
  revert self. induction commune_ids as [|c cs IH]; intros self; cbv zeta.
  - cbn. repeat split; try lia.
    + intros x. rewrite app_nil_r. reflexivity.
    + intros x e. rewrite app_nil_r. auto.
  - cbn [foldl]. specialize (IH (_load_commune self c)). cbv zeta in IH.
    destruct IH as (IHd & IHn & IHe & IHf & IHm).
    destruct (load_commune_spec self c) as (Hd & Hn & He & Hadj).
    rewrite Hd in *. cbn [total_valid_nodes total_valid_edges all_graph_entries
                          foldr flat_map].
    split; [congruence|]. split; [rewrite IHn, Hn; unfold total_valid_nodes; lia|].
    split; [rewrite IHe, He; unfold total_valid_edges; lia|]. split.
    + intros x. rewrite IHf. destruct (Hadj x) as (prov & -> & Hall).
      rewrite !filter_app. rewrite <- !app_assoc. do 2 f_equal.
      rewrite (filter_none _ prov); [reflexivity|].
      intros e He' Hf. rewrite Forall_forall in Hall. rewrite (Hall e He') in Hf.
      discriminate.
    + intros x e Hin. apply IHm. destruct (Hadj x) as (prov & -> & _).
      rewrite !elem_of_app in *. unfold all_graph_entries. tauto.
Qed.
End Loading.

(** C3 (as the code has it). After [initialize] on a fresh index: the node
    count is the number of node elements with a non-empty id, and the edge
    count the number of edge elements with non-empty source and target,
    over the graph files that exist and parse; every such edge has its two
    entries in the index, one under its source and one under its target,
    with swapped endpoints and the same relationship type and weight; the
    adjacency entries that are not provenance links of a chunk store are
    exactly these entries, in file order; an edge contributes two entries
    in all, and an edge without source or target contributes none. *)
Theorem C3_load_counts_and_bidirectional_edges
    (data_path : gmap string commune_dir) (commune_ids : list string) :
  let index :=
    GraphIndex.initialize (GraphIndex.__init__ data_path) (Some commune_ids) in
  GraphIndex.stats_total_nodes index = total_valid_nodes data_path commune_ids /\
  GraphIndex.stats_total_edges index = total_valid_edges data_path commune_ids /\
  (forall x,
     filter (fun e => is_provenance e = false) (GraphIndex.get_neighbors index x) =
     filter (fun e => is_provenance e = false)
       (all_graph_entries data_path commune_ids x)) /\
  (forall c root edge,
     c ∈ commune_ids -> graph_of data_path c = Some root ->
     edge ∈ graphml_edges root -> edge_valid edge = true ->
     let key_map := GraphIndex.build_key_map (graphml_keys root) in
     forward_entry key_map edge ∈ GraphIndex.get_neighbors index (edge_src edge) /\
     backward_entry key_map edge ∈ GraphIndex.get_neighbors index (edge_tgt edge) /\
     EdgeInfo.target (forward_entry key_map edge) = edge_tgt edge /\
     EdgeInfo.target (backward_entry key_map edge) = edge_src edge /\
     EdgeInfo.rel_type (forward_entry key_map edge) =
       EdgeInfo.rel_type (backward_entry key_map edge) /\
     EdgeInfo.weight (forward_entry key_map edge) =
       EdgeInfo.weight (backward_entry key_map edge)) /\
  (forall key_map edge,
     (edge_valid edge = true ->
      (length (edge_entries key_map (edge_src edge) edge) +
       (if decide (edge_src edge = edge_tgt edge) then 0
        else length (edge_entries key_map (edge_tgt edge) edge)) = 2)%nat /\
      forall x, x <> edge_src edge -> x <> edge_tgt edge ->
                edge_entries key_map x edge = []) /\
     (edge_valid edge = false -> forall x, edge_entries key_map x edge = [])).
Proof.
  cbv zeta. unfold GraphIndex.initialize, GraphIndex.stats_total_nodes,
    GraphIndex.stats_total_edges.
  destruct (initialize_spec commune_ids (GraphIndex.__init__ data_path))
    as (_ & Hn & He & Hf & Hm).
  cbn [GraphIndex.__init__ GraphIndex.data_path GraphIndex._total_nodes
       GraphIndex._total_edges] in *.
  split; [rewrite Hn; lia|]. split; [rewrite He; lia|]. split; [exact Hf|]. split.
  - intros c root edge Hc Hg Hedge Hvalid.
    assert (forall x e, e ∈ edge_entries (GraphIndex.build_key_map (graphml_keys root))
                              x edge ->
                        e ∈ GraphIndex.get_neighbors
                              (foldl GraphIndex._load_commune
                                 (GraphIndex.__init__ data_path) commune_ids) x) as Hin.
    { intros x e Hx. apply Hm. apply elem_of_app. right.
      unfold all_graph_entries. apply list_elem_of_In, in_flat_map.
      exists c. split; [apply list_elem_of_In, Hc|].
      rewrite Hg. cbn [graph_entries]. apply in_flat_map.
      exists edge. split; apply list_elem_of_In; assumption. }
    repeat split.
    + apply Hin. unfold edge_entries. rewrite Hvalid.
      destruct (decide (edge_src edge = edge_src edge)); [|congruence]. left.
    + apply Hin. unfold edge_entries. rewrite Hvalid.
      destruct (decide (edge_tgt edge = edge_tgt edge)); [|congruence].
      apply elem_of_app. right. left.
  - intros key_map edge. unfold edge_entries. split.
    + intros ->. split.
      * destruct (decide (edge_src edge = edge_src edge)); [|congruence].
        destruct (decide (edge_src edge = edge_tgt edge)) as [Heq|Hne].
        -- reflexivity.
        -- destruct (decide (edge_tgt edge = edge_src edge)); [congruence|].
           destruct (decide (edge_tgt edge = edge_tgt edge)); [|congruence].
           reflexivity.
      * intros x Hs Ht.
        destruct (decide (x = edge_src edge)); [congruence|].
        destruct (decide (x = edge_tgt edge)); [congruence|]. reflexivity.
    + intros ->. reflexivity.
Qed.

Lemma C3_load_witness :
  EdgeInfo.mk "A" "CONCERNE" 1 ∈ GraphIndex.get_neighbors demo_index "S" /\
  EdgeInfo.mk "S" "CONCERNE" 1 ∈ GraphIndex.get_neighbors demo_index "A".
Proof.
  destruct (C3_load_counts_and_bidirectional_edges demo_data_path ["demo"])
    as (_ & _ & _ & Hboth & _).
  destruct (Hboth "demo" demo_graphml (demo_edge "S" "A" "CONCERNE"))
    as (Hf & Hb & _).
  - left.
  - reflexivity.
  - left.
  - reflexivity.
  - split; [exact Hf | exact Hb].
Defined.

Example demo_index_counts :
  GraphIndex.stats_total_nodes demo_index = 4 /\
  GraphIndex.stats_total_edges demo_index = 3 /\
  GraphIndex.adjacency_size demo_index = 6%nat.
Proof. vm_compute. auto. Qed.

(** C3 as stated fails on a graph file with a node element whose id is empty
    and an edge element without target: one node element, none indexed;
    one edge element, no adjacency entry. *)
Lemma C3_empty_ids_skipped_counterexample :
  length (graphml_nodes odd_graphml) = 1%nat /\
  length (graphml_edges odd_graphml) = 1%nat /\
  GraphIndex.stats_total_nodes
    (GraphIndex.initialize (GraphIndex.__init__ odd_data_path) (Some ["odd"])) = 0 /\
  GraphIndex.adjacency_size
    (GraphIndex.initialize (GraphIndex.__init__ odd_data_path) (Some ["odd"])) = 0%nat /\
  ~ counts_every_element odd_data_path "odd" odd_graphml.
Proof.
  split; [reflexivity|]. split; [reflexivity|].
  split; [vm_compute; reflexivity|]. split; [vm_compute; reflexivity|].
  intros [Hn _]. vm_compute in Hn. discriminate.
Qed.

(** * CommunityCache: verification *)

Section RuntimeFacts.
Variable rt : runtime.

Lemma set_order_elem (l : list string) (w : string) : w ∈ set_order rt l <-> w ∈ l.
Proof. rewrite (set_order_perm rt l). reflexivity. Qed.

Lemma set_order_NoDup (l : list string) : NoDup l -> NoDup (set_order rt l).
Proof. rewrite (set_order_perm rt l). auto. Qed.

Lemma set_order_nil (l : list string) : set_order rt l = [] <-> l = [].
Proof.
  split; intros H.
  - apply Permutation_nil. rewrite <- H. apply set_order_perm.
  - apply Permutation_nil. rewrite <- H at 1. symmetry. apply set_order_perm.
Qed.

Lemma set_order_match {A : Type} (l : list string) (a b : A) :
  match set_order rt l with [] => a | _ => b end = match l with [] => a | _ => b end.
Proof.
  destruct l as [|x l].
  - assert (set_order rt [] = []) as -> by (apply set_order_nil; reflexivity).
    reflexivity.
  - destruct (set_order rt (x :: l)) eqn:E; [|reflexivity].
    destruct (set_order_nil (x :: l)) as [H _]. discriminate (H E).
Qed.

End RuntimeFacts.

Section RatingFacts.

Lemma lt_4_passes (rating : json) : lt_4 rating = Some false <-> passes_floor rating.
Proof.
  destruct rating as [|b|n|[q| | |]|s|items|members]; cbn;
    try (split; [discriminate|contradiction]); try tauto.
  - split; [intros [= H]; apply Z.ltb_ge, H|intros H; f_equal; apply Z.ltb_ge, H].
  - split; [intros [= H]; apply Qltb_ge, H|intros H; f_equal; apply Qltb_ge, H].
Qed.

(** A rating that passes the floor is at least 4.0 unless it is NaN. *)
Lemma passes_floor_ge_4 (rating : json) :
  passes_floor rating -> ge_4 rating = Some true \/ rating = JFloat NaN.
Proof.
  destruct rating as [|b|n|[q| | |]|s|items|members]; cbn; try contradiction; auto.
  - intros H. left. f_equal. apply Z.leb_le, H.
  - intros H. left. f_equal. apply Qle_bool_iff, H.
Qed.

Lemma stored_report_rating comm_data comm_members report_members rating :
  stored_report comm_data = Some (comm_members, report_members, rating) ->
  passes_floor rating.
Proof.
  unfold stored_report. destruct (as_dict comm_data) as [cm|]; [|discriminate].
  cbv zeta. destruct (truthy _); [|discriminate].
  destruct (as_dict _) as [rm|]; [|discriminate].
  destruct (lt_4 _) as [[|]|] eqn:Hlt; try discriminate.
  intros [= <- <- <-]. apply lt_4_passes, Hlt.
Qed.

Lemma community_of_fields commune_id comm_id comm_data community :
  community_of commune_id comm_id comm_data = Some community ->
  Community.commune_id community = commune_id /\
  Community.community_id community = comm_id /\
  passes_floor (Community.rating community).
Proof.
  unfold community_of.
  destruct (stored_report comm_data) as [[[cm rm] rating]|] eqn:Hr; [|discriminate].
  intros [= <-]. cbn. split; [reflexivity|]. split; [reflexivity|].
  eapply stored_report_rating, Hr.
Qed.

Lemma accepted_community_of commune_id comm_id comm_data t s :
  accepted comm_data = Some (t, s) <->
  exists community,
    community_of commune_id comm_id comm_data = Some community /\
    Community.title community = JString t /\
    Community.summary community = JString s.
Proof.
  unfold community_of, accepted.
  destruct (stored_report comm_data) as [[[cm rm] rating]|].
  - split.
    + intros H. eexists. split; [reflexivity|]. cbn.
      destruct (od_get_default "title" _ rm); try discriminate.
      destruct (od_get_default "summary" _ rm); try discriminate.
      injection H as -> ->. auto.
    + intros (community & [= <-] & Ht & Hs). cbn in Ht, Hs. rewrite Ht, Hs. reflexivity.
  - split; [discriminate|]. intros (community & H & _). discriminate.
Qed.

End RatingFacts.

Section CommunityFacts.
Import CommunityCache.
Variable rt : runtime.

Lemma index_append_lookup kw entry index kw' :
  default [] (index_append kw entry index !! kw') =
  default [] (index !! kw') ++ (if decide (kw' = kw) then [entry] else []).
Proof.
  unfold index_append. destruct (decide (kw' = kw)) as [->|Hne].
  - rewrite lookup_insert_eq. reflexivity.
  - rewrite lookup_insert_ne by congruence. rewrite app_nil_r. reflexivity.
Qed.

(** *** One iteration of the loop over the entries of a report file *)

(** What an iteration leaves: the community of the entry is stored when the
    checks pass, and its keywords are indexed when its title and summary
    are strings. *)
Lemma load_step_eq commune_id self comm_id comm_data :
  load_step rt commune_id self (comm_id, comm_data) =
  match community_of commune_id comm_id comm_data with
  | Some community =>
      mk (<[commune_id := <[comm_id := community]>
                            (default ∅ (_communities self !! commune_id))]>
            (_communities self))
         match accepted comm_data with
         | Some (title, summary) =>
             foldl (index_keyword commune_id comm_id title summary)
               (_keyword_index self)
               (set_order rt (word_set (str_lower (title +:+ " " +:+ summary))))
         | None => _keyword_index self
         end
  | None => self
  end.
Proof.
  unfold load_step, load_community, community_of, accepted, stored_report.
  destruct (as_dict comm_data) as [cm|]; [|reflexivity]. cbv zeta.
  destruct (truthy _); [|reflexivity]. cbn [negb].
  destruct (as_dict _) as [rm|]; [|reflexivity].
  destruct (lt_4 _) as [[|]|]; try reflexivity.
  destruct (od_get_default "title" (JString EmptyString) rm) as [|b|n|x|t|items|members];
    destruct (od_get_default "summary" (JString EmptyString) rm)
      as [|b'|n'|x'|s|items'|members'];
    cbn [py_str];
    destruct (set_order rt _); reflexivity.
Qed.

Lemma load_community_raises commune_id self comm_id comm_data :
  snd (load_community rt commune_id self (comm_id, comm_data)) =
  entry_raises rt comm_data.
Proof.
  unfold load_community, entry_raises.
  destruct (as_dict comm_data) as [cm|]; [|reflexivity]. cbv zeta.
  destruct (truthy _); [|reflexivity]. cbn [negb].
  destruct (as_dict _) as [rm|]; [|reflexivity].
  destruct (lt_4 _) as [[|]|]; try reflexivity.
  rewrite <- (set_order_match rt (word_set _)).
  destruct (od_get_default "title" (JString EmptyString) rm) as [|b|n|x|t|items|members];
    destruct (od_get_default "summary" (JString EmptyString) rm)
      as [|b'|n'|x'|s|items'|members'];
    destruct (set_order rt _); reflexivity.
Qed.

(** The loop over a report file leaves the cache that its iterations on the
    entries read leave, one after the other. *)
Lemma load_communities_eq commune_id self data :
  load_communities rt commune_id self data =
  foldl (load_step rt commune_id) self (entries_read rt data).
Proof.
  revert self. induction data as [|[comm_id comm_data] data IH]; intros self;
    [reflexivity|].
  cbn [load_communities entries_read snd foldl].
  pose proof (load_community_raises commune_id self comm_id comm_data) as Hr.
  unfold load_step at 2.
  destruct (load_community rt commune_id self (comm_id, comm_data)) as [self' raised].
  cbn [fst snd] in *. subst raised.
  destruct (entry_raises rt comm_data); [reflexivity|apply IH].
Qed.

Lemma entries_read_sublist data : sublist (entries_read rt data) data.
Proof.
  induction data as [|item data IH]; cbn [entries_read]; [constructor|].
  apply sublist_skip. destruct (entry_raises rt (snd item)); [apply sublist_nil_l|exact IH].
Qed.

Lemma entries_read_elem data item : item ∈ entries_read rt data -> item ∈ data.
Proof. intros H. eapply elem_of_sublist; [exact H|apply entries_read_sublist]. Qed.

(** *** The quality floor *)

Lemma stored_rated_init : stored_rated __init__.
Proof. intros c m id comm Hc. cbn in Hc. rewrite lookup_empty in Hc. discriminate. Qed.

Lemma load_step_stored commune_id self item :
  stored_rated self -> stored_rated (load_step rt commune_id self item).
Proof.
  intros Hinv. destruct item as [comm_id comm_data]. rewrite load_step_eq.
  destruct (community_of commune_id comm_id comm_data) as [community|] eqn:Hcomm;
    [|exact Hinv].
  apply community_of_fields in Hcomm as (_ & _ & Hr).
  intros c m id comm Hc Hm. cbn [_communities] in Hc.
  destruct (decide (c = commune_id)) as [->|Hne].
  - rewrite lookup_insert_eq in Hc. injection Hc as <-.
    destruct (decide (id = comm_id)) as [->|Hne'].
    + rewrite lookup_insert_eq in Hm. injection Hm as <-. exact Hr.
    + rewrite lookup_insert_ne in Hm by congruence.
      destruct (_communities self !! commune_id) as [m0|] eqn:Hm0.
      * eapply Hinv; eauto.
      * cbn in Hm. rewrite lookup_empty in Hm. discriminate.
  - rewrite lookup_insert_ne in Hc by congruence. eapply Hinv; eauto.
Qed.

Lemma foldl_invariant {A B : Type} (P : A -> Prop) (f : A -> B -> A) (l : list B) a :
  (forall a b, P a -> P (f a b)) -> P a -> P (foldl f a l).
Proof.
  intros Hf. revert a. induction l as [|b l IH]; intros a Ha; cbn [foldl]; auto.
Qed.

Lemma stored_rated_reset self commune_id :
  stored_rated self ->
  stored_rated (mk (<[commune_id := ∅]> (_communities self)) (_keyword_index self)).
Proof.
  intros Hinv c m id comm Hc Hm. cbn [_communities] in Hc.
  destruct (decide (c = commune_id)) as [->|Hne].
  - rewrite lookup_insert_eq in Hc. injection Hc as <-.
    rewrite lookup_empty in Hm. discriminate.
  - rewrite lookup_insert_ne in Hc by congruence. eapply Hinv; eauto.
Qed.

Lemma load_commune_reports_stored self item :
  stored_rated self -> stored_rated (load_commune_reports rt self item).
Proof.
  intros Hinv. destruct item as [commune_id [| |data]]; cbn [load_commune_reports];
    try exact Hinv.
  destruct (as_dict data) as [members|]; [|apply stored_rated_reset, Hinv].
  rewrite load_communities_eq.
  apply foldl_invariant; [intros; apply load_step_stored; assumption|].
  apply stored_rated_reset, Hinv.
Qed.

Lemma refresh_stored data_path self : stored_rated (_refresh_cache rt data_path self).
Proof.
  unfold _refresh_cache. apply foldl_invariant;
    [intros; apply load_commune_reports_stored; assumption | apply stored_rated_init].
Qed.

Lemma foldl_invariant_elem {A B : Type} (P : A -> Prop) (f : A -> B -> A)
    (l : list B) a :
  (forall a b, b ∈ l -> P a -> P (f a b)) -> P a -> P (foldl f a l).
Proof.
  revert a. induction l as [|b l IH]; intros a Hf Ha; cbn [foldl]; [exact Ha|].
  apply IH.
  - intros a' b' Hb'. apply Hf. right. exact Hb'.
  - apply Hf; [left|exact Ha].
Qed.

Lemma indexed_rated_init data_path : indexed_rated rt data_path __init__.
Proof.
  intros kw c id s Hin. cbn in Hin. rewrite lookup_empty in Hin. inversion Hin.
Qed.

Lemma index_keywords_elem commune_id comm_id title summary keywords index kw entry :
  entry ∈ default []
    (foldl (index_keyword commune_id comm_id title summary) index keywords !! kw) ->
  entry ∈ default [] (index !! kw) \/
  (kw ∈ keywords /\
   entry = (commune_id, comm_id, title_score kw title + summary_score kw summary) /\
   0 < title_score kw title + summary_score kw summary).
Proof.
  revert index. induction keywords as [|k ks IH]; intros index; cbn [foldl]; [auto|].
  intros Hin. apply IH in Hin as [Hin|(Hk & He & Hpos)].
  - unfold index_keyword in Hin.
    destruct (Z.ltb_spec 0 (title_score k title + summary_score k summary)) as [Hpos|_];
      [|auto].
    rewrite index_append_lookup in Hin. apply elem_of_app in Hin as [Hin|Hin]; [auto|].
    destruct (decide (kw = k)) as [->|_]; [|inversion Hin].
    apply list_elem_of_singleton in Hin. right. split; [left|]. auto.
  - right. split; [right; exact Hk|]. auto.
Qed.

Lemma load_step_indexed data_path commune_id data self item :
  (commune_id, Parsed (JObject data)) ∈ data_path -> item ∈ entries_read rt data ->
  indexed_rated rt data_path self ->
  indexed_rated rt data_path (load_step rt commune_id self item).
Proof.
  intros Hfile Hitem Hinv. destruct item as [comm_id comm_data]. rewrite load_step_eq.
  destruct (community_of commune_id comm_id comm_data) as [community|] eqn:Hcomm;
    [|exact Hinv].
  destruct (accepted comm_data) as [[title summary]|] eqn:Hacc; [|exact Hinv].
  apply (accepted_community_of commune_id comm_id) in Hacc
    as (community' & Hcomm' & Ht & Hs).
  rewrite Hcomm in Hcomm'. injection Hcomm' as <-.
  intros kw c id s Hin. cbn [_keyword_index] in Hin.
  apply index_keywords_elem in Hin as [Hin|(_ & Heq & Hpos)].
  - apply Hinv in Hin. exact Hin.
  - injection Heq as -> -> ->. exists data, comm_data, community, title, summary.
    pose proof (community_of_fields _ _ _ _ Hcomm) as (_ & _ & Hr). auto 10.
Qed.

Lemma load_commune_reports_indexed data_path self item :
  item ∈ data_path ->
  indexed_rated rt data_path self ->
  indexed_rated rt data_path (load_commune_reports rt self item).
Proof.
  intros Hitem Hinv. destruct item as [commune_id [| |data]];
    cbn [load_commune_reports]; try exact Hinv.
  destruct data as [|b|n|x|s|items|members]; cbn [as_dict]; try exact Hinv.
  rewrite load_communities_eq.
  apply foldl_invariant_elem; [|exact Hinv].
  intros a b Hb Ha. eapply load_step_indexed; eassumption.
Qed.

Lemma refresh_indexed_discover data_path self :
  indexed_rated rt (discover data_path) (_refresh_cache rt data_path self).
Proof.
  unfold _refresh_cache. apply foldl_invariant_elem; [|apply indexed_rated_init].
  intros a b Hb Ha. apply load_commune_reports_indexed; assumption.
Qed.

Lemma indexed_rated_mono data_path data_path' self :
  (forall item, item ∈ data_path -> item ∈ data_path') ->
  indexed_rated rt data_path self -> indexed_rated rt data_path' self.
Proof.
  intros Hsub Hinv kw c id s Hin.
  destruct (Hinv kw c id s Hin) as (data & cd & community & t & su & Hfile & Hrest).
  exists data, cd, community, t, su. split; [apply Hsub, Hfile|exact Hrest].
Qed.

Lemma refresh_indexed data_path self :
  indexed_rated rt data_path (_refresh_cache rt data_path self).
Proof.
  eapply indexed_rated_mono; [|apply refresh_indexed_discover].
  intros item Hitem. unfold discover in Hitem.
  apply list_elem_of_filter in Hitem as [_ Hitem]. exact Hitem.
Qed.

(** *** What [search] returns *)

Lemma collect_elem self max_results max_communes matches results seen r :
  r ∈ collect self max_results max_communes matches results seen ->
  r ∈ results \/
  exists commune_id comm_id score m,
    (commune_id, comm_id, score) ∈ matches /\
    _communities self !! commune_id = Some m /\
    m !! comm_id = Some (res_community r) /\
    res_score r = score.
Proof.
  revert results seen.
  induction matches as [|[[commune_id comm_id] score] matches IH];
    intros results seen; cbn [collect]; [auto|].
  destruct (_ >=? _)%Z; [auto|].
  assert (forall results' seen',
            r ∈ collect self max_results max_communes matches results' seen' ->
            r ∈ results' \/
            exists commune_id0 comm_id0 score0 m,
              (commune_id0, comm_id0, score0) ∈
                (commune_id, comm_id, score) :: matches /\
              _communities self !! commune_id0 = Some m /\
              m !! comm_id0 = Some (res_community r) /\
              res_score r = score0) as IH'.
  { intros results' seen' Hr. apply IH in Hr as [Hr|(c & i & s & m & Hin & Hrest)];
      [auto|]. right. exists c, i, s, m. split; [right; exact Hin|exact Hrest]. }
  destruct (bool_decide _ && _); [apply IH'|].
  destruct (default ∅ (_communities self !! commune_id) !! comm_id)
    as [community|] eqn:Hcomm; [|apply IH'].
  intros Hr. apply IH' in Hr as [Hr|Hr]; [|auto].
  apply elem_of_app in Hr as [Hr|Hr]; [auto|].
  apply list_elem_of_singleton in Hr. subst r. right.
  destruct (_communities self !! commune_id) as [m|] eqn:Hm;
    [|cbn in Hcomm; rewrite lookup_empty in Hcomm; discriminate].
  exists commune_id, comm_id, score, m. cbn. split; [left|]. auto.
Qed.

Lemma search_rated self query max_results max_communes r :
  stored_rated self ->
  r ∈ search rt self query max_results max_communes ->
  passes_floor (Community.rating (res_community r)).
Proof.
  intros Hinv. unfold search.
  destruct (query_words rt query) as [|w0 ws]; [inversion 1|].
  intros Hr. apply collect_elem in Hr as [Hr|(c & i & sc & m & _ & Hc & Hm & _)];
    [inversion Hr|].
  eapply Hinv; eauto.
Qed.

(** *** [search] as a call on the shared cache *)

Lemma score_keywords_call self query_words scores :
  for_each CommunityCacheCalls.score_keyword query_words scores self =
  (foldl (fun scores keyword =>
            foldl add_score scores (default [] (_keyword_index self !! keyword)))
         scores query_words,
   self).
Proof.
  revert scores. induction query_words as [|w ws IH]; intros scores; [reflexivity|].
  cbn [for_each foldl]. unfold bind_call at 1.
  unfold CommunityCacheCalls.score_keyword at 1, bind_call, dict_get, ret.
  apply IH.
Qed.

Lemma collect_call self max_results max_communes matches results seen :
  CommunityCacheCalls.collect max_results max_communes matches results seen self =
  (collect self max_results max_communes matches results seen, self).
Proof.
  revert results seen.
  induction matches as [|[[commune_id comm_id] score] matches IH];
    intros results seen; cbn [CommunityCacheCalls.collect collect]; [reflexivity|].
  destruct (_ >=? _)%Z; [reflexivity|].
  destruct (bool_decide _ && _); [apply IH|].
  unfold bind_call, dict_get.
  destruct (default ∅ (_communities self !! commune_id) !! comm_id); apply IH.
Qed.

(** A call of [search] returns what the function [search] of the cache
    gives and leaves the cache as it found it: the method only reads the
    two dictionaries. *)
Lemma search_call self query max_results max_communes :
  CommunityCacheCalls.search rt query max_results max_communes self =
  (search rt self query max_results max_communes, self).
Proof.
  unfold CommunityCacheCalls.search, search.
  destruct (query_words rt query) as [|w ws]; [reflexivity|].
  unfold bind_call. rewrite score_keywords_call. apply collect_call.
Qed.

Lemma cache_after_snoc ops op :
  cache_after rt (ops ++ [op]) = run_op rt (cache_after rt ops) op.
Proof. unfold cache_after. rewrite foldl_app. reflexivity. Qed.

Lemma last_data_path_snoc ops op :
  last_data_path (ops ++ [op]) =
  match op with
  | OpInitialize data_path => data_path
  | OpRefresh data_path => data_path
  | OpSearch _ _ _ => last_data_path ops
  end.
Proof. unfold last_data_path. rewrite foldl_app. reflexivity. Qed.

Lemma cache_after_invariant ops :
  stored_rated (cache_after rt ops) /\
  indexed_rated rt (last_data_path ops) (cache_after rt ops).
Proof.
  induction ops as [|op ops IH] using rev_ind.
  - split; [apply stored_rated_init|apply indexed_rated_init].
  - rewrite cache_after_snoc, last_data_path_snoc.
    destruct op as [dp|dp|q mr mc]; cbn [run_op].
    + split; [apply refresh_stored|apply refresh_indexed].
    + split; [apply refresh_stored|apply refresh_indexed].
    + rewrite search_call. exact IH.
Qed.

End CommunityFacts.



(** ** Scores *)

Section ScoreFacts.
Import CommunityCache.
Variable rt : runtime.

Lemma word_set_NoDup text : NoDup (word_set text).
Proof. unfold word_set. apply NoDup_filter, NoDup_remove_dups. Qed.

Lemma word_set_elem text w :
  w ∈ word_set text <-> w ∈ findall_words text /\ w ∉ stop_words.
Proof.
  unfold word_set. rewrite list_elem_of_filter, elem_of_remove_dups. tauto.
Qed.

Lemma query_words_elem query w :
  w ∈ query_words rt query <->
  w ∈ findall_words (str_lower query) /\ w ∉ stop_words.
Proof. unfold query_words. rewrite set_order_elem. apply word_set_elem. Qed.

Lemma query_words_NoDup query : NoDup (query_words rt query).
Proof. apply set_order_NoDup, word_set_NoDup. Qed.

(** *** The keyword index after a refresh *)

Lemma index_keywords_lookup commune_id comm_id title summary keywords index kw :
  NoDup keywords ->
  default []
    (foldl (index_keyword commune_id comm_id title summary) index keywords !! kw) =
  default [] (index !! kw) ++
  (if bool_decide (kw ∈ keywords) &&
      (0 <? title_score kw title + summary_score kw summary)
   then [(commune_id, comm_id, title_score kw title + summary_score kw summary)]
   else []).
Proof.
  revert index. induction keywords as [|k ks IH]; intros index Hnd; cbn [foldl].
  - rewrite app_nil_r. reflexivity.
  - apply NoDup_cons in Hnd as [Hk Hnd]. rewrite IH by exact Hnd.
    unfold index_keyword.
    destruct (decide (kw = k)) as [->|Hne].
    + rewrite (bool_decide_eq_false_2 (k ∈ ks)) by exact Hk.
      rewrite (bool_decide_eq_true_2 (k ∈ k :: ks)) by left.
      cbn [andb]. rewrite app_nil_r.
      destruct (0 <? title_score k title + summary_score k summary).
      * rewrite index_append_lookup. destruct (decide (k = k)); [|congruence].
        reflexivity.
      * rewrite app_nil_r. reflexivity.
    + assert (bool_decide (kw ∈ k :: ks) = bool_decide (kw ∈ ks)) as ->.
      { apply bool_decide_ext. rewrite elem_of_cons. tauto. }
      f_equal. destruct (0 <? title_score k title + summary_score k summary);
        [|reflexivity].
      rewrite index_append_lookup. destruct (decide (kw = k)); [congruence|].
      rewrite app_nil_r. reflexivity.
Qed.

(** The entries that an iteration adds under a keyword do not depend on
    the order in which the set of keywords is enumerated. *)
Lemma load_step_lookup commune_id self item kw :
  default [] (_keyword_index (load_step rt commune_id self item) !! kw) =
  default [] (_keyword_index self !! kw) ++
  match accepted (snd item) with
  | Some ts => entry_for kw (commune_id, fst item, ts)
  | None => []
  end.
Proof.
  destruct item as [comm_id comm_data]. rewrite load_step_eq. cbn [fst snd].
  destruct (community_of commune_id comm_id comm_data) as [community|] eqn:Hcomm.
  - destruct (accepted comm_data) as [[title summary]|];
      [|rewrite app_nil_r; reflexivity].
    cbn [_keyword_index].
    rewrite index_keywords_lookup by apply set_order_NoDup, word_set_NoDup.
    unfold entry_for.
    assert (bool_decide (kw ∈ set_order rt (word_set (str_lower (title +:+ " " +:+ summary)))) =
            bool_decide (kw ∈ word_set (str_lower (title +:+ " " +:+ summary)))) as ->
      by (apply bool_decide_ext, set_order_elem).
    reflexivity.
  - destruct (accepted comm_data) as [[title summary]|] eqn:Hacc;
      [|rewrite app_nil_r; reflexivity].
    apply (accepted_community_of commune_id comm_id) in Hacc as (c & Hc & _).
    congruence.
Qed.

Lemma load_steps_lookup commune_id (entries : list (string * json)) self kw :
  default [] (_keyword_index (foldl (load_step rt commune_id) self entries) !! kw) =
  default [] (_keyword_index self !! kw) ++
  flat_map (entry_for kw)
    (omap (fun kv : string * json =>
             match accepted (snd kv) with
             | Some ts => Some (commune_id, fst kv, ts)
             | None => None
             end)
          entries).
Proof.
  revert self. induction entries as [|item entries IH]; intros self; cbn [foldl].
  - rewrite app_nil_r. reflexivity.
  - rewrite IH, load_step_lookup, <- app_assoc. f_equal.
    cbn [omap list_omap]. destruct (accepted (snd item)) as [ts|]; reflexivity.
Qed.

Lemma load_commune_reports_lookup self item kw :
  default [] (_keyword_index (load_commune_reports rt self item) !! kw) =
  default [] (_keyword_index self !! kw) ++
  flat_map (entry_for kw) (accepted_of_file rt item).
Proof.
  destruct item as [commune_id [| |data]]; cbn [load_commune_reports];
    try (rewrite app_nil_r; reflexivity).
  unfold accepted_of_file. cbn [fst snd].
  destruct data as [|b|n|x|s|items|members]; cbn [as_dict _keyword_index];
    try (rewrite app_nil_r; reflexivity).
  rewrite load_communities_eq, load_steps_lookup. reflexivity.
Qed.

Lemma refresh_lookup data_path self kw :
  default [] (_keyword_index (_refresh_cache rt data_path self) !! kw) =
  flat_map (entry_for kw) (accepted_list rt data_path).
Proof.
  unfold _refresh_cache, accepted_list.
  assert (forall items c,
            default [] (_keyword_index (foldl (load_commune_reports rt) c items) !! kw) =
            default [] (_keyword_index c !! kw) ++
            flat_map (entry_for kw) (flat_map (accepted_of_file rt) items)) as H.
  { induction items as [|item items IH]; intros c; cbn [foldl flat_map].
    - rewrite app_nil_r. reflexivity.
    - rewrite IH, load_commune_reports_lookup, flat_map_app, app_assoc. reflexivity. }
  rewrite H. reflexivity.
Qed.

(** *** The accumulated scores *)

Lemma entry_sum_absent key entries :
  key ∉ map fst entries -> entry_sum key entries = 0.
Proof.
  unfold entry_sum. induction entries as [|e entries IH]; cbn [map foldr]; [reflexivity|].
  intros Hk. apply not_elem_of_cons in Hk as [Hne Hk].
  rewrite IH by exact Hk. destruct (decide (fst e = key)); [congruence|lia].
Qed.

Lemma add_scores_get entries scores key :
  od_get key (foldl add_score scores entries) =
  if bool_decide (key ∈ map fst entries)
  then Some (default 0 (od_get key scores) + entry_sum key entries)
  else od_get key scores.
Proof.
  revert scores. induction entries as [|[[c i] s] entries IH]; intros scores;
    cbn [foldl map].
  - reflexivity.
  - rewrite IH. unfold add_score. cbn [entry_sum foldr fst snd].
    fold (entry_sum key entries).
    destruct (decide ((c, i) = key)) as [<-|Hne].
    + rewrite (bool_decide_eq_true_2 ((c, i) ∈ (c, i) :: map fst entries)) by left.
      destruct (decide ((c, i) ∈ map fst entries)) as [Hin|Hnot].
      * rewrite bool_decide_eq_true_2 by exact Hin. rewrite od_get_set_eq.
        cbn [default from_option id]. f_equal. lia.
      * rewrite bool_decide_eq_false_2 by exact Hnot.
        rewrite od_get_set_eq, entry_sum_absent by exact Hnot. f_equal. lia.
    + rewrite od_get_set_ne by exact Hne.
      assert (bool_decide (key ∈ (c, i) :: map fst entries) =
              bool_decide (key ∈ map fst entries)) as ->.
      { apply bool_decide_ext. rewrite elem_of_cons. split; [|auto].
        intros [->|H]; [congruence|exact H]. }
      destruct (bool_decide (key ∈ map fst entries)); [f_equal; lia|reflexivity].
Qed.

Lemma search_scores_flat self query_words :
  search_scores self query_words =
  foldl add_score []
    (flat_map (fun q => default [] (_keyword_index self !! q)) query_words).
Proof.
  unfold search_scores.
  assert (forall scores : odict (string * string) Z,
            foldl (fun scores keyword =>
                     foldl add_score scores
                       (default [] (_keyword_index self !! keyword)))
                  scores query_words =
            foldl add_score scores
              (flat_map (fun q => default [] (_keyword_index self !! q))
                 query_words)) as H; [|apply H].
  induction query_words as [|q qs IH]; intros scores; cbn [foldl flat_map].
  - reflexivity.
  - rewrite foldl_app. apply IH.
Qed.

Lemma entry_sum_app key l1 l2 :
  entry_sum key (l1 ++ l2) = entry_sum key l1 + entry_sum key l2.
Proof.
  unfold entry_sum. induction l1 as [|e l1 IH]; cbn [app foldr]; [lia|].
  rewrite IH. lia.
Qed.
End ScoreFacts.

(** ** Words and substrings *)

Section TextFacts.

Lemma str_app_cons (c : ascii) (a b : string) :
  String c a +:+ b = String c (a +:+ b).
Proof. reflexivity. Qed.

Lemma str_app_nil_l (a : string) : EmptyString +:+ a = a.
Proof. reflexivity. Qed.

Lemma str_app_assoc (a b c : string) : (a +:+ b) +:+ c = a +:+ (b +:+ c).
Proof.
  induction a as [|x a IH]; [reflexivity|].
  rewrite !str_app_cons. f_equal. exact IH.
Qed.

Lemma str_lower_app (a b : string) : str_lower (a +:+ b) = str_lower a +:+ str_lower b.
Proof.
  induction a as [|x a IH]; [reflexivity|].
  rewrite str_app_cons. cbn [str_lower]. rewrite str_app_cons. f_equal. exact IH.
Qed.

Lemma prefix_app (k post : string) : String.prefix k (k +:+ post) = true.
Proof.
  induction k as [|x k IH]; [destruct post; reflexivity|].
  rewrite str_app_cons. cbn [String.prefix].
  destruct (Ascii.ascii_dec x x); [exact IH|congruence].
Qed.

Lemma is_substring_unfold (k hay : string) :
  is_substring k hay =
  String.prefix k hay ||
  match hay with
  | EmptyString => false
  | String _ hay' => is_substring k hay'
  end.
Proof. destruct hay; reflexivity. Qed.

Lemma is_substring_app (pre k post : string) :
  is_substring k (pre +:+ k +:+ post) = true.
Proof.
  induction pre as [|x pre IH].
  - rewrite str_app_nil_l, is_substring_unfold, prefix_app. reflexivity.
  - rewrite str_app_cons, is_substring_unfold, IH. apply orb_true_r.
Qed.

(** A word found in a text occurs in it. *)
Lemma findall_words_aux_occurs (s cur k : string) :
  k ∈ findall_words_aux cur s ->
  exists pre post, cur +:+ s = pre +:+ k +:+ post.
Proof.
  revert cur. induction s as [|c s IH]; intros cur; cbn [findall_words_aux].
  - unfold emit_word. destruct (3 <=? String.length cur)%nat; [|inversion 1].
    intros H. apply list_elem_of_singleton in H. subst k.
    exists EmptyString, EmptyString. reflexivity.
  - destruct (is_word_char c).
    + intros H. apply IH in H as (pre & post & Heq).
      exists pre, post. rewrite <- Heq, str_app_assoc. reflexivity.
    + intros H. apply elem_of_app in H as [H|H].
      * unfold emit_word in H. destruct (3 <=? String.length cur)%nat; [|inversion H].
        apply list_elem_of_singleton in H. subst k.
        exists EmptyString, (String c s). reflexivity.
      * apply IH in H as (pre & post & Heq). rewrite str_app_nil_l in Heq.
        exists (cur +:+ String c pre), post.
        rewrite Heq, !str_app_assoc, str_app_cons. reflexivity.
Qed.

Lemma findall_words_substring (s k : string) :
  k ∈ findall_words s -> is_substring k s = true.
Proof.
  intros H. apply findall_words_aux_occurs in H as (pre & post & Heq).
  rewrite str_app_nil_l in Heq. rewrite Heq. apply is_substring_app.
Qed.

Lemma findall_words_aux_app (a b cur : string) (c : ascii) :
  is_word_char c = false ->
  findall_words_aux cur (a +:+ String c b) =
  findall_words_aux cur a ++ findall_words b.
Proof.
  intros Hc. revert cur. induction a as [|x a IH]; intros cur.
  - rewrite str_app_nil_l. cbn [findall_words_aux]. rewrite Hc. reflexivity.
  - rewrite str_app_cons. cbn [findall_words_aux].
    destruct (is_word_char x); [apply IH|].
    rewrite IH, app_assoc. reflexivity.
Qed.

(** The words of title-space-summary are the words of the title and the
    words of the summary. *)
Lemma findall_words_title_summary (title summary : string) :
  findall_words (str_lower (title +:+ " " +:+ summary)) =
  findall_words (str_lower title) ++ findall_words (str_lower summary).
Proof.
  rewrite str_lower_app, str_app_cons, str_app_nil_l. cbn [str_lower].
  unfold findall_words. apply findall_words_aux_app. reflexivity.
Qed.
End TextFacts.

(** ** The score of a community for a query *)

Section QueryScore.
Import CommunityCache.
Variable rt : runtime.

Lemma entry_for_sum key q c i t s :
  entry_sum key (entry_for q (c, i, (t, s))) =
  if decide ((c, i) = key) then community_score t s q else 0.
Proof.
  unfold entry_for, community_score.
  destruct (bool_decide (q ∈ word_set (str_lower (t +:+ " " +:+ s)))); cbn [andb].
  - destruct (0 <? title_score q t + summary_score q s); cbn;
      destruct (decide ((c, i) = key)); lia.
  - cbn. destruct (decide ((c, i) = key)); reflexivity.
Qed.

Lemma entry_for_keys q c i t s :
  map fst (entry_for q (c, i, (t, s))) =
  if bool_decide (0 < community_score t s q) then [(c, i)] else [].
Proof.
  unfold entry_for, community_score.
  destruct (bool_decide (q ∈ word_set (str_lower (t +:+ " " +:+ s)))); cbn [andb].
  - destruct (Z.ltb_spec 0 (title_score q t + summary_score q s)) as [Hpos|Hle].
    + rewrite bool_decide_eq_true_2 by exact Hpos. reflexivity.
    + rewrite bool_decide_eq_false_2 by lia. reflexivity.
  - rewrite bool_decide_eq_false_2 by lia. reflexivity.
Qed.

Lemma entries_sum_absent key q (l : list (string * string * (string * string))) :
  key ∉ map fst l -> entry_sum key (flat_map (entry_for q) l) = 0.
Proof.
  induction l as [|[[c i] [t s]] l IH]; cbn [map flat_map fst]; [reflexivity|].
  intros Hk. apply not_elem_of_cons in Hk as [Hne Hk].
  rewrite entry_sum_app, entry_for_sum, IH by exact Hk.
  destruct (decide ((c, i) = key)); [congruence|reflexivity].
Qed.

(** With distinct keys, the entries of a keyword for a loaded community sum
    to its score for that keyword. *)
Lemma entries_sum_unique q (l : list (string * string * (string * string))) c i t s :
  NoDup (map fst l) -> (c, i, (t, s)) ∈ l ->
  entry_sum (c, i) (flat_map (entry_for q) l) = community_score t s q.
Proof.
  induction l as [|[[c' i'] [t' s']] l IH]; cbn [map flat_map fst]; intros Hnd Hin.
  - inversion Hin.
  - apply NoDup_cons in Hnd as [Hk Hnd]. rewrite entry_sum_app, entry_for_sum.
    apply elem_of_cons in Hin as [Heq|Hin].
    + injection Heq as <- <- <- <-.
      destruct (decide ((c, i) = (c, i))); [|congruence].
      rewrite entries_sum_absent by exact Hk. lia.
    + destruct (decide ((c', i') = (c, i))) as [Heq|_].
      * exfalso. apply Hk. rewrite Heq.
        apply (list_elem_of_fmap_2 fst) in Hin. exact Hin.
      * rewrite IH by assumption. lia.
Qed.

Lemma entries_keys_hit q (l : list (string * string * (string * string))) c i t s :
  (c, i, (t, s)) ∈ l -> 0 < community_score t s q ->
  (c, i) ∈ map fst (flat_map (entry_for q) l).
Proof.
  intros Hin Hpos. apply list_elem_of_In, in_map_iff.
  assert ((c, i) ∈ map fst (entry_for q (c, i, (t, s)))) as Hk.
  { rewrite entry_for_keys, bool_decide_eq_true_2 by exact Hpos. left. }
  apply list_elem_of_In, in_map_iff in Hk as (e & He & Hine).
  exists e. split; [exact He|]. apply in_flat_map.
  exists (c, i, (t, s)). split; [apply list_elem_of_In, Hin|exact Hine].
Qed.

(** The accumulated score of a loaded community is its query score. *)
Lemma search_scores_get data_path self query_words c i t s k :
  NoDup (map fst (accepted_list rt data_path)) ->
  (c, i, (t, s)) ∈ accepted_list rt data_path ->
  k ∈ query_words -> 0 < community_score t s k ->
  od_get (c, i) (search_scores (_refresh_cache rt data_path self) query_words) =
  Some (query_score t s query_words).
Proof.
  intros Hnd Hin Hk Hpos.
  rewrite search_scores_flat, add_scores_get.
  assert (flat_map (fun q => default []
                       (_keyword_index (_refresh_cache rt data_path self) !! q))
            query_words =
          flat_map (fun q => flat_map (entry_for q) (accepted_list rt data_path))
            query_words) as ->.
  { apply flat_map_ext. intros q. apply refresh_lookup. }
  rewrite bool_decide_eq_true_2.
  - cbn [od_get default from_option id]. f_equal. clear Hk.
    induction query_words as [|q qs IH]; cbn [flat_map query_score foldr];
      [reflexivity|].
    fold (query_score t s qs). rewrite entry_sum_app.
    rewrite (entries_sum_unique q _ c i t s Hnd Hin). lia.
  - apply list_elem_of_In, in_map_iff.
    pose proof (entries_keys_hit k _ c i t s Hin Hpos) as Hhit.
    apply list_elem_of_In, in_map_iff in Hhit as (e & He & Hine).
    exists e. split; [exact He|]. apply in_flat_map.
    exists k. split; [apply list_elem_of_In, Hk|exact Hine].
Qed.

Lemma community_score_nonneg t s q : 0 <= community_score t s q.
Proof.
  unfold community_score. destruct (bool_decide _); [|lia].
  destruct (Z.ltb_spec 0 (title_score q t + summary_score q s)); lia.
Qed.

Lemma query_score_lt ta sa tb sb qs k :
  k ∈ qs ->
  community_score tb sb k < community_score ta sa k ->
  (forall q, q ∈ qs -> q <> k -> community_score ta sa q = community_score tb sb q) ->
  query_score tb sb qs < query_score ta sa qs.
Proof.
  intros Hk Hlt Hsame.
  assert (forall l, (forall q, q ∈ l -> q ∈ qs) ->
            query_score tb sb l <= query_score ta sa l /\
            (k ∈ l -> query_score tb sb l < query_score ta sa l)) as H.
  { induction l as [|q l IH]; intros Hsub; cbn [query_score foldr].
    - split; [lia|inversion 1].
    - fold (query_score ta sa l) (query_score tb sb l).
      destruct IH as [IHle IHlt]; [intros q' Hq'; apply Hsub; right; exact Hq'|].
      destruct (decide (q = k)) as [->|Hne].
      + split; [lia|]. intros _. lia.
      + rewrite (Hsame q (Hsub q ltac:(left)) Hne). split; [lia|].
        intros Hin. apply elem_of_cons in Hin as [Heq|Hin]; [congruence|].
        specialize (IHlt Hin). lia. }
  apply (H qs); auto.
Qed.
End QueryScore.

(** C6 (as the code has it). Let two communities that were loaded with
    their keywords and a query be such that a query keyword is a word of
    the first community's title, is a word of the second community's
    summary and does not occur in the second community's lower-cased
    title, not even inside a longer word (the code tests
    [keyword in title.lower()]), and every other query keyword scores the
    same for both.  Then the keyword adds at least 3 to the first community
    and exactly 1 to the second, and the first community's accumulated
    score is strictly higher, whatever the order in which the sets of words
    are enumerated. *)
Theorem C6_title_match_scores_higher (rt : runtime)
    (data_path : list (string * file json))
    (query : string)
    (commune_a comm_a title_a summary_a : string)
    (commune_b comm_b title_b summary_b : string) (keyword : string) :
  let cache := CommunityCache._refresh_cache rt data_path CommunityCache.__init__ in
  let query_words := CommunityCache.query_words rt query in
  NoDup (map fst (accepted_list rt data_path)) ->
  (commune_a, comm_a, (title_a, summary_a)) ∈ accepted_list rt data_path ->
  (commune_b, comm_b, (title_b, summary_b)) ∈ accepted_list rt data_path ->
  keyword ∈ query_words ->
  keyword ∈ findall_words (str_lower title_a) ->
  is_substring keyword (str_lower title_b) = false ->
  keyword ∈ findall_words (str_lower summary_b) ->
  (forall q, q ∈ query_words -> q <> keyword ->
     community_score title_a summary_a q = community_score title_b summary_b q) ->
  3 <= community_score title_a summary_a keyword /\
  community_score title_b summary_b keyword = 1 /\
  od_get (commune_a, comm_a) (CommunityCache.search_scores cache query_words) =
    Some (query_score title_a summary_a query_words) /\
  od_get (commune_b, comm_b) (CommunityCache.search_scores cache query_words) =
    Some (query_score title_b summary_b query_words) /\
  query_score title_b summary_b query_words <
    query_score title_a summary_a query_words.
Proof.
  cbv zeta. intros Hnd Ha Hb Hk Hta Htb Hsb Hsame.
  assert (keyword ∉ stop_words) as Hstop by (apply query_words_elem in Hk; tauto).
  assert (3 <= community_score title_a summary_a keyword) as Hsa.
  { unfold community_score. rewrite bool_decide_eq_true_2.
    - unfold CommunityCache.title_score, CommunityCache.summary_score.
      rewrite (findall_words_substring _ _ Hta).
      destruct (is_substring keyword (str_lower summary_a)); vm_compute;
        discriminate.
    - apply word_set_elem. split; [|exact Hstop].
      rewrite findall_words_title_summary. apply elem_of_app. left. exact Hta. }
  assert (community_score title_b summary_b keyword = 1) as Hsb'.
  { unfold community_score. rewrite bool_decide_eq_true_2.
    - unfold CommunityCache.title_score, CommunityCache.summary_score.
      rewrite Htb, (findall_words_substring _ _ Hsb). reflexivity.
    - apply word_set_elem. split; [|exact Hstop].
      rewrite findall_words_title_summary. apply elem_of_app. right. exact Hsb. }
  split; [exact Hsa|]. split; [exact Hsb'|]. split; [|split].
  - apply (search_scores_get rt data_path _ _ _ _ _ _ keyword); auto. lia.
  - apply (search_scores_get rt data_path _ _ _ _ _ _ keyword); auto. lia.
  - apply (query_score_lt _ _ _ _ _ keyword); auto. lia.
Qed.

Lemma C6_title_match_witness :
  od_get ("rochefort", "a")
    (CommunityCache.search_scores
       (CommunityCache._refresh_cache reverse_order eau_data_path CommunityCache.__init__)
       (CommunityCache.query_words reverse_order "Bateau")) = Some 3 /\
  od_get ("rochefort", "c")
    (CommunityCache.search_scores
       (CommunityCache._refresh_cache reverse_order eau_data_path CommunityCache.__init__)
       (CommunityCache.query_words reverse_order "Bateau")) = Some 1.
Proof.
  destruct (C6_title_match_scores_higher reverse_order eau_data_path "Bateau"
              "rochefort" "a" "eau bateau" "lac"
              "rochefort" "c" "lac" "le bateau" "bateau")
    as (_ & _ & Hga & Hgb & _).
  - compute_done.
  - vm_compute. left.
  - vm_compute. right. right. left.
  - vm_compute. left.
  - vm_compute. right. left.
  - reflexivity.
  - vm_compute. left.
  - intros q Hq Hne. exfalso. vm_compute in Hq.
    apply list_elem_of_singleton in Hq. congruence.
  - split; [exact Hga | exact Hgb].
Defined.

(** C6 as stated fails at the word level: "eau" is a word of the title of
    community a and of the summary only of community b, yet b scores 4 and
    a scores 3, because "eau" also occurs inside the word "bateau" of b's
    title. *)
Lemma C6_word_in_title_counterexample :
  CommunityCache.search_scores
    (CommunityCache._refresh_cache insertion_order eau_data_path CommunityCache.__init__)
    (CommunityCache.query_words insertion_order "eau") =
    [(("rochefort", "a"), 3); (("rochefort", "b"), 4)] /\
  ~ title_word_scores_higher insertion_order eau_data_path "eau"
      ("rochefort", "a") ("rochefort", "b")
      "eau bateau" "lac" "bateau" "lac eau" "eau".
Proof.
  assert (CommunityCache.search_scores
            (CommunityCache._refresh_cache insertion_order eau_data_path
               CommunityCache.__init__)
            (CommunityCache.query_words insertion_order "eau") =
          [(("rochefort", "a"), 3); (("rochefort", "b"), 4)]) as Hscores
    by (vm_compute; reflexivity).
  split; [exact Hscores|].
  intros Hclaim. destruct Hclaim as (sa & sb & Ha & Hb & Hlt).
  - vm_compute. left.
  - vm_compute. left.
  - vm_compute. intros H. apply list_elem_of_singleton in H. discriminate.
  - vm_compute. right. left.
  - rewrite Hscores in Ha, Hb. vm_compute in Ha, Hb.
    injection Ha as <-. injection Hb as <-. lia.
Qed.

(** * The caches: round trips, capacity, failures and batches *)

Section DictLengths.
Context {K V : Type} `{EqDecision K}.
Implicit Types (d : odict K V) (k : K) (v : V).

Lemma od_set_length k v d :
  length (od_set k v d) = if od_mem k d then length d else S (length d).
Proof.
  rewrite <- !od_keys_length, od_keys_set.
  destruct (od_mem k d); [reflexivity|]. rewrite length_app. simpl. lia.
Qed.

Lemma od_set_length_le k v d : (length (od_set k v d) <= S (length d))%nat.
Proof. rewrite od_set_length. destruct (od_mem k d); lia. Qed.

Lemma filter_split_length {A : Type} (P : A -> Prop) `{forall x, Decision (P x)}
    (l : list A) :
  (length (filter P l) + length (filter (fun x => ~ P x) l) = length l)%nat.
Proof.
  induction l as [|x l IH]; [reflexivity|].
  destruct (decide (P x)) as [Hp|Hn].
  - rewrite (filter_cons_True P) by exact Hp.
    rewrite (filter_cons_False (fun x => ~ P x)) by tauto. simpl. lia.
  - rewrite (filter_cons_False P) by exact Hn.
    rewrite (filter_cons_True (fun x => ~ P x)) by exact Hn. simpl. lia.
Qed.

Lemma od_del_all_length (ks : list K) d :
  NoDup (od_keys d) -> NoDup ks -> (forall k, k ∈ ks -> k ∈ od_keys d) ->
  (length (od_del_all ks d) + length ks = length d)%nat.
Proof.
  intros Hnd Hks Hsub.
  pose proof (od_keys_length (od_del_all ks d)) as H1.
  rewrite od_keys_del_all in H1 by exact Hnd.
  pose proof (filter_elem_length ks (od_keys d) Hks Hnd Hsub) as H2.
  pose proof (filter_split_length (fun k => k ∈ ks) (od_keys d)) as H3.
  pose proof (od_keys_length d) as H4. lia.
Qed.

Lemma od_move_to_end_get k k' d :
  NoDup (od_keys d) -> od_get k' (od_move_to_end k d) = od_get k' d.
Proof.
  intros Hnd. unfold od_move_to_end.
  destruct (od_get k d) as [v|] eqn:Hk; [|reflexivity].
  assert (forall d1 d2 : odict K V,
             od_get k' (d1 ++ d2) =
             match od_get k' d1 with Some x => Some x | None => od_get k' d2 end) as Happ.
  { induction d1 as [|[k1 v1] d1 IH]; intros d2; [reflexivity|].
    cbn [app od_get]. destruct (decide (k' = k1)); [reflexivity|]. apply IH. }
  rewrite Happ. destruct (decide (k = k')) as [->|Hne].
  - rewrite od_get_del_eq by exact Hnd. cbn [od_get].
    destruct (decide (k' = k')); congruence.
  - rewrite od_get_del_ne by exact Hne.
    destruct (od_get k' d); [reflexivity|]. cbn [od_get].
    destruct (decide (k' = k)); congruence.
Qed.

End DictLengths.

(** ** EmbeddingCache *)

Section EmbeddingCacheMore.
Context {V : Type}.
Variable _hash_text : string -> string.
Import EmbeddingCache.

(** The three ways [put] can go. *)
Lemma embedding_put_cases (self : t V) text e now :
  (Z.of_nat (length (_cache self)) < _max_entries self /\
   put _hash_text self text e now =
     Ok (mk (od_set (_hash_text text) (e, now) (_cache self))
            (_ttl_seconds self) (_max_entries self) (_hits self) (_misses self))) \/
  (Z.of_nat (length (_cache self)) >= _max_entries self /\ _cache self = [] /\
   put _hash_text self text e now = Raise ValueError) \/
  (Z.of_nat (length (_cache self)) >= _max_entries self /\
   exists oldest,
     od_mem oldest (_cache self) = true /\
     put _hash_text self text e now =
       Ok (mk (od_set (_hash_text text) (e, now) (od_del oldest (_cache self)))
              (_ttl_seconds self) (_max_entries self) (_hits self) (_misses self))).
Proof.
  unfold put.
  destruct (Z.geb_spec (Z.of_nat (length (_cache self))) (_max_entries self))
    as [Hge|Hlt].
  - right. destruct (_cache self) as [|x rest] eqn:Hc.
    + left. split; [lia|]. split; reflexivity.
    + right. split; [lia|]. exists (fst (min_from timestamp_of x rest)).
      assert (od_mem (fst (min_from timestamp_of x rest)) (x :: rest) = true) as Hm.
      { apply od_mem_spec. apply (list_elem_of_fmap_2 fst), min_from_elem. }
      split; [exact Hm|]. cbn [py_min bind]. unfold py_del. rewrite Hm. reflexivity.
  - left. split; [lia|]. reflexivity.
Qed.

Lemma embedding_get_fields (self : t V) text now :
  _ttl_seconds (snd (get _hash_text self text now)) = _ttl_seconds self /\
  _max_entries (snd (get _hash_text self text now)) = _max_entries self /\
  (length (_cache (snd (get _hash_text self text now))) <= length (_cache self))%nat /\
  _hits (snd (get _hash_text self text now)) +
    _misses (snd (get _hash_text self text now)) = _hits self + _misses self + 1.
Proof.
  unfold get. destruct (od_get _ _) as [[e ts]|] eqn:Hg; cbn; [|repeat split; lia].
  destruct (Qltb _ _); cbn; [|repeat split; lia].
  repeat split; try lia.
  assert (od_mem (_hash_text text) (_cache self) = true) as Hm
    by (unfold od_mem; rewrite Hg; reflexivity).
  pose proof (od_del_length _ _ Hm). lia.
Qed.

Lemma embedding_put_keeps_capacity (self : t V) text e now :
  wf self -> 1 <= _max_entries self ->
  Z.of_nat (length (_cache self)) <= _max_entries self ->
  exists self',
    put _hash_text self text e now = Ok self' /\ wf self' /\
    _ttl_seconds self' = _ttl_seconds self /\
    _max_entries self' = _max_entries self /\
    Z.of_nat (length (_cache self')) <= _max_entries self /\
    _hits self' = _hits self /\ _misses self' = _misses self.
Proof.
  intros Hwf Hmax Hlen.
  destruct (embedding_put_cases self text e now)
    as [[Hlt Hput]|[(Hge & Hnil & _)|(Hge & oldest & Hm & Hput)]].
  - eexists. split; [exact Hput|].
    split; [eapply embedding_wf_put; [exact Hwf|exact Hput]|]. cbn.
    pose proof (od_set_length_le (_hash_text text) (e, now) (_cache self)).
    repeat split; lia.
  - rewrite Hnil in Hge. cbn in Hge. lia.
  - eexists. split; [exact Hput|].
    split; [eapply embedding_wf_put; [exact Hwf|exact Hput]|]. cbn.
    pose proof (od_set_length_le (_hash_text text) (e, now) (od_del oldest (_cache self))).
    pose proof (od_del_length _ _ Hm). repeat split; lia.
Qed.

Lemma embedding_calls_capacity (calls : list (cache_call V)) (self : t V) :
  wf self -> 1 <= _max_entries self ->
  Z.of_nat (length (_cache self)) <= _max_entries self ->
  exists self',
    run_calls (embedding_call _hash_text) self calls = Ok self' /\
    wf self' /\
    _max_entries self' = _max_entries self /\
    Z.of_nat (length (_cache self')) <= _max_entries self /\
    _hits self' + _misses self' = _hits self + _misses self + count_gets calls.
Proof.
  revert self. induction calls as [|c calls IH]; intros self Hwf Hmax Hlen.
  - exists self. cbn. repeat split; auto; lia.
  - destruct c as [text now|text e now]; cbn [run_calls embedding_call bind count_gets].
    + destruct (embedding_get_fields self text now) as (_ & Hm & Hl & Hc).
      destruct (IH (snd (get _hash_text self text now))) as (self' & Hrun & Hwf' & Hm' & Hl' & Hc').
      * apply embedding_wf_get, Hwf.
      * lia.
      * lia.
      * exists self'. split; [exact Hrun|]. repeat split; auto; lia.
    + destruct (embedding_put_keeps_capacity self text e now Hwf Hmax Hlen)
        as (self1 & Hput & Hwf1 & _ & Hm1 & Hl1 & Hh1 & Hmi1).
      rewrite Hput. cbn [bind].
      destruct (IH self1) as (self' & Hrun & Hwf' & Hm' & Hl' & Hc'); [auto|lia|lia|].
      exists self'. split; [exact Hrun|]. repeat split; auto; lia.
Qed.

End EmbeddingCacheMore.

(** ** LLMResponseCacheSingleton *)

Section LLMCacheMore.
Context {V : Type}.
Import LLMResponseCacheSingleton.

(** Below capacity [set] only writes the two dictionaries. *)
Lemma llm_set_below (self : t V) key value now :
  Z.of_nat (length (_cache self)) < _max_entries self ->
  set self key value now =
    Ok (mk (od_set key value (_cache self)) (od_set key now (_timestamps self))
           (_ttl_seconds self) (_max_entries self) (_hits self) (_misses self)).
Proof.
  intros Hlt. unfold set.
  destruct (Z.geb_spec (Z.of_nat (length (_cache self))) (_max_entries self));
    [lia|reflexivity].
Qed.

Lemma llm_wf_lengths (self : t V) :
  wf self -> length (_timestamps self) = length (_cache self).
Proof.
  intros [Hkeys _]. rewrite <- (od_keys_length (_timestamps self)), <- Hkeys.
  apply od_keys_length.
Qed.

(** With fewer than ten entries the oldest tenth is empty. *)
Lemma llm_set_small (self : t V) key value now :
  wf self -> (length (_cache self) < 10)%nat ->
  set self key value now =
    Ok (mk (od_set key value (_cache self)) (od_set key now (_timestamps self))
           (_ttl_seconds self) (_max_entries self) (_hits self) (_misses self)).
Proof.
  intros Hwf Hlen. unfold set.
  destruct (Z.geb_spec (Z.of_nat (length (_cache self))) (_max_entries self));
    [|reflexivity].
  assert (length (sorted_keys (_timestamps self)) / 10 = 0)%nat as ->.
  { rewrite (Permutation_length (llm_sorted_keys_perm (_timestamps self))).
    rewrite od_keys_length, (llm_wf_lengths self Hwf).
    apply Nat.div_small. exact Hlen. }
  reflexivity.
Qed.

Lemma llm_set_keeps_capacity (self : t V) key value now :
  wf self -> 10 <= _max_entries self ->
  Z.of_nat (length (_cache self)) <= _max_entries self ->
  exists self',
    set self key value now = Ok self' /\ wf self' /\
    _ttl_seconds self' = _ttl_seconds self /\
    _max_entries self' = _max_entries self /\
    Z.of_nat (length (_cache self')) <= _max_entries self /\
    _hits self' = _hits self /\ _misses self' = _misses self.
Proof.
  intros Hwf Hmax Hlen.
  destruct (llm_set_ok self key value now Hwf) as (self' & Hset & Hwf').
  exists self'. split; [exact Hset|]. split; [exact Hwf'|].
  destruct (Z_lt_ge_dec (Z.of_nat (length (_cache self))) (_max_entries self))
    as [Hlt|Hge].
  - rewrite (llm_set_below self key value now Hlt) in Hset.
    apply Ok_inj in Hset. subst self'. cbn.
    pose proof (od_set_length_le key value (_cache self)). repeat split; lia.
  - destruct (llm_set_at_capacity self key value now Hwf Hge)
      as (evicted & _ & Hlen' & Hnd & Hsub & _ & Hset' & _).
    rewrite Hset' in Hset. apply Ok_inj in Hset. subst self'. cbn.
    pose proof (od_set_length_le key value (od_del_all evicted (_cache self))).
    pose proof (od_del_all_length evicted (_cache self) (proj2 Hwf) Hnd Hsub).
    assert (1 <= length (_cache self) / 10)%nat.
    { apply Nat.div_le_lower_bound; lia. }
    repeat split; lia.
Qed.

(** [get] never raises on a well-formed cache. *)
Lemma llm_get_ok (self : t V) key now :
  wf self ->
  exists r self',
    get self key now = Ok (r, self') /\ wf self' /\
    _ttl_seconds self' = _ttl_seconds self /\
    _max_entries self' = _max_entries self /\
    (length (_cache self') <= length (_cache self))%nat /\
    _hits self' + _misses self' = _hits self + _misses self + 1 /\
    (forall k, k <> key -> od_get k (_cache self') = od_get k (_cache self)) /\
    (forall k, k <> key -> od_get k (_timestamps self') = od_get k (_timestamps self)).
Proof.
  intros [Hkeys Hnd]. unfold get.
  destruct (od_get key (_cache self)) as [v|] eqn:Hg.
  - destruct (Qltb _ _).
    + assert (od_mem key (_cache self) = true) as Hm
        by (unfold od_mem; rewrite Hg; reflexivity).
      assert (od_mem key (_timestamps self) = true) as Hm'
        by (rewrite <- (od_mem_keys _ _ key Hkeys); exact Hm).
      unfold py_del. rewrite Hm, Hm'. cbn [bind].
      eexists _, _. split; [reflexivity|]. unfold wf.
      cbn [_cache _timestamps _ttl_seconds _max_entries _hits _misses].
      assert (NoDup (od_keys (_timestamps self))) as Hnd' by (rewrite <- Hkeys; exact Hnd).
      split; [split|].
      * rewrite !od_keys_del by assumption. rewrite Hkeys. reflexivity.
      * apply od_keys_NoDup_del, Hnd.
      * pose proof (od_del_length _ _ Hm).
        repeat split; try lia; intros k Hk; apply od_get_del_ne; congruence.
    + eexists _, _. split; [reflexivity|]. cbn. split; [split; assumption|].
      repeat split; lia.
  - eexists _, _. split; [reflexivity|]. cbn. split; [split; assumption|].
    repeat split; lia.
Qed.

Lemma llm_calls_capacity (calls : list (cache_call V)) (self : t V) :
  wf self -> 10 <= _max_entries self ->
  Z.of_nat (length (_cache self)) <= _max_entries self ->
  exists self',
    run_calls llm_call self calls = Ok self' /\
    wf self' /\
    _max_entries self' = _max_entries self /\
    Z.of_nat (length (_cache self')) <= _max_entries self /\
    _hits self' + _misses self' = _hits self + _misses self + count_gets calls.
Proof.
  revert self. induction calls as [|c calls IH]; intros self Hwf Hmax Hlen.
  - exists self. cbn. split; [reflexivity|]. split; [exact Hwf|]. repeat split; lia.
  - destruct c as [key now|key value now]; cbn [run_calls llm_call bind count_gets].
    + destruct (llm_get_ok self key now Hwf)
        as (r & self1 & Hget & Hwf1 & _ & Hm1 & Hl1 & Hc1 & _).
      rewrite Hget. cbn [bind snd].
      destruct (IH self1) as (self' & Hrun & Hwf' & Hm' & Hl' & Hc'); [auto|lia|lia|].
      exists self'. split; [exact Hrun|]. split; [exact Hwf'|]. repeat split; lia.
    + destruct (llm_set_keeps_capacity self key value now Hwf Hmax Hlen)
        as (self1 & Hset & Hwf1 & _ & Hm1 & Hl1 & Hh1 & Hmi1).
      rewrite Hset. cbn [bind].
      destruct (IH self1) as (self' & Hrun & Hwf' & Hm' & Hl' & Hc'); [auto|lia|lia|].
      exists self'. split; [exact Hrun|]. split; [exact Hwf'|]. repeat split; lia.
Qed.

End LLMCacheMore.

(** ** GraphRAGCache *)

Section GraphRAGCacheMore.
Context {V : Type}.
Import GraphRAGCache.

(** The eviction loop drops entries from the front until fewer than
    [maxsize] are left; with [maxsize <= 0] it runs the cache empty and
    then fails. *)
Lemma graphrag_evict_while_spec (maxsize : Z) (cache : odict string (V * Q)) :
  (maxsize <= 0 -> evict_while maxsize cache = Raise StopIteration) /\
  (1 <= maxsize ->
   exists n,
     evict_while maxsize cache = Ok (skipn n cache) /\
     Z.of_nat (length (skipn n cache)) < maxsize).
Proof.
  induction cache as [|x cache [IHr IHo]]; split; intros Hm.
  - cbn [evict_while length].
    destruct (Z.geb_spec (Z.of_nat 0) maxsize); [reflexivity|lia].
  - exists O. cbn [evict_while length skipn].
    destruct (Z.geb_spec (Z.of_nat 0) maxsize); [lia|]. split; [reflexivity|lia].
  - cbn [evict_while].
    destruct (Z.geb_spec (Z.of_nat (length (x :: cache))) maxsize) as [_|Hlt];
      [apply IHr, Hm|lia].
  - cbn [evict_while].
    destruct (Z.geb_spec (Z.of_nat (length (x :: cache))) maxsize) as [Hge|Hlt].
    + destruct (IHo Hm) as (n & He & Hl). exists (S n). cbn [skipn]. auto.
    + exists O. cbn [skipn]. split; [reflexivity|lia].
Qed.

Lemma skipn_keys_NoDup (n : nat) (cache : odict string (V * Q)) :
  NoDup (od_keys cache) -> NoDup (od_keys (skipn n cache)).
Proof.
  intros Hnd. unfold od_keys. rewrite <- skipn_map.
  eapply sublist_NoDup; [exact Hnd|]. apply sublist_drop.
Qed.

Lemma graphrag_get_fields (self : t V) working_dir now :
  wf self ->
  wf (snd (get self working_dir now)) /\
  maxsize (snd (get self working_dir now)) = maxsize self /\
  (length (_cache (snd (get self working_dir now))) <= length (_cache self))%nat /\
  _hits (snd (get self working_dir now)) + _misses (snd (get self working_dir now)) =
    _hits self + _misses self + 1.
Proof.
  intros Hwf. unfold get, wf in *.
  destruct (od_get working_dir (_cache self)) as [[inst ts]|] eqn:Hg; cbn;
    [|repeat split; auto; lia].
  assert (od_mem working_dir (_cache self) = true) as Hm
    by (unfold od_mem; rewrite Hg; reflexivity).
  pose proof (od_del_length _ _ Hm) as Hdl.
  destruct (Qltb _ _); cbn.
  - split; [apply od_keys_NoDup_del, Hwf|]. repeat split; lia.
  - unfold od_move_to_end. rewrite Hg. split.
    + unfold od_keys. rewrite fmap_app. apply NoDup_app.
      split; [apply od_keys_NoDup_del, Hwf|]. split; [|apply NoDup_singleton].
      intros x Hx Hx'. cbn in Hx'. apply list_elem_of_singleton in Hx'. subst x.
      apply od_mem_spec in Hx. unfold od_mem in Hx.
      rewrite od_get_del_eq in Hx by exact Hwf. discriminate.
    + rewrite length_app. cbn. repeat split; lia.
Qed.

Lemma graphrag_put_keeps_capacity (self : t V) working_dir instance now :
  wf self -> 1 <= maxsize self ->
  exists self',
    put self working_dir instance now = Ok self' /\ wf self' /\
    maxsize self' = maxsize self /\
    Z.of_nat (length (_cache self')) <= maxsize self /\
    _hits self' = _hits self /\ _misses self' = _misses self.
Proof.
  intros Hwf Hmax. unfold put.
  destruct (graphrag_evict_while_spec (maxsize self) (_cache self)) as [_ Ho].
  destruct (Ho Hmax) as (n & He & Hl). rewrite He. cbn [bind].
  eexists. split; [reflexivity|]. cbn.
  split; [apply od_keys_NoDup_set, skipn_keys_NoDup, Hwf|].
  pose proof (od_set_length_le working_dir (instance, now) (skipn n (_cache self))).
  repeat split; lia.
Qed.

Lemma graphrag_calls_capacity (calls : list (cache_call V)) (self : t V) :
  wf self -> 1 <= maxsize self ->
  Z.of_nat (length (_cache self)) <= maxsize self ->
  exists self',
    run_calls graphrag_call self calls = Ok self' /\
    wf self' /\
    maxsize self' = maxsize self /\
    Z.of_nat (length (_cache self')) <= maxsize self /\
    _hits self' + _misses self' = _hits self + _misses self + count_gets calls.
Proof.
  revert self. induction calls as [|c calls IH]; intros self Hwf Hmax Hlen.
  - exists self. cbn. split; [reflexivity|]. split; [exact Hwf|]. repeat split; lia.
  - destruct c as [wd now|wd inst now]; cbn [run_calls graphrag_call bind count_gets].
    + destruct (graphrag_get_fields self wd now Hwf) as (Hwf1 & Hm1 & Hl1 & Hc1).
      destruct (IH (snd (get self wd now)) Hwf1) as (self' & Hrun & Hwf' & Hm' & Hl' & Hc');
        [lia|lia|].
      exists self'. split; [exact Hrun|]. split; [exact Hwf'|]. repeat split; lia.
    + destruct (graphrag_put_keeps_capacity self wd inst now Hwf Hmax)
        as (self1 & Hput & Hwf1 & Hm1 & Hl1 & Hh1 & Hmi1).
      rewrite Hput. cbn [bind].
      destruct (IH self1 Hwf1) as (self' & Hrun & Hwf' & Hm' & Hl' & Hc'); [lia|lia|].
      exists self'. split; [exact Hrun|]. split; [exact Hwf'|]. repeat split; lia.
Qed.

End GraphRAGCacheMore.

(** ** Batches *)

Section EmbeddingBatchFacts.
Context {V : Type}.
Variable _hash_text : string -> string.
Import EmbeddingCache.

(** What [get] answers depends on the entry of the key and on the TTL only. *)
Lemma embedding_get_answer (s1 s2 : t V) text now :
  od_get (_hash_text text) (_cache s1) = od_get (_hash_text text) (_cache s2) ->
  _ttl_seconds s1 = _ttl_seconds s2 ->
  fst (get _hash_text s1 text now) = fst (get _hash_text s2 text now).
Proof.
  intros Hg Ht. unfold get. rewrite Hg, Ht.
  destruct (od_get _ (_cache s2)) as [[e ts]|]; [|reflexivity].
  destruct (Qltb _ _); reflexivity.
Qed.

(** [get] leaves the entries of the other keys alone. *)
Lemma embedding_get_other (self : t V) text now k :
  k <> _hash_text text ->
  od_get k (_cache (snd (get _hash_text self text now))) = od_get k (_cache self).
Proof.
  intros Hk. unfold get.
  destruct (od_get (_hash_text text) (_cache self)) as [[e ts]|]; [|reflexivity].
  destruct (Qltb _ _); [|reflexivity]. cbn. apply od_get_del_ne. congruence.
Qed.

Lemma embedding_get_miss_counts (self : t V) text now :
  _misses (snd (get _hash_text self text now)) =
  _misses self + (match fst (get _hash_text self text now) with None => 1 | Some _ => 0 end).
Proof.
  unfold get. destruct (od_get _ _) as [[e ts]|]; cbn; [|lia].
  destruct (Qltb _ _); cbn; lia.
Qed.

Lemma get_batch_loop_spec (clock : nat -> Q) (texts : list string) :
  forall (i : nat) (results : list (option V)) (uncached : list nat) (self : t V)
         results' uncached' self',
    EmbeddingCacheBatch.get_batch_loop _hash_text clock i texts results uncached self =
      (results', uncached', self') ->
    exists rs us,
      results' = results ++ rs /\ uncached' = uncached ++ us /\
      length rs = length texts /\
      (forall j, j ∈ us <-> exists k, j = (i + k)%nat /\ rs !! k = Some None) /\
      StronglySorted lt us /\
      _hits self' + _misses self' =
        _hits self + _misses self + Z.of_nat (length texts) /\
      _misses self' = _misses self + Z.of_nat (length us) /\
      _ttl_seconds self' = _ttl_seconds self /\
      (forall k, k ∉ map _hash_text texts ->
                 od_get k (_cache self') = od_get k (_cache self)) /\
      (NoDup (map _hash_text texts) ->
       forall k text, texts !! k = Some text ->
         rs !! k = Some (fst (get _hash_text self text (clock (i + k)%nat)))).
Proof.
  induction texts as [|text texts IH]; intros i results uncached self results' uncached' self' Hloop.
  - cbn in Hloop. injection Hloop as <- <- <-. exists [], [].
    rewrite !app_nil_r. cbn. repeat split; try lia; try constructor.
    + intros Hj. inversion Hj.
    + intros (k & _ & Hk). rewrite lookup_nil in Hk. discriminate.
    + intros _ k text Hk. rewrite lookup_nil in Hk. discriminate.
  - cbn [EmbeddingCacheBatch.get_batch_loop] in Hloop.
    destruct (get _hash_text self text (clock i)) as [cached self1] eqn:Hget.
    apply IH in Hloop
      as (rs & us & -> & -> & Hlen & Hus & Hsorted & Hcount & Hmiss & Httl & Hother & Hvals).
    pose proof (embedding_get_fields _hash_text self text (clock i)) as (Ht1 & _ & _ & Hc1).
    pose proof (embedding_get_miss_counts self text (clock i)) as Hm1.
    rewrite Hget in Ht1, Hc1, Hm1. cbn [fst snd] in Ht1, Hc1, Hm1.
    assert (forall j, j ∈ us -> (S i <= j)%nat) as Hge.
    { intros j Hj. apply Hus in Hj as (k & -> & _). lia. }
    exists (cached :: rs), (match cached with None => i :: us | Some _ => us end).
    split; [rewrite <- app_assoc; reflexivity|].
    split; [destruct cached; [reflexivity|rewrite <- app_assoc; reflexivity]|].
    split; [cbn; lia|]. split; [|split; [|split; [|split; [|split; [|split]]]]].
    + intros j. split.
      * intros Hj. destruct cached as [e|].
        -- apply Hus in Hj as (k & -> & Hk). exists (S k). split; [lia|exact Hk].
        -- apply elem_of_cons in Hj as [->|Hj].
           ++ exists O. split; [lia|reflexivity].
           ++ apply Hus in Hj as (k & -> & Hk). exists (S k). split; [lia|exact Hk].
      * intros (k & -> & Hk). destruct k as [|k].
        -- cbn in Hk. injection Hk as ->. rewrite Nat.add_0_r. left.
        -- cbn in Hk. assert ((i + S k)%nat ∈ us) as Hin
             by (apply Hus; exists k; split; [lia|exact Hk]).
           destruct cached; [exact Hin|right; exact Hin].
    + destruct cached; [exact Hsorted|]. constructor; [exact Hsorted|].
      apply Forall_forall. intros j Hj. apply Hge in Hj. lia.
    + cbn [length]. lia.
    + destruct cached; cbn [length] in *; lia.
    + congruence.
    + intros k Hk. cbn [map] in Hk. apply not_elem_of_cons in Hk as [Hne Hk].
      rewrite (Hother k Hk).
      pose proof (embedding_get_other self text (clock i) k Hne) as Ho.
      rewrite Hget in Ho. exact Ho.
    + intros Hnd k text' Hk. cbn [map] in Hnd. apply NoDup_cons in Hnd as [Hnotin Hnd].
      destruct k as [|k].
      * cbn in Hk. injection Hk as <-. cbn. rewrite Nat.add_0_r, Hget. reflexivity.
      * cbn in Hk. change ((cached :: rs) !! S k) with (rs !! k).
        rewrite (Hvals Hnd k text' Hk).
        replace (S i + k)%nat with (i + S k)%nat by lia. f_equal.
        apply embedding_get_answer; [|exact Ht1].
        assert (_hash_text text' <> _hash_text text) as Hne.
        { intros Heq. apply Hnotin. rewrite <- Heq.
          apply list_elem_of_In, in_map, list_elem_of_In.
          eapply list_elem_of_lookup_2. exact Hk. }
        pose proof (embedding_get_other self text (clock i) _ Hne) as Ho.
        rewrite Hget in Ho. exact Ho.
Qed.

End EmbeddingBatchFacts.

Section LLMBatchFacts.
Context {V : Type}.
Import LLMResponseCacheSingleton.

Lemma llm_upsert_loop_spec (clock : nat -> Q) (data : odict string V) :
  forall (i : nat) (self : t V),
    wf self -> NoDup (od_keys data) ->
    Z.of_nat (length (_cache self)) + Z.of_nat (length data) <= _max_entries self ->
    exists self',
      LLMResponseCacheBatch.upsert_loop clock i data self = Ok self' /\ wf self' /\
      (forall j k v, data !! j = Some (k, v) ->
         od_get k (_cache self') = Some v /\
         od_get k (_timestamps self') = Some (clock (i + j)%nat)) /\
      (forall k, k ∉ od_keys data ->
         od_get k (_cache self') = od_get k (_cache self) /\
         od_get k (_timestamps self') = od_get k (_timestamps self)).
Proof.
  induction data as [|[k0 v0] data IH]; intros i self Hwf Hnd Hlen.
  - exists self. cbn. split; [reflexivity|]. split; [exact Hwf|]. split; [|auto].
    intros j k v Hj. destruct j; inversion Hj.
  - cbn [LLMResponseCacheBatch.upsert_loop]. cbn [length] in Hlen.
    unfold od_keys in Hnd. rewrite fmap_cons in Hnd. cbn [fst] in Hnd.
    apply NoDup_cons in Hnd as [Hnotin Hnd].
    rewrite llm_set_below by lia. cbn [bind].
    set (self1 := mk (od_set k0 v0 (_cache self)) (od_set k0 (clock i) (_timestamps self))
                     (_ttl_seconds self) (_max_entries self) (_hits self) (_misses self)).
    assert (wf self1) as Hwf1.
    { destruct (llm_set_ok self k0 v0 (clock i) Hwf) as (s & Hs & Hwfs).
      rewrite llm_set_below in Hs by lia. apply Ok_inj in Hs. subst s. exact Hwfs. }
    destruct (IH (S i) self1 Hwf1 Hnd) as (self' & Hloop & Hwf' & Hin & Hout).
    { subst self1. cbn [_cache _max_entries].
      pose proof (od_set_length_le k0 v0 (_cache self)). lia. }
    exists self'. split; [exact Hloop|]. split; [exact Hwf'|]. split.
    + intros j k v Hj. destruct j as [|j].
      * cbn in Hj. injection Hj as <- <-. rewrite Nat.add_0_r.
        destruct (Hout k0 Hnotin) as [-> ->]. subst self1. cbn [_cache _timestamps].
        rewrite !od_get_set_eq. auto.
      * cbn in Hj. replace (i + S j)%nat with (S i + j)%nat by lia. eapply Hin, Hj.
    + intros k Hk. unfold od_keys in Hk. rewrite fmap_cons in Hk. cbn [fst] in Hk.
      apply not_elem_of_cons in Hk as [Hne Hk].
      destruct (Hout k Hk) as [-> ->]. subst self1. cbn [_cache _timestamps].
      rewrite !od_get_set_ne by congruence. auto.
Qed.

(** What [get] answers depends on the entries of the key and on the TTL only. *)
Lemma llm_get_answer (s1 s2 : t V) key now r s1' :
  wf s2 ->
  get s1 key now = Ok (r, s1') ->
  od_get key (_cache s2) = od_get key (_cache s1) ->
  od_get key (_timestamps s2) = od_get key (_timestamps s1) ->
  _ttl_seconds s2 = _ttl_seconds s1 ->
  exists s2', get s2 key now = Ok (r, s2').
Proof.
  intros Hwf Hget Hc Hts Httl.
  destruct (llm_get_ok s2 key now Hwf) as (r2 & s2' & Hget2 & _).
  exists s2'. rewrite Hget2. f_equal. f_equal.
  unfold get in Hget, Hget2. rewrite Hc, Hts, Httl in Hget2.
  destruct (od_get key (_cache s1)) as [v|]; [|congruence].
  destruct (Qltb _ _).
  - destruct (py_del key (_cache s1)) as [c1|]; [|discriminate].
    destruct (py_del key (_timestamps s1)) as [t1|]; [|discriminate].
    destruct (py_del key (_cache s2)) as [c2|]; [|discriminate].
    destruct (py_del key (_timestamps s2)) as [t2|]; [|discriminate].
    cbn in Hget, Hget2. congruence.
  - congruence.
Qed.

Lemma llm_get_by_ids_loop_spec (clock : nat -> Q) (keys : list string) :
  forall (i : nat) (self : t V),
    wf self ->
    exists results self',
      LLMResponseCacheBatch.get_by_ids_loop clock i keys self = Ok (results, self') /\
      wf self' /\
      length results = length keys /\
      _ttl_seconds self' = _ttl_seconds self /\
      _hits self' + _misses self' =
        _hits self + _misses self + Z.of_nat (length keys) /\
      (forall k, k ∉ keys ->
         od_get k (_cache self') = od_get k (_cache self) /\
         od_get k (_timestamps self') = od_get k (_timestamps self)) /\
      (NoDup keys ->
       forall j k, keys !! j = Some k ->
         exists r s, results !! j = Some r /\ get self k (clock (i + j)%nat) = Ok (r, s)).
Proof.
  induction keys as [|k0 keys IH]; intros i self Hwf.
  - exists [], self. cbn. split; [reflexivity|]. split; [exact Hwf|].
    repeat split; try lia.
    intros _ j k Hj. destruct j; inversion Hj.
  - cbn [LLMResponseCacheBatch.get_by_ids_loop].
    destruct (llm_get_ok self k0 (clock i) Hwf)
      as (r0 & self1 & Hget & Hwf1 & Httl1 & _ & _ & Hc1 & Hoc & Hot).
    rewrite Hget. cbn [bind snd fst].
    destruct (IH (S i) self1 Hwf1)
      as (results & self' & Hloop & Hwf' & Hlen & Httl & Hcount & Hother & Hvals).
    rewrite Hloop. cbn [bind fst snd].
    exists (r0 :: results), self'. split; [reflexivity|]. split; [exact Hwf'|].
    split; [cbn; lia|]. split; [congruence|]. split; [cbn [length]; lia|]. split.
    + intros k Hk. apply not_elem_of_cons in Hk as [Hne Hk].
      destruct (Hother k Hk) as [-> ->]. rewrite Hoc, Hot by exact Hne. auto.
    + intros Hnd j k Hj. apply NoDup_cons in Hnd as [Hnotin Hnd].
      destruct j as [|j].
      * cbn in Hj. injection Hj as <-. rewrite Nat.add_0_r.
        exists r0, self1. split; [reflexivity|exact Hget].
      * cbn in Hj. destruct (Hvals Hnd j k Hj) as (r & s & Hr & Hg).
        assert (k <> k0) as Hne.
        { intros ->. apply Hnotin. eapply list_elem_of_lookup_2, Hj. }
        replace (i + S j)%nat with (S i + j)%nat by lia.
        destruct (llm_get_answer self1 self k (clock (S i + j)%nat) r s Hwf Hg)
          as (s2 & Hg2).
        -- symmetry. apply Hoc, Hne.
        -- symmetry. apply Hot, Hne.
        -- symmetry. exact Httl1.
        -- exists r, s2. split; [exact Hr|exact Hg2].
Qed.

End LLMBatchFacts.

(** ** Properties of the caches *)

(** X1. Round trip. A value stored by [put] (or [set]) is what the next
    [get] of the same key returns, counted as a hit, as long as no more than
    the TTL has passed since the [put]: for [EmbeddingCache] (any text with
    the same hash as the stored one, capacity at least 1), for
    [LLMResponseCacheSingleton] and for [GraphRAGCache] (capacity at least
    1). *)
Theorem X1_cache_put_get_round_trip (V : Type) :
  (forall (_hash_text : string -> string) (self : EmbeddingCache.t V)
          (text text' : string) (embedding : V) (now now' : Q),
      1 <= EmbeddingCache._max_entries self ->
      _hash_text text' = _hash_text text ->
      (now' - now <= inject_Z (EmbeddingCache._ttl_seconds self))%Q ->
      exists self1 self2,
        EmbeddingCache.put _hash_text self text embedding now = Ok self1 /\
        EmbeddingCache.get _hash_text self1 text' now' = (Some embedding, self2) /\
        EmbeddingCache._hits self2 = EmbeddingCache._hits self + 1 /\
        EmbeddingCache._misses self2 = EmbeddingCache._misses self) /\
  (forall (self : LLMResponseCacheSingleton.t V) (key : string) (value : V)
          (now now' : Q),
      LLMResponseCacheSingleton.wf self ->
      (now' - now <= inject_Z (LLMResponseCacheSingleton._ttl_seconds self))%Q ->
      exists self1 self2,
        LLMResponseCacheSingleton.set self key value now = Ok self1 /\
        LLMResponseCacheSingleton.get self1 key now' = Ok (Some value, self2) /\
        LLMResponseCacheSingleton._hits self2 = LLMResponseCacheSingleton._hits self + 1 /\
        LLMResponseCacheSingleton._misses self2 = LLMResponseCacheSingleton._misses self) /\
  (forall (self : GraphRAGCache.t V) (working_dir : string) (instance : V)
          (now now' : Q),
      1 <= GraphRAGCache.maxsize self ->
      (now' - now <= inject_Z (GraphRAGCache.ttl_seconds self))%Q ->
      exists self1 self2,
        GraphRAGCache.put self working_dir instance now = Ok self1 /\
        GraphRAGCache.get self1 working_dir now' = (Some instance, self2) /\
        GraphRAGCache._hits self2 = GraphRAGCache._hits self + 1 /\
        GraphRAGCache._misses self2 = GraphRAGCache._misses self).
Proof.
  split; [|split].
  - intros h self text text' e now now' Hmax Hh Httl.
    apply Qltb_ge in Httl.
    assert (forall cache,
              EmbeddingCache.get h
                (EmbeddingCache.mk (od_set (h text) (e, now) cache)
                   (EmbeddingCache._ttl_seconds self) (EmbeddingCache._max_entries self)
                   (EmbeddingCache._hits self) (EmbeddingCache._misses self)) text' now' =
              (Some e,
               EmbeddingCache.mk (od_set (h text) (e, now) cache)
                 (EmbeddingCache._ttl_seconds self) (EmbeddingCache._max_entries self)
                 (EmbeddingCache._hits self + 1) (EmbeddingCache._misses self))) as Hget.
    { intros cache. unfold EmbeddingCache.get.
      cbn [EmbeddingCache._cache EmbeddingCache._ttl_seconds].
      rewrite Hh, od_get_set_eq, Httl. reflexivity. }
    destruct (embedding_put_cases h self text e now)
      as [[_ Hput]|[(Hge & Hnil & _)|(_ & oldest & _ & Hput)]].
    + eexists _, _. split; [exact Hput|]. split; [apply Hget|]. split; reflexivity.
    + rewrite Hnil in Hge. cbn in Hge. lia.
    + eexists _, _. split; [exact Hput|]. split; [apply Hget|]. split; reflexivity.
  - intros self key value now now' Hwf Httl. apply Qltb_ge in Httl.
    assert (forall cache timestamps,
              LLMResponseCacheSingleton.get
                (LLMResponseCacheSingleton.mk (od_set key value cache)
                   (od_set key now timestamps)
                   (LLMResponseCacheSingleton._ttl_seconds self)
                   (LLMResponseCacheSingleton._max_entries self)
                   (LLMResponseCacheSingleton._hits self)
                   (LLMResponseCacheSingleton._misses self)) key now' =
              Ok (Some value,
                  LLMResponseCacheSingleton.mk (od_set key value cache)
                    (od_set key now timestamps)
                    (LLMResponseCacheSingleton._ttl_seconds self)
                    (LLMResponseCacheSingleton._max_entries self)
                    (LLMResponseCacheSingleton._hits self + 1)
                    (LLMResponseCacheSingleton._misses self))) as Hget.
    { intros cache timestamps. unfold LLMResponseCacheSingleton.get.
      cbn [LLMResponseCacheSingleton._cache LLMResponseCacheSingleton._timestamps
           LLMResponseCacheSingleton._ttl_seconds].
      rewrite !od_get_set_eq. cbn [default from_option id]. rewrite Httl. reflexivity. }
    destruct (Z_lt_ge_dec (Z.of_nat (length (LLMResponseCacheSingleton._cache self)))
                (LLMResponseCacheSingleton._max_entries self)) as [Hlt|Hge].
    + eexists _, _. split; [apply llm_set_below, Hlt|].
      split; [apply Hget|]. split; reflexivity.
    + destruct (llm_set_at_capacity self key value now Hwf Hge)
        as (evicted & _ & _ & _ & _ & _ & Hset & _).
      eexists _, _. split; [exact Hset|]. split; [apply Hget|]. split; reflexivity.
  - intros self wd inst now now' Hmax Httl. apply Qltb_ge in Httl.
    unfold GraphRAGCache.put.
    destruct (graphrag_evict_while_spec (GraphRAGCache.maxsize self)
                (GraphRAGCache._cache self)) as [_ Ho].
    destruct (Ho Hmax) as (n & He & _). rewrite He. cbn [bind].
    eexists _, _. split; [reflexivity|].
    unfold GraphRAGCache.get.
    cbn [GraphRAGCache._cache GraphRAGCache.ttl_seconds GraphRAGCache._hits
         GraphRAGCache._misses GraphRAGCache.maxsize].
    rewrite od_get_set_eq, Httl. split; [reflexivity|]. split; reflexivity.
Qed.

Lemma X1_cache_put_get_round_trip_witness :
  (exists self1 self2,
     EmbeddingCache.put (fun s => s) embedding_two "c" 3%nat 9 = Ok self1 /\
     EmbeddingCache.get (fun s => s) self1 "c" 19 = (Some 3%nat, self2)) /\
  (exists self1 self2,
     LLMResponseCacheSingleton.set llm_two "c" 3%nat 9 = Ok self1 /\
     LLMResponseCacheSingleton.get self1 "c" 19 = Ok (Some 3%nat, self2)) /\
  (exists self1 self2,
     GraphRAGCache.put graphrag_two "c" 3%nat 9 = Ok self1 /\
     GraphRAGCache.get self1 "c" 19 = (Some 3%nat, self2)).
Proof.
  destruct (X1_cache_put_get_round_trip nat) as (HE & HL & HG).
  split; [|split].
  - destruct (HE (fun s => s) embedding_two "c" "c" 3%nat 9%Q 19%Q)
      as (self1 & self2 & Hput & Hget & _).
    + cbn. lia.
    + reflexivity.
    + vm_compute. discriminate.
    + exists self1, self2. split; assumption.
  - destruct (HL llm_two "c" 3%nat 9%Q 19%Q) as (self1 & self2 & Hset & Hget & _).
    + split; [reflexivity|]. simpl. compute_done.
    + vm_compute. discriminate.
    + exists self1, self2. split; assumption.
  - destruct (HG graphrag_two "c" 3%nat 9%Q 19%Q) as (self1 & self2 & Hput & Hget & _).
    + cbn. lia.
    + vm_compute. discriminate.
    + exists self1, self2. split; assumption.
Defined.




(** X4. A [LLMResponseCacheSingleton] with fewer than ten entries is never
    evicted: [set] only writes the key, whatever the capacity, so with a
    capacity below 10 a new key makes the cache grow past its capacity. *)
Theorem X4_llm_small_cache_never_evicts (V : Type)
    (self : LLMResponseCacheSingleton.t V) (key : string) (value : V) (now : Q) :
  LLMResponseCacheSingleton.wf self ->
  (length (LLMResponseCacheSingleton._cache self) < 10)%nat ->
  exists self',
    LLMResponseCacheSingleton.set self key value now = Ok self' /\
    LLMResponseCacheSingleton._cache self' =
      od_set key value (LLMResponseCacheSingleton._cache self) /\
    LLMResponseCacheSingleton._timestamps self' =
      od_set key now (LLMResponseCacheSingleton._timestamps self) /\
    evicted_keys (LLMResponseCacheSingleton._cache self)
                 (LLMResponseCacheSingleton._cache self') = [] /\
    (od_mem key (LLMResponseCacheSingleton._cache self) = false ->
     length (LLMResponseCacheSingleton._cache self') =
       S (length (LLMResponseCacheSingleton._cache self))).
Proof.
  intros Hwf Hlen. eexists. split; [apply llm_set_small; assumption|].
  cbn [LLMResponseCacheSingleton._cache LLMResponseCacheSingleton._timestamps].
  split; [reflexivity|]. split; [reflexivity|]. split.
  - unfold evicted_keys. apply filter_none. intros k Hk Hf.
    apply od_mem_spec in Hk.
    rewrite (od_mem_set_mono key k value _ Hk) in Hf. discriminate.
  - intros Hfresh. rewrite od_set_length, Hfresh. reflexivity.
Qed.

Lemma X4_llm_small_cache_never_evicts_witness :
  exists self',
    LLMResponseCacheSingleton.set llm_two "c" 3%nat 9 = Ok self' /\
    length (LLMResponseCacheSingleton._cache self') = 3%nat /\
    LLMResponseCacheSingleton._max_entries self' = 2.
Proof.
  destruct (X4_llm_small_cache_never_evicts nat llm_two "c" 3%nat 9%Q)
    as (self' & Hset & Hc & _ & _ & Hgrow).
  - split; [reflexivity|]. simpl. compute_done.
  - cbn. lia.
  - exists self'. split; [exact Hset|]. split; [apply Hgrow; reflexivity|].
    cbn in Hset. injection Hset as <-. reflexivity.
Defined.

(** X5. Least recently used. In a full [GraphRAGCache] of at least two
    entries, an entry that [get] has just served is not the one the next
    [put] evicts: it is still cached after the [put], with its value and
    timestamp unless the [put] wrote that very key. *)
Theorem X5_graphrag_recently_used_survives (V : Type) (self : GraphRAGCache.t V)
    (working_dir : string) (instance : V) (timestamp now : Q)
    (working_dir' : string) (instance' : V) (now' : Q) :
  GraphRAGCache.wf self ->
  2 <= GraphRAGCache.maxsize self ->
  Z.of_nat (length (GraphRAGCache._cache self)) = GraphRAGCache.maxsize self ->
  od_get working_dir (GraphRAGCache._cache self) = Some (instance, timestamp) ->
  (now - timestamp <= inject_Z (GraphRAGCache.ttl_seconds self))%Q ->
  exists self1 self2,
    GraphRAGCache.get self working_dir now = (Some instance, self1) /\
    GraphRAGCache.put self1 working_dir' instance' now' = Ok self2 /\
    od_mem working_dir (GraphRAGCache._cache self2) = true /\
    (working_dir' <> working_dir ->
     od_get working_dir (GraphRAGCache._cache self2) = Some (instance, timestamp)).
Proof.
  intros Hwf Hmax Hlen Hget Httl. apply Qltb_ge in Httl.
  assert (od_mem working_dir (GraphRAGCache._cache self) = true) as Hm
    by (unfold od_mem; rewrite Hget; reflexivity).
  pose proof (od_del_length _ _ Hm) as Hdl.
  unfold GraphRAGCache.get. rewrite Hget, Httl.
  unfold od_move_to_end. rewrite Hget.
  set (moved := od_del working_dir (GraphRAGCache._cache self) ++
                [(working_dir, (instance, timestamp))]).
  assert (length moved = length (GraphRAGCache._cache self)) as Hlm.
  { subst moved. rewrite length_app. cbn. lia. }
  assert (NoDup (od_keys moved)) as Hndm.
  { subst moved. unfold od_keys. rewrite fmap_app. apply NoDup_app.
    split; [apply od_keys_NoDup_del, Hwf|]. split; [|apply NoDup_singleton].
    intros x Hx Hx'. cbn in Hx'. apply list_elem_of_singleton in Hx'. subst x.
    apply od_mem_spec in Hx. unfold od_mem in Hx.
    rewrite od_get_del_eq in Hx by exact Hwf. discriminate. }
  destruct (od_del working_dir (GraphRAGCache._cache self)) as [|[k0 e0] rest] eqn:Hdel.
  { cbn in Hdl. lia. }
  eexists _, _. split; [reflexivity|].
  assert (GraphRAGCache.put
            (GraphRAGCache.mk moved (GraphRAGCache.maxsize self)
               (GraphRAGCache.ttl_seconds self) (GraphRAGCache._hits self + 1)
               (GraphRAGCache._misses self)) working_dir' instance' now' =
          Ok (GraphRAGCache.mk
                (od_set working_dir' (instance', now')
                   (rest ++ [(working_dir, (instance, timestamp))]))
                (GraphRAGCache.maxsize self) (GraphRAGCache.ttl_seconds self)
                (GraphRAGCache._hits self + 1) (GraphRAGCache._misses self))) as Hput.
  { apply (graphrag_put_at_capacity
             (GraphRAGCache.mk moved (GraphRAGCache.maxsize self)
                (GraphRAGCache.ttl_seconds self) (GraphRAGCache._hits self + 1)
                (GraphRAGCache._misses self)) working_dir' instance' now' k0 e0
             (rest ++ [(working_dir, (instance, timestamp))])); [reflexivity|].
    cbn [GraphRAGCache._cache GraphRAGCache.maxsize]. lia. }
  split; [exact Hput|].
  cbn [GraphRAGCache._cache].
  assert (od_get working_dir (rest ++ [(working_dir, (instance, timestamp))]) =
          Some (instance, timestamp)) as Hin.
  { apply od_elem_get.
    - subst moved. unfold od_keys in *. rewrite <- app_comm_cons, fmap_cons in Hndm.
      apply NoDup_cons in Hndm. tauto.
    - apply elem_of_app. right. left. }
  split.
  - rewrite od_mem_set. unfold od_mem. rewrite Hin. apply orb_true_r.
  - intros Hne. rewrite od_get_set_ne by exact Hne. exact Hin.
Qed.

Lemma X5_graphrag_recently_used_survives_witness :
  exists self1 self2,
    GraphRAGCache.get graphrag_two "a" 6 = (Some 1%nat, self1) /\
    GraphRAGCache.put self1 "c" 3%nat 7 = Ok self2 /\
    od_get "a" (GraphRAGCache._cache self2) = Some (1%nat, 5%Q) /\
    od_get "b" (GraphRAGCache._cache self2) = None.
Proof.
  destruct (X5_graphrag_recently_used_survives nat graphrag_two "a" 1%nat 5%Q 6%Q
              "c" 3%nat 7%Q) as (self1 & self2 & Hget & Hput & _ & Hkeep).
  - unfold GraphRAGCache.wf. simpl. compute_done.
  - cbn. lia.
  - reflexivity.
  - reflexivity.
  - vm_compute. discriminate.
  - exists self1, self2. split; [exact Hget|]. split; [exact Hput|].
    split; [apply Hkeep; discriminate|].
    cbn in Hget. injection Hget as <-. cbn in Hput. injection Hput as <-. reflexivity.
Defined.

(** X6. [EmbeddingCache.get_batch] returns one result per text; the
    uncached indices are exactly the positions of the misses, in ascending
    order; every text counts one hit or one miss, the misses being as many
    as the uncached indices; and when the texts have distinct hashes, each
    result is what a single [get] on the cache as it was before the call
    answers at that time. *)
Theorem X6_embedding_get_batch (V : Type) (_hash_text : string -> string)
    (self : EmbeddingCache.t V) (texts : list string) (clock : nat -> Q) :
  let '(results, uncached_indices, self') :=
    EmbeddingCacheBatch.get_batch _hash_text self texts clock in
  length results = length texts /\
  (forall i, i ∈ uncached_indices <-> results !! i = Some None) /\
  StronglySorted lt uncached_indices /\
  EmbeddingCache._hits self' + EmbeddingCache._misses self' =
    EmbeddingCache._hits self + EmbeddingCache._misses self + Z.of_nat (length texts) /\
  EmbeddingCache._misses self' =
    EmbeddingCache._misses self + Z.of_nat (length uncached_indices) /\
  (NoDup (map _hash_text texts) ->
   forall i text, texts !! i = Some text ->
     results !! i = Some (fst (EmbeddingCache.get _hash_text self text (clock i)))).
Proof.
  unfold EmbeddingCacheBatch.get_batch.
  destruct (EmbeddingCacheBatch.get_batch_loop _hash_text clock 0 texts [] [] self)
    as [[results uncached] self'] eqn:Hloop.
  apply get_batch_loop_spec in Hloop
    as (rs & us & -> & -> & Hlen & Hus & Hsorted & Hcount & Hmiss & _ & _ & Hvals).
  cbn [app]. split; [exact Hlen|]. split.
  - intros i. rewrite Hus. split.
    + intros (k & -> & Hk). exact Hk.
    + intros Hi. exists i. split; [reflexivity|exact Hi].
  - split; [exact Hsorted|]. split; [exact Hcount|]. split; [exact Hmiss|].
    intros Hnd i text Hi. apply (Hvals Hnd i text Hi).
Qed.

Lemma X6_embedding_get_batch_witness :
  let '(results, uncached_indices, self') :=
    EmbeddingCacheBatch.get_batch (fun s => s) embedding_two ["a"; "z"; "b"]
      (fun _ => 14%Q) in
  length results = 3%nat /\
  results !! 2%nat =
    Some (fst (EmbeddingCache.get (fun s => s) embedding_two "b" 14)).
Proof.
  pose proof (X6_embedding_get_batch nat (fun s => s) embedding_two ["a"; "z"; "b"]
                (fun _ => 14%Q)) as H.
  destruct (EmbeddingCacheBatch.get_batch (fun s => s) embedding_two ["a"; "z"; "b"]
              (fun _ => 14%Q)) as [[results uncached] self'].
  destruct H as (Hlen & _ & _ & _ & _ & Hvals).
  split; [exact Hlen|]. apply Hvals; [compute_done|reflexivity].
Defined.

(** X7. [LLMResponseCacheSingleton.upsert] of a dictionary that fits below
    the capacity stores every item: afterwards each key of the dictionary
    maps to its value, with the time of its own [set] as timestamp, the
    other entries are as before, and [filter_keys] reports none of the
    dictionary's keys as missing. *)
Theorem X7_llm_upsert_stores_all (V : Type) (self : LLMResponseCacheSingleton.t V)
    (data : odict string V) (clock : nat -> Q) :
  LLMResponseCacheSingleton.wf self ->
  NoDup (od_keys data) ->
  Z.of_nat (length (LLMResponseCacheSingleton._cache self)) + Z.of_nat (length data) <=
    LLMResponseCacheSingleton._max_entries self ->
  exists self',
    LLMResponseCacheBatch.upsert self data clock = Ok self' /\
    (forall i k v, data !! i = Some (k, v) ->
       od_get k (LLMResponseCacheSingleton._cache self') = Some v /\
       od_get k (LLMResponseCacheSingleton._timestamps self') = Some (clock i)) /\
    (forall k, k ∉ od_keys data ->
       od_get k (LLMResponseCacheSingleton._cache self') =
       od_get k (LLMResponseCacheSingleton._cache self)) /\
    LLMResponseCacheBatch.filter_keys self' (od_keys data) = [].
Proof.
  intros Hwf Hnd Hlen.
  destruct (llm_upsert_loop_spec clock data 0 self Hwf Hnd Hlen)
    as (self' & Hloop & _ & Hin & Hout).
  exists self'. split; [exact Hloop|]. split; [exact Hin|]. split.
  - intros k Hk. apply (Hout k Hk).
  - unfold LLMResponseCacheBatch.filter_keys. apply filter_none.
    intros k Hk Hf. apply list_elem_of_fmap in Hk as ([k' v] & -> & Hkv).
    apply list_elem_of_lookup in Hkv as (i & Hi).
    destruct (Hin i k' v Hi) as [Hc _]. unfold od_mem in Hf. cbn [fst] in Hf.
    rewrite Hc in Hf. discriminate.
Qed.

Lemma X7_llm_upsert_stores_all_witness :
  exists self',
    LLMResponseCacheBatch.upsert (@LLMResponseCacheSingleton.__new__ nat)
      [("a", 1%nat); ("b", 2%nat)] (fun i => inject_Z (Z.of_nat i)) = Ok self' /\
    od_get "b" (LLMResponseCacheSingleton._cache self') = Some 2%nat /\
    od_get "b" (LLMResponseCacheSingleton._timestamps self') = Some 1%Q.
Proof.
  destruct (X7_llm_upsert_stores_all nat (@LLMResponseCacheSingleton.__new__ nat)
              [("a", 1%nat); ("b", 2%nat)] (fun i => inject_Z (Z.of_nat i)))
    as (self' & Hup & Hin & _).
  - apply llm_wf_new.
  - simpl. compute_done.
  - cbn. lia.
  - exists self'. split; [exact Hup|]. apply (Hin 1%nat "b" 2%nat). reflexivity.
Defined.

(** X8. [LLMResponseCacheSingleton.get_by_ids] on distinct keys never
    raises, returns one answer per key, and answers each key as a single
    [get_by_id] on the cache as it was before the call answers at that
    time; entries of keys that were not asked for are left as they are. *)
Theorem X8_llm_get_by_ids (V : Type) (self : LLMResponseCacheSingleton.t V)
    (keys : list string) (clock : nat -> Q) :
  LLMResponseCacheSingleton.wf self ->
  NoDup keys ->
  exists results self',
    LLMResponseCacheBatch.get_by_ids self keys clock = Ok (results, self') /\
    length results = length keys /\
    (forall i k, keys !! i = Some k ->
       exists r s,
         results !! i = Some r /\
         LLMResponseCacheBatch.get_by_id self k (clock i) = Ok (r, s)) /\
    (forall k, k ∉ keys ->
       od_get k (LLMResponseCacheSingleton._cache self') =
       od_get k (LLMResponseCacheSingleton._cache self)).
Proof.
  intros Hwf Hnd.
  destruct (llm_get_by_ids_loop_spec clock keys 0 self Hwf)
    as (results & self' & Hloop & _ & Hlen & _ & _ & Hother & Hvals).
  exists results, self'. split; [exact Hloop|]. split; [exact Hlen|]. split.
  - intros i k Hi. apply (Hvals Hnd i k Hi).
  - intros k Hk. apply (Hother k Hk).
Qed.

Lemma X8_llm_get_by_ids_witness :
  exists results self',
    LLMResponseCacheBatch.get_by_ids llm_two ["b"; "z"; "a"] (fun _ => 14%Q) =
      Ok (results, self') /\
    length results = 3%nat.
Proof.
  destruct (X8_llm_get_by_ids nat llm_two ["b"; "z"; "a"] (fun _ => 14%Q))
    as (results & self' & Hrun & Hlen & _).
  - split; [reflexivity|]. simpl. compute_done.
  - compute_done.
  - exists results, self'. split; assumption.
Defined.

(** * GraphIndex: what a traversal returns *)

Section DescendingSort.
Context {A : Type}.
Variable f : A -> Q.

Lemma insert_sorted_desc_sorted x l :
  StronglySorted (fun a b => (f b <= f a)%Q) l ->
  StronglySorted (fun a b => (f b <= f a)%Q) (insert_sorted_desc f x l).
Proof.
  induction 1 as [|y l Hs IH Hall]; simpl.
  - repeat constructor.
  - destruct (Qle_bool (f y) (f x)) eqn:E.
    + apply Qle_bool_iff in E. constructor; [constructor; assumption|].
      constructor; [exact E|].
      eapply List.Forall_impl; [|exact Hall].
      intros z Hz. cbn in *. lra.
    + assert (f x <= f y)%Q as Hxy.
      { apply Qlt_le_weak, Qnot_le_lt. intros H. apply Qle_bool_iff in H. congruence. }
      constructor; [exact IH|].
      apply List.Forall_forall. intros z Hz.
      apply (Permutation_in _ (insert_sorted_desc_perm f x l)) in Hz.
      destruct Hz as [<-|Hz]; [exact Hxy|].
      rewrite List.Forall_forall in Hall. auto.
Qed.

Lemma py_sorted_desc_sorted l :
  StronglySorted (fun a b => (f b <= f a)%Q) (py_sorted_desc f l).
Proof.
  induction l as [|x l IH]; simpl; [constructor|].
  apply insert_sorted_desc_sorted, IH.
Qed.
End DescendingSort.

Section TraversalInvariant.
Import GraphIndex.
Variable self : GraphIndex.t.
Variables max_hops max_results : Z.
Variable commune_filter : option (gset string).
Variable include_chunks : bool.
Variable seeds : list string.

Local Abbreviation step := (step self max_hops commune_filter include_chunks).
Local Abbreviation steps :=
  (steps self max_hops max_results commune_filter include_chunks).
Local Abbreviation push_neighbor :=
  (push_neighbor self commune_filter include_chunks).
Local Abbreviation passes := (passes_filters self commune_filter include_chunks).
Local Abbreviation eok :=
  (entry_ok self seeds max_hops commune_filter include_chunks).
Local Abbreviation pok := (path_ok self max_hops commune_filter include_chunks).
Local Abbreviation inv :=
  (traversal_inv self seeds max_hops max_results commune_filter include_chunks).

(** A neighbor is queued only when its target passes both filters. *)
Lemma push_neighbors_passes vis id w d edges st e :
  e ∈ fst (foldl (push_neighbor vis id w d) st edges) ->
  e ∈ fst st \/ passes (he_entity_id e).
Proof.
  revert st. induction edges as [|edge edges IH]; intros [h c]; simpl; [auto|].
  intros He. apply IH in He as [He|Hp]; [|auto].
  unfold GraphIndex.push_neighbor in He.
  destruct (od_mem (EdgeInfo.target edge) vis) eqn:Hv; [auto|].
  destruct (negb include_chunks && _) eqn:Hchunk; [auto|].
  destruct (filter_active commune_filter && _) eqn:Hcommune; [auto|].
  simpl in He. apply elem_of_cons in He as [->|He]; [|auto].
  right. cbn [he_entity_id]. intros md Hmd. rewrite Hmd in Hchunk, Hcommune. split.
  - intros ->. cbn in Hchunk. intros Heq. rewrite Heq in Hchunk. discriminate.
  - intros Hact. rewrite Hact in Hcommune. cbn in Hcommune.
    apply negb_false_iff, bool_decide_eq_true in Hcommune. exact Hcommune.
Qed.

Lemma step_heap_passes st x :
  x ∈ heap (step st) -> x ∈ heap st \/ passes (he_entity_id x).
Proof.
  unfold GraphIndex.step.
  destruct (heappop (heap st)) as [[e heap']|] eqn:Hpop; [|auto].
  destruct (heappop_spec _ _ _ Hpop) as [Hperm _].
  assert (forall y, y ∈ heap' -> y ∈ heap st) as Hsub.
  { intros y Hy. apply list_elem_of_In. apply (Permutation_in _ Hperm).
    right. apply list_elem_of_In, Hy. }
  destruct (od_mem (he_entity_id e) (visited st)); [cbn; auto|].
  destruct (he_depth e >=? max_hops); [cbn; auto|].
  pose proof (push_neighbors_passes
                (od_set (he_entity_id e) (- he_neg_weight e)%Q (visited st))
                (he_entity_id e) (- he_neg_weight e)%Q (he_depth e)
                (get_neighbors self (he_entity_id e)) (heap', counter st) x) as Hp.
  destruct (foldl _ _ _) as [heap'' counter'']. cbn [heap fst] in *.
  intros Hx. apply Hp in Hx as [Hx|Hx]; auto.
Qed.

Lemma entry_ok_mono vis k w e : eok vis e -> eok (od_set k w vis) e.
Proof.
  unfold entry_ok. destruct (he_came_from e) as [c|]; [|auto].
  intros (Hs & Hrest). split; [apply od_mem_set_mono, Hs|exact Hrest].
Qed.

Lemma path_ok_mono vis k w p : pok vis p -> pok (od_set k w vis) p.
Proof.
  unfold path_ok. intros (Hs & Ht & Hrest).
  split; [apply od_mem_set_mono, Hs|]. split; [apply od_mem_set_mono, Ht|exact Hrest].
Qed.

Lemma entry_ok_depth vis e : eok vis e -> 0 <= he_depth e.
Proof.
  unfold entry_ok. destruct (he_came_from e); [intros (_ & _ & H & _)|intros (H & _)]; lia.
Qed.

Lemma traversal_inv_init : inv (init_state self seeds).
Proof.
  unfold traversal_inv, init_state.
  pose proof (push_seeds_elem self seeds ([], O)) as Helem.
  destruct (foldl _ _ _) as [h c]. cbn [heap visited paths fst] in *.
  split; [|split; [|split; [|split; [|split]]]].
  - intros e He. apply Helem in He as [He|(s & c' & Hs & Hk & ->)]; [inversion He|].
    unfold entry_ok. cbn. auto.
  - intros p Hp. inversion Hp.
  - constructor.
  - intros x Hx. discriminate.
  - cbn. lia.
  - constructor.
Qed.

Lemma traversal_inv_step st :
  inv st -> continues max_results st = true -> inv (step st).
Proof.
  intros (Hheap & Hpaths & Hnd & Hcov & Hlen & Hndv) Hc.
  pose proof (step_heap_passes st) as Hpass.
  assert (Z.of_nat (length (visited st)) < max_results) as Hlt.
  { unfold continues in Hc. destruct (heap st); [discriminate|].
    apply Z.ltb_lt, Hc. }
  destruct (step_cases self max_hops max_results commune_filter include_chunks st Hc)
    as (e & heap' & Hpop & Hperm & _ & Hcases).
  assert (e ∈ heap st) as Hein.
  { apply list_elem_of_In. apply (Permutation_in _ Hperm). left. reflexivity. }
  assert (forall y, y ∈ heap' -> y ∈ heap st) as Hsub.
  { intros y Hy. apply list_elem_of_In. apply (Permutation_in _ Hperm).
    right. apply list_elem_of_In, Hy. }
  pose proof (Hheap e Hein) as Heok.
  destruct Hcases as [(Hmem & Hv & Hp & Hh)|(Hmem & Hv & _ & _ & Hh & Hp)].
  - unfold traversal_inv. rewrite Hv, Hp, Hh.
    split; [intros x Hx; apply Hheap, Hsub, Hx|]. auto 10.
  - set (vis' := od_set (he_entity_id e) (- he_neg_weight e)%Q (visited st)) in *.
    assert (od_mem (he_entity_id e) vis' = true) as Hmem'.
    { subst vis'. rewrite od_mem_set, bool_decide_eq_true_2 by reflexivity. reflexivity. }
    assert (forall t, t ∈ map path_target (paths st) -> t <> he_entity_id e) as Hfresh.
    { intros t Ht ->. apply list_elem_of_In, in_map_iff in Ht as (p & Hpt & Hpin).
      destruct (Hpaths p (proj2 (list_elem_of_In _ _) Hpin)) as (_ & Htv & _).
      rewrite Hpt in Htv. congruence. }
    unfold traversal_inv. rewrite Hv.
    split; [|split; [|split; [|split; [|split]]]].
    + intros x Hx. destruct (Hpass x Hx) as [Hold|Hnew].
      * apply entry_ok_mono, Hheap, Hold.
      * destruct (Hh x Hx) as [Hx'|(Hd & edge & Hedge & Hpf)].
        -- apply entry_ok_mono, Hheap, Hsub, Hx'.
        -- destruct Hpf as (Hid & _ & Hdepth & _ & Hcf).
           unfold entry_ok. rewrite Hcf. cbn [cf_source cf_rel_type cf_weight].
           split; [exact Hmem'|]. split.
           ++ rewrite Hid. destruct edge as [t r w]. exact Hedge.
           ++ pose proof (entry_ok_depth _ _ Heok). split; [lia|exact Hnew].
    + intros p Hpin. rewrite Hp in Hpin. unfold entry_ok in Heok.
      destruct (he_came_from e) as [c|].
      * apply elem_of_app in Hpin as [Hpin|Hpin].
        -- apply path_ok_mono, Hpaths, Hpin.
        -- apply list_elem_of_singleton in Hpin. subst p.
           destruct Heok as (Hs & He & Hd & Hf). unfold path_ok.
           cbn [path_source path_target path_type path_hop path_weight].
           split; [apply od_mem_set_mono, Hs|]. auto.
      * apply path_ok_mono, Hpaths, Hpin.
    + rewrite Hp. destruct (he_came_from e) as [c|]; [|exact Hnd].
      rewrite map_app. cbn [map path_target]. apply NoDup_app.
      split; [exact Hnd|]. split; [|apply NoDup_singleton].
      intros t Ht Ht'. apply list_elem_of_singleton in Ht'. apply (Hfresh t Ht Ht').
    + intros x Hx. subst vis'. rewrite od_mem_set in Hx.
      apply orb_true_iff in Hx as [Hx|Hx].
      * apply bool_decide_eq_true in Hx. subst x. rewrite Hp.
        unfold entry_ok in Heok. destruct (he_came_from e) as [c|].
        -- right. rewrite map_app. apply elem_of_app. right. left.
        -- left. tauto.
      * destruct (Hcov x Hx) as [Hseed|Ht]; [left; exact Hseed|right].
        rewrite Hp. destruct (he_came_from e); [|exact Ht].
        rewrite map_app. apply elem_of_app. left. exact Ht.
    + subst vis'. rewrite od_set_length, Hmem. lia.
    + apply od_keys_NoDup_set, Hndv.
Qed.

Lemma traversal_inv_final :
  exists st,
    expand_loop self seeds max_hops max_results commune_filter include_chunks = Some st /\
    inv st.
Proof.
  destruct (expand_loop_total self max_hops max_results commune_filter include_chunks
              seeds) as [st Hloop].
  exists st. split; [exact Hloop|].
  apply loop_steps in Hloop as [Hsteps _].
  eapply (steps_invariant self max_hops max_results commune_filter include_chunks);
    [|exact Hsteps|apply traversal_inv_init].
  intros s Hs Hcont. apply traversal_inv_step; assumption.
Qed.

End TraversalInvariant.

Section TraversalResults.
Import GraphIndex.
Variable self : GraphIndex.t.
Variables max_hops max_results : Z.
Variable commune_filter : option (gset string).
Variable include_chunks : bool.
Variable seeds : list string.

(** A settled id with metadata is returned. *)
Lemma settled_returned vis x md :
  od_mem x vis = true -> get_entity self x = Some md ->
  x ∈ map ent_id (sort_desc (build_entities self vis)).
Proof.
  intros Hx Hmd. apply od_mem_elem in Hx as (w & Hw).
  apply list_elem_of_In, in_map_iff. exists (entity_of x md w). split; [reflexivity|].
  apply list_elem_of_In, sort_desc_elem, build_entities_elem.
  exists x, w, md. auto.
Qed.

(** A returned entity was settled, and carries the metadata of its id. *)
Lemma returned_settled vis e :
  e ∈ sort_desc (build_entities self vis) ->
  od_mem (ent_id e) vis = true /\
  exists md, get_entity self (ent_id e) = Some md /\
             e = entity_of (ent_id e) md (ent_traversal_weight e).
Proof.
  intros He. apply sort_desc_elem, build_entities_elem in He
    as (x & w & md & Hin & Hmd & ->). cbn. split; [|eauto].
  apply od_mem_spec. apply (list_elem_of_fmap_2 fst) in Hin. exact Hin.
Qed.

Lemma result_length vis :
  (length (sort_desc (build_entities self vis)) <= length vis)%nat.
Proof.
  rewrite (Permutation_length (sort_desc_perm _)).
  pose proof (sublist_length _ _ (build_entities_ids self vis)) as H.
  rewrite length_map, od_keys_length in H. exact H.
Qed.

(** Every returned entity is a seed or passed the filters. *)
Lemma returned_seed_or_filtered :
  exists entities paths,
    expand_weighted self seeds max_hops max_results commune_filter include_chunks =
      Some (entities, paths) /\
    forall e, e ∈ entities ->
      ent_id e ∈ seeds \/
      ((include_chunks = false -> ent_type e <> "CHUNK") /\
       (filter_active commune_filter = true ->
        ent_commune e ∈ default ∅ commune_filter)).
Proof.
  destruct (traversal_inv_final self max_hops max_results commune_filter include_chunks
              seeds) as (st & Hloop & (_ & Hpaths & _ & Hcov & _)).
  unfold expand_weighted. rewrite Hloop. eexists _, _. split; [reflexivity|].
  intros e He. apply returned_settled in He as (Hmem & md & Hmd & ->).
  cbn [ent_id ent_type ent_commune] in *.
  destruct (Hcov _ Hmem) as [[Hs _]|Ht]; [left; exact Hs|right].
  apply list_elem_of_In, in_map_iff in Ht as (p & Hpt & Hpin).
  destruct (Hpaths p (proj2 (list_elem_of_In _ _) Hpin)) as (_ & _ & _ & _ & Hf).
  rewrite Hpt in Hf. apply (Hf md Hmd).
Qed.

End TraversalResults.

(** X9. [expand_weighted] always returns; it returns at most [max_results]
    entities (none when [max_results] is negative), no id twice, in
    descending order of traversal weight, each one with the metadata the
    index holds for its id. *)
Theorem X9_expand_weighted_result_shape (self : GraphIndex.t)
    (seed_entities : list string) (max_hops max_results : Z)
    (commune_filter : option (gset string)) (include_chunks : bool) :
  exists entities paths,
    GraphIndex.expand_weighted self seed_entities max_hops max_results
      commune_filter include_chunks = Some (entities, paths) /\
    Z.of_nat (length entities) <= Z.max 0 max_results /\
    NoDup (map GraphIndex.ent_id entities) /\
    StronglySorted
      (fun a b => (GraphIndex.ent_traversal_weight b <=
                   GraphIndex.ent_traversal_weight a)%Q) entities /\
    (forall e, e ∈ entities ->
       exists md,
         GraphIndex.get_entity self (GraphIndex.ent_id e) = Some md /\
         e = entity_of (GraphIndex.ent_id e) md (GraphIndex.ent_traversal_weight e)).
Proof.
  destruct (traversal_inv_final self max_hops max_results commune_filter include_chunks
              seed_entities) as (st & Hloop & (_ & _ & _ & _ & Hlen & Hnd)).
  unfold GraphIndex.expand_weighted. rewrite Hloop. eexists _, _.
  split; [reflexivity|]. split.
  - pose proof (result_length self (GraphIndex.visited st)). lia.
  - split; [apply result_ids_NoDup, Hnd|]. split.
    + apply py_sorted_desc_sorted.
    + intros e He. apply returned_settled in He as (_ & Hmd). exact Hmd.
Qed.

(** X10. The paths [expand_weighted] records form a forest over the
    returned entities: no id is the target of two paths; every path follows
    an adjacency entry of the index from its source to its target, with
    that entry's relationship type and weight, at a hop between 1 and
    [max_hops]; its source and its target are returned whenever the index
    has metadata for them; and every returned entity is a seed or the
    target of a path. *)
Theorem X10_expand_weighted_paths (self : GraphIndex.t)
    (seed_entities : list string) (max_hops max_results : Z)
    (commune_filter : option (gset string)) (include_chunks : bool) :
  exists entities paths,
    GraphIndex.expand_weighted self seed_entities max_hops max_results
      commune_filter include_chunks = Some (entities, paths) /\
    NoDup (map GraphIndex.path_target paths) /\
    (forall p, p ∈ paths ->
       1 <= GraphIndex.path_hop p <= max_hops /\
       EdgeInfo.mk (GraphIndex.path_target p) (GraphIndex.path_type p)
         (GraphIndex.path_weight p) ∈
         GraphIndex.get_neighbors self (GraphIndex.path_source p) /\
       (forall md, GraphIndex.get_entity self (GraphIndex.path_source p) = Some md ->
                   GraphIndex.path_source p ∈ map GraphIndex.ent_id entities) /\
       (forall md, GraphIndex.get_entity self (GraphIndex.path_target p) = Some md ->
                   GraphIndex.path_target p ∈ map GraphIndex.ent_id entities)) /\
    (forall e, e ∈ entities ->
       GraphIndex.ent_id e ∈ seed_entities \/
       GraphIndex.ent_id e ∈ map GraphIndex.path_target paths).
Proof.
  destruct (traversal_inv_final self max_hops max_results commune_filter include_chunks
              seed_entities) as (st & Hloop & (_ & Hpaths & Hnd & Hcov & _)).
  unfold GraphIndex.expand_weighted. rewrite Hloop. eexists _, _.
  split; [reflexivity|]. split; [exact Hnd|]. split.
  - intros p Hp. destruct (Hpaths p Hp) as (Hs & Ht & He & Hh & _).
    split; [exact Hh|]. split; [exact He|]. split.
    + intros md Hmd. eapply settled_returned; eassumption.
    + intros md Hmd. eapply settled_returned; eassumption.
  - intros e He. apply returned_settled in He as (Hmem & _).
    destruct (Hcov _ Hmem) as [[Hs _]|Ht]; auto.
Qed.

(** X11. The filters act on everything but the seeds: every entity that
    [expand_weighted] returns and that is not one of the seeds is not
    chunk-typed when [include_chunks] is false, and belongs to a commune of
    the commune filter when that filter is a non-empty set.  The same
    holds for [expand_via_index], which passes its commune ids on as the
    filter and always includes chunks. *)
Theorem X11_returned_neighbors_pass_filters (self : GraphIndex.t)
    (seed_entities : list string) (max_hops max_results : Z)
    (commune_filter : option (gset string)) (include_chunks : bool) :
  (exists entities paths,
     GraphIndex.expand_weighted self seed_entities max_hops max_results
       commune_filter include_chunks = Some (entities, paths) /\
     forall e, e ∈ entities ->
       GraphIndex.ent_id e ∈ seed_entities \/
       ((include_chunks = false -> GraphIndex.ent_type e <> "CHUNK") /\
        (GraphIndex.filter_active commune_filter = true ->
         GraphIndex.ent_commune e ∈ default ∅ commune_filter))) /\
  (exists entities paths,
     expand_via_index self seed_entities commune_filter max_hops max_results =
       Some (entities, paths) /\
     forall e, e ∈ entities ->
       GraphIndex.ent_id e ∈ seed_entities \/
       (GraphIndex.filter_active commune_filter = true ->
        GraphIndex.ent_commune e ∈ default ∅ commune_filter)).
Proof.
  split; [apply returned_seed_or_filtered|].
  unfold expand_via_index.
  destruct (GraphIndex.filter_active commune_filter) eqn:Hact.
  - destruct (returned_seed_or_filtered self max_hops max_results commune_filter true
                seed_entities) as (entities & paths & Hrun & Hall).
    exists entities, paths. split; [exact Hrun|].
    intros e He. destruct (Hall e He) as [Hs|[_ Hc]]; [left; exact Hs|right].
    intros _. apply Hc, Hact.
  - destruct (returned_seed_or_filtered self max_hops max_results None true
                seed_entities) as (entities & paths & Hrun & _).
    exists entities, paths. split; [exact Hrun|]. intros e _. right. discriminate.
Qed.

(** X12. [expand_weighted] on seeds of which none is known to the index
    (in particular on no seed at all) returns no entity and no path. *)
Theorem X12_expand_weighted_unknown_seeds (self : GraphIndex.t)
    (seed_entities : list string) (max_hops max_results : Z)
    (commune_filter : option (gset string)) (include_chunks : bool) :
  (forall s, s ∈ seed_entities -> GraphIndex.has_entity self s = false) ->
  GraphIndex.expand_weighted self seed_entities max_hops max_results commune_filter
    include_chunks = Some ([], []).
Proof.
  intros Hunknown.
  assert (forall st, foldl (GraphIndex.push_seed self) st seed_entities = st) as Hfold.
  { induction seed_entities as [|s l IH]; intros [h c]; [reflexivity|].
    cbn [foldl GraphIndex.push_seed]. rewrite (Hunknown s) by left.
    apply IH. intros s' Hs'. apply Hunknown. right. exact Hs'. }
  unfold GraphIndex.expand_weighted, GraphIndex.expand_loop, GraphIndex.init_state.
  rewrite Hfold.
  destruct (GraphIndex.loop_fuel self seed_entities); reflexivity.
Qed.

Lemma X12_expand_weighted_unknown_seeds_witness :
  GraphIndex.expand_weighted demo_index ["NOWHERE"; "ELSEWHERE"] 2 200 None true =
    Some ([], []).
Proof.
  apply (X12_expand_weighted_unknown_seeds demo_index ["NOWHERE"; "ELSEWHERE"]).
  intros s Hs.
  repeat (apply elem_of_cons in Hs as [->|Hs]; [vm_compute; reflexivity|]).
  inversion Hs.
Defined.

Section TraversalWeights.
Import GraphIndex.
Variable self : GraphIndex.t.
Variables max_hops max_results : Z.
Variable commune_filter : option (gset string).
Variable include_chunks : bool.
Variable seeds : list string.

Local Abbreviation step := (step self max_hops commune_filter include_chunks).

Lemma type_bonus_bounds (target_entity : option EntityMetadata.t) :
  (0 <= type_bonus target_entity)%Q /\
  (is_Some target_entity -> (1 # 10 <= type_bonus target_entity)%Q).
Proof.
  destruct target_entity as [e|]; cbn [type_bonus].
  - set (priority := od_get_default (EntityMetadata.entity_type e) 1 ENTITY_TYPE_PRIORITY).
    assert (1 <= priority) as Hp.
    { subst priority. unfold od_get_default.
      destruct (od_get (EntityMetadata.entity_type e) ENTITY_TYPE_PRIORITY) as [v|] eqn:Hv;
        [|cbn; lia].
      apply od_get_elem in Hv. cbn [default from_option id].
      repeat (apply elem_of_cons in Hv as [Hv|Hv]; [inversion Hv; subst; lia|]).
      inversion Hv. }
    assert (1 # 10 <= inject_Z priority / 10)%Q as Hb.
    { apply Qle_shift_div_l; [reflexivity|].
      assert ((1 # 10) * 10 == inject_Z 1)%Q as -> by reflexivity.
      rewrite <- Zle_Qle. exact Hp. }
    split; [|intros _; exact Hb]. eapply Qle_trans; [|exact Hb]. discriminate.
  - split; [apply Qle_refl|intros [x Hx]; discriminate].
Qed.

Lemma weights_inv_init : weights_inv self (init_state self seeds).
Proof.
  unfold weights_inv, init_state.
  pose proof (push_seeds_elem self seeds ([], O)) as Helem.
  destruct (foldl _ _ _) as [h c]. cbn [heap visited paths fst] in *.
  split; [constructor|]. split; [|split].
  - intros x Hx. apply Helem in Hx as [Hx|(s & c' & _ & _ & ->)]; [inversion Hx|].
    reflexivity.
  - intros p Hp. inversion Hp.
  - intros x w Hx. discriminate.
Qed.

Lemma weights_inv_step st :
  weights_inv self st -> continues max_results st = true -> weights_inv self (step st).
Proof.
  intros (Hnd & Hheap & Hpaths & Hseed) Hc.
  destruct (step_cases self max_hops max_results commune_filter include_chunks st Hc)
    as (e & heap' & Hpop & Hperm & _ & Hcases).
  assert (e ∈ heap st) as Hein.
  { apply list_elem_of_In. apply (Permutation_in _ Hperm). left. reflexivity. }
  assert (forall y, y ∈ heap' -> y ∈ heap st) as Hsub.
  { intros y Hy. apply list_elem_of_In. apply (Permutation_in _ Hperm).
    right. apply list_elem_of_In, Hy. }
  pose proof (Hheap e Hein) as He.
  destruct Hcases as [(Hmem & Hv & Hp & Hh)|(Hmem & Hv & _ & _ & Hh & Hp)].
  - unfold weights_inv. rewrite Hv, Hp, Hh.
    split; [exact Hnd|]. split; [intros x Hx; apply Hheap, Hsub, Hx|]. auto.
  - set (w_e := (- he_neg_weight e)%Q) in *.
    set (vis' := od_set (he_entity_id e) w_e (visited st)) in *.
    assert (forall y w, od_get y (visited st) = Some w -> od_get y vis' = Some w)
      as Hstable.
    { intros y w Hy. apply od_get_set_absent; assumption. }
    assert (od_get (he_entity_id e) vis' = Some w_e) as Hnew by apply od_get_set_eq.
    unfold weights_inv. rewrite Hv.
    split; [apply od_keys_NoDup_set, Hnd|]. split; [|split].
    + intros x Hx. destruct (Hh x Hx) as [Hx'|(_ & edge & _ & Hpf)].
      * specialize (Hheap x (Hsub x Hx')). destruct (he_came_from x) as [c|];
          [|exact Hheap].
        destruct Hheap as (w & Hw & Hneg). exists w. split; [apply Hstable, Hw|exact Hneg].
      * destruct Hpf as (Hid & _ & _ & Hneg & Hcf). rewrite Hcf.
        cbn [cf_source cf_weight]. exists w_e. split; [exact Hnew|].
        rewrite Hid. exact Hneg.
    + intros p Hpin. rewrite Hp in Hpin.
      assert (p ∈ paths st ->
              exists w_source w_target,
                od_get (path_source p) vis' = Some w_source /\
                od_get (path_target p) vis' = Some w_target /\
                (w_target ==
                 w_source + path_weight p +
                 type_bonus (get_entity self (path_target p)))%Q) as Hold.
      { intros Hin. destruct (Hpaths p Hin) as (ws & wt & Hs & Ht & Heq).
        exists ws, wt. split; [apply Hstable, Hs|]. split; [apply Hstable, Ht|exact Heq]. }
      destruct (he_came_from e) as [c|]; [|apply Hold, Hpin].
      apply elem_of_app in Hpin as [Hpin|Hpin]; [apply Hold, Hpin|].
      apply list_elem_of_singleton in Hpin. subst p.
      cbn [path_source path_target path_weight].
      destruct He as (w & Hw & Hneg). exists w, w_e.
      split; [apply Hstable, Hw|]. split; [exact Hnew|].
      subst w_e. rewrite Hneg. apply Qopp_involutive.
    + intros x w Hx Hnot. destruct (decide (x = he_entity_id e)) as [->|Hne].
      * rewrite Hnew in Hx. injection Hx as <-. rewrite Hp in Hnot.
        destruct (he_came_from e) as [c|].
        -- exfalso. apply Hnot. rewrite map_app. apply elem_of_app. right. left.
        -- subst w_e. rewrite He. reflexivity.
      * subst vis'. rewrite od_get_set_ne in Hx by congruence.
        apply (Hseed x w Hx). intros Hin. apply Hnot. rewrite Hp.
        destruct (he_came_from e); [|exact Hin].
        rewrite map_app. apply elem_of_app. left. exact Hin.
Qed.

Hypothesis edge_weights_nonneg :
  forall x edge, edge ∈ get_neighbors self x -> (0 <= EdgeInfo.weight edge)%Q.

Lemma weights_nonneg_init : weights_nonneg (init_state self seeds).
Proof.
  unfold weights_nonneg, init_state.
  pose proof (push_seeds_elem self seeds ([], O)) as Helem.
  destruct (foldl _ _ _) as [h c]. cbn [heap visited paths fst] in *. split.
  - intros x Hx. apply Helem in Hx as [Hx|(s & c' & _ & _ & ->)]; [inversion Hx|].
    apply Qle_refl.
  - intros x w Hx. inversion Hx.
Qed.

Lemma weights_nonneg_step st :
  weights_nonneg st -> continues max_results st = true -> weights_nonneg (step st).
Proof.
  intros [Hheap Hvis] Hc.
  destruct (step_cases self max_hops max_results commune_filter include_chunks st Hc)
    as (e & heap' & Hpop & Hperm & _ & Hcases).
  assert (e ∈ heap st) as Hein.
  { apply list_elem_of_In. apply (Permutation_in _ Hperm). left. reflexivity. }
  assert (forall y, y ∈ heap' -> y ∈ heap st) as Hsub.
  { intros y Hy. apply list_elem_of_In. apply (Permutation_in _ Hperm).
    right. apply list_elem_of_In, Hy. }
  pose proof (Hheap e Hein) as He.
  destruct Hcases as [(Hmem & Hv & Hp & Hh)|(Hmem & Hv & _ & _ & Hh & Hp)].
  - unfold weights_nonneg. rewrite Hv, Hh. split; [|exact Hvis].
    intros x Hx. apply Hheap, Hsub, Hx.
  - unfold weights_nonneg. rewrite Hv. split.
    + intros x Hx. destruct (Hh x Hx) as [Hx'|(_ & edge & Hedge & Hpf)].
      * apply Hheap, Hsub, Hx'.
      * destruct Hpf as (_ & _ & _ & Hneg & _). rewrite Hneg.
        pose proof (edge_weights_nonneg _ _ Hedge) as Hw.
        destruct (type_bonus_bounds (get_entity self (EdgeInfo.target edge)))
          as [Hb _].
        lra.
    + intros x w Hx. apply od_set_elem in Hx as [Hx|Hx]; [|apply (Hvis x w Hx)].
      injection Hx as -> ->. lra.
Qed.

End TraversalWeights.

(** X29. How the traversal weights of [expand_weighted] grow.  A returned
    entity that no path leads to (a seed) has traversal weight 0.  When no
    adjacency entry of the index has a negative weight (X16 shows this for
    every index that [initialize] builds), no traversal weight is negative,
    and along every recorded path whose two ends are returned the
    traversal weight of the target is at least that of the source, at
    least the weight of the path, at least the type bonus of the target,
    and at least 0.1.  (The three terms are added as floats in the code;
    these bounds do not depend on how the sums are rounded.) *)
Theorem X29_traversal_weights_grow (self : GraphIndex.t)
    (seed_entities : list string) (max_hops max_results : Z)
    (commune_filter : option (gset string)) (include_chunks : bool) :
  exists entities paths,
    GraphIndex.expand_weighted self seed_entities max_hops max_results
      commune_filter include_chunks = Some (entities, paths) /\
    (forall e, e ∈ entities ->
       GraphIndex.ent_id e ∉ map GraphIndex.path_target paths ->
       (GraphIndex.ent_traversal_weight e == 0)%Q) /\
    ((forall x edge, edge ∈ GraphIndex.get_neighbors self x ->
                     (0 <= EdgeInfo.weight edge)%Q) ->
     (forall e, e ∈ entities -> (0 <= GraphIndex.ent_traversal_weight e)%Q) /\
     (forall p source target,
        p ∈ paths -> source ∈ entities -> target ∈ entities ->
        GraphIndex.ent_id source = GraphIndex.path_source p ->
        GraphIndex.ent_id target = GraphIndex.path_target p ->
        (GraphIndex.ent_traversal_weight source <=
           GraphIndex.ent_traversal_weight target)%Q /\
        (GraphIndex.path_weight p <= GraphIndex.ent_traversal_weight target)%Q /\
        (GraphIndex.type_bonus (GraphIndex.get_entity self (GraphIndex.path_target p)) <=
           GraphIndex.ent_traversal_weight target)%Q /\
        (1 # 10 <= GraphIndex.ent_traversal_weight target)%Q)).
Proof.
  destruct (expand_loop_total self max_hops max_results commune_filter include_chunks
              seed_entities) as [st Hloop].
  pose proof Hloop as Hrun. apply loop_steps in Hrun as [Hsteps _].
  assert (weights_inv self st) as (Hnd & _ & Hpaths & Hseed).
  { eapply (steps_invariant self max_hops max_results commune_filter include_chunks);
      [|exact Hsteps|apply weights_inv_init].
    intros s Hs Hc.
    apply (weights_inv_step self max_hops max_results commune_filter include_chunks);
      assumption. }
  assert (forall e, e ∈ GraphIndex.sort_desc
                          (GraphIndex.build_entities self (GraphIndex.visited st)) ->
            od_get (GraphIndex.ent_id e) (GraphIndex.visited st) =
              Some (GraphIndex.ent_traversal_weight e) /\
            is_Some (GraphIndex.get_entity self (GraphIndex.ent_id e))) as Hent.
  { intros e He. apply sort_desc_elem, build_entities_elem in He
      as (x & w & md & Hin & Hmd & ->). cbn. split; [|eauto].
    apply od_elem_get; assumption. }
  unfold GraphIndex.expand_weighted. rewrite Hloop. eexists _, _.
  split; [reflexivity|]. split.
  - intros e He Hnot. destruct (Hent e He) as [Hg _]. exact (Hseed _ _ Hg Hnot).
  - intros Hw.
    assert (weights_nonneg st) as [_ Hvis].
    { eapply (steps_invariant self max_hops max_results commune_filter include_chunks);
        [|exact Hsteps|apply weights_nonneg_init].
      intros s Hs Hc.
      apply (weights_nonneg_step self max_hops max_results commune_filter
               include_chunks Hw); assumption. }
    split.
    + intros e He. destruct (Hent e He) as [Hg _].
      apply (Hvis (GraphIndex.ent_id e)), od_get_elem, Hg.
    + intros p source target Hp Hs Ht Hids Hidt.
      destruct (Hpaths p Hp) as (ws & wt & Hws & Hwt & Heq).
      destruct (Hent source Hs) as [Hgs _]. destruct (Hent target Ht) as [Hgt Hmd].
      rewrite Hids, Hws in Hgs. rewrite Hidt, Hwt in Hgt.
      injection Hgs as <-. injection Hgt as <-.
      pose proof (Hvis _ _ (od_get_elem _ _ _ Hws)) as Hws0.
      destruct (type_bonus_bounds (GraphIndex.get_entity self (GraphIndex.path_target p)))
        as [Hb0 Hb]. rewrite Hidt in Hmd. specialize (Hb Hmd).
      assert (0 <= GraphIndex.path_weight p)%Q as Hpw.
      { destruct (traversal_inv_final self max_hops max_results commune_filter
                    include_chunks seed_entities) as (st' & Hloop' & (_ & Hok & _)).
        rewrite Hloop in Hloop'. injection Hloop' as <-.
        destruct (Hok p Hp) as (_ & _ & Hedge & _).
        apply (Hw _ _ Hedge). }
      rewrite Heq. repeat split; lra.
Qed.

(** * GraphIndex: what loading stores *)

Section LoadStages.
Import GraphIndex.

(** ** The stages of [_load_commune] *)

Lemma load_node_eq commune_id key_map self n node :
  load_node commune_id key_map (self, n) node =
  if node_valid node then
    (mk (data_path self) (_adjacency self)
        (<[node_id_of node := node_metadata commune_id key_map node]> (_entities self))
        (<[normalize_name (node_entity_name key_map node) := node_id_of node]>
           (_name_index self))
        (_chunks self)
        (match node_chunk_ids key_map node with
         | [] => _entity_source_ids self
         | _ => od_set (node_id_of node) (node_chunk_ids key_map node)
                  (_entity_source_ids self)
         end)
        (_loaded_communes self) (_total_nodes self) (_total_edges self)
        (_total_chunks self),
     n + 1)
  else (self, n).
Proof.
  unfold load_node, node_valid, node_id_of.
  destruct (str_nonempty (strip_quotes (node_id_attr node))); cbn [negb]; [|reflexivity].
  f_equal. f_equal. unfold node_chunk_ids.
  destruct (get_data key_map (node_data node) "source_id") as [|a s] eqn:Hraw;
    reflexivity.
Qed.

Lemma load_chunk_eq commune_id self n chunk_id info :
  load_chunk commune_id (self, n) (chunk_id, info) =
  (mk (data_path self) (_adjacency self)
      (<[chunk_id := chunk_entity commune_id chunk_id info]> (_entities self))
      (_name_index self)
      (<[chunk_id := chunk_metadata commune_id chunk_id info]> (_chunks self))
      (_entity_source_ids self) (_loaded_communes self) (_total_nodes self)
      (_total_edges self) (_total_chunks self),
   n + 1).
Proof. reflexivity. Qed.

(** The node loop leaves everything but the entities, the names and the
    source ids alone. *)
Lemma load_nodes_frame commune_id key_map nodes self n :
  let r := foldl (load_node commune_id key_map) (self, n) nodes in
  _chunks (fst r) = _chunks self /\
  _loaded_communes (fst r) = _loaded_communes self /\
  _total_chunks (fst r) = _total_chunks self.
Proof.
  revert self n. induction nodes as [|node nodes IH]; intros self n; [cbn; auto|].
  cbn [foldl]. rewrite load_node_eq. destruct (node_valid node); [|apply IH].
  cbv zeta. match goal with |- context [foldl _ (?s, ?m) nodes] =>
    destruct (IH s m) as (H1 & H2 & H3) end.
  rewrite H1, H2, H3. cbn. auto.
Qed.

Lemma load_nodes_other commune_id key_map nodes self n :
  let r := foldl (load_node commune_id key_map) (self, n) nodes in
  (forall id,
     (forall nd, nd ∈ nodes -> node_valid nd = true -> node_id_of nd <> id) ->
     _entities (fst r) !! id = _entities self !! id) /\
  (forall name,
     (forall nd, nd ∈ nodes -> node_valid nd = true ->
                 normalize_name (node_entity_name key_map nd) <> name) ->
     _name_index (fst r) !! name = _name_index self !! name) /\
  (forall id,
     (forall nd, nd ∈ nodes -> node_valid nd = true -> node_id_of nd <> id) ->
     od_get id (_entity_source_ids (fst r)) = od_get id (_entity_source_ids self)).
Proof.
  revert self n. induction nodes as [|node nodes IH]; intros self n; [cbn; auto|].
  cbn [foldl]. rewrite load_node_eq. cbv zeta.
  destruct (node_valid node) eqn:Hv.
  - match goal with |- context [foldl _ (?s, ?m) nodes] =>
      destruct (IH s m) as (H1 & H2 & H3) end.
    split; [|split].
    + intros id Hid. rewrite H1 by (intros nd Hnd; apply Hid; right; exact Hnd).
      cbn [_entities]. apply lookup_insert_ne. apply Hid; [left|exact Hv].
    + intros name Hname. rewrite H2 by (intros nd Hnd; apply Hname; right; exact Hnd).
      cbn [_name_index]. apply lookup_insert_ne. apply Hname; [left|exact Hv].
    + intros id Hid. rewrite H3 by (intros nd Hnd; apply Hid; right; exact Hnd).
      cbn [_entity_source_ids]. destruct (node_chunk_ids key_map node); [reflexivity|].
      apply od_get_set_ne. apply Hid; [left|exact Hv].
  - destruct (IH self n) as (H1 & H2 & H3). split; [|split].
    + intros id Hid. apply H1. intros nd Hnd. apply Hid. right. exact Hnd.
    + intros name Hname. apply H2. intros nd Hnd. apply Hname. right. exact Hnd.
    + intros id Hid. apply H3. intros nd Hnd. apply Hid. right. exact Hnd.
Qed.

(** The last node element with an id decides what is stored under it. *)
Lemma load_nodes_last commune_id key_map l1 node l2 self n :
  node_valid node = true ->
  let r := foldl (load_node commune_id key_map) (self, n) (l1 ++ node :: l2) in
  ((forall nd, nd ∈ l2 -> node_valid nd = true -> node_id_of nd <> node_id_of node) ->
   _entities (fst r) !! node_id_of node = Some (node_metadata commune_id key_map node) /\
   (node_chunk_ids key_map node <> [] ->
    od_get (node_id_of node) (_entity_source_ids (fst r)) =
      Some (node_chunk_ids key_map node))) /\
  ((forall nd, nd ∈ l2 -> node_valid nd = true ->
      normalize_name (node_entity_name key_map nd) <>
      normalize_name (node_entity_name key_map node)) ->
   _name_index (fst r) !! normalize_name (node_entity_name key_map node) =
     Some (node_id_of node)).
Proof.
  intros Hv. cbv zeta. rewrite foldl_app. cbn [foldl].
  destruct (foldl (load_node commune_id key_map) (self, n) l1) as [self1 n1].
  rewrite load_node_eq, Hv.
  match goal with |- context [foldl _ (?s, ?m) l2] =>
    destruct (load_nodes_other commune_id key_map l2 s m) as (H1 & H2 & H3) end.
  split.
  - intros Hlast. rewrite (H1 _ Hlast), (H3 _ Hlast).
    cbn [_entities _entity_source_ids]. split; [apply lookup_insert_eq|].
    intros Hne. destruct (node_chunk_ids key_map node) eqn:Hc; [congruence|].
    apply od_get_set_eq.
  - intros Hlast. rewrite (H2 _ Hlast). cbn [_name_index]. apply lookup_insert_eq.
Qed.

(** The chunk loop. *)
Lemma load_chunks_frame commune_id items self n :
  let r := foldl (load_chunk commune_id) (self, n) items in
  _name_index (fst r) = _name_index self /\
  _entity_source_ids (fst r) = _entity_source_ids self /\
  _loaded_communes (fst r) = _loaded_communes self /\
  _total_chunks (fst r) = _total_chunks self /\
  snd r = n + Z.of_nat (length items).
Proof.
  revert self n. induction items as [|[k info] items IH]; intros self n.
  - cbn. repeat split; lia.
  - cbn [foldl]. rewrite load_chunk_eq. cbv zeta.
    match goal with |- context [foldl _ (?s, ?m) items] =>
      destruct (IH s m) as (H1 & H2 & H3 & H4 & H5) end.
    rewrite H1, H2, H3, H4, H5. cbn [length]. repeat split; lia.
Qed.

Lemma load_chunks_other commune_id items self n k :
  k ∉ od_keys items ->
  let r := foldl (load_chunk commune_id) (self, n) items in
  _entities (fst r) !! k = _entities self !! k /\
  _chunks (fst r) !! k = _chunks self !! k.
Proof.
  revert self n. induction items as [|[k0 info] items IH]; intros self n Hk; [cbn; auto|].
  unfold od_keys in Hk. rewrite fmap_cons in Hk. cbn [fst] in Hk.
  apply not_elem_of_cons in Hk as [Hne Hk].
  cbn [foldl]. rewrite load_chunk_eq. cbv zeta.
  match goal with |- context [foldl _ (?s, ?m) items] =>
    destruct (IH s m Hk) as (H1 & H2) end.
  rewrite H1, H2. cbn [_entities _chunks].
  rewrite !lookup_insert_ne by congruence. auto.
Qed.

Lemma load_chunks_stored commune_id items self n k info :
  NoDup (od_keys items) -> (k, info) ∈ items ->
  let r := foldl (load_chunk commune_id) (self, n) items in
  _entities (fst r) !! k = Some (chunk_entity commune_id k info) /\
  _chunks (fst r) !! k = Some (chunk_metadata commune_id k info).
Proof.
  revert self n. induction items as [|[k0 info0] items IH]; intros self n Hnd Hin.
  - inversion Hin.
  - unfold od_keys in Hnd. rewrite fmap_cons in Hnd. cbn [fst] in Hnd.
    apply NoDup_cons in Hnd as [Hnotin Hnd].
    cbn [foldl]. rewrite load_chunk_eq. cbv zeta.
    apply elem_of_cons in Hin as [[= -> ->]|Hin].
    + match goal with |- context [foldl _ (?s, ?m) items] =>
        destruct (load_chunks_other commune_id items s m k0 Hnotin) as (H1 & H2) end.
      rewrite H1, H2. cbn [_entities _chunks]. rewrite !lookup_insert_eq. auto.
    + apply IH; assumption.
Qed.

(** Chunks are only ever added. *)
Lemma load_chunks_keep commune_id items self n k :
  let r := foldl (load_chunk commune_id) (self, n) items in
  is_Some (_chunks self !! k) -> is_Some (_chunks (fst r) !! k).
Proof.
  revert self n. induction items as [|[k0 info0] items IH]; intros self n; [cbn; auto|].
  cbn [foldl]. rewrite load_chunk_eq. cbv zeta. intros Hk. apply IH.
  cbn [_chunks]. destruct (decide (k = k0)) as [->|Hne].
  - rewrite lookup_insert_eq. eauto.
  - rewrite lookup_insert_ne by congruence. exact Hk.
Qed.

End LoadStages.

Section LoadCommune.
Import GraphIndex.

(** ** Linking entities and chunks *)

Lemma adj_append_elem k e adj x e' :
  e' ∈ default [] (adj_append k e adj !! x) <->
  e' ∈ default [] (adj !! x) \/ (x = k /\ e' = e).
Proof.
  rewrite adj_append_lookup, elem_of_app. destruct (decide (x = k)) as [->|Hne].
  - rewrite list_elem_of_singleton. tauto.
  - split; [intros [H|H]; [auto|inversion H]|intros [H|[H _]]; [auto|congruence]].
Qed.

Lemma link_chunk_keep self entity_id adj chunk_id x e :
  e ∈ default [] (adj !! x) ->
  e ∈ default [] (link_chunk self entity_id adj chunk_id !! x).
Proof.
  intros He. unfold link_chunk. destruct (bool_decide _); [|exact He].
  apply adj_append_elem. left. apply adj_append_elem. left. exact He.
Qed.

Lemma link_chunks_keep self entity_id chunk_ids adj x e :
  e ∈ default [] (adj !! x) ->
  e ∈ default [] (foldl (link_chunk self entity_id) adj chunk_ids !! x).
Proof.
  revert adj. induction chunk_ids as [|c cs IH]; intros adj He; [exact He|].
  cbn [foldl]. apply IH, link_chunk_keep, He.
Qed.

Lemma link_entity_keep self commune_id adj item x e :
  e ∈ default [] (adj !! x) ->
  e ∈ default [] (link_entity self commune_id adj item !! x).
Proof.
  intros He. unfold link_entity. destruct item as [entity_id chunk_ids].
  destruct (_entities self !! entity_id) as [ent|]; [|exact He].
  destruct (String.eqb _ _); [|exact He]. apply link_chunks_keep, He.
Qed.

Lemma link_entities_keep self commune_id items adj x e :
  e ∈ default [] (adj !! x) ->
  e ∈ default [] (foldl (link_entity self commune_id) adj items !! x).
Proof.
  revert adj. induction items as [|item items IH]; intros adj He; [exact He|].
  cbn [foldl]. apply IH, link_entity_keep, He.
Qed.

(** A chunk id of an entity that is a stored chunk gets its two entries. *)
Lemma link_chunks_linked self entity_id chunk_ids adj chunk_id :
  chunk_id ∈ chunk_ids -> is_Some (_chunks self !! chunk_id) ->
  EdgeInfo.mk chunk_id "HAS_SOURCE" (9 # 10) ∈
    default [] (foldl (link_chunk self entity_id) adj chunk_ids !! entity_id) /\
  EdgeInfo.mk entity_id "SOURCED_BY" (9 # 10) ∈
    default [] (foldl (link_chunk self entity_id) adj chunk_ids !! chunk_id).
Proof.
  revert adj. induction chunk_ids as [|c cs IH]; intros adj Hin Hc; [inversion Hin|].
  cbn [foldl]. apply elem_of_cons in Hin as [->|Hin]; [|apply IH; assumption].
  split; apply link_chunks_keep; unfold link_chunk;
    rewrite bool_decide_eq_true_2 by exact Hc.
  - apply adj_append_elem. left. apply adj_append_elem. right. split; reflexivity.
  - apply adj_append_elem. right. split; reflexivity.
Qed.

Lemma link_entities_linked self commune_id items adj entity_id chunk_ids ent chunk_id :
  (entity_id, chunk_ids) ∈ items ->
  _entities self !! entity_id = Some ent ->
  EntityMetadata.commune ent = commune_id ->
  chunk_id ∈ chunk_ids -> is_Some (_chunks self !! chunk_id) ->
  EdgeInfo.mk chunk_id "HAS_SOURCE" (9 # 10) ∈
    default [] (foldl (link_entity self commune_id) adj items !! entity_id) /\
  EdgeInfo.mk entity_id "SOURCED_BY" (9 # 10) ∈
    default [] (foldl (link_entity self commune_id) adj items !! chunk_id).
Proof.
  intros Hitem Hent Hcommune Hin Hc. revert adj.
  induction items as [|item items IH]; intros adj; [inversion Hitem|].
  cbn [foldl]. apply elem_of_cons in Hitem as [<-|Hitem]; [|apply IH, Hitem].
  unfold link_entity at 2 4. rewrite Hent, Hcommune, String.eqb_refl.
  destruct (link_chunks_linked self entity_id chunk_ids adj chunk_id Hin Hc) as [H1 H2].
  split; apply link_entities_keep; assumption.
Qed.

(** ** One commune *)

Lemma load_commune_chunks_none self commune_id :
  chunks_of (data_path self) commune_id = None ->
  _load_commune_chunks self commune_id = (self, 0).
Proof.
  unfold chunks_of, _load_commune_chunks.
  destruct (data_path self !! commune_id) as [dir|]; [|reflexivity].
  destruct (chunks_file dir); [reflexivity|reflexivity|discriminate].
Qed.

Lemma load_commune_chunks_parsed self commune_id chunks_data :
  chunks_of (data_path self) commune_id = Some chunks_data ->
  _load_commune_chunks self commune_id =
  let r := foldl (load_chunk commune_id) (self, 0) chunks_data in
  (mk (data_path (fst r))
      (foldl (link_entity (fst r) commune_id) (_adjacency (fst r))
         (_entity_source_ids (fst r)))
      (_entities (fst r)) (_name_index (fst r)) (_chunks (fst r))
      (_entity_source_ids (fst r)) (_loaded_communes (fst r))
      (_total_nodes (fst r)) (_total_edges (fst r)) (_total_chunks (fst r)),
   snd r).
Proof.
  unfold chunks_of, _load_commune_chunks.
  destruct (data_path self !! commune_id) as [dir|]; [|discriminate].
  destruct (chunks_file dir) as [| |d]; [discriminate|discriminate|].
  intros [= ->]. cbv zeta.
  destruct (foldl (load_chunk commune_id) (self, 0) chunks_data) as [self1 n1].
  reflexivity.
Qed.

Lemma load_commune_none self commune_id :
  graph_of (data_path self) commune_id = None -> _load_commune self commune_id = self.
Proof.
  unfold graph_of, _load_commune.
  destruct (data_path self !! commune_id) as [dir|]; [|reflexivity].
  destruct (graphml_file dir); [reflexivity|reflexivity|discriminate].
Qed.

Lemma load_commune_parsed self commune_id root :
  graph_of (data_path self) commune_id = Some root ->
  _load_commune self commune_id =
  let key_map := build_key_map (graphml_keys root) in
  let r1 := foldl (load_node commune_id key_map) (self, 0) (graphml_nodes root) in
  let r2 := foldl (load_edge key_map) (_adjacency (fst r1), 0) (graphml_edges root) in
  let self2 :=
    mk (data_path (fst r1)) (fst r2) (_entities (fst r1)) (_name_index (fst r1))
       (_chunks (fst r1)) (_entity_source_ids (fst r1))
       ({[commune_id]} ∪ _loaded_communes (fst r1))
       (_total_nodes (fst r1) + snd r1) (_total_edges (fst r1) + snd r2)
       (_total_chunks (fst r1)) in
  let r3 := _load_commune_chunks self2 commune_id in
  mk (data_path (fst r3)) (_adjacency (fst r3)) (_entities (fst r3))
     (_name_index (fst r3)) (_chunks (fst r3)) (_entity_source_ids (fst r3))
     (_loaded_communes (fst r3)) (_total_nodes (fst r3)) (_total_edges (fst r3))
     (_total_chunks (fst r3) + snd r3).
Proof.
  unfold graph_of, _load_commune.
  destruct (data_path self !! commune_id) as [dir|]; [|discriminate].
  destruct (graphml_file dir) as [| |g]; [discriminate|discriminate|].
  intros [= ->]. cbv zeta.
  destruct (foldl (load_node commune_id _) (self, 0) (graphml_nodes root)) as [self1 n1].
  cbn [fst snd].
  destruct (foldl (load_edge _) (_adjacency self1, 0) (graphml_edges root)) as [adj n2].
  cbn [fst snd].
  destruct (_load_commune_chunks _ commune_id) as [self3 n3]. reflexivity.
Qed.

End LoadCommune.

Section LoadCommuneFacts.
Import GraphIndex.

Lemma load_chunks_entity_cases commune_id items self n k :
  let r := foldl (load_chunk commune_id) (self, n) items in
  _entities (fst r) !! k = _entities self !! k \/
  exists info, _entities (fst r) !! k = Some (chunk_entity commune_id k info).
Proof.
  revert self n. induction items as [|[k0 info0] items IH]; intros self n; [left; reflexivity|].
  cbn [foldl]. rewrite load_chunk_eq. cbv zeta.
  match goal with |- context [foldl _ (?s, ?m) items] =>
    destruct (IH s m) as [H|H] end; [|right; exact H].
  rewrite H. cbn [_entities]. destruct (decide (k = k0)) as [->|Hne].
  - right. exists info0. apply lookup_insert_eq.
  - left. apply lookup_insert_ne. congruence.
Qed.

(** What loading the chunk store changes. *)
Lemma load_commune_chunks_frame self commune_id :
  let r := _load_commune_chunks self commune_id in
  data_path (fst r) = data_path self /\
  _name_index (fst r) = _name_index self /\
  _entity_source_ids (fst r) = _entity_source_ids self /\
  _loaded_communes (fst r) = _loaded_communes self /\
  _total_chunks (fst r) = _total_chunks self /\
  snd r = Z.of_nat (length (default [] (chunks_of (data_path self) commune_id))) /\
  (forall k, (forall d, chunks_of (data_path self) commune_id = Some d -> k ∉ od_keys d) ->
     _entities (fst r) !! k = _entities self !! k) /\
  (forall k, is_Some (_chunks self !! k) -> is_Some (_chunks (fst r) !! k)) /\
  (forall x e, e ∈ default [] (_adjacency self !! x) ->
               e ∈ default [] (_adjacency (fst r) !! x)).
Proof.
  cbv zeta. destruct (chunks_of (data_path self) commune_id) as [d|] eqn:Hc.
  - rewrite (load_commune_chunks_parsed self commune_id d Hc). cbv zeta. cbn [fst snd].
    destruct (load_chunks_frame commune_id d self 0) as (H1 & H2 & H3 & H4 & H5).
    destruct (load_chunks_spec commune_id d self 0) as (Ha & Hd & _).
    cbv zeta in *. cbn [data_path _name_index _entity_source_ids _loaded_communes
                        _total_chunks _entities _chunks _adjacency default from_option id].
    split; [exact Hd|]. split; [exact H1|]. split; [exact H2|]. split; [exact H3|].
    split; [exact H4|]. split; [lia|]. split; [|split].
    + intros k Hk. apply load_chunks_other. apply Hk. reflexivity.
    + intros k Hk. apply load_chunks_keep, Hk.
    + intros x e He. apply link_entities_keep. rewrite Ha. exact He.
  - rewrite (load_commune_chunks_none self commune_id Hc). cbn. auto 10.
Qed.

Lemma load_commune_loaded self commune_id root :
  graph_of (data_path self) commune_id = Some root ->
  _loaded_communes (_load_commune self commune_id) =
    {[commune_id]} ∪ _loaded_communes self.
Proof.
  intros Hg. rewrite (load_commune_parsed self commune_id root Hg). cbv zeta.
  cbn [_loaded_communes].
  match goal with |- context [_load_commune_chunks ?s commune_id] =>
    destruct (load_commune_chunks_frame s commune_id) as (_ & _ & _ & -> & _) end.
  cbn [_loaded_communes].
  destruct (load_nodes_frame commune_id (build_key_map (graphml_keys root))
              (graphml_nodes root) self 0) as (_ & -> & _).
  reflexivity.
Qed.

Lemma initialize_loadable commune_ids self :
  foldl _load_commune self commune_ids =
    foldl _load_commune self (loadable (data_path self) commune_ids) /\
  _loaded_communes (foldl _load_commune self commune_ids) =
    list_to_set (loadable (data_path self) commune_ids) ∪ _loaded_communes self.
Proof.
  revert self. induction commune_ids as [|c ids IH]; intros self.
  - cbn [foldl loadable filter list_to_set]. split; [reflexivity|].
    unfold loadable. rewrite filter_nil. cbn [list_to_set].
    rewrite (left_id_L ∅ (∪)). reflexivity.
  - cbn [foldl]. unfold loadable.
    destruct (load_commune_spec self c) as (Hd & _). cbv zeta in Hd.
    destruct (graph_of (data_path self) c) as [root|] eqn:Hg.
    + rewrite filter_cons_True by (rewrite Hg; eauto). cbn [foldl].
      destruct (IH (_load_commune self c)) as [IH1 IH2].
      unfold loadable in IH1, IH2. rewrite Hd in IH1, IH2. split; [exact IH1|].
      rewrite IH2, (load_commune_loaded self c root Hg). cbn [list_to_set].
      rewrite (assoc_L (∪)), (comm_L (∪) (list_to_set _) {[c]}). reflexivity.
    + rewrite filter_cons_False by (rewrite Hg; intros [? ?]; discriminate).
      rewrite (load_commune_none self c Hg). apply IH.
Qed.

End LoadCommuneFacts.

(** X13. Loading skips what it cannot read: [initialize] on a list of
    commune ids builds the index it builds on the ids whose graph file
    exists and parses; the loaded communes are exactly those; and when no
    graph file can be read the index is left as constructed (the chunk
    store of such a commune is not read either). *)
Theorem X13_initialize_skips_unloadable (data_path : gmap string commune_dir)
    (commune_ids : list string) :
  let index :=
    GraphIndex.initialize (GraphIndex.__init__ data_path) (Some commune_ids) in
  index =
    GraphIndex.initialize (GraphIndex.__init__ data_path)
      (Some (loadable data_path commune_ids)) /\
  (forall c, c ∈ GraphIndex._loaded_communes index <->
             c ∈ commune_ids /\ is_Some (graph_of data_path c)) /\
  ((forall c, c ∈ commune_ids -> graph_of data_path c = None) ->
   index = GraphIndex.__init__ data_path).
Proof.
  cbv zeta. unfold GraphIndex.initialize.
  destruct (initialize_loadable commune_ids (GraphIndex.__init__ data_path)) as [H1 H2].
  cbn [GraphIndex.__init__ GraphIndex.data_path GraphIndex._loaded_communes] in H1, H2.
  split; [exact H1|]. split.
  - intros c. rewrite H2. unfold loadable.
    rewrite elem_of_union, elem_of_list_to_set, list_elem_of_filter. split.
    + intros [[Hs Hc]|He]; [tauto|]. apply not_elem_of_empty in He. contradiction.
    + intros [Hc Hs]. left. tauto.
  - intros Hnone. rewrite H1.
    assert (loadable data_path commune_ids = []) as ->; [|reflexivity].
    unfold loadable. apply filter_none. intros c Hc [g Hg].
    rewrite (Hnone c Hc) in Hg. discriminate.
Qed.

Lemma X13_initialize_skips_unloadable_witness :
  GraphIndex.initialize (GraphIndex.__init__ demo_data_path) (Some ["ghost"; "phantom"]) =
    GraphIndex.__init__ demo_data_path.
Proof.
  destruct (X13_initialize_skips_unloadable demo_data_path ["ghost"; "phantom"])
    as (_ & _ & Hnone).
  apply Hnone. intros c Hc.
  repeat (apply elem_of_cons in Hc as [->|Hc]; [reflexivity|]).
  inversion Hc.
Defined.

Section NodeLookup.
Import GraphIndex.

(** The entities, names and source ids after loading a commune are those
    after its node loop, but for the ids of its chunk store. *)
Lemma load_commune_after_nodes self commune_id root :
  graph_of (data_path self) commune_id = Some root ->
  let r1 := foldl (load_node commune_id (build_key_map (graphml_keys root))) (self, 0)
              (graphml_nodes root) in
  let index := _load_commune self commune_id in
  _name_index index = _name_index (fst r1) /\
  _entity_source_ids index = _entity_source_ids (fst r1) /\
  (forall k,
     (forall d, chunks_of (data_path self) commune_id = Some d -> k ∉ od_keys d) ->
     _entities index !! k = _entities (fst r1) !! k).
Proof.
  intros Hg. cbv zeta. rewrite (load_commune_parsed self commune_id root Hg). cbv zeta.
  cbn [_name_index _entity_source_ids _entities].
  destruct (load_nodes_spec commune_id (build_key_map (graphml_keys root))
              (graphml_nodes root) self 0) as (_ & Hd & _). cbv zeta in Hd.
  set (r1 := foldl (load_node commune_id (build_key_map (graphml_keys root))) (self, 0)
               (graphml_nodes root)) in *.
  match goal with |- context [_load_commune_chunks ?s commune_id] =>
    set (self2 := s);
    destruct (load_commune_chunks_frame self2 commune_id)
      as (_ & Hn & Hs & _ & _ & _ & He & _) end.
  cbv zeta in Hn, Hs, He. subst self2.
  cbn [data_path _name_index _entity_source_ids _entities] in Hn, Hs, He.
  rewrite Hd in Hn, Hs, He |- *. split; [exact Hn|]. split; [exact Hs|exact He].
Qed.

End NodeLookup.

(** X14. After [_load_commune] has read a graph file, the metadata stored
    for the id of a node element is that of the last node element with this
    id: its name (the node id when the file gives none), its type
    (UNKNOWN when the file gives none), the first 300 characters of its
    description, and the commune; provided no chunk of the commune's chunk
    store has the same id.  The id is then known to the index, and
    [get_entity_by_name] finds the entity under any spelling of the name
    that agrees with it up to case and surrounding whitespace, provided no
    later node element carries such a name. *)
Theorem X14_load_commune_node_lookup (self : GraphIndex.t) (commune_id : string)
    (root : graphml) (l1 l2 : list xml_node) (node : xml_node) :
  graph_of (GraphIndex.data_path self) commune_id = Some root ->
  graphml_nodes root = l1 ++ node :: l2 ->
  node_valid node = true ->
  (forall nd, nd ∈ l2 -> node_valid nd = true -> node_id_of nd <> node_id_of node) ->
  (forall d, chunks_of (GraphIndex.data_path self) commune_id = Some d ->
             node_id_of node ∉ od_keys d) ->
  let index := GraphIndex._load_commune self commune_id in
  let key_map := GraphIndex.build_key_map (graphml_keys root) in
  GraphIndex.get_entity index (node_id_of node) =
    Some (node_metadata commune_id key_map node) /\
  GraphIndex.has_entity index (node_id_of node) = true /\
  (forall name,
     (forall nd, nd ∈ l2 -> node_valid nd = true ->
        normalize_name (node_entity_name key_map nd) <>
        normalize_name (node_entity_name key_map node)) ->
     normalize_name name = normalize_name (node_entity_name key_map node) ->
     GraphIndex.get_entity_by_name index name =
       Some (node_metadata commune_id key_map node)).
Proof.
  intros Hg Hnodes Hv Hlast Hchunk. cbv zeta.
  destruct (load_commune_after_nodes self commune_id root Hg) as (Hn & _ & He).
  cbv zeta in Hn, He. rewrite Hnodes in Hn, He.
  destruct (load_nodes_last commune_id (GraphIndex.build_key_map (graphml_keys root))
              l1 node l2 self 0 Hv) as [Hid Hname]. cbv zeta in Hid, Hname.
  destruct (Hid Hlast) as [Hent _].
  assert (GraphIndex.get_entity (GraphIndex._load_commune self commune_id)
            (node_id_of node) =
          Some (node_metadata commune_id (GraphIndex.build_key_map (graphml_keys root))
                  node)) as Hget.
  { unfold GraphIndex.get_entity. rewrite (He _ Hchunk). exact Hent. }
  split; [exact Hget|]. split; [eapply get_entity_has_entity, Hget|].
  intros name Hlastn Hnorm. unfold GraphIndex.get_entity_by_name.
  fold (normalize_name name). rewrite Hnorm, Hn, (Hname Hlastn).
  unfold node_valid in Hv. rewrite Hv. exact Hget.
Qed.

Lemma X14_load_commune_node_lookup_witness :
  GraphIndex.get_entity demo_index "B" =
    Some (EntityMetadata.mk "B" "CONCEPT" EmptyString "demo" "B") /\
  GraphIndex.get_entity_by_name demo_index " b " =
    Some (EntityMetadata.mk "B" "CONCEPT" EmptyString "demo" "B") /\
  normalize_name (String "233"%char "cole ") = String "201"%char "COLE" /\
  normalize_name (String "201"%char "cole") = String "201"%char "COLE".
Proof.
  destruct (X14_load_commune_node_lookup (GraphIndex.__init__ demo_data_path) "demo"
              demo_graphml [demo_node "S" "CONCEPT"; demo_node "A" "CONCEPT"]
              [demo_node "C" "CHUNK"] (demo_node "B" "CONCEPT"))
    as (Hget & _ & Hname).
  - reflexivity.
  - reflexivity.
  - reflexivity.
  - intros nd Hnd _. apply list_elem_of_singleton in Hnd. subst nd. discriminate.
  - intros d Hd. discriminate.
  - split; [exact Hget|]. split; [|split; reflexivity]. apply Hname; [|reflexivity].
    intros nd Hnd _. apply list_elem_of_singleton in Hnd. subst nd. discriminate.
Defined.



Section ProvenanceLinks.
Import GraphIndex.

Lemma omap_elem {A B : Type} (f : A -> option B) (l : list A) (a : A) (b : B) :
  a ∈ l -> f a = Some b -> b ∈ omap f l.
Proof. intros Ha Hf. apply list_elem_of_omap. exists a. auto. Qed.

End ProvenanceLinks.



Section AdjacencySymmetry.
Import GraphIndex.

Lemma table_weight_bounds (rel_type : string) :
  (1 # 10 <= od_get_default rel_type (1 # 10) RELATIONSHIP_WEIGHTS <= 1)%Q.
Proof.
  unfold od_get_default. destruct (od_get rel_type RELATIONSHIP_WEIGHTS) as [w|] eqn:Hw.
  - apply od_get_elem in Hw. cbn [default from_option id].
    repeat (apply elem_of_cons in Hw as [Hw|Hw];
            [inversion Hw; subst; split; unfold Qle; cbn; lia|]).
    inversion Hw.
  - cbn. split; unfold Qle; cbn; lia.
Qed.

Lemma symmetric_empty : adjacency_symmetric ∅.
Proof. intros x e He. rewrite lookup_empty in He. inversion He. Qed.

(** Appending an entry and its mirror keeps the adjacency symmetric. *)
Lemma symmetric_add_pair adj s t r r' w :
  adjacency_symmetric adj ->
  w = od_get_default r (1 # 10) RELATIONSHIP_WEIGHTS ->
  w = od_get_default r' (1 # 10) RELATIONSHIP_WEIGHTS ->
  (r' = r \/ (r = "HAS_SOURCE" /\ r' = "SOURCED_BY")) ->
  adjacency_symmetric
    (adj_append t (EdgeInfo.mk s r' w) (adj_append s (EdgeInfo.mk t r w) adj)).
Proof.
  intros Hadj Hw Hw' Hr x e He.
  apply adj_append_elem in He as [He|[-> ->]];
    [apply adj_append_elem in He as [He|[-> ->]]|].
  - destruct (Hadj x e He) as (Hwe & e' & He' & Hm). split; [exact Hwe|].
    exists e'. split; [|exact Hm].
    apply adj_append_elem. left. apply adj_append_elem. left. exact He'.
  - cbn [EdgeInfo.weight EdgeInfo.rel_type EdgeInfo.target]. split; [exact Hw|].
    exists (EdgeInfo.mk s r' w). split.
    + apply adj_append_elem. right. auto.
    + unfold mirror_of. cbn [EdgeInfo.weight EdgeInfo.rel_type EdgeInfo.target].
      split; [reflexivity|]. split; [reflexivity|]. tauto.
  - cbn [EdgeInfo.weight EdgeInfo.rel_type EdgeInfo.target]. split; [exact Hw'|].
    exists (EdgeInfo.mk t r w). split.
    + apply adj_append_elem. left. apply adj_append_elem. right. auto.
    + unfold mirror_of. cbn [EdgeInfo.weight EdgeInfo.rel_type EdgeInfo.target].
      split; [reflexivity|]. split; [reflexivity|].
      destruct Hr as [->|[-> ->]]; [left; reflexivity|right; right; auto].
Qed.

Lemma load_edges_symmetric key_map edges adj n :
  adjacency_symmetric adj ->
  adjacency_symmetric (fst (foldl (load_edge key_map) (adj, n) edges)).
Proof.
  revert adj n. induction edges as [|edge edges IH]; intros adj n Hadj; [exact Hadj|].
  cbn [foldl]. unfold load_edge at 2.
  destruct (negb _ || negb _); [apply IH, Hadj|]. apply IH.
  apply symmetric_add_pair; auto.
Qed.

Lemma link_chunks_symmetric self entity_id chunk_ids adj :
  adjacency_symmetric adj ->
  adjacency_symmetric (foldl (link_chunk self entity_id) adj chunk_ids).
Proof.
  revert adj. induction chunk_ids as [|c cs IH]; intros adj Hadj; [exact Hadj|].
  cbn [foldl]. apply IH. unfold link_chunk. destruct (bool_decide _); [|exact Hadj].
  apply symmetric_add_pair; auto.
Qed.

Lemma link_entities_symmetric self commune_id items adj :
  adjacency_symmetric adj ->
  adjacency_symmetric (foldl (link_entity self commune_id) adj items).
Proof.
  revert adj. induction items as [|[entity_id chunk_ids] items IH]; intros adj Hadj;
    [exact Hadj|].
  cbn [foldl]. apply IH. unfold link_entity.
  destruct (_entities self !! entity_id); [|exact Hadj].
  destruct (String.eqb _ _); [|exact Hadj]. apply link_chunks_symmetric, Hadj.
Qed.

Lemma load_commune_chunks_symmetric self commune_id :
  adjacency_symmetric (_adjacency self) ->
  adjacency_symmetric (_adjacency (fst (_load_commune_chunks self commune_id))).
Proof.
  intros Hadj. destruct (chunks_of (data_path self) commune_id) as [d|] eqn:Hc.
  - rewrite (load_commune_chunks_parsed self commune_id d Hc). cbv zeta.
    cbn [fst _adjacency]. apply link_entities_symmetric.
    destruct (load_chunks_spec commune_id d self 0) as (Ha & _). cbv zeta in Ha.
    rewrite Ha. exact Hadj.
  - rewrite (load_commune_chunks_none self commune_id Hc). exact Hadj.
Qed.

Lemma load_commune_symmetric self commune_id :
  adjacency_symmetric (_adjacency self) ->
  adjacency_symmetric (_adjacency (_load_commune self commune_id)).
Proof.
  intros Hadj. destruct (graph_of (data_path self) commune_id) as [root|] eqn:Hg.
  - rewrite (load_commune_parsed self commune_id root Hg). cbv zeta.
    cbn [_adjacency]. apply load_commune_chunks_symmetric. cbn [_adjacency].
    apply load_edges_symmetric.
    destruct (load_nodes_spec commune_id (build_key_map (graphml_keys root))
                (graphml_nodes root) self 0) as (Ha & _). cbv zeta in Ha.
    rewrite Ha. exact Hadj.
  - rewrite (load_commune_none self commune_id Hg). exact Hadj.
Qed.

Lemma load_communes_symmetric commune_ids self :
  adjacency_symmetric (_adjacency self) ->
  adjacency_symmetric (_adjacency (foldl _load_commune self commune_ids)).
Proof.
  revert self. induction commune_ids as [|c ids IH]; intros self Hadj; [exact Hadj|].
  cbn [foldl]. apply IH, load_commune_symmetric, Hadj.
Qed.

End AdjacencySymmetry.

(** X16. The adjacency of an index built by [initialize], whatever the
    files hold, is symmetric and weighted by the table: every entry under
    an id carries the weight that RELATIONSHIP_WEIGHTS gives its
    relationship type (0.1 for a type not in the table), which lies
    between 0.1 and 1, and the target of the entry has an entry back to
    the id with the same weight and the same relationship type, or with
    HAS_SOURCE and SOURCED_BY exchanged. *)
Theorem X16_adjacency_symmetric (data_path : gmap string commune_dir)
    (commune_ids : option (list string)) (x : string) (edge : EdgeInfo.t) :
  let index := GraphIndex.initialize (GraphIndex.__init__ data_path) commune_ids in
  edge ∈ GraphIndex.get_neighbors index x ->
  EdgeInfo.weight edge =
    od_get_default (EdgeInfo.rel_type edge) (1 # 10) RELATIONSHIP_WEIGHTS /\
  (1 # 10 <= EdgeInfo.weight edge <= 1)%Q /\
  exists back,
    back ∈ GraphIndex.get_neighbors index (EdgeInfo.target edge) /\
    EdgeInfo.target back = x /\
    EdgeInfo.weight back = EdgeInfo.weight edge /\
    (EdgeInfo.rel_type back = EdgeInfo.rel_type edge \/
     (EdgeInfo.rel_type edge = "HAS_SOURCE" /\ EdgeInfo.rel_type back = "SOURCED_BY") \/
     (EdgeInfo.rel_type edge = "SOURCED_BY" /\ EdgeInfo.rel_type back = "HAS_SOURCE")).
Proof.
  cbv zeta. unfold GraphIndex.initialize, GraphIndex.get_neighbors. intros He.
  match type of He with _ ∈ default [] (GraphIndex._adjacency (foldl _ ?s ?ids) !! _) =>
    destruct (load_communes_symmetric ids s symmetric_empty x edge He)
      as (Hw & back & Hback & Hm) end.
  split; [exact Hw|]. split; [rewrite Hw; apply table_weight_bounds|].
  exists back. split; [exact Hback|]. exact Hm.
Qed.

Lemma X16_adjacency_symmetric_witness :
  exists back,
    back ∈ GraphIndex.get_neighbors sourced_index "c1" /\
    EdgeInfo.target back = "E" /\ EdgeInfo.weight back = 9 # 10.
Proof.
  destruct (X16_adjacency_symmetric sourced_data_path (Some ["demo"]) "E"
              (EdgeInfo.mk "c1" "HAS_SOURCE" (9 # 10)))
    as (_ & _ & back & Hback & Ht & Hw & _).
  - left.
  - exists back. split; [exact Hback|]. split; [exact Ht|exact Hw].
Defined.

Section DiscoverCommunes.
Import GraphIndex.

Lemma insert_string_perm x l : Permutation (insert_string x l) (x :: l).
Proof.
  induction l as [|y l IH]; [reflexivity|]. cbn [insert_string].
  destruct (String.leb x y); [reflexivity|].
  rewrite IH. apply perm_swap.
Qed.

Lemma sorted_strings_perm l : Permutation (sorted_strings l) l.
Proof.
  induction l as [|x l IH]; [reflexivity|]. cbn [sorted_strings foldr].
  fold (sorted_strings l). rewrite insert_string_perm, IH. reflexivity.
Qed.

Lemma insert_string_hd x y l :
  string_le y x -> HdRel string_le y l -> HdRel string_le y (insert_string x l).
Proof.
  intros Hyx Hl. destruct l as [|z l]; cbn [insert_string]; [constructor; exact Hyx|].
  destruct (String.leb x z); constructor; [exact Hyx|]. inversion Hl. assumption.
Qed.

Lemma insert_string_sorted x l :
  Sorted string_le l -> Sorted string_le (insert_string x l).
Proof.
  induction 1 as [|y l Hs IH Hhd]; cbn [insert_string]; [repeat constructor|].
  destruct (String.leb x y) eqn:Hxy.
  - constructor; [constructor; assumption|]. constructor. exact Hxy.
  - constructor; [exact IH|]. apply insert_string_hd; [|exact Hhd].
    destruct (String.leb_total x y) as [H|H]; [congruence|exact H].
Qed.

Lemma sorted_strings_sorted l : Sorted string_le (sorted_strings l).
Proof.
  induction l as [|x l IH]; [constructor|]. cbn [sorted_strings foldr].
  apply insert_string_sorted, IH.
Qed.

End DiscoverCommunes.

(** X18. [_discover_communes] returns, in ascending order and without
    repetition, exactly the names of the directories of [data_path] that do
    not start with a dot and hold a GraphML file (readable or not);
    [initialize] without a list of communes then adds to the loaded
    communes exactly the directories without a leading dot whose GraphML
    file parses. *)
Theorem X18_discover_communes (self : GraphIndex.t) :
  let communes := GraphIndex._discover_communes self in
  Sorted string_le communes /\
  NoDup communes /\
  (forall c, c ∈ communes <->
     exists dir, GraphIndex.data_path self !! c = Some dir /\
                 String.prefix "." c = false /\ graphml_file dir <> Missing) /\
  (forall c, c ∈ GraphIndex._loaded_communes (GraphIndex.initialize self None) <->
     c ∈ GraphIndex._loaded_communes self \/
     (String.prefix "." c = false /\ is_Some (graph_of (GraphIndex.data_path self) c))).
Proof.
  cbv zeta. unfold GraphIndex._discover_communes.
  set (keep := fun item : string * commune_dir =>
                 let (name, dir) := item in
                 if negb (String.prefix "." name) &&
                    match graphml_file dir with Missing => false | _ => true end
                 then Some name else None).
  assert (NoDup (omap keep (map_to_list (GraphIndex.data_path self)))) as Hnd.
  { pose proof (NoDup_fst_map_to_list (GraphIndex.data_path self)) as Hk.
    induction (map_to_list (GraphIndex.data_path self)) as [|[name dir] l IH];
      [constructor|].
    rewrite fmap_cons in Hk. cbn [fst] in Hk. apply NoDup_cons in Hk as [Hname Hk].
    cbn [omap list_omap]. destruct (keep (name, dir)) as [c|] eqn:Hc; [|apply IH, Hk].
    fold (omap keep l). apply NoDup_cons. split; [|apply IH, Hk].
    assert (c = name) as ->.
    { unfold keep in Hc. destruct (negb _ && _); congruence. }
    intros Hin. apply list_elem_of_omap in Hin as ([name' dir'] & Hin & Hk').
    assert (name' = name) as ->.
    { unfold keep in Hk'. destruct (negb _ && _); congruence. }
    apply Hname. apply list_elem_of_fmap. exists (name, dir'). split; [reflexivity|exact Hin]. }
  assert (forall c, c ∈ omap keep (map_to_list (GraphIndex.data_path self)) <->
            exists dir, GraphIndex.data_path self !! c = Some dir /\
                        String.prefix "." c = false /\ graphml_file dir <> Missing)
    as Hmem.
  { intros c. rewrite list_elem_of_omap. split.
    - intros ([name dir] & Hin & Hk). apply elem_of_map_to_list in Hin.
      unfold keep in Hk. destruct (String.prefix "." name) eqn:Hp; [discriminate|].
      cbn [negb andb] in Hk.
      destruct (graphml_file dir) eqn:Hf; [discriminate| |];
        injection Hk as <-; exists dir; rewrite Hf; auto.
    - intros (dir & Hd & Hp & Hf). exists (c, dir). split.
      + apply elem_of_map_to_list. exact Hd.
      + unfold keep. rewrite Hp. cbn [negb andb].
        destruct (graphml_file dir); [contradiction|reflexivity|reflexivity]. }
  split; [apply sorted_strings_sorted|].
  split; [rewrite sorted_strings_perm; exact Hnd|].
  assert (forall c, c ∈ GraphIndex.sorted_strings
                           (omap keep (map_to_list (GraphIndex.data_path self))) <->
            exists dir, GraphIndex.data_path self !! c = Some dir /\
                        String.prefix "." c = false /\ graphml_file dir <> Missing)
    as Hdisc.
  { intros c. rewrite sorted_strings_perm. apply Hmem. }
  split; [exact Hdisc|].
  intros c. unfold GraphIndex.initialize.
  match goal with |- context [foldl _ self ?ids] =>
    destruct (initialize_loadable ids self) as [_ ->] end.
  rewrite elem_of_union, elem_of_list_to_set. unfold loadable.
  rewrite list_elem_of_filter. unfold GraphIndex._discover_communes. fold keep.
  rewrite Hdisc. split.
  - intros [[Hs (dir & Hd & Hp & Hf)]|Hl]; [right; auto|left; exact Hl].
  - intros [Hl|[Hp Hs]]; [right; exact Hl|left]. split; [exact Hs|].
    destruct Hs as [root Hroot]. unfold graph_of in Hroot.
    destruct (GraphIndex.data_path self !! c) as [dir|]; [|discriminate].
    exists dir. split; [reflexivity|]. split; [exact Hp|].
    destruct (graphml_file dir); [discriminate|discriminate|discriminate].
Qed.

Section IndexConsistency.
Import GraphIndex.

Lemma consistent_init data_path : index_consistent ∅ (__init__ data_path).
Proof.
  unfold index_consistent. cbn [__init__ _entities _chunks _name_index].
  split; [|split]; intros ? ? H; rewrite lookup_empty in H; discriminate.
Qed.

Lemma consistent_mono (L L' : gset string) self :
  L ⊆ L' -> index_consistent L self -> index_consistent L' self.
Proof.
  intros Hsub (He & Hc & Hn). split; [|split; [|exact Hn]].
  - intros k md Hk. destruct (He k md Hk) as [H1 H2]. split; [exact H1|apply Hsub, H2].
  - intros k cm Hk. destruct (Hc k cm Hk) as (H1 & H2 & H3).
    split; [exact H1|]. split; [apply Hsub, H2|exact H3].
Qed.

(** the invariant looks at the entities, the chunks and the names only *)
Lemma consistent_fields (L : gset string) self self' :
  _entities self' = _entities self -> _chunks self' = _chunks self ->
  _name_index self' = _name_index self ->
  index_consistent L self -> index_consistent L self'.
Proof. unfold index_consistent. intros -> -> ->. auto. Qed.

Lemma is_Some_insert {V : Type} (m : gmap string V) (k k' : string) (v : V) :
  is_Some (m !! k) -> is_Some (<[k' := v]> m !! k).
Proof.
  intros H. destruct (decide (k = k')) as [->|Hne].
  - rewrite lookup_insert_eq. eauto.
  - rewrite lookup_insert_ne by congruence. exact H.
Qed.

Lemma load_node_consistent (L : gset string) commune_id key_map self n node :
  commune_id ∈ L -> index_consistent L self ->
  index_consistent L (fst (load_node commune_id key_map (self, n) node)).
Proof.
  intros HL Hinv. rewrite load_node_eq. destruct (node_valid node) eqn:Hv; [|exact Hinv].
  destruct Hinv as (He & Hc & Hn). cbn [fst]. unfold index_consistent.
  cbn [_entities _chunks _name_index]. split; [|split].
  - intros k md Hk. destruct (decide (k = node_id_of node)) as [->|Hne].
    + rewrite lookup_insert_eq in Hk. injection Hk as <-. split; [reflexivity|exact HL].
    + rewrite lookup_insert_ne in Hk by congruence. apply He, Hk.
  - intros k cm Hk. destruct (Hc k cm Hk) as (H1 & H2 & H3).
    split; [exact H1|]. split; [exact H2|apply is_Some_insert, H3].
  - intros name k Hk.
    destruct (decide (name = normalize_name (node_entity_name key_map node)))
      as [->|Hne].
    + rewrite lookup_insert_eq in Hk. injection Hk as <-.
      split; [exact Hv|]. rewrite lookup_insert_eq. eauto.
    + rewrite lookup_insert_ne in Hk by congruence. destruct (Hn name k Hk) as [H1 H2].
      split; [exact H1|apply is_Some_insert, H2].
Qed.

Lemma load_chunk_consistent (L : gset string) commune_id self n item :
  commune_id ∈ L -> index_consistent L self ->
  index_consistent L (fst (load_chunk commune_id (self, n) item)).
Proof.
  intros HL (He & Hc & Hn). destruct item as [chunk_id info]. rewrite load_chunk_eq.
  cbn [fst]. unfold index_consistent. cbn [_entities _chunks _name_index].
  split; [|split].
  - intros k md Hk. destruct (decide (k = chunk_id)) as [->|Hne].
    + rewrite lookup_insert_eq in Hk. injection Hk as <-. split; [reflexivity|exact HL].
    + rewrite lookup_insert_ne in Hk by congruence. apply He, Hk.
  - intros k cm Hk. destruct (decide (k = chunk_id)) as [->|Hne].
    + rewrite lookup_insert_eq in Hk. injection Hk as <-.
      split; [reflexivity|]. split; [exact HL|]. rewrite lookup_insert_eq. eauto.
    + rewrite lookup_insert_ne in Hk by congruence.
      destruct (Hc k cm Hk) as (H1 & H2 & H3).
      split; [exact H1|]. split; [exact H2|apply is_Some_insert, H3].
  - intros name k Hk. destruct (Hn name k Hk) as [H1 H2].
    split; [exact H1|apply is_Some_insert, H2].
Qed.

Lemma foldl_fst_invariant {S A : Type} (P : S -> Prop) (f : S * Z -> A -> S * Z)
    (l : list A) (st : S * Z) :
  (forall s n a, P s -> P (fst (f (s, n) a))) -> P (fst st) -> P (fst (foldl f st l)).
Proof.
  intros Hf. revert st. induction l as [|a l IH]; intros [s n] Hs; [exact Hs|].
  cbn [foldl]. apply IH. apply Hf. exact Hs.
Qed.

Lemma load_commune_chunks_consistent (L : gset string) self commune_id :
  commune_id ∈ L -> index_consistent L self ->
  index_consistent L (fst (_load_commune_chunks self commune_id)).
Proof.
  intros HL Hinv. destruct (chunks_of (data_path self) commune_id) as [d|] eqn:Hc.
  - rewrite (load_commune_chunks_parsed self commune_id d Hc). cbv zeta. cbn [fst].
    eapply consistent_fields;
      [reflexivity|reflexivity|reflexivity|].
    apply (foldl_fst_invariant (index_consistent L)); [|exact Hinv].
    intros s n a Hs. apply load_chunk_consistent; assumption.
  - rewrite (load_commune_chunks_none self commune_id Hc). exact Hinv.
Qed.

Lemma load_commune_consistent self commune_id :
  index_consistent (_loaded_communes self) self ->
  index_consistent (_loaded_communes (_load_commune self commune_id))
    (_load_commune self commune_id).
Proof.
  intros Hinv. destruct (graph_of (data_path self) commune_id) as [root|] eqn:Hg.
  - rewrite (load_commune_loaded self commune_id root Hg).
    rewrite (load_commune_parsed self commune_id root Hg). cbv zeta.
    assert (commune_id ∈ ({[commune_id]} ∪ _loaded_communes self : gset string)) as HL
      by (apply elem_of_union; left; apply elem_of_singleton; reflexivity).
    eapply consistent_fields; [reflexivity|reflexivity|reflexivity|].
    apply load_commune_chunks_consistent; [exact HL|].
    eapply consistent_fields; [reflexivity|reflexivity|reflexivity|].
    apply (foldl_fst_invariant (index_consistent ({[commune_id]} ∪ _loaded_communes self))).
    + intros s n a Hs. apply load_node_consistent; assumption.
    + eapply consistent_mono; [|exact Hinv]. intros x Hx. apply elem_of_union. right.
      exact Hx.
  - rewrite (load_commune_none self commune_id Hg). exact Hinv.
Qed.

Lemma load_communes_consistent commune_ids self :
  index_consistent (_loaded_communes self) self ->
  index_consistent (_loaded_communes (foldl _load_commune self commune_ids))
    (foldl _load_commune self commune_ids).
Proof.
  revert self. induction commune_ids as [|c ids IH]; intros self Hinv; [exact Hinv|].
  cbn [foldl]. apply IH, load_commune_consistent, Hinv.
Qed.

End IndexConsistency.


(** * CommunityCache: what a search returns *)

Section SortedSublists.
Context {A : Type}.

Lemma StronglySorted_sublist (R : A -> A -> Prop) (l1 l2 : list A) :
  sublist l1 l2 -> StronglySorted R l2 -> StronglySorted R l1.
Proof.
  induction 1 as [|x l1 l2 Hsub IH|x l1 l2 Hsub IH]; intros Hs.
  - constructor.
  - apply StronglySorted_inv in Hs as [Hs Hall]. constructor; [apply IH, Hs|].
    apply List.Forall_forall. intros y Hy. rewrite List.Forall_forall in Hall.
    apply Hall. apply list_elem_of_In. eapply elem_of_sublist; [|exact Hsub].
    apply list_elem_of_In. exact Hy.
  - apply StronglySorted_inv in Hs as [Hs _]. apply IH, Hs.
Qed.

Lemma StronglySorted_Forall2 {B : Type} (R : A -> A -> Prop) (S : B -> B -> Prop)
    (T : A -> B -> Prop) (l : list A) (k : list B) :
  (forall a a' b b', T a b -> T a' b' -> R a a' -> S b b') ->
  Forall2 T l k -> StronglySorted R l -> StronglySorted S k.
Proof.
  intros HT H2. induction H2 as [|a b l k Hab H2 IH]; intros Hs; [constructor|].
  apply StronglySorted_inv in Hs as [Hs Hall]. constructor; [apply IH, Hs|].
  clear IH Hs. induction H2 as [|a' b' l k Hab' H2 IH]; [constructor|].
  apply List.Forall_cons_iff in Hall as [Ha Hall].
  constructor; [eapply HT; eassumption|apply IH, Hall].
Qed.

(** a list in which no element repeats the image of an earlier one *)
Lemma NoDup_map_prefixes {B : Type} (f : A -> B) (l : list A) :
  (forall l1 x l2, l = l1 ++ x :: l2 -> f x ∉ map f l1) -> NoDup (map f l).
Proof.
  induction l as [|x l IH] using rev_ind; intros H; [constructor|].
  rewrite map_app. apply NoDup_app. split; [|split].
  - apply IH. intros l1 y l2 E. apply (H l1 y (l2 ++ [x])).
    rewrite E, <- app_assoc. reflexivity.
  - intros y Hy Hy'. cbn [map] in Hy'. apply list_elem_of_singleton in Hy'. subst y.
    exact (H l x [] eq_refl Hy).
  - cbn [map]. apply NoDup_singleton.
Qed.

End SortedSublists.

Lemma NoDup_fst_elem_eq {V : Type} (l : list (string * V)) (k : string) (v v' : V) :
  NoDup l.*1 -> (k, v) ∈ l -> (k, v') ∈ l -> v = v'.
Proof.
  intros Hnd H1 H2.
  pose proof (od_elem_get k v l Hnd H1) as E1.
  pose proof (od_elem_get k v' l Hnd H2) as E2.
  congruence.
Qed.

Section CollectFacts.
Import CommunityCache.
Variable self : CommunityCache.t.
Variables max_results max_communes : Z.

Local Abbreviation collect := (collect self max_results max_communes).

Lemma collect_length matches results seen :
  Z.of_nat (length (collect matches results seen)) <=
    Z.max (Z.of_nat (length results)) max_results.
Proof.
  revert results seen.
  induction matches as [|[[commune_id comm_id] score] matches IH];
    intros results seen; cbn [CommunityCache.collect]; [lia|].
  destruct (Z.geb_spec (Z.of_nat (length results)) max_results) as [Hge|Hlt]; [lia|].
  destruct (bool_decide _ && _); [apply IH|].
  destruct (default ∅ (_communities self !! commune_id) !! comm_id); [|apply IH].
  etransitivity; [apply IH|]. rewrite length_app. cbn [length]. lia.
Qed.

(** The results are built, in order, from some of the matches. *)
Lemma collect_kept matches results seen :
  exists kept rs,
    sublist kept matches /\ Forall2 (result_for self) kept rs /\
    collect matches results seen = results ++ rs.
Proof.
  revert results seen.
  induction matches as [|[[commune_id comm_id] score] matches IH];
    intros results seen; cbn [CommunityCache.collect].
  - exists [], []. rewrite app_nil_r. repeat constructor.
  - destruct (_ >=? _)%Z.
    { exists [], []. rewrite app_nil_r. split; [apply sublist_nil_l|].
      split; [constructor|reflexivity]. }
    assert (forall results' seen',
              exists kept rs,
                sublist kept ((commune_id, comm_id, score) :: matches) /\
                Forall2 (result_for self) kept rs /\
                collect matches results' seen' = results' ++ rs) as IH'.
    { intros results' seen'. destruct (IH results' seen') as (kept & rs & Hs & Hf & E).
      exists kept, rs. split; [apply sublist_cons, Hs|auto]. }
    destruct (bool_decide _ && _); [apply IH'|].
    destruct (default ∅ (_communities self !! commune_id) !! comm_id)
      as [community|] eqn:Hc; [|apply IH'].
    match goal with |- context [collect matches (results ++ [?r]) ?s] =>
      destruct (IH (results ++ [r]) s) as (kept & rs & Hs & Hf & E);
      exists ((commune_id, comm_id, score) :: kept), (r :: rs) end.
    split; [apply sublist_skip, Hs|]. split.
    + constructor; [|exact Hf]. split; [exact Hc|reflexivity].
    + rewrite E, <- app_assoc. reflexivity.
Qed.

(** A commune is repeated only while fewer than [max_communes] communes
    have been seen. *)
Lemma collect_communes matches results seen :
  stored_keys self ->
  seen = list_to_set (map result_commune results) ->
  (forall r1 r r2, results = r1 ++ r :: r2 ->
     result_commune r ∈ map result_commune r1 ->
     Z.of_nat (size (list_to_set (map result_commune r1) : gset string)) < max_communes) ->
  forall r1 r r2, collect matches results seen = r1 ++ r :: r2 ->
    result_commune r ∈ map result_commune r1 ->
    Z.of_nat (size (list_to_set (map result_commune r1) : gset string)) < max_communes.
Proof.
  intros Hkeys. revert results seen.
  induction matches as [|[[commune_id comm_id] score] matches IH];
    intros results seen Hseen Hres; cbn [CommunityCache.collect]; [exact Hres|].
  destruct (_ >=? _)%Z; [exact Hres|].
  destruct (bool_decide (commune_id ∈ seen) &&
            (Z.of_nat (size seen) >=? max_communes)%Z) eqn:Hskip;
    [apply IH; assumption|].
  destruct (default ∅ (_communities self !! commune_id) !! comm_id)
    as [community|] eqn:Hc; [|apply IH; assumption].
  destruct (Hkeys commune_id comm_id community Hc) as [Hcommune _].
  apply IH.
  - rewrite map_app. cbn [map]. rewrite list_to_set_snoc_L, <- Hseen.
    unfold result_commune at 1. cbn [res_community]. rewrite Hcommune.
    apply (comm_L (∪)).
  - intros r1 r r2 E Hin. destruct r2 as [|y r2 _] using rev_ind.
    + apply app_inj_tail in E as [-> <-].
      unfold result_commune at 1 in Hin. cbn [res_community] in Hin.
      rewrite Hcommune in Hin. rewrite <- Hseen.
      apply andb_false_iff in Hskip as [Hskip|Hskip].
      * apply bool_decide_eq_false in Hskip. exfalso. apply Hskip. rewrite Hseen.
        apply elem_of_list_to_set, list_elem_of_In. apply list_elem_of_In. exact Hin.
      * rewrite Z.geb_leb in Hskip. apply Z.leb_gt in Hskip. exact Hskip.
    + rewrite app_comm_cons, app_assoc in E. apply app_inj_tail in E as [-> _].
      eapply Hres; [reflexivity|exact Hin].
Qed.

(** A stored match whose commune has no result at all was cut off by
    [max_results]: a commune without a result is never skipped. *)
Lemma collect_new_commune matches results seen commune_id comm_id score :
  stored_keys self ->
  seen = list_to_set (map result_commune results) ->
  (commune_id, comm_id, score) ∈ matches ->
  is_Some (stored self commune_id comm_id) ->
  commune_id ∉ map result_commune (collect matches results seen) ->
  max_results <= Z.of_nat (length (collect matches results seen)).
Proof.
  intros Hkeys. revert results seen.
  induction matches as [|[[c0 i0] s0] matches IH];
    intros results seen Hseen Hin Hs; [inversion Hin|].
  cbn [CommunityCache.collect].
  destruct (Z.geb_spec (Z.of_nat (length results)) max_results) as [Hge|Hlt];
    [intros _; lia|].
  destruct (bool_decide (c0 ∈ seen) &&
            (Z.of_nat (size seen) >=? max_communes)%Z) eqn:Hskip.
  - apply elem_of_cons in Hin as [Heq|Hin]; [|apply IH; assumption].
    injection Heq as H1 H2 H3. subst c0 i0 s0. intros Hnot. exfalso. apply Hnot.
    apply andb_true_iff in Hskip as [Hc _]. apply bool_decide_eq_true in Hc.
    rewrite Hseen in Hc. apply elem_of_list_to_set in Hc.
    destruct (collect_kept matches results seen) as (kept & rs & _ & _ & E).
    rewrite E, map_app. apply elem_of_app. left. exact Hc.
  - destruct (default ∅ (_communities self !! c0) !! i0) as [community|] eqn:Hc.
    + destruct (Hkeys c0 i0 community Hc) as [Hcommune _].
      apply elem_of_cons in Hin as [Heq|Hin].
      * injection Heq as H1 H2 H3. subst c0 i0 s0. intros Hnot. exfalso. apply Hnot.
        match goal with |- context [collect matches (results ++ [?r]) ?s] =>
          destruct (collect_kept matches (results ++ [r]) s)
            as (kept & rs & _ & _ & E) end.
        rewrite E, !map_app. apply elem_of_app. left. apply elem_of_app. right.
        cbn [map]. unfold result_commune at 1. cbn [res_community].
        rewrite Hcommune. left.
      * apply IH; try assumption.
        rewrite map_app. cbn [map]. rewrite list_to_set_snoc_L, <- Hseen.
        unfold result_commune at 1. cbn [res_community]. rewrite Hcommune.
        apply (comm_L (∪)).
    + apply elem_of_cons in Hin as [Heq|Hin]; [|apply IH; assumption].
      injection Heq as H1 H2 H3. subst c0 i0 s0.
      unfold stored in Hs. rewrite Hc in Hs. destruct Hs as [x Hx]. discriminate.
Qed.

(** When every match is stored and fewer than [max_communes] communes can
    be seen, the loop takes the matches in order until [max_results]. *)
Lemma collect_all (communes : gset string) matches results seen :
  Z.of_nat (size communes) < max_communes ->
  seen ⊆ communes ->
  (forall m, m ∈ matches ->
     fst (fst m) ∈ communes /\ is_Some (stored self (fst (fst m)) (snd (fst m)))) ->
  exists rs,
    Forall2 (result_for self)
      (take (Z.to_nat (max_results - Z.of_nat (length results))) matches) rs /\
    collect matches results seen = results ++ rs.
Proof.
  intros Hsize. revert results seen.
  induction matches as [|[[commune_id comm_id] score] matches IH];
    intros results seen Hseen Hm; cbn [CommunityCache.collect].
  - exists []. rewrite take_nil, app_nil_r. split; [constructor|reflexivity].
  - destruct (Z.geb_spec (Z.of_nat (length results)) max_results) as [Hge|Hlt].
    { exists []. replace (Z.to_nat _) with 0%nat by lia.
      rewrite app_nil_r. split; [constructor|reflexivity]. }
    destruct (Hm (commune_id, comm_id, score)) as [Hc [community Hs]]; [left|].
    cbn [fst snd] in Hc, Hs.
    assert ((Z.of_nat (size seen) >=? max_communes)%Z = false) as ->.
    { rewrite Z.geb_leb. apply Z.leb_gt. pose proof (subseteq_size _ _ Hseen). lia. }
    rewrite andb_false_r. unfold stored in Hs. rewrite Hs.
    match goal with |- context [collect matches (results ++ [?r]) ?s] =>
      destruct (IH (results ++ [r]) s) as (rs & Hf & E); [| |exists (r :: rs)] end.
    + intros x Hx. apply elem_of_union in Hx as [Hx|Hx]; [|apply Hseen, Hx].
      apply elem_of_singleton in Hx. subst x. exact Hc.
    + intros m Hin. apply Hm. right. exact Hin.
    + rewrite length_app in Hf. cbn [length] in Hf.
      replace (Z.to_nat (max_results - Z.of_nat (length results)))
        with (S (Z.to_nat (max_results - Z.of_nat (length results + 1)))) by lia.
      cbn [take]. split.
      * constructor; [|exact Hf]. split; [exact Hs|reflexivity].
      * rewrite E, <- app_assoc. reflexivity.
Qed.

End CollectFacts.

Section RefreshFacts.
Import CommunityCache.
Variable rt : runtime.

Lemma stored_load_step commune_id self comm_id comm_data c i :
  stored (load_step rt commune_id self (comm_id, comm_data)) c i =
  if decide (c = commune_id /\ i = comm_id) then
    match community_of commune_id comm_id comm_data with
    | Some community => Some community
    | None => stored self c i
    end
  else stored self c i.
Proof.
  rewrite load_step_eq.
  destruct (community_of commune_id comm_id comm_data) as [community|];
    [|destruct (decide _); reflexivity].
  unfold stored. cbn [_communities].
  destruct (decide (c = commune_id)) as [->|Hc].
  - rewrite lookup_insert_eq. cbn [default from_option id].
    destruct (decide (i = comm_id)) as [->|Hi].
    + rewrite lookup_insert_eq. rewrite decide_True by auto. reflexivity.
    + rewrite lookup_insert_ne by congruence. rewrite decide_False by tauto.
      reflexivity.
  - rewrite lookup_insert_ne by congruence. rewrite decide_False by tauto. reflexivity.
Qed.

Lemma stored_load_steps_other commune_id (entries : list (string * json)) self c i :
  c <> commune_id \/ i ∉ od_keys entries ->
  stored (foldl (load_step rt commune_id) self entries) c i = stored self c i.
Proof.
  revert self. induction entries as [|[i0 cd] entries IH]; intros self Hci; [reflexivity|].
  cbn [foldl]. rewrite IH.
  - rewrite stored_load_step. apply decide_False. intros [-> ->].
    destruct Hci as [Hc|Hi]; [congruence|]. apply Hi. left.
  - destruct Hci as [Hc|Hi]; [left; exact Hc|right].
    intros Hin. apply Hi. right. exact Hin.
Qed.

Lemma stored_load_steps commune_id (entries : list (string * json)) self i comm_data :
  NoDup (od_keys entries) -> (i, comm_data) ∈ entries ->
  stored (foldl (load_step rt commune_id) self entries) commune_id i =
  match community_of commune_id i comm_data with
  | Some community => Some community
  | None => stored self commune_id i
  end.
Proof.
  revert self. induction entries as [|[i0 cd] entries IH]; intros self Hnd Hin;
    [inversion Hin|].
  unfold od_keys in Hnd. rewrite fmap_cons in Hnd. cbn [fst] in Hnd.
  apply NoDup_cons in Hnd as [Hi0 Hnd]. cbn [foldl].
  apply elem_of_cons in Hin as [[= <- <-]|Hin].
  - rewrite stored_load_steps_other by (right; exact Hi0).
    rewrite stored_load_step, decide_True by auto. reflexivity.
  - rewrite (IH _ Hnd Hin), stored_load_step.
    rewrite decide_False; [reflexivity|]. intros [_ ->]. apply Hi0.
    apply (list_elem_of_fmap_2 fst) in Hin. exact Hin.
Qed.

(** A stored community stays stored while a report file is read. *)
Lemma stored_load_steps_keep commune_id (entries : list (string * json)) self c i :
  is_Some (stored self c i) ->
  is_Some (stored (foldl (load_step rt commune_id) self entries) c i).
Proof.
  revert self. induction entries as [|[i0 cd] entries IH]; intros self Hs; [exact Hs|].
  cbn [foldl]. apply IH. rewrite stored_load_step.
  destruct (decide _); [|exact Hs]. destruct (community_of _ _ _); [eauto|exact Hs].
Qed.

Lemma stored_load_steps_Some commune_id (entries : list (string * json)) self i comm_data :
  (i, comm_data) ∈ entries -> is_Some (community_of commune_id i comm_data) ->
  is_Some (stored (foldl (load_step rt commune_id) self entries) commune_id i).
Proof.
  revert self. induction entries as [|[i0 cd] entries IH]; intros self Hin Hc;
    [inversion Hin|].
  cbn [foldl]. apply elem_of_cons in Hin as [[= <- <-]|Hin]; [|apply IH; assumption].
  apply stored_load_steps_keep. rewrite stored_load_step.
  rewrite decide_True by auto. destruct Hc as [x ->]. eauto.
Qed.

Lemma stored_reset self commune_id c i :
  stored (mk (<[commune_id := ∅]> (_communities self)) (_keyword_index self)) c i =
  if decide (c = commune_id) then None else stored self c i.
Proof.
  unfold stored. cbn [_communities]. destruct (decide (c = commune_id)) as [->|Hc].
  - rewrite lookup_insert_eq. cbn [default from_option id]. apply lookup_empty.
  - rewrite lookup_insert_ne by congruence. reflexivity.
Qed.

Lemma stored_load_commune_reports_other self item c i :
  c <> fst item -> stored (load_commune_reports rt self item) c i = stored self c i.
Proof.
  destruct item as [commune_id [| |data]]; cbn [fst load_commune_reports];
    try reflexivity.
  intros Hc. destruct (as_dict data) as [members|].
  - rewrite load_communities_eq, stored_load_steps_other by (left; exact Hc).
    rewrite stored_reset. apply decide_False. exact Hc.
  - rewrite stored_reset. apply decide_False. exact Hc.
Qed.

Lemma entries_read_NoDup data :
  NoDup (od_keys data) -> NoDup (od_keys (entries_read rt data)).
Proof.
  intros Hnd. eapply sublist_NoDup; [exact Hnd|].
  unfold od_keys. apply fmap_sublist, entries_read_sublist.
Qed.

(** What the loop over one report file stores: the communities of the
    entries read; a file that holds no dictionary stores nothing. *)
Lemma stored_load_commune_reports self commune_id data i :
  NoDup (od_keys data) ->
  stored (load_commune_reports rt self (commune_id, Parsed (JObject data))) commune_id i =
  od_get i (entries_read rt data) ≫= community_of commune_id i.
Proof.
  intros Hnd. apply entries_read_NoDup in Hnd.
  cbn [load_commune_reports as_dict]. rewrite load_communities_eq.
  destruct (od_get i (entries_read rt data)) as [cd|] eqn:Hget; cbn [mbind option_bind].
  - rewrite (stored_load_steps _ _ _ _ cd Hnd (od_get_elem _ _ _ Hget)).
    destruct (community_of commune_id i cd); [reflexivity|].
    rewrite stored_reset. apply decide_True. reflexivity.
  - apply od_get_None in Hget.
    rewrite stored_load_steps_other by (right; exact Hget).
    rewrite stored_reset. apply decide_True. reflexivity.
Qed.

Lemma stored_load_commune_reports_other_value self commune_id data i :
  as_dict data = None ->
  stored (load_commune_reports rt self (commune_id, Parsed data)) commune_id i = None.
Proof.
  intros Hd. cbn [load_commune_reports]. rewrite Hd, stored_reset.
  apply decide_True. reflexivity.
Qed.

Lemma stored_items_other items self c i :
  c ∉ items.*1 ->
  stored (foldl (load_commune_reports rt) self items) c i = stored self c i.
Proof.
  revert self. induction items as [|item items IH]; intros self Hc; [reflexivity|].
  rewrite fmap_cons in Hc. apply not_elem_of_cons in Hc as [Hne Hc].
  cbn [foldl]. rewrite IH by exact Hc. apply stored_load_commune_reports_other, Hne.
Qed.

Lemma stored_items items self commune_id data i :
  NoDup items.*1 -> (commune_id, Parsed (JObject data)) ∈ items -> NoDup (od_keys data) ->
  stored (foldl (load_commune_reports rt) self items) commune_id i =
  od_get i (entries_read rt data) ≫= community_of commune_id i.
Proof.
  revert self. induction items as [|item items IH]; intros self Hnd Hin Hk;
    [inversion Hin|].
  rewrite fmap_cons in Hnd. apply NoDup_cons in Hnd as [Hitem Hnd]. cbn [foldl].
  apply elem_of_cons in Hin as [<-|Hin]; [|apply IH; assumption].
  rewrite stored_items_other by exact Hitem. apply stored_load_commune_reports, Hk.
Qed.

Lemma stored_items_other_value items self commune_id data i :
  NoDup items.*1 -> (commune_id, Parsed data) ∈ items -> as_dict data = None ->
  stored (foldl (load_commune_reports rt) self items) commune_id i = None.
Proof.
  revert self. induction items as [|item items IH]; intros self Hnd Hin Hd;
    [inversion Hin|].
  rewrite fmap_cons in Hnd. apply NoDup_cons in Hnd as [Hitem Hnd]. cbn [foldl].
  apply elem_of_cons in Hin as [<-|Hin]; [|apply IH; assumption].
  rewrite stored_items_other by exact Hitem.
  apply stored_load_commune_reports_other_value, Hd.
Qed.

Lemma stored_items_Some items self commune_id data i comm_data :
  NoDup items.*1 -> (commune_id, Parsed (JObject data)) ∈ items ->
  (i, comm_data) ∈ entries_read rt data ->
  is_Some (community_of commune_id i comm_data) ->
  is_Some (stored (foldl (load_commune_reports rt) self items) commune_id i).
Proof.
  revert self. induction items as [|item items IH]; intros self Hnd Hin Hi Hc;
    [inversion Hin|].
  rewrite fmap_cons in Hnd. apply NoDup_cons in Hnd as [Hitem Hnd]. cbn [foldl].
  apply elem_of_cons in Hin as [<-|Hin]; [|apply IH; assumption].
  rewrite stored_items_other by exact Hitem. cbn [load_commune_reports as_dict].
  rewrite load_communities_eq.
  eapply stored_load_steps_Some; eassumption.
Qed.

(** *** Where stored communities come from *)

Lemma stored_from_init data_path : stored_from rt data_path __init__.
Proof.
  intros c i community Hs. unfold stored in Hs. cbn in Hs.
  rewrite lookup_empty in Hs. cbn in Hs. rewrite lookup_empty in Hs. discriminate.
Qed.

Lemma stored_from_reset data_path self commune_id :
  stored_from rt data_path self ->
  stored_from rt data_path
    (mk (<[commune_id := ∅]> (_communities self)) (_keyword_index self)).
Proof.
  intros Hinv c i community Hs. rewrite stored_reset in Hs.
  destruct (decide _); [discriminate|apply Hinv, Hs].
Qed.

Lemma load_commune_reports_from data_path self item :
  item ∈ data_path -> stored_from rt data_path self ->
  stored_from rt data_path (load_commune_reports rt self item).
Proof.
  intros Hitem Hinv. destruct item as [commune_id [| |data]];
    cbn [load_commune_reports]; try exact Hinv.
  destruct data as [|b|n|x|s|items|members]; cbn [as_dict];
    try (apply stored_from_reset, Hinv).
  rewrite load_communities_eq. apply foldl_invariant_elem.
  - intros a [i0 cd] Hb Ha c i community Hs. rewrite stored_load_step in Hs.
    destruct (decide _) as [[-> ->]|_]; [|apply Ha, Hs].
    destruct (community_of commune_id i0 cd) as [x|] eqn:Hx; [|apply Ha, Hs].
    injection Hs as <-. exists members, cd. auto.
  - apply stored_from_reset, Hinv.
Qed.

Lemma refresh_from data_path self :
  stored_from rt (discover data_path) (_refresh_cache rt data_path self).
Proof.
  unfold _refresh_cache. apply foldl_invariant_elem; [|apply stored_from_init].
  intros a b Hb Ha. apply load_commune_reports_from; assumption.
Qed.

Lemma refresh_stored_keys data_path self :
  stored_keys (_refresh_cache rt data_path self).
Proof.
  intros c i community Hs.
  destruct (refresh_from data_path self c i community Hs) as (data & cd & _ & _ & Hc).
  apply community_of_fields in Hc. tauto.
Qed.

(** *** The index after a refresh *)

Lemma refresh_index_stored data_path self keyword commune_id comm_id score :
  NoDup (discover data_path).*1 ->
  (commune_id, comm_id, score) ∈
    default [] (_keyword_index (_refresh_cache rt data_path self) !! keyword) ->
  is_Some (stored (_refresh_cache rt data_path self) commune_id comm_id).
Proof.
  intros Hnd Hin.
  apply refresh_indexed_discover in Hin
    as (data & cd & community & t & s & Hfile & Hcd & Hcomm & _).
  unfold _refresh_cache. eapply stored_items_Some; try eassumption.
  rewrite Hcomm. eauto.
Qed.

(** *** The accumulated scores *)

Lemma add_scores_NoDup entries scores :
  NoDup (od_keys scores) -> NoDup (od_keys (foldl add_score scores entries)).
Proof.
  revert scores. induction entries as [|[[c i] s] entries IH]; intros scores Hnd;
    [exact Hnd|].
  cbn [foldl]. apply IH. unfold add_score. apply od_keys_NoDup_set, Hnd.
Qed.

Lemma search_scores_NoDup self query_words :
  NoDup (od_keys (search_scores self query_words)).
Proof. rewrite search_scores_flat. apply add_scores_NoDup. constructor. Qed.

Lemma entry_sum_pos key entries :
  (forall e, e ∈ entries -> 0 < snd e) -> key ∈ map fst entries ->
  0 < entry_sum key entries.
Proof.
  unfold entry_sum. induction entries as [|e entries IH]; cbn [map foldr];
    intros Hpos Hin; [inversion Hin|].
  fold (entry_sum key entries).
  assert (0 <= entry_sum key entries) as Hnonneg.
  { clear IH Hin. induction entries as [|e' entries IH]; cbn [entry_sum foldr]; [lia|].
    fold (entry_sum key entries).
    assert (0 <= entry_sum key entries)
      by (apply IH; intros x Hx; apply Hpos;
          apply elem_of_cons in Hx as [->|Hx]; [left|right; right; exact Hx]).
    pose proof (Hpos e' ltac:(right; left)).
    destruct (decide (fst e' = key)); lia. }
  pose proof (Hpos e ltac:(left)) as He.
  destruct (decide (fst e = key)) as [Heq|Hne]; [unfold entry_sum in *; lia|].
  apply elem_of_cons in Hin as [Hin|Hin]; [congruence|].
  assert (0 < entry_sum key entries)
    by (apply IH; [intros x Hx; apply Hpos; right; exact Hx|exact Hin]).
  unfold entry_sum in *. lia.
Qed.

(** A match of a search: its key occurs in the index under a query word,
    and its score is the sum of the entries of its key. *)
Lemma search_scores_elem self query_words key score :
  (key, score) ∈ search_scores self query_words ->
  let entries :=
    flat_map (fun q => default [] (_keyword_index self !! q)) query_words in
  key ∈ map fst entries /\ score = entry_sum key entries /\
  od_get key (search_scores self query_words) = Some score.
Proof.
  intros Hin. cbv zeta.
  pose proof (od_elem_get _ _ _ (search_scores_NoDup self query_words) Hin) as Hget.
  split; [|split; [|exact Hget]]; rewrite search_scores_flat, add_scores_get in Hget;
    destruct (bool_decide_reflect
                (key ∈ map fst (flat_map (fun q => default [] (_keyword_index self !! q))
                                  query_words))) as [Hk|Hk];
    try discriminate; [exact Hk|].
  cbn [od_get default from_option id] in Hget. injection Hget as <-. lia.
Qed.

Lemma refresh_scores_pos data_path self query_words key score :
  (key, score) ∈ search_scores (_refresh_cache rt data_path self) query_words ->
  0 < score.
Proof.
  intros Hin. apply search_scores_elem in Hin as (Hk & -> & _).
  apply entry_sum_pos; [|exact Hk].
  intros [[c i] s] He. apply list_elem_of_In, in_flat_map in He as (q & _ & He).
  apply list_elem_of_In in He.
  apply refresh_indexed in He
    as (data & cd & community & t & su & _ & _ & _ & _ & _ & _ & _ & Hpos).
  exact Hpos.
Qed.

Lemma refresh_scores_stored data_path self query_words key score :
  NoDup (discover data_path).*1 ->
  (key, score) ∈ search_scores (_refresh_cache rt data_path self) query_words ->
  is_Some (stored (_refresh_cache rt data_path self) (fst key) (snd key)).
Proof.
  intros Hnd Hin. apply search_scores_elem in Hin as (Hk & _ & _).
  apply list_elem_of_In, in_map_iff in Hk as ([[c i] s] & <- & He).
  apply in_flat_map in He as (q & _ & He). apply list_elem_of_In in He.
  eapply refresh_index_stored; eassumption.
Qed.

(** *** The entries read *)

Lemma entries_read_all data :
  (forall item, item ∈ data -> entry_raises rt (snd item) = false) ->
  entries_read rt data = data.
Proof.
  induction data as [|item data IH]; intros Hno; [reflexivity|].
  cbn [entries_read]. rewrite (Hno item) by left. f_equal. apply IH.
  intros x Hx. apply Hno. right. exact Hx.
Qed.

Lemma entries_read_until pre item post :
  (forall x, x ∈ pre -> entry_raises rt (snd x) = false) ->
  entry_raises rt (snd item) = true ->
  entries_read rt (pre ++ item :: post) = pre ++ [item].
Proof.
  induction pre as [|x pre IH]; intros Hno Hr; cbn [app entries_read].
  - rewrite Hr. reflexivity.
  - rewrite (Hno x) by left. f_equal. apply IH; [|exact Hr].
    intros y Hy. apply Hno. right. exact Hy.
Qed.

End RefreshFacts.

Section SearchFacts.
Import CommunityCache.
Variable rt : runtime.

Lemma search_eq self query max_results max_communes :
  search rt self query max_results max_communes =
  collect self max_results max_communes (sorted_matches rt self query) [] ∅.
Proof.
  unfold search, sorted_matches.
  destruct (query_words rt query) as [|w ws]; reflexivity.
Qed.

Lemma search_scores_none self query_words :
  (forall w, w ∈ query_words -> _keyword_index self !! w = None) ->
  search_scores self query_words = [].
Proof.
  intros Hnone. rewrite search_scores_flat.
  assert (flat_map (fun q => default [] (_keyword_index self !! q)) query_words = [])
    as ->; [|reflexivity].
  induction query_words as [|q qs IH]; [reflexivity|]. cbn [flat_map].
  rewrite (Hnone q) by left. rewrite IH; [reflexivity|].
  intros w Hw. apply Hnone. right. exact Hw.
Qed.

Lemma sorted_matches_elem self query m :
  m ∈ sorted_matches rt self query ->
  m ∈ search_scores self (query_words rt query).
Proof.
  intros Hm. apply list_elem_of_In. apply list_elem_of_In in Hm.
  eapply Permutation_in; [apply py_sorted_desc_perm|exact Hm].
Qed.

Lemma sorted_matches_keys self query : NoDup (sorted_matches rt self query).*1.
Proof.
  unfold sorted_matches. rewrite py_sorted_desc_perm.
  apply (search_scores_NoDup self (query_words rt query)).
Qed.

Lemma Forall2_result_elem self kept rs r :
  Forall2 (result_for self) kept rs -> r ∈ rs ->
  exists m, m ∈ kept /\ result_for self m r.
Proof.
  induction 1 as [|m r' kept rs Hm H2 IH]; intros Hr; [inversion Hr|].
  apply elem_of_cons in Hr as [->|Hr].
  - exists m. split; [left|exact Hm].
  - destruct (IH Hr) as (m' & Hin & Hm'). exists m'. split; [right; exact Hin|exact Hm'].
Qed.

Lemma result_for_key self m r :
  stored_keys self -> result_for self m r -> result_key r = fst m.
Proof.
  intros Hkeys [Hs _]. destruct (Hkeys _ _ _ Hs) as [Hc Hi].
  unfold result_key. rewrite Hc, Hi. destruct m as [[c i] s]. reflexivity.
Qed.

Lemma Forall2_result_keys self kept rs :
  stored_keys self -> Forall2 (result_for self) kept rs ->
  map result_key rs = kept.*1.
Proof.
  intros Hkeys. induction 1 as [|m r kept rs Hm H2 IH]; [reflexivity|].
  cbn [map]. rewrite fmap_cons, IH, (result_for_key self m r Hkeys Hm). reflexivity.
Qed.

End SearchFacts.

(** X19. What [search] returns, for any cache and whatever the order in
    which the set of query words is enumerated: at most [max_results]
    results (none when [max_results] is zero or negative), in descending
    order of score; they are built, in order, from some of the matches of
    the query sorted by descending score, each being the community stored
    under the key of its match with the accumulated score of that key; and
    when no word of the query is a keyword of the index there are no
    results. *)
Theorem X19_search_result_shape (rt : runtime) (self : CommunityCache.t)
    (query : string) (max_results max_communes : Z) :
  let results := CommunityCache.search rt self query max_results max_communes in
  Z.of_nat (length results) <= Z.max 0 max_results /\
  StronglySorted (fun a b => res_score b <= res_score a) results /\
  (exists kept,
     sublist kept (sorted_matches rt self query) /\
     Forall2 (result_for self) kept results) /\
  ((forall w, w ∈ CommunityCache.query_words rt query ->
      CommunityCache._keyword_index self !! w = None) ->
   results = []).
Proof.
  cbv zeta. rewrite search_eq.
  pose proof (collect_length self max_results max_communes (sorted_matches rt self query)
                [] ∅) as Hlen.
  destruct (collect_kept self max_results max_communes (sorted_matches rt self query) [] ∅)
    as (kept & rs & Hsub & Hf & E).
  rewrite E in *. cbn [app length] in *. split; [exact Hlen|]. split; [|split].
  - eapply (StronglySorted_Forall2
              (fun a b : string * string * Z => (inject_Z (snd b) <= inject_Z (snd a))%Q));
      [|exact Hf|].
    + intros a a' b b' [_ Hb] [_ Hb'] HR. rewrite Hb, Hb', Zle_Qle. exact HR.
    + eapply StronglySorted_sublist; [exact Hsub|].
      apply (py_sorted_desc_sorted (fun m : string * string * Z => inject_Z (snd m))).
  - exists kept. split; assumption.
  - intros Hnone. unfold sorted_matches in Hsub.
    rewrite (search_scores_none self _ Hnone) in Hsub. cbn in Hsub.
    apply sublist_nil_r in Hsub. subst kept. inversion Hf. reflexivity.
Qed.

(** X20. What [search] returns on a cache that was loaded from files: every
    result is the community stored under the commune and community id it
    records, its score is the accumulated score of that key, which is
    positive, and no community is returned twice. *)
Theorem X20_search_loaded_cache (rt : runtime)
    (data_path : list (string * file json))
    (self : CommunityCache.t) (query : string) (max_results max_communes : Z) :
  let cache := CommunityCache._refresh_cache rt data_path self in
  let results := CommunityCache.search rt cache query max_results max_communes in
  (forall r, r ∈ results ->
     stored cache (Community.commune_id (res_community r))
       (Community.community_id (res_community r)) = Some (res_community r) /\
     od_get (result_key r)
       (CommunityCache.search_scores cache (CommunityCache.query_words rt query)) =
       Some (res_score r) /\
     0 < res_score r) /\
  NoDup (map result_key results).
Proof.
  cbv zeta. rewrite search_eq.
  set (cache := CommunityCache._refresh_cache rt data_path self).
  pose proof (refresh_stored_keys rt data_path self) as Hkeys. fold cache in Hkeys.
  destruct (collect_kept cache max_results max_communes (sorted_matches rt cache query) [] ∅)
    as (kept & rs & Hsub & Hf & E).
  rewrite E. cbn [app]. split.
  - intros r Hr. destruct (Forall2_result_elem cache kept rs r Hf Hr) as (m & Hm & Hres).
    pose proof (result_for_key cache m r Hkeys Hres) as Hkey.
    destruct Hres as [Hs Hscore]. destruct (Hkeys _ _ _ Hs) as [Hc Hi].
    split; [rewrite Hc, Hi; exact Hs|].
    pose proof (sorted_matches_elem rt cache query m (elem_of_sublist _ _ _ Hm Hsub)) as Hin.
    destruct m as [key score]. cbn [fst snd] in *. rewrite Hkey, Hscore. split.
    + destruct (search_scores_elem cache (CommunityCache.query_words rt query) key score Hin)
        as (_ & _ & Hget). exact Hget.
    + exact (refresh_scores_pos rt data_path self (CommunityCache.query_words rt query)
               key score Hin).
  - rewrite (Forall2_result_keys cache kept rs Hkeys Hf).
    apply (sublist_NoDup _ (sorted_matches rt cache query).*1);
      [apply sorted_matches_keys|].
    apply fmap_sublist. exact Hsub.
Qed.

(** X21. What [max_communes] does: [search] returns a further community of
    a commune that already has a result only while fewer than
    [max_communes] communes have results, so with [max_communes] at most 1
    no two results come from the same commune; a commune without a result
    is never skipped: when a stored match of the query belongs to a commune
    that has no result at all, the results are full ([max_results] of
    them). *)
Theorem X21_search_max_communes (rt : runtime)
    (data_path : list (string * file json))
    (self : CommunityCache.t) (query : string) (max_results max_communes : Z) :
  let cache := CommunityCache._refresh_cache rt data_path self in
  let results := CommunityCache.search rt cache query max_results max_communes in
  (forall r1 r r2, results = r1 ++ r :: r2 ->
     result_commune r ∈ map result_commune r1 ->
     Z.of_nat (size (list_to_set (map result_commune r1) : gset string)) <
       max_communes) /\
  (max_communes <= 1 -> NoDup (map result_commune results)) /\
  (forall commune_id comm_id score,
     (commune_id, comm_id, score) ∈ sorted_matches rt cache query ->
     is_Some (stored cache commune_id comm_id) ->
     commune_id ∉ map result_commune results ->
     max_results <= Z.of_nat (length results)).
Proof.
  cbv zeta. rewrite search_eq.
  set (cache := CommunityCache._refresh_cache rt data_path self).
  assert (forall r1 r r2,
            CommunityCache.collect cache max_results max_communes
              (sorted_matches rt cache query) [] ∅ = r1 ++ r :: r2 ->
            result_commune r ∈ map result_commune r1 ->
            Z.of_nat (size (list_to_set (map result_commune r1) : gset string)) <
              max_communes) as Hrep.
  { apply collect_communes.
    - apply refresh_stored_keys.
    - reflexivity.
    - intros r1 r r2 E. destruct r1; discriminate E. }
  split; [exact Hrep|]. split.
  - intros Hmax. apply NoDup_map_prefixes.
    intros l1 x l2 E Hin. pose proof (Hrep l1 x l2 E Hin) as Hsize.
    assert (size (list_to_set (map result_commune l1) : gset string) = 0%nat) as H0
      by lia.
    apply size_empty_inv in H0.
    apply (not_elem_of_empty (C := gset string) (result_commune x)).
    rewrite <- H0. apply elem_of_list_to_set. exact Hin.
  - intros commune_id comm_id score Hm Hs Hnot.
    eapply collect_new_commune; try eassumption; [|reflexivity].
    apply refresh_stored_keys.
Qed.

(** X22. When the commune directories have distinct names and fewer than
    [max_communes] communes match the query, [search] on the loaded cache
    returns exactly the best matches: the first [max_results] keys of the
    matches sorted by descending accumulated score, each with its stored
    community.  Matches with the same score come in the order in which
    their keys were first scored, which depends on the order in which the
    set of query words is enumerated. *)
Theorem X22_search_returns_best_matches (rt : runtime)
    (data_path : list (string * file json))
    (self : CommunityCache.t) (query : string) (max_results max_communes : Z) :
  let cache := CommunityCache._refresh_cache rt data_path self in
  NoDup data_path.*1 ->
  Z.of_nat (size (matched_communes rt cache query)) < max_communes ->
  Forall2 (result_for cache)
    (take (Z.to_nat max_results) (sorted_matches rt cache query))
    (CommunityCache.search rt cache query max_results max_communes).
Proof.
  cbv zeta. intros Hnd Hsize. rewrite search_eq.
  set (cache := CommunityCache._refresh_cache rt data_path self) in *.
  assert (NoDup (CommunityCache.discover data_path).*1) as Hnd'.
  { eapply sublist_NoDup; [exact Hnd|]. apply fmap_sublist.
    unfold CommunityCache.discover. apply sublist_filter. }
  destruct (collect_all cache max_results max_communes (matched_communes rt cache query)
              (sorted_matches rt cache query) [] ∅ Hsize) as (rs & Hf & E).
  - intros x Hx. apply not_elem_of_empty in Hx. contradiction.
  - intros [key score] Hm. apply sorted_matches_elem in Hm. cbn [fst snd]. split.
    + unfold matched_communes. apply elem_of_list_to_set.
      apply (list_elem_of_fmap_2 (fun m : string * string * Z => fst (fst m))) in Hm.
      exact Hm.
    + eapply refresh_scores_stored; eassumption.
  - rewrite E. cbn [app length Z.of_nat] in *. rewrite Z.sub_0_r in Hf. exact Hf.
Qed.

Lemma X22_search_returns_best_matches_witness :
  Forall2 (result_for eau_cache)
    (take 1 (sorted_matches insertion_order eau_cache "eau"))
    (CommunityCache.search insertion_order eau_cache "eau" 1 2) /\
  map result_key
    (CommunityCache.search insertion_order
       (CommunityCache._refresh_cache insertion_order tie_data_path CommunityCache.__init__)
       "chat chien" 1 2) = [("rochefort", "x")] /\
  map result_key
    (CommunityCache.search reverse_order
       (CommunityCache._refresh_cache reverse_order tie_data_path CommunityCache.__init__)
       "chat chien" 1 2) = [("rochefort", "y")].
Proof.
  split; [|split; vm_compute; reflexivity].
  apply (X22_search_returns_best_matches insertion_order eau_data_path
           CommunityCache.__init__ "eau" 1 2).
  - repeat constructor. intros H. inversion H.
  - vm_compute. reflexivity.
Defined.

(** X23. What a refresh stores.  When the commune directories have
    distinct names, the community found under a commune and a community id
    after [_refresh_cache] is the one built from the entry of that id in
    the report file of the commune (its title, summary, rating, nodes and
    chunk ids, as they are, with the two ids), provided the loop reads the
    entry and stores it: the entry and its report are dictionaries, the
    report is not empty, its rating is a number that is not below 4.0, and
    no earlier entry of the file raised.  The loop reads the entries up to
    the first one that raises; nothing is stored for a file that holds no
    dictionary.  Without any assumption, every stored community was built
    from an entry that was read, in a report file of a directory whose
    name does not start with a dot. *)
Theorem X23_refresh_stores_reports (rt : runtime)
    (data_path : list (string * file json))
    (self : CommunityCache.t) :
  let cache := CommunityCache._refresh_cache rt data_path self in
  (NoDup data_path.*1 ->
   forall commune_id data comm_id,
     (commune_id, Parsed data) ∈ data_path -> String.prefix "." commune_id = false ->
     match data with
     | JObject members =>
         NoDup (od_keys members) ->
         stored cache commune_id comm_id =
           od_get comm_id (entries_read rt members) ≫= community_of commune_id comm_id
     | _ => stored cache commune_id comm_id = None
     end) /\
  (forall members,
     (forall item, item ∈ members -> entry_raises rt (snd item) = false) ->
     entries_read rt members = members) /\
  (forall pre item post,
     (forall x, x ∈ pre -> entry_raises rt (snd x) = false) ->
     entry_raises rt (snd item) = true ->
     entries_read rt (pre ++ item :: post) = pre ++ [item]) /\
  (forall commune_id comm_id community,
     stored cache commune_id comm_id = Some community ->
     exists members comm_data,
       (commune_id, Parsed (JObject members)) ∈ data_path /\
       String.prefix "." commune_id = false /\
       (comm_id, comm_data) ∈ entries_read rt members /\
       community_of commune_id comm_id comm_data = Some community).
Proof.
  cbv zeta. split; [|split; [|split]].
  - intros Hnd commune_id data comm_id Hfile Hdot.
    assert (NoDup (CommunityCache.discover data_path).*1) as Hnd'.
    { eapply sublist_NoDup; [exact Hnd|]. apply fmap_sublist.
      unfold CommunityCache.discover. apply sublist_filter. }
    assert ((commune_id, Parsed data) ∈ CommunityCache.discover data_path) as Hin.
    { unfold CommunityCache.discover. apply list_elem_of_filter. split; [|exact Hfile].
      cbn [fst snd]. rewrite Hdot. reflexivity. }
    unfold CommunityCache._refresh_cache.
    destruct data as [|b|n|x|s|items|members];
      try (eapply stored_items_other_value; [exact Hnd'|exact Hin|reflexivity]).
    intros Hkeys. apply stored_items; assumption.
  - apply entries_read_all.
  - apply entries_read_until.
  - intros commune_id comm_id community Hs.
    destruct (refresh_from rt data_path self _ _ _ Hs) as (data & cd & Hfile & Hcd & Hc).
    unfold CommunityCache.discover in Hfile.
    apply list_elem_of_filter in Hfile as [Hvis Hfile]. cbn [fst snd] in Hvis.
    exists data, cd. split; [exact Hfile|]. split; [|auto].
    destruct (String.prefix "." commune_id); [discriminate Hvis|reflexivity].
Qed.

Lemma X23_refresh_stores_reports_witness :
  stored eau_cache "rochefort" "b" =
    Some (Community.mk "rochefort" "b" (JString "bateau") (JString "lac eau")
            (JFloat (Finite 5)) (JArray []) (JArray [])) /\
  stored eau_cache "rochefort" "z" = None /\
  stored odd_cache "rochefort" "a" =
    Some (Community.mk "rochefort" "a" (JString "eau") (JString "lac")
            (JFloat NaN) (JArray []) (JArray [])) /\
  stored odd_cache "rochefort" "c" = None.
Proof.
  destruct (X23_refresh_stores_reports insertion_order eau_data_path
              CommunityCache.__init__) as [Hstored _].
  destruct (X23_refresh_stores_reports insertion_order odd_reports_path
              CommunityCache.__init__) as [Hodd _].
  assert (NoDup eau_data_path.*1) as Hnd by (repeat constructor; intros H; inversion H).
  assert (NoDup odd_reports_path.*1) as Hnd' by (repeat constructor; intros H; inversion H).
  assert (forall a b c : json,
            NoDup (od_keys [("a", a); ("b", b); ("c", c)])) as Hkeys.
  { intros a b c.
    repeat constructor; intros H;
      repeat (apply elem_of_cons in H as [H|H]; [discriminate|]); inversion H. }
  unfold eau_cache, odd_cache. split; [|split; [|split]].
  - rewrite (Hstored Hnd "rochefort" _ "b" ltac:(left) eq_refl (Hkeys _ _ _)). reflexivity.
  - rewrite (Hstored Hnd "rochefort" _ "z" ltac:(left) eq_refl (Hkeys _ _ _)). reflexivity.
  - rewrite (Hodd Hnd' "rochefort" _ "a" ltac:(left) eq_refl (Hkeys _ _ _)). reflexivity.
  - rewrite (Hodd Hnd' "rochefort" _ "c" ltac:(left) eq_refl (Hkeys _ _ _)). reflexivity.
Defined.

Section SelectedCommunities.
Import CommunityCache.
Variable rt : runtime.

(** A result of a search on a loaded cache is stored under the ids it
    records, with a rating that passes the floor. *)
Lemma search_refreshed_stored data_path self query max_results max_communes r :
  r ∈ search rt (_refresh_cache rt data_path self) query max_results max_communes ->
  stored (_refresh_cache rt data_path self) (Community.commune_id (res_community r))
    (Community.community_id (res_community r)) = Some (res_community r) /\
  passes_floor (Community.rating (res_community r)).
Proof.
  intros Hr. split; [|eapply search_rated; [apply refresh_stored|exact Hr]].
  rewrite search_eq in Hr.
  destruct (collect_kept (_refresh_cache rt data_path self) max_results max_communes
              (sorted_matches rt (_refresh_cache rt data_path self) query) [] ∅)
    as (kept & rs & _ & Hf & E).
  rewrite E in Hr. cbn [app] in Hr.
  destruct (Forall2_result_elem _ kept rs r Hf Hr) as (m & _ & [Hs _]).
  destruct (refresh_stored_keys rt data_path self _ _ _ Hs) as [-> ->]. exact Hs.
Qed.

End SelectedCommunities.

Section KeywordIndex.
Import CommunityCache.
Variable rt : runtime.

Lemma accepted_list_elem data_path c i t s :
  (c, i, (t, s)) ∈ accepted_list rt data_path <->
  exists members comm_data,
    (c, Parsed (JObject members)) ∈ discover data_path /\
    (i, comm_data) ∈ entries_read rt members /\
    accepted comm_data = Some (t, s).
Proof.
  unfold accepted_list. rewrite list_elem_of_In, in_flat_map. split.
  - intros ([c' f] & Hitem & Hin). unfold accepted_of_file in Hin. cbn [fst snd] in Hin.
    destruct f as [| |data]; [inversion Hin|inversion Hin|].
    destruct data as [|b|n|x|s0|items|members]; try (inversion Hin; fail).
    apply list_elem_of_In, list_elem_of_omap in Hin as ([i' cd] & Hcd & Hacc).
    cbn [fst snd] in Hacc. destruct (accepted cd) as [ts|] eqn:Ha; [|discriminate].
    injection Hacc as -> -> ->. exists members, cd.
    split; [apply list_elem_of_In, Hitem|]. auto.
  - intros (members & cd & Hfile & Hcd & Ha). exists (c, Parsed (JObject members)).
    split; [apply list_elem_of_In, Hfile|]. apply list_elem_of_In.
    unfold accepted_of_file. cbn [fst snd]. apply list_elem_of_omap.
    exists (i, cd). split; [exact Hcd|]. cbn [fst snd]. rewrite Ha. reflexivity.
Qed.

Lemma entry_for_elem keyword c i t s e :
  e ∈ entry_for keyword (c, i, (t, s)) <->
  keyword ∈ word_set (str_lower (t +:+ " " +:+ s)) /\
  0 < title_score keyword t + summary_score keyword s /\
  e = (c, i, title_score keyword t + summary_score keyword s).
Proof.
  unfold entry_for.
  destruct (bool_decide_reflect (keyword ∈ word_set (str_lower (t +:+ " " +:+ s))))
    as [Hw|Hw]; cbn [andb].
  - destruct (Z.ltb_spec 0 (title_score keyword t + summary_score keyword s))
      as [Hpos|Hle].
    + rewrite list_elem_of_singleton. tauto.
    + split; [inversion 1|intros (_ & H & _); lia].
  - split; [inversion 1|tauto].
Qed.

Lemma findall_words_aux_length (s cur k : string) :
  k ∈ findall_words_aux cur s -> (3 <= String.length k)%nat.
Proof.
  assert (forall w, k ∈ emit_word w -> (3 <= String.length k)%nat) as Hemit.
  { intros w Hk. unfold emit_word in Hk.
    destruct (Nat.leb_spec 3 (String.length w)) as [Hlen|_]; [|inversion Hk].
    apply list_elem_of_singleton in Hk. subst k. exact Hlen. }
  revert cur. induction s as [|c s IH]; intros cur; cbn [findall_words_aux].
  - apply Hemit.
  - destruct (is_word_char c); [apply IH|].
    intros Hk. apply elem_of_app in Hk as [Hk|Hk]; [exact (Hemit _ Hk)|exact (IH _ Hk)].
Qed.

Lemma scores_of_word keyword t s :
  (keyword ∈ findall_words (str_lower t) -> title_score keyword t = 3) /\
  (keyword ∈ findall_words (str_lower s) -> summary_score keyword s = 1) /\
  (title_score keyword t = 0 \/ title_score keyword t = 3) /\
  (summary_score keyword s = 0 \/ summary_score keyword s = 1).
Proof.
  unfold title_score, summary_score. split; [|split; [|split]].
  - intros H. rewrite (findall_words_substring _ _ H). reflexivity.
  - intros H. rewrite (findall_words_substring _ _ H). reflexivity.
  - destruct (is_substring keyword (str_lower t)); auto.
  - destruct (is_substring keyword (str_lower s)); auto.
Qed.

End KeywordIndex.

(** X28. What a refresh indexes.  Every entry of the keyword index stands
    under a keyword of at least three characters that is not a stop word,
    for an entry of a report file that was read and stored and whose title
    and summary are strings, the keyword being a word of its lower-cased
    title or summary; its score is 3 when the keyword occurs in the
    lower-cased title plus 1 when it occurs in the lower-cased summary,
    hence 1, 3 or 4.  Conversely every word of the title or of the summary
    of such an entry that is not a stop word is a keyword under which the
    community is indexed, with a score of at least 3 for a word of the
    title: the check for a positive score never drops a keyword.  A stored
    entry whose title or summary is not a string is not indexed at all. *)
Theorem X28_keyword_index_entries (rt : runtime)
    (data_path : list (string * file json))
    (self : CommunityCache.t) :
  let cache := CommunityCache._refresh_cache rt data_path self in
  (forall keyword commune_id comm_id score,
     (commune_id, comm_id, score) ∈
       default [] (CommunityCache._keyword_index cache !! keyword) ->
     (keyword ∉ stop_words) /\ (3 <= String.length keyword)%nat /\
     exists members comm_data title summary,
       (commune_id, Parsed (JObject members)) ∈ data_path /\
       (comm_id, comm_data) ∈ entries_read rt members /\
       accepted comm_data = Some (title, summary) /\
       (keyword ∈ findall_words (str_lower title) \/
        keyword ∈ findall_words (str_lower summary)) /\
       score =
         CommunityCache.title_score keyword title +
         CommunityCache.summary_score keyword summary /\
       (score = 1 \/ score = 3 \/ score = 4)) /\
  (forall commune_id members comm_id comm_data title summary keyword,
     (commune_id, Parsed (JObject members)) ∈ data_path ->
     String.prefix "." commune_id = false ->
     (comm_id, comm_data) ∈ entries_read rt members ->
     accepted comm_data = Some (title, summary) ->
     keyword ∉ stop_words ->
     (keyword ∈ findall_words (str_lower title) \/
      keyword ∈ findall_words (str_lower summary)) ->
     (commune_id, comm_id,
      CommunityCache.title_score keyword title +
      CommunityCache.summary_score keyword summary) ∈
       default [] (CommunityCache._keyword_index cache !! keyword) /\
     (keyword ∈ findall_words (str_lower title) ->
      3 <= CommunityCache.title_score keyword title +
           CommunityCache.summary_score keyword summary)) /\
  (NoDup data_path.*1 ->
   forall commune_id members comm_id comm_data keyword score,
     (commune_id, Parsed (JObject members)) ∈ data_path ->
     NoDup (od_keys members) ->
     (comm_id, comm_data) ∈ members ->
     accepted comm_data = None ->
     (commune_id, comm_id, score) ∉
       default [] (CommunityCache._keyword_index cache !! keyword)).
Proof.
  cbv zeta. split; [|split].
  - intros keyword c i score Hin. rewrite refresh_lookup in Hin.
    apply list_elem_of_In, in_flat_map in Hin as ([[c' i'] [t s]] & Hacc & He).
    apply list_elem_of_In in Hacc, He.
    apply entry_for_elem in He as (Hw & Hpos & Heq). injection Heq as H1 H2 H3.
    subst c' i' score.
    apply word_set_elem in Hw as [Hw Hstop].
    apply accepted_list_elem in Hacc as (members & cd & Hfile & Hcd & Ha).
    split; [exact Hstop|]. split; [eapply findall_words_aux_length; exact Hw|].
    exists members, cd, t, s.
    unfold CommunityCache.discover in Hfile.
    apply list_elem_of_filter in Hfile as [_ Hfile].
    rewrite findall_words_title_summary in Hw. apply elem_of_app in Hw.
    split; [exact Hfile|]. split; [exact Hcd|]. split; [exact Ha|].
    split; [exact Hw|]. split; [reflexivity|].
    destruct (scores_of_word keyword t s) as (_ & _ & [Ht|Ht] & [Hs|Hs]);
      rewrite Ht, Hs in *; lia.
  - intros c members i cd t s keyword Hfile Hdot Hcd Ha Hstop Hw.
    destruct (scores_of_word keyword t s) as (Ht & Hs & Ht' & Hs').
    assert (0 < CommunityCache.title_score keyword t +
                CommunityCache.summary_score keyword s) as Hpos.
    { destruct Hw as [Hw|Hw]; [rewrite (Ht Hw)|rewrite (Hs Hw)]; lia. }
    split.
    + rewrite refresh_lookup. apply list_elem_of_In, in_flat_map.
      exists (c, i, (t, s)). split.
      * apply list_elem_of_In, accepted_list_elem. exists members, cd.
        split; [|split; [exact Hcd|exact Ha]].
        unfold CommunityCache.discover. apply list_elem_of_filter.
        split; [|exact Hfile]. cbn [fst snd]. rewrite Hdot. reflexivity.
      * apply list_elem_of_In, entry_for_elem. split; [|split; [exact Hpos|reflexivity]].
        apply word_set_elem. split; [|exact Hstop].
        rewrite findall_words_title_summary. apply elem_of_app. exact Hw.
    + intros Hw'. rewrite (Ht Hw'). lia.
  - intros Hnd c members i cd keyword score Hfile Hkeys Hcd Hnone Hin.
    rewrite refresh_lookup in Hin.
    apply list_elem_of_In, in_flat_map in Hin as ([[c' i'] [t s]] & Hacc & He).
    apply list_elem_of_In in Hacc, He.
    apply entry_for_elem in He as (_ & _ & Heq). injection Heq as H1 H2 H3.
    subst c' i' score.
    apply accepted_list_elem in Hacc as (members' & cd' & Hfile' & Hcd' & Ha).
    unfold CommunityCache.discover in Hfile'.
    apply list_elem_of_filter in Hfile' as [_ Hfile'].
    assert (Parsed (JObject members') = Parsed (JObject members)) as Heq.
    { eapply NoDup_fst_elem_eq; [exact Hnd|exact Hfile'|exact Hfile]. }
    injection Heq as ->.
    apply (entries_read_elem rt) in Hcd'.
    assert (cd' = cd) as -> by (eapply NoDup_fst_elem_eq; eassumption).
    congruence.
Qed.

(** * Retrieval helpers: what they return *)

Section SliceFacts.
Context {A : Type}.

Lemma py_slice_to_take (n : Z) (l : list A) : exists k, py_slice_to n l = take k l.
Proof. unfold py_slice_to. destruct (n <? 0)%Z; eauto. Qed.

Lemma py_slice_to_length (n : Z) (l : list A) :
  0 <= n -> Z.of_nat (length (py_slice_to n l)) = Z.min n (Z.of_nat (length l)).
Proof.
  intros Hn. unfold py_slice_to. destruct (Z.ltb_spec n 0) as [Hlt|_]; [lia|].
  rewrite length_take. lia.
Qed.

Lemma py_slice_to_all (n : Z) (l : list A) :
  Z.of_nat (length l) <= n -> py_slice_to n l = l.
Proof.
  intros Hn. unfold py_slice_to. destruct (Z.ltb_spec n 0) as [Hlt|_]; [lia|].
  apply take_ge. lia.
Qed.

Lemma StronglySorted_impl (R S : A -> A -> Prop) (l : list A) :
  (forall a b, R a b -> S a b) -> StronglySorted R l -> StronglySorted S l.
Proof.
  intros HRS. induction 1 as [|a l Hs IH Hall]; constructor; [exact IH|].
  eapply List.Forall_impl; [|exact Hall]. intros b. apply HRS.
Qed.

Lemma StronglySorted_app_le (R : A -> A -> Prop) (l1 l2 : list A) a b :
  StronglySorted R (l1 ++ l2) -> a ∈ l1 -> b ∈ l2 -> R a b.
Proof.
  induction l1 as [|x l1 IH]; intros Hs Ha Hb; [inversion Ha|].
  cbn [app] in Hs. apply StronglySorted_inv in Hs as [Hs Hall].
  apply elem_of_cons in Ha as [->|Ha]; [|apply IH; assumption].
  rewrite List.Forall_forall in Hall. apply Hall, list_elem_of_In, elem_of_app.
  right. exact Hb.
Qed.

End SliceFacts.

Section GlobalSearch.

Lemma score_entity_Some query_words entity_id metadata e :
  score_entity query_words (entity_id, metadata) = Some e ->
  se_id e = entity_id /\ se_score e = entity_score query_words metadata /\
  0 < se_score e.
Proof.
  unfold score_entity.
  destruct (Z.ltb_spec 0 (entity_score query_words metadata)) as [Hpos|_];
    [|discriminate].
  intros [= <-]. cbn. auto.
Qed.

Lemma scored_ids_NoDup query_words (items : list (string * EntityMetadata.t)) :
  NoDup items.*1 -> NoDup (map se_id (omap (score_entity query_words) items)).
Proof.
  induction items as [|[k md] items IH]; intros Hnd; [constructor|].
  rewrite fmap_cons in Hnd. cbn [fst] in Hnd. apply NoDup_cons in Hnd as [Hk Hnd].
  cbn [omap list_omap]. destruct (score_entity query_words (k, md)) as [e|] eqn:He;
    [|apply IH, Hnd].
  fold (omap (score_entity query_words) items). cbn [map].
  apply score_entity_Some in He as (Hid & _). rewrite Hid.
  apply NoDup_cons. split; [|apply IH, Hnd].
  intros Hin. apply list_elem_of_In, in_map_iff in Hin as (e' & He' & Hin).
  apply list_elem_of_In, list_elem_of_omap in Hin as ([k' md'] & Hin & Hs).
  apply score_entity_Some in Hs as (Hid' & _).
  apply Hk. apply list_elem_of_fmap. exists (k', md'). split; [|exact Hin].
  cbn [fst]. congruence.
Qed.

(** The score of an entity is the sum of the points of the query words,
    in whatever order they are taken. *)
Lemma entity_score_sum (metadata : EntityMetadata.t) (words : list string) (score : Z) :
  foldl (keyword_score (str_lower (EntityMetadata.name metadata))
           (str_lower (EntityMetadata.description metadata))) score words =
  score + foldr (fun w acc => keyword_points metadata w + acc) 0 words.
Proof.
  revert score. induction words as [|w words IH]; intros score; cbn [foldl foldr];
    [lia|].
  rewrite IH. unfold keyword_score, keyword_points.
  destruct (is_substring w (str_lower (EntityMetadata.name metadata)));
    destruct (is_substring w (str_lower (EntityMetadata.description metadata))); lia.
Qed.

Lemma points_sum_perm (metadata : EntityMetadata.t) (l l' : list string) :
  l ≡ₚ l' ->
  foldr (fun w acc => keyword_points metadata w + acc) 0 l =
  foldr (fun w acc => keyword_points metadata w + acc) 0 l'.
Proof.
  induction 1 as [|x l l' _ IH|x y l|l l' l'' _ IH1 _ IH2]; cbn [foldr]; lia.
Qed.

Lemma entity_score_order (rt : runtime) (metadata : EntityMetadata.t) (query : string) :
  entity_score (global_query_words rt query) metadata =
  foldr (fun w acc => keyword_points metadata w + acc) 0 (global_word_set query).
Proof.
  unfold entity_score, global_query_words. rewrite entity_score_sum.
  rewrite (points_sum_perm metadata _ _ (set_order_perm rt (global_word_set query))).
  lia.
Qed.

End GlobalSearch.

(** X25. What [search_entities_globally] returns, whatever the order in
    which the entities of the index and the set of query words are
    enumerated: the results are in descending order of score, no entity
    twice, at most [max_results] of them when [max_results] is not
    negative; each result is an entity of the index with its name, type,
    description and commune, and its score (5 per query word found in the
    lower-cased name, 1 per query word found in the lower-cased
    description) is positive; and an entity of the index with a positive
    score is returned unless [max_results] is smaller than the number of
    entities and every result scores at least as much. *)
Theorem X25_search_entities_globally (rt : runtime) (index : GraphIndex.t)
    (items : list (string * EntityMetadata.t)) (query : string) (max_results : Z) :
  items ≡ₚ map_to_list (GraphIndex._entities index) ->
  let query_words := global_query_words rt query in
  let results := search_entities_globally rt items query max_results in
  StronglySorted (fun a b => se_score b <= se_score a) results /\
  NoDup (map se_id results) /\
  (0 <= max_results -> Z.of_nat (length results) <= max_results) /\
  (forall r, r ∈ results ->
     exists metadata,
       GraphIndex.get_entity index (se_id r) = Some metadata /\
       score_entity query_words (se_id r, metadata) = Some r /\
       se_score r =
         foldr (fun w acc => keyword_points metadata w + acc) 0 (global_word_set query) /\
       0 < se_score r) /\
  (forall entity_id metadata,
     GraphIndex.get_entity index entity_id = Some metadata ->
     0 < foldr (fun w acc => keyword_points metadata w + acc) 0 (global_word_set query) ->
     entity_id ∈ map se_id results \/
     (max_results < Z.of_nat (length items) /\
      forall r, r ∈ results ->
        foldr (fun w acc => keyword_points metadata w + acc) 0 (global_word_set query) <=
        se_score r)).
Proof.
  intros Hitems. cbv zeta. unfold search_entities_globally.
  assert (forall md, entity_score (global_query_words rt query) md =
            foldr (fun w acc => keyword_points md w + acc) 0 (global_word_set query))
    as Hsum by (intros md; apply entity_score_order).
  destruct (global_query_words rt query) as [|w ws] eqn:Hq.
  { split; [constructor|]. split; [constructor|]. split; [cbn; lia|].
    split; [intros r Hr; inversion Hr|]. intros ? md _ Hpos.
    rewrite <- Hsum in Hpos. cbn in Hpos. lia. }
  remember (w :: ws) as query_words eqn:Hqw. clear Hqw Hq w ws.
  set (scored := omap (score_entity query_words) items).
  set (sorted := py_sorted_desc (fun e => inject_Z (se_score e)) scored).
  assert (StronglySorted (fun a b => se_score b <= se_score a) sorted) as Hsorted.
  { eapply StronglySorted_impl;
      [|apply (py_sorted_desc_sorted (fun e => inject_Z (se_score e)))].
    intros a b Hab. cbn beta in Hab. rewrite Zle_Qle. exact Hab. }
  assert (forall e, e ∈ sorted <-> e ∈ scored) as Hmem.
  { intros e. unfold sorted. rewrite py_sorted_desc_perm. reflexivity. }
  assert (NoDup (map se_id sorted)) as Hnd.
  { unfold sorted. rewrite py_sorted_desc_perm. apply scored_ids_NoDup.
    rewrite Hitems. apply NoDup_fst_map_to_list. }
  destruct (py_slice_to_take max_results sorted) as [n Hn].
  split; [|split; [|split; [|split]]].
  - rewrite Hn. eapply StronglySorted_sublist; [apply sublist_take|exact Hsorted].
  - rewrite Hn. eapply sublist_NoDup; [exact Hnd|].
    apply (fmap_sublist se_id), sublist_take.
  - intros Hmax. rewrite py_slice_to_length by exact Hmax. lia.
  - intros r Hr. rewrite Hn in Hr.
    pose proof (elem_of_sublist _ _ _ Hr (sublist_take _ _)) as Hr'.
    apply Hmem, list_elem_of_omap in Hr' as ([k md] & Hin & Hs).
    destruct (score_entity_Some _ _ _ _ Hs) as (Hid & Hscore & Hpos).
    exists md. rewrite Hid. split; [|split; [exact Hs|split; [|exact Hpos]]].
    + rewrite Hitems in Hin. apply elem_of_map_to_list in Hin. exact Hin.
    + rewrite Hscore. apply Hsum.
  - intros entity_id metadata Hget Hpos. rewrite <- Hsum in Hpos |- *.
    assert ((entity_id, metadata) ∈ items) as Hin
      by (rewrite Hitems; apply elem_of_map_to_list; exact Hget).
    assert (exists e, score_entity query_words (entity_id, metadata) = Some e)
      as [e He].
    { unfold score_entity. destruct (Z.ltb_spec 0 (entity_score query_words metadata));
        [eauto|lia]. }
    destruct (score_entity_Some _ _ _ _ He) as (Hid & Hscore & _).
    assert (e ∈ sorted) as Hes.
    { apply Hmem. apply list_elem_of_omap. exists (entity_id, metadata). auto. }
    destruct (Z.le_gt_cases (Z.of_nat (length items)) max_results) as [Hall|Hcut].
    + left. rewrite py_slice_to_all.
      * apply list_elem_of_In, in_map_iff. exists e. split; [exact Hid|].
        apply list_elem_of_In. exact Hes.
      * assert (length sorted <= length items)%nat; [|lia].
        unfold sorted. rewrite (Permutation_length (py_sorted_desc_perm _ _)).
        unfold scored. clear. induction items as [|x l IH]; [cbn; lia|].
        cbn [omap list_omap]. destruct (score_entity query_words x); cbn [length];
          fold (omap (score_entity query_words) l); lia.
    + rewrite Hn. rewrite <- (take_drop n sorted) in Hes, Hsorted.
      apply elem_of_app in Hes as [Hes|Hes].
      * left. apply list_elem_of_In, in_map_iff. exists e. split; [exact Hid|].
        apply list_elem_of_In. exact Hes.
      * right. split; [lia|]. intros r Hr. rewrite <- Hscore.
        apply (StronglySorted_app_le _ _ _ r e Hsorted Hr Hes).
Qed.

Lemma X25_search_entities_globally_witness :
  Z.of_nat (length (search_entities_globally reverse_order
                      (map_to_list (GraphIndex._entities sourced_index))
                      "des trains" 100)) <= 100 /\
  NoDup (map se_id (search_entities_globally reverse_order
                      (map_to_list (GraphIndex._entities sourced_index))
                      "des trains" 100)) /\
  search_entities_globally reverse_order
    (map_to_list (GraphIndex._entities sourced_index))
    (String "202"%char "tre") 100 = [].
Proof.
  destruct (X25_search_entities_globally reverse_order sourced_index
              (map_to_list (GraphIndex._entities sourced_index)) "des trains" 100)
    as (_ & Hnd & Hlen & _); [reflexivity|].
  split; [apply Hlen; lia|]. split; [exact Hnd|]. vm_compute. reflexivity.
Defined.

Section ExtractEntities.
Variable rt : runtime.

Lemma all_nodes_elem communities nodes node_id :
  all_nodes communities = Some nodes ->
  (node_id ∈ nodes <->
   exists comm comm_nodes,
     comm ∈ communities /\
     py_iter (Community.nodes (res_community comm)) = Some comm_nodes /\
     node_id ∈ comm_nodes).
Proof.
  revert nodes. induction communities as [|comm communities IH]; intros nodes;
    cbn [all_nodes].
  - intros [= <-]. split; [inversion 1|]. intros (c & cn & Hc & _). inversion Hc.
  - destruct (py_iter (Community.nodes (res_community comm))) as [cn|] eqn:Hcn;
      [|discriminate].
    destruct (all_nodes communities) as [nodes'|]; [|discriminate].
    intros [= <-]. rewrite elem_of_app, (IH nodes' eq_refl). split.
    + intros [Hin|(c & cn' & Hc & Hit & Hin)].
      * exists comm, cn. split; [left|]. auto.
      * exists c, cn'. split; [right; exact Hc|]. auto.
    + intros (c & cn' & Hc & Hit & Hin). apply elem_of_cons in Hc as [->|Hc].
      * left. congruence.
      * right. eauto.
Qed.

Lemma all_nodes_None communities :
  all_nodes communities = None <->
  exists comm, comm ∈ communities /\
    py_iter (Community.nodes (res_community comm)) = None.
Proof.
  induction communities as [|comm communities IH]; cbn [all_nodes].
  - split; [discriminate|]. intros (c & Hc & _). inversion Hc.
  - destruct (py_iter (Community.nodes (res_community comm))) as [cn|] eqn:Hcn.
    + destruct (all_nodes communities) as [nodes'|].
      * split; [discriminate|]. intros (c & Hc & Hn).
        apply elem_of_cons in Hc as [->|Hc]; [congruence|].
        destruct IH as [_ IH]. discriminate IH. eauto.
      * split; [|reflexivity]. intros _. destruct IH as [IH _].
        destruct (IH eq_refl) as (c & Hc & Hn). exists c. split; [right; exact Hc|exact Hn].
    + split; [|reflexivity]. intros _. exists comm. split; [left|exact Hcn].
Qed.

Lemma entity_set_elem nodes s :
  s ∈ entity_set rt nodes <->
  s <> EmptyString /\ exists node_id, node_id ∈ nodes /\ s = clean_node_id rt node_id.
Proof.
  unfold entity_set. rewrite elem_of_remove_dups, list_elem_of_filter.
  rewrite list_elem_of_In, in_map_iff. split.
  - intros [Hne (node_id & <- & Hin)]. split.
    + intros E. rewrite E in Hne. discriminate.
    + exists node_id. rewrite list_elem_of_In. auto.
  - intros [Hne (node_id & Hn & ->)]. split.
    + destruct (clean_node_id rt node_id); [contradiction|reflexivity].
    + exists node_id. split; [reflexivity|]. apply list_elem_of_In. exact Hn.
Qed.

End ExtractEntities.

(** X26. The seed entities [extract_entities_from_communities] returns,
    whatever the order in which the set is enumerated: at most 100, no id
    twice, each one the non-empty cleaned form ([str], surrounding
    whitespace removed, then surrounding double quotes removed) of a node
    of one of the communities; when there are at most 100 such ids all of
    them are returned.  The call raises exactly when the nodes of one of
    the communities are a value that cannot be iterated.  Applied to the
    communities that [select_communities_by_keywords] picks from a loaded
    cache, which are at most 15, every seed comes from a node of a
    community stored in the cache, whose rating passed the test of the
    loader (a number at least 4.0, infinity or NaN). *)
Theorem X26_extract_entities_from_communities (rt : runtime)
    (communities : list result_t)
    (data_path : list (string * file json))
    (self : CommunityCache.t) (query : string) (max_communes : Z) :
  let cache := CommunityCache._refresh_cache rt data_path self in
  let selected := select_communities_by_keywords rt cache query max_communes in
  (forall seeds nodes,
     extract_entities_from_communities rt communities = Some seeds ->
     all_nodes communities = Some nodes ->
     (length seeds <= 100)%nat /\
     NoDup seeds /\
     (forall s, s ∈ seeds ->
        s <> EmptyString /\
        exists comm comm_nodes node_id,
          comm ∈ communities /\
          py_iter (Community.nodes (res_community comm)) = Some comm_nodes /\
          node_id ∈ comm_nodes /\ s = clean_node_id rt node_id) /\
     ((length (entity_set rt nodes) <= 100)%nat ->
      forall comm comm_nodes node_id,
        comm ∈ communities ->
        py_iter (Community.nodes (res_community comm)) = Some comm_nodes ->
        node_id ∈ comm_nodes ->
        clean_node_id rt node_id <> EmptyString -> clean_node_id rt node_id ∈ seeds)) /\
  (extract_entities_from_communities rt communities = None <->
   exists comm, comm ∈ communities /\
     py_iter (Community.nodes (res_community comm)) = None) /\
  (length selected <= 15)%nat /\
  (forall seeds s,
     extract_entities_from_communities rt selected = Some seeds -> s ∈ seeds ->
     exists community comm_nodes node_id,
       stored cache (Community.commune_id community) (Community.community_id community) =
         Some community /\
       passes_floor (Community.rating community) /\
       py_iter (Community.nodes community) = Some comm_nodes /\
       node_id ∈ comm_nodes /\ s = clean_node_id rt node_id).
Proof.
  cbv zeta.
  assert (forall cs seeds nodes s,
            extract_entities_from_communities rt cs = Some seeds ->
            all_nodes cs = Some nodes -> s ∈ seeds -> s ∈ entity_set rt nodes) as Htake.
  { intros cs seeds nodes s He Hn Hs. unfold extract_entities_from_communities in He.
    rewrite Hn in He. injection He as <-.
    rewrite <- (set_order_perm rt (entity_set rt nodes)).
    exact (elem_of_sublist _ _ _ Hs (sublist_take _ _)). }
  split; [|split; [|split]].
  - intros seeds nodes He Hn.
    assert (forall s, s ∈ seeds -> s ∈ entity_set rt nodes) as Hsub
      by (intros s; apply (Htake communities); assumption).
    unfold extract_entities_from_communities in He. rewrite Hn in He.
    injection He as <-.
    split; [apply firstn_le_length|]. split; [|split].
    + eapply sublist_NoDup; [|apply sublist_take]. rewrite (set_order_perm rt).
      unfold entity_set. apply NoDup_remove_dups.
    + intros s Hs. apply Hsub, entity_set_elem in Hs as (Hne & node_id & Hin & ->).
      split; [exact Hne|].
      apply (all_nodes_elem _ _ _ Hn) in Hin as (comm & cn & Hc & Hit & Hin).
      exists comm, cn, node_id. auto.
    + intros Hlen comm cn node_id Hc Hit Hin Hne. rewrite take_ge.
      * rewrite (set_order_perm rt). apply entity_set_elem. split; [exact Hne|].
        exists node_id. split; [|reflexivity].
        apply (all_nodes_elem _ _ _ Hn). eauto.
      * rewrite (Permutation_length (set_order_perm rt _)). exact Hlen.
  - unfold extract_entities_from_communities. rewrite <- all_nodes_None.
    destruct (all_nodes communities); split; (discriminate || reflexivity || eauto).
  - unfold select_communities_by_keywords. rewrite search_eq.
    match goal with |- (length (CommunityCache.collect ?c ?mr ?mc ?m [] ∅) <= _)%nat =>
      pose proof (collect_length c mr mc m [] ∅) as Hlen end.
    cbn [length] in Hlen. lia.
  - intros seeds s He Hs.
    destruct (all_nodes (select_communities_by_keywords rt
                (CommunityCache._refresh_cache rt data_path self) query max_communes))
      as [nodes|] eqn:Hn;
      [|unfold extract_entities_from_communities in He; rewrite Hn in He; discriminate].
    pose proof (Htake _ _ _ _ He Hn Hs) as Hin.
    apply entity_set_elem in Hin as (_ & node_id & Hin & ->).
    apply (all_nodes_elem _ _ _ Hn) in Hin as (comm & cn & Hc & Hit & Hin).
    unfold select_communities_by_keywords in Hc.
    apply search_refreshed_stored in Hc as [Hstored Hrating].
    exists (res_community comm), cn, node_id. auto.
Qed.

(** The seeds of the community with a node list: the quoted and the padded
    spelling of EAU give one seed, the number 7 is taken by its decimal
    form and the empty quoted string is dropped. *)
Example extract_entities_of_noded_cache :
  extract_entities_from_communities insertion_order
    (select_communities_by_keywords insertion_order noded_cache "eau" 50) =
  Some ["EAU"; "7"].
Proof. vm_compute. reflexivity. Qed.

Section ChunkRequests.

Lemma requested_for_cons commune chunk_id c reqs :
  requested_for commune ((chunk_id, c) :: reqs) =
  if decide (c = commune) then chunk_id :: requested_for commune reqs
  else requested_for commune reqs.
Proof.
  unfold requested_for. destruct (decide (c = commune)) as [Heq|Hne].
  - rewrite filter_cons_True by exact Heq. reflexivity.
  - rewrite filter_cons_False by exact Hne. reflexivity.
Qed.

Lemma group_requests_get reqs acc commune :
  od_get_default commune [] (foldl group_request acc reqs) =
  od_get_default commune [] acc ++
  (if str_nonempty commune then requested_for commune reqs else []).
Proof.
  revert acc. induction reqs as [|[chunk_id c] reqs IH]; intros acc.
  - cbn [foldl]. unfold requested_for. rewrite filter_nil.
    destruct (str_nonempty commune); rewrite app_nil_r; reflexivity.
  - cbn [foldl]. rewrite IH, requested_for_cons. unfold group_request.
    destruct (str_nonempty c) eqn:Hc.
    + unfold od_get_default at 1. destruct (decide (c = commune)) as [->|Hne].
      * rewrite od_get_set_eq, Hc. cbn [default from_option id].
        rewrite <- app_assoc. reflexivity.
      * rewrite od_get_set_ne by exact Hne. reflexivity.
    + destruct (decide (c = commune)) as [->|Hne]; [|reflexivity].
      rewrite Hc. reflexivity.
Qed.

Lemma group_requests_keys reqs acc :
  NoDup (od_keys acc) ->
  (forall c, c ∈ od_keys acc -> str_nonempty c = true) ->
  NoDup (od_keys (foldl group_request acc reqs)) /\
  (forall c, c ∈ od_keys (foldl group_request acc reqs) -> str_nonempty c = true).
Proof.
  revert acc. induction reqs as [|[chunk_id c] reqs IH]; intros acc Hnd Hne; [auto|].
  cbn [foldl]. apply IH; unfold group_request; destruct (str_nonempty c) eqn:Hc;
    try assumption.
  - apply od_keys_NoDup_set, Hnd.
  - intros c' Hc'. rewrite od_keys_set in Hc'. destruct (od_mem c acc); [auto|].
    apply elem_of_app in Hc' as [Hc'|Hc']; [auto|].
    apply list_elem_of_singleton in Hc'. subst c'. exact Hc.
Qed.

(** The tasks: one per non-empty commune, with the chunk ids requested for
    it in request order. *)
Lemma group_requests_elem reqs commune chunk_ids :
  (commune, chunk_ids) ∈ foldl group_request [] reqs ->
  str_nonempty commune = true /\ chunk_ids = requested_for commune reqs.
Proof.
  intros Hin.
  destruct (group_requests_keys reqs []) as [Hnd Hne];
    [constructor|intros c Hc; inversion Hc|].
  assert (str_nonempty commune = true) as Hc.
  { apply Hne. apply (list_elem_of_fmap_2 fst) in Hin. exact Hin. }
  split; [exact Hc|].
  pose proof (group_requests_get reqs [] commune) as Hget.
  unfold od_get_default at 1 in Hget. rewrite (od_elem_get _ _ _ Hnd Hin), Hc in Hget.
  exact Hget.
Qed.

Lemma group_requests_task reqs commune chunk_id :
  (chunk_id, commune) ∈ reqs -> str_nonempty commune = true ->
  (commune, requested_for commune reqs) ∈ foldl group_request [] reqs.
Proof.
  intros Hin Hc. pose proof (group_requests_get reqs [] commune) as Hget.
  rewrite Hc in Hget. unfold od_get_default in Hget.
  cbn [od_get default from_option id app] in Hget.
  destruct (od_get commune (foldl group_request [] reqs)) as [ids|] eqn:Hids.
  - cbn [default from_option id] in Hget. subst ids. apply od_get_elem, Hids.
  - cbn [default from_option id] in Hget. exfalso.
    assert (chunk_id ∈ requested_for commune reqs) as Hreq.
    { unfold requested_for. apply (list_elem_of_fmap_2 fst _ (chunk_id, commune)).
      apply list_elem_of_filter. split; [reflexivity|exact Hin]. }
    rewrite <- Hget in Hreq. inversion Hreq.
Qed.

Lemma load_commune_chunks_elem data_path max_chunks commune_id chunk_ids q :
  q ∈ load_commune_chunks data_path max_chunks commune_id chunk_ids ->
  cq_commune q = commune_id /\ cq_id q ∈ chunk_ids /\
  exists commune_path text_chunks chunk_data,
    get_commune_path data_path commune_id = Some commune_path /\
    chunks_file commune_path = Parsed text_chunks /\
    od_get (cq_id q) text_chunks = Some chunk_data /\
    cq_content q = str_take 500 (default EmptyString (ci_content chunk_data)).
Proof.
  unfold load_commune_chunks.
  destruct (get_commune_path data_path commune_id) as [dir|]; [|inversion 1].
  destruct (chunks_file dir) as [| |text_chunks] eqn:Hfile; [inversion 1|inversion 1|].
  intros Hq. apply list_elem_of_omap in Hq as (chunk_id & Hin & Hq).
  unfold load_chunk_quote in Hq.
  destruct (od_get chunk_id text_chunks) as [chunk_data|] eqn:Hget; [|discriminate].
  injection Hq as <-. cbn [cq_commune cq_id cq_content].
  split; [reflexivity|]. split.
  - destruct (py_slice_to_take max_chunks chunk_ids) as [n Hn]. rewrite Hn in Hin.
    exact (elem_of_sublist _ _ _ Hin (sublist_take _ _)).
  - exists dir, text_chunks, chunk_data.
    split; [reflexivity|]. split; [exact Hfile|]. split; [exact Hget|reflexivity].
Qed.

Lemma load_commune_chunks_length data_path max_chunks commune_id chunk_ids :
  0 <= max_chunks ->
  Z.of_nat (length (load_commune_chunks data_path max_chunks commune_id chunk_ids)) <=
    max_chunks.
Proof.
  intros Hmax. unfold load_commune_chunks.
  destruct (get_commune_path data_path commune_id) as [dir|]; [|cbn; lia].
  destruct (chunks_file dir) as [| |text_chunks]; [cbn; lia|cbn; lia|].
  pose proof (py_slice_to_length max_chunks chunk_ids Hmax) as Hlen.
  assert (forall l : list string,
            (length (omap (load_chunk_quote text_chunks commune_id) l) <= length l)%nat)
    as Homap.
  { induction l as [|x l IH]; [cbn; lia|]. cbn [omap list_omap].
    destruct (load_chunk_quote text_chunks commune_id x); cbn [length];
      fold (omap (load_chunk_quote text_chunks commune_id) l); lia. }
  specialize (Homap (py_slice_to max_chunks chunk_ids)). lia.
Qed.

(** the quotes of one commune come from at most one task *)
Lemma commune_quotes_length (f : string * list string -> list chunk_quote)
    (tasks : odict string (list string)) (commune : string) (m : Z) :
  NoDup (od_keys tasks) -> 0 <= m ->
  (forall task, Z.of_nat (length (f task)) <= m) ->
  (forall task q, q ∈ f task -> cq_commune q = fst task) ->
  Z.of_nat (length (filter (fun q => cq_commune q = commune) (flat_map f tasks))) <= m.
Proof.
  intros Hnd Hm Hlen Hcommune.
  induction tasks as [|task tasks IH]; [cbn; lia|].
  unfold od_keys in Hnd. rewrite fmap_cons in Hnd. apply NoDup_cons in Hnd as [Hk Hnd].
  cbn [flat_map]. rewrite filter_app, length_app.
  destruct (decide (fst task = commune)) as [Heq|Hne].
  - assert (filter (fun q => cq_commune q = commune) (flat_map f tasks) = []) as ->.
    { apply filter_none. intros q Hq Hc. apply Hk.
      apply list_elem_of_In, in_flat_map in Hq as (task' & Hin & Hq).
      apply list_elem_of_In in Hin, Hq. rewrite Heq, <- Hc, (Hcommune task' q Hq).
      apply (list_elem_of_fmap_2 fst) in Hin. exact Hin. }
    pose proof (length_filter (fun q => cq_commune q = commune) (f task)).
    specialize (Hlen task). cbn [length]. lia.
  - assert (filter (fun q => cq_commune q = commune) (f task) = []) as ->.
    { apply filter_none. intros q Hq Hc. apply Hne. rewrite <- Hc.
      symmetry. apply Hcommune, Hq. }
    specialize (IH Hnd). cbn [length]. lia.
Qed.

End ChunkRequests.

